(** * Variational implicit process layers: a shallow embedding of [src/layers.py]

    The three layer classes [VIPLayer], [VIPLayerInducing] and [SparseGP] are
    embedded as records (the attributes an instance carries) and functions
    (the methods).  Conventions:

    - tensors are nested lists of real numbers, indexed from 0; [float64]
      arithmetic is idealised as arithmetic over [R].  Where the floating
      point result leaves the reals (a division by zero, the logarithm of
      zero) the embedding returns the outcome [NonFinite];
    - a method that mutates [self] returns the new instance together with
      its outcome; Python exceptions are values of [exn];
    - tensors handed over by collaborators (the generative function, the
      mean function) are trusted to honour their shape contract, which the
      theorems state as hypotheses. *)

From Stdlib Require Import String.
From Stdlib Require Import Reals Lra Lia List Arith ZArith Bool FinFun.
Import ListNotations.
Open Scope R_scope.

Set Implicit Arguments.

(** ** Outcomes of a method call *)

Inductive exn : Type :=
| AttributeError (attr : string)
| RuntimeError (msg : string)
| LinAlgError.

(** [Ok a]: the call returned [a]; [Raise e]: it raised [e]; [NonFinite]: it
    returned, but what it returned is not made of real numbers. *)
Inductive result (A : Type) : Type :=
| Ok (a : A)
| Raise (e : exn)
| NonFinite.

Arguments Ok {A} a.
Arguments Raise {A} e.
Arguments NonFinite {A}.

(** ** Tensors *)

Abbreviation tensor1 := (list R) (only parsing).
Abbreviation tensor2 := (list (list R)) (only parsing).
Abbreviation tensor3 := (list (list (list R))) (only parsing).

Definition tab {A : Type} (n : nat) (f : nat -> A) : list A := map f (seq 0 n).

Definition get1 (v : tensor1) (i : nat) : R := nth i v 0.
Definition get2 (m : tensor2) (i j : nat) : R := get1 (nth i m []) j.
Definition get3 (t : tensor3) (i j k : nat) : R := get2 (nth i t []) j k.

Definition dim0 {A : Type} (t : list A) : nat := length t.
Definition dim1 {A : Type} (t : list (list A)) : nat := length (hd [] t).
Definition dim2 {A : Type} (t : list (list (list A))) : nat := dim1 (hd [] t).

(** [shape2 m r c]: [m] is an r-by-c array; [shape3] likewise. *)
Definition shape1 (v : tensor1) (n : nat) : Prop := length v = n.
Definition shape2 (m : tensor2) (r c : nat) : Prop :=
  length m = r /\ Forall (fun row => shape1 row c) m.
Definition shape3 (t : tensor3) (a b c : nat) : Prop :=
  length t = a /\ Forall (fun m => shape2 m b c) t.

(** The shape as the array library reports it ([t.shape]). *)
Definition shape_of2 (m : tensor2) : nat * nat := (dim0 m, dim1 m).

(** A tensor of rank 1 or 2, for a value whose rank depends on a size.
    [rows] reads it as a matrix, a vector being its single row; where a
    statement speaks of the rows, the shape or the entries of such a value,
    it is read through this coercion. *)
Inductive tensor12 : Type :=
| Vec (v : tensor1)
| Mat (m : tensor2).

Definition rows (p : tensor12) : tensor2 :=
  match p with
  | Vec v => [v]
  | Mat m => m
  end.

Coercion rows : tensor12 >-> list.

(** Broadcasting: an axis of size 1 is read at index 0 whatever the index,
    and two sizes combine to the one that is not 1. *)
Definition bidx (size i : nat) : nat := if (size =? 1)%nat then 0%nat else i.
Definition bdim (a b : nat) : nat := if (a =? 1)%nat then b else a.

Definition bget1 (v : tensor1) (i : nat) : R := get1 v (bidx (dim0 v) i).
Definition bget2 (m : tensor2) (i j : nat) : R :=
  get2 m (bidx (dim0 m) i) (bidx (dim1 m) j).
Definition bget3 (t : tensor3) (i j k : nat) : R :=
  get3 t (bidx (dim0 t) i) (bidx (dim1 t) j) (bidx (dim2 t) k).

(** Finite sums. *)
Fixpoint Rsum (n : nat) (f : nat -> R) : R :=
  match n with
  | O => 0
  | S k => Rsum k f + f k
  end.

(** A trainable tensor: [torch.nn.Parameter]. *)
Record Param (T : Type) : Type := mkParam {
  data : T;
  requires_grad : bool
}.

Definition new_Param {T : Type} (x : T) : Param T := mkParam x true.
Definition set_requires_grad {T : Type} (p : Param T) (b : bool) : Param T :=
  mkParam (data p) b.

(** ** The array library, as far as the layers use it *)

Module np.

Definition ones2 (r c : nat) : tensor2 := tab r (fun _ => tab c (fun _ => 1)).
Definition ones1 (n : nat) : tensor1 := tab n (fun _ => 1).
Definition eye (n : nat) : tensor2 :=
  tab n (fun i => tab n (fun j => if (i =? j)%nat then 1 else 0)).
Definition scale1 (v : tensor1) (c : R) : tensor1 := map (fun x => x * c) v.
Definition scale2 (m : tensor2) (c : R) : tensor2 := map (fun row => scale1 row c) m.

(** [np.tile(q[:, :, None], [1, 1, d])]: every entry repeated [d] times
    along a new last axis. *)
Definition tile_last (q : tensor2) (d : nat) : tensor3 :=
  map (fun row => map (fun x => tab d (fun _ => x)) row) q.

(** [q[li, lj]] for the index tensors [li, lj] that [torch.tril_indices]
    returns: the vectors [q[li[k], lj[k], :]], one row per index pair.  With
    a single pair the one-element index tensors are read as integers, and
    the result is the vector [q[li[0], lj[0], :]] itself, of rank 1. *)
Definition take_pairs (q : tensor3) (idx : list (nat * nat)) : tensor12 :=
  match idx with
  | [p] => Vec (nth (snd p) (nth (fst p) q []) [])
  | _ => Mat (map (fun p => nth (snd p) (nth (fst p) q []) []) idx)
  end.

Definition arange (lo hi : nat) : list nat := seq lo (hi - lo).

Fixpoint cumsum_from (acc : nat) (l : list nat) : list nat :=
  match l with
  | [] => []
  | x :: r => (acc + x)%nat :: cumsum_from (acc + x) r
  end.
Definition cumsum (l : list nat) : list nat := cumsum_from 0 l.

End np.

Module torch.

(** [torch.tril_indices(n, n)]: the (row, column) pairs of the lower
    triangle, row by row. *)
Definition tril_indices (n : nat) : list (nat * nat) :=
  flat_map (fun r => map (fun c => (r, c)) (seq 0 (S r))) (seq 0 n).

Definition zeros3 (a b c : nat) : tensor3 :=
  tab a (fun _ => tab b (fun _ => tab c (fun _ => 0))).

Definition eye (n : nat) : tensor2 :=
  tab n (fun i => tab n (fun j => if (i =? j)%nat then 1 else 0)).

Definition scale2 (c : R) (m : tensor2) : tensor2 := map (map (fun x => c * x)) m.

(** [torch.mean(f, dim=0, keepdims=True)] of a rank-3 tensor. *)
Definition mean0 (f : tensor3) : tensor3 :=
  [ tab (dim1 f) (fun n => tab (dim2 f) (fun d =>
      Rsum (dim0 f) (fun s => get3 f s n d) / INR (dim0 f))) ].

(** [m.squeeze(axis=0)]. *)
Definition squeeze0 (m : tensor3) : tensor2 := hd [] m.

(** [v.unsqueeze(-1)]. *)
Definition unsqueeze_last (v : tensor1) : tensor2 := map (fun x => [x]) v.

(** [f - m], axes of size 1 broadcast. *)
Definition sub3 (f m : tensor3) : tensor3 :=
  tab (bdim (dim0 f) (dim0 m)) (fun s =>
    tab (bdim (dim1 f) (dim1 m)) (fun n =>
      tab (bdim (dim2 f) (dim2 m)) (fun d => bget3 f s n d - bget3 m s n d))).

Definition div3_scalar (t : tensor3) (c : R) : tensor3 :=
  map (map (map (fun x => x / c))) t.

Definition mul3 (a b : tensor3) : tensor3 :=
  tab (bdim (dim0 a) (dim0 b)) (fun s =>
    tab (bdim (dim1 a) (dim1 b)) (fun n =>
      tab (bdim (dim2 a) (dim2 b)) (fun d => bget3 a s n d * bget3 b s n d))).

(** A rank-3 tensor plus a matrix aligned with its last two axes. *)
Definition add3_2 (t : tensor3) (m : tensor2) : tensor3 :=
  tab (dim0 t) (fun a =>
    tab (bdim (dim1 t) (dim0 m)) (fun i =>
      tab (bdim (dim2 t) (dim1 m)) (fun j => bget3 t a i j + bget2 m i j))).

(** [torch.sum(t, dim=0)] and [torch.sum(t, -1)] of a rank-3 tensor. *)
Definition sum_dim0 (t : tensor3) : tensor2 :=
  tab (dim1 t) (fun n => tab (dim2 t) (fun d => Rsum (dim0 t) (fun s => get3 t s n d))).
Definition sum_last (t : tensor3) : tensor2 :=
  tab (dim0 t) (fun a => tab (dim1 t) (fun b => Rsum (dim2 t) (fun c => get3 t a b c))).

(** [torch.sum(t)] over all entries. *)
Definition sum1 (v : tensor1) : R := fold_right Rplus 0 v.
Definition sum2 (m : tensor2) : R := fold_right (fun row acc => sum1 row + acc) 0 m.
Definition sum3 (t : tensor3) : R := fold_right (fun m acc => sum2 m + acc) 0 t.

Definition square2 (m : tensor2) : tensor2 := map (map (fun x => x * x)) m.
Definition square3 (t : tensor3) : tensor3 := map square2 t.
Definition abs2 (m : tensor2) : tensor2 := map (map Rabs) m.
Definition exp1 (v : tensor1) : tensor1 := map exp v.
Definition log2 (m : tensor2) : tensor2 := map (map ln) m.

(** Tests on real numbers. *)
Definition is_zero (x : R) : bool := if Req_dec_T x 0 then true else false.
Definition is_pos (x : R) : bool := if Rlt_dec 0 x then true else false.
Definition is_nonneg (x : R) : bool := if Rle_dec 0 x then true else false.

(** The logarithm of every entry is a real number. *)
Definition all_pos2 (m : tensor2) : bool := forallb (forallb is_pos) m.

(** Elementwise sum of two matrices, axes of size 1 broadcast. *)
Definition add2 (a b : tensor2) : tensor2 :=
  tab (bdim (dim0 a) (dim0 b)) (fun i =>
    tab (bdim (dim1 a) (dim1 b)) (fun j => bget2 a i j + bget2 b i j)).

(** A matrix plus a vector: the vector is aligned with the last axis.
    Sizes that are neither equal nor 1 do not broadcast. *)
Definition broadcasts (a b : nat) : bool := ((a =? b) || (a =? 1) || (b =? 1))%nat.
Definition add2_1 (a : tensor2) (v : tensor1) : tensor2 :=
  tab (dim0 a) (fun i =>
    tab (bdim (dim1 a) (dim0 v)) (fun j => bget2 a i j + bget1 v j)).

(** [bool(t)] of a rank-1 tensor: defined for exactly one element. *)
Definition bool1 (v : tensor1) : exn + bool :=
  match v with
  | [x] => inr (negb (is_zero x))
  | [] => inl (RuntimeError "Boolean value of Tensor with no values is ambiguous")
  | _ => inl (RuntimeError "Boolean value of Tensor with more than one value is ambiguous")
  end.

(** [a[i] = f(a[i])], nothing out of range. *)
Fixpoint upd {A : Type} (i : nat) (f : A -> A) (l : list A) : list A :=
  match l, i with
  | [], _ => []
  | x :: r, O => f x :: r
  | x :: r, S i' => x :: upd i' f r
  end.

(** The rows that an indexed assignment writes at [n] index pairs: a value
    of rank 1 is broadcast to every pair. *)
Definition expand_rows (n : nat) (vals : tensor12) : tensor2 :=
  match vals with
  | Vec v => repeat v n
  | Mat m => m
  end.

Definition index_put_rows (q : tensor3) (idx : list (nat * nat)) (vals : tensor2)
  : tensor3 :=
  fold_left
    (fun acc pv => upd (fst (fst pv)) (upd (snd (fst pv)) (fun _ => snd pv)) acc)
    (combine idx vals) q.

(** [q[li, lj] = vals]: the k-th vector of [vals] is written at
    [q[li[k], lj[k], :]], in order. *)
Definition index_put (q : tensor3) (idx : list (nat * nat)) (vals : tensor12) : tensor3 :=
  index_put_rows q idx (expand_rows (length idx) vals).

(** [t[idx]] for a list of indices along the first axis: rows of a matrix,
    entries of a vector. *)
Definition index_rows (t : tensor12) (idx : list nat) : tensor12 :=
  match t with
  | Vec v => Vec (map (fun i => nth i v 0) idx)
  | Mat m => Mat (map (fun i => nth i m []) idx)
  end.

(** [t.permute(2, 0, 1)] and [t.permute(0, 2, 1)]. *)
Definition permute_201 (t : tensor3) : tensor3 :=
  tab (dim2 t) (fun d => tab (dim0 t) (fun i => tab (dim1 t) (fun j => get3 t i j d))).
Definition permute_021 (t : tensor3) : tensor3 :=
  tab (dim0 t) (fun d => tab (dim2 t) (fun j => tab (dim1 t) (fun i => get3 t d i j))).

(** [torch.diagonal(t, dim1=1, dim2=2)]. *)
Definition diagonal12 (t : tensor3) : tensor2 :=
  tab (dim0 t) (fun d => tab (Nat.min (dim1 t) (dim2 t)) (fun i => get3 t d i i)).

(** [torch.einsum("snd,sd->nd", a, b)]: its value when the sizes of [s] and
    of [d] broadcast, which [einsum_snd_sd_nd_fits] tests. *)
Definition einsum_snd_sd_nd_fits (a : tensor3) (b : tensor2) : bool :=
  broadcasts (dim0 a) (dim0 b) && broadcasts (dim2 a) (dim1 b).

Definition einsum_snd_sd_nd (a : tensor3) (b : tensor2) : tensor2 :=
  tab (dim1 a) (fun n =>
    tab (bdim (dim2 a) (dim1 b)) (fun d =>
      Rsum (bdim (dim0 a) (dim0 b)) (fun s => bget3 a s n d * bget2 b s d))).

(** [torch.einsum("ind,sid->snd", a, b)], and the test that the sizes of
    [i] and of [d] broadcast. *)
Definition einsum_ind_sid_snd_fits (a b : tensor3) : bool :=
  broadcasts (dim0 a) (dim1 b) && broadcasts (dim2 a) (dim2 b).

Definition einsum_ind_sid_snd (a b : tensor3) : tensor3 :=
  tab (dim0 b) (fun s =>
    tab (dim1 a) (fun n =>
      tab (bdim (dim2 a) (dim2 b)) (fun d =>
        Rsum (bdim (dim0 a) (dim1 b)) (fun i => bget3 a i n d * bget3 b s i d)))).

(** [torch.einsum("and,amd->nmd", a, b)]. *)
Definition einsum_and_amd_nmd (a b : tensor3) : tensor3 :=
  tab (dim1 a) (fun n =>
    tab (dim1 b) (fun m =>
      tab (bdim (dim2 a) (dim2 b)) (fun d =>
        Rsum (bdim (dim0 a) (dim0 b)) (fun s => bget3 a s n d * bget3 b s m d)))).

(** [torch.einsum("dnm,md->nd", a, b)]. *)
Definition einsum_dnm_md_nd (a : tensor3) (b : tensor2) : tensor2 :=
  tab (dim1 a) (fun n =>
    tab (bdim (dim0 a) (dim1 b)) (fun d =>
      Rsum (bdim (dim2 a) (dim0 b)) (fun m => bget3 a d n m * bget2 b m d))).

(** [torch.einsum("nmd,bmd->dnb", a, b)]. *)
Definition einsum_nmd_bmd_dnb (a b : tensor3) : tensor3 :=
  tab (bdim (dim2 a) (dim2 b)) (fun d =>
    tab (dim0 a) (fun n =>
      tab (dim0 b) (fun c =>
        Rsum (bdim (dim1 a) (dim1 b)) (fun m => bget3 a n m d * bget3 b c m d)))).

(** [torch.einsum("dmb,dnb->dmn", a, b)]. *)
Definition einsum_dmb_dnb_dmn (a b : tensor3) : tensor3 :=
  tab (bdim (dim0 a) (dim0 b)) (fun d =>
    tab (dim1 a) (fun m =>
      tab (dim1 b) (fun n =>
        Rsum (bdim (dim2 a) (dim2 b)) (fun c => bget3 a d m c * bget3 b d n c)))).

End torch.

(** ** [torch.linalg], in exact arithmetic *)

Module linalg.

Definition transpose (m : tensor2) : tensor2 :=
  tab (dim1 m) (fun j => tab (dim0 m) (fun i => get2 m i j)).

(** The entries left of the diagonal in row [i] of the Cholesky factor,
    given the rows [L] above it. *)
Definition cholesky_row (A L : tensor2) (i : nat) : tensor1 :=
  fold_left
    (fun row j =>
       row ++ [(get2 A i j - Rsum j (fun k => get1 row k * get2 L j k)) / get2 L j j])
    (seq 0 i) [].

(** The lower-triangular [L] with [L Lᵗ = A], row by row; [None] when a
    pivot is not positive.  Only the lower triangle of [A] is read. *)
Definition cholesky_matrix (A : tensor2) : option tensor2 :=
  fold_left
    (fun acc i =>
       match acc with
       | None => None
       | Some L =>
         let row := cholesky_row A L i in
         let d := get2 A i i - Rsum i (fun k => get1 row k * get1 row k) in
         if torch.is_pos d
         then Some (L ++ [row ++ sqrt d :: repeat 0 (dim0 A - S i)])
         else None
       end)
    (seq 0 (dim0 A)) (Some []).

(** [torch.linalg.cholesky] of a batch of matrices. *)
Fixpoint cholesky (t : tensor3) : exn + tensor3 :=
  match t with
  | [] => inr []
  | A :: r =>
    match cholesky_matrix A, cholesky r with
    | Some L, inr Ls => inr (L :: Ls)
    | None, _ => inl LinAlgError
    | _, inl e => inl e
    end
  end.

(** [L X = B] for lower-triangular [L], by forward substitution. *)
Definition forward_subst (L B : tensor2) : tensor2 :=
  fold_left
    (fun X i =>
       X ++ [tab (dim1 B) (fun c =>
               (get2 B i c - Rsum i (fun k => get2 L i k * get2 X k c)) / get2 L i i)])
    (seq 0 (dim0 L)) [].

(** [U X = B] for upper-triangular [U]: the same with both orders reversed. *)
Definition back_subst (U B : tensor2) : tensor2 :=
  rev (forward_subst (rev (map (@rev R) U)) (rev B)).

Definition solve_matrix (A B : tensor2) (upper left : bool) : tensor2 :=
  if left
  then (if upper then back_subst A B else forward_subst A B)
  else transpose
         (if negb upper
          then back_subst (transpose A) (transpose B)
          else forward_subst (transpose A) (transpose B)).

(** [torch.linalg.solve_triangular(A, B, upper=, left=)] on batches: the
    batch axes broadcast, the system sizes have to agree, and the result
    has the shape of [B]. *)
Definition solve_triangular_fits (A B : tensor3) (left : bool) : bool :=
  torch.broadcasts (dim0 A) (dim0 B)
  && (dim1 A =? dim2 A)%nat
  && (if left then dim1 B =? dim1 A else dim2 B =? dim1 A)%nat.

Definition solve_triangular_value (A B : tensor3) (upper left : bool) : tensor3 :=
  tab (bdim (dim0 A) (dim0 B)) (fun b =>
    let X :=
      solve_matrix (nth (bidx (dim0 A) b) A []) (nth (bidx (dim0 B) b) B [])
                   upper left in
    tab (dim1 B) (fun i => tab (dim2 B) (fun j => get2 X i j))).

(** No division by a zero diagonal entry. *)
Definition nonzero_diagonal (A : tensor3) : bool :=
  forallb (fun m => forallb (fun i => negb (torch.is_zero (get2 m i i))) (seq 0 (dim0 m))) A.

End linalg.

(** ** Method bodies

    A method body runs on the instance and a flag that records whether the
    arithmetic has left the real numbers.  An exception ends the body at
    once; a non-finite value does not, it only marks what is returned. *)

Section Method.

Variable Self : Type.

Inductive step (A : Type) : Type :=
| Val (a : A)
| Exn (e : exn).

Arguments Val {A} a.
Arguments Exn {A} e.

Definition M (A : Type) : Type := Self * bool -> (Self * bool) * step A.

Definition ret {A : Type} (a : A) : M A := fun st => (st, Val a).

Definition bind {A B : Type} (m : M A) (k : A -> M B) : M B :=
  fun st =>
    match m st with
    | (st', Val a) => k a st'
    | (st', Exn e) => (st', Exn e)
    end.

Definition this : M Self := fun st => (st, Val (fst st)).

Definition assign (f : Self -> Self) : M unit :=
  fun st => ((f (fst st), snd st), Val tt).

Definition raise {A : Type} (e : exn) : M A := fun st => (st, Exn e).

Definition lift {A : Type} (r : exn + A) : M A :=
  fun st => match r with inr a => (st, Val a) | inl e => (st, Exn e) end.

(** The operation that follows yields real numbers only if [ok]. *)
Definition finite_if (ok : bool) : M unit :=
  fun st => ((fst st, snd st || negb ok), Val tt).

(** The shapes of the operation that follows have to fit. *)
Definition fits (ok : bool) (msg : string) : M unit :=
  fun st => if ok then (st, Val tt) else (st, Exn (RuntimeError msg)).

(** Reading an attribute that may never have been assigned. *)
Definition getattr {A : Type} (name : string) (field : Self -> option A) : M A :=
  fun st =>
    match field (fst st) with
    | Some a => (st, Val a)
    | None => (st, Exn (AttributeError name))
    end.

(** [torch.linalg.cholesky]: fails on a matrix that is not positive
    definite, and on one that is not made of real numbers. *)
Definition cholesky (K : tensor3) : M tensor3 :=
  fun st => if snd st then (st, Exn LinAlgError) else lift (linalg.cholesky K) st.

Definition solve_triangular (A B : tensor3) (upper left : bool) : M tensor3 :=
  bind (fits (linalg.solve_triangular_fits A B left) "solve_triangular: incompatible shapes")
    (fun _ => bind (finite_if (linalg.nonzero_diagonal A))
       (fun _ => ret (linalg.solve_triangular_value A B upper left))).

(** [torch.einsum("snd,sd->nd", a, b)] and [torch.einsum("ind,sid->snd", a, b)]:
    the sizes that share a letter have to broadcast. *)
Definition einsum_snd_sd_nd (a : tensor3) (b : tensor2) : M tensor2 :=
  bind (fits (torch.einsum_snd_sd_nd_fits a b) "einsum(): operands do not broadcast")
    (fun _ => ret (torch.einsum_snd_sd_nd a b)).

Definition einsum_ind_sid_snd (a b : tensor3) : M tensor3 :=
  bind (fits (torch.einsum_ind_sid_snd_fits a b) "einsum(): operands do not broadcast")
    (fun _ => ret (torch.einsum_ind_sid_snd a b)).

Definition call {A : Type} (m : M A) (self : Self) : Self * result A :=
  match m (self, false) with
  | ((self', nonfinite), Val a) => (self', if nonfinite then NonFinite else Ok a)
  | ((self', _), Exn e) => (self', Raise e)
  end.

End Method.

Arguments Val {A} a.
Arguments Exn {A} e.
Arguments ret {Self A} a.
Arguments raise {Self A} e.
Arguments lift {Self A} r.
Arguments this {Self}.
Arguments finite_if {Self} ok.
Arguments fits {Self} ok msg.
Arguments cholesky {Self} K.
Arguments solve_triangular {Self} A B upper left.

Notation "x <- m ;; k" := (bind m (fun x => k))
  (at level 61, m at next level, right associativity).
Notation "m ;;; k" := (bind m (fun _ => k))
  (at level 61, right associativity).

(** ** The generative function (a collaborator)

    Calling it draws fresh noise, so the samples depend on how many calls
    were made before; [gf_KL] is what its [KL()] returns and [gf_frozen]
    what [freeze_parameters()] sets. *)

Record GenerativeFunction : Type := mkGenerativeFunction {
  gf_sample : nat -> tensor2 -> tensor3;
  gf_calls : nat;
  gf_KL : R;
  gf_frozen : bool
}.

Definition gf_call (g : GenerativeFunction) (X : tensor2) : tensor3 * GenerativeFunction :=
  (gf_sample g (gf_calls g) X,
   mkGenerativeFunction (gf_sample g) (S (gf_calls g)) (gf_KL g) (gf_frozen g)).

Definition freeze_parameters (g : GenerativeFunction) : GenerativeFunction :=
  mkGenerativeFunction (gf_sample g) (gf_calls g) (gf_KL g) true.

(** What [forward] returns: mean, variance and, on request, the samples. *)
Definition prediction : Type := (tensor2 * tensor2 * option tensor3)%type.

(** ** class VIPLayer

    Of the attributes of the base class [Layer], [input_dim] and [freeze]
    are kept; [dtype] and [device] do not bear on the arithmetic. *)

Module VIPLayer.

Record t : Type := mk {
  input_dim : nat;
  freeze : bool;
  add_prior_regularization : bool;
  num_coeffs : nat;
  q_mu : Param tensor2;
  mean_function : option (tensor2 -> tensor2);
  output_dim : nat;
  generative_function : GenerativeFunction;
  log_layer_noise : option (Param tensor1);
  q_sqrt_tri : Param tensor12
}.

Definition set_q_mu (p : Param tensor2) (self : t) : t :=
  mk (input_dim self) (freeze self) (add_prior_regularization self)
     (num_coeffs self) p (mean_function self) (output_dim self)
     (generative_function self) (log_layer_noise self) (q_sqrt_tri self).

Definition set_generative_function (g : GenerativeFunction) (self : t) : t :=
  mk (input_dim self) (freeze self) (add_prior_regularization self)
     (num_coeffs self) (q_mu self) (mean_function self) (output_dim self)
     g (log_layer_noise self) (q_sqrt_tri self).

Definition set_log_layer_noise (n : option (Param tensor1)) (self : t) : t :=
  mk (input_dim self) (freeze self) (add_prior_regularization self)
     (num_coeffs self) (q_mu self) (mean_function self) (output_dim self)
     (generative_function self) n (q_sqrt_tri self).

Definition set_q_sqrt_tri (p : Param tensor12) (self : t) : t :=
  mk (input_dim self) (freeze self) (add_prior_regularization self)
     (num_coeffs self) (q_mu self) (mean_function self) (output_dim self)
     (generative_function self) (log_layer_noise self) p.

(** [__init__] *)
Definition init (generative_function : GenerativeFunction)
    (num_regression_coeffs input_dim output_dim : nat)
    (add_prior_regularization : bool) (log_layer_noise : option R)
    (q_sqrt_initial_value q_mu_initial_value : R)
    (mean_function : option (tensor2 -> tensor2)) : t :=
  let num_coeffs := num_regression_coeffs in
  let q_mu := np.scale2 (np.ones2 num_coeffs output_dim) q_mu_initial_value in
  let noise :=
    match log_layer_noise with
    | Some v => Some (new_Param (np.scale1 (np.ones1 output_dim) v))
    | None => None
    end in
  let q_sqrt := np.scale2 (np.eye num_coeffs) q_sqrt_initial_value in
  let q_sqrt := np.tile_last q_sqrt output_dim in
  let lilj := torch.tril_indices num_coeffs in
  let triangular_q_sqrt := np.take_pairs q_sqrt lilj in
  mk input_dim false add_prior_regularization num_coeffs (new_Param q_mu)
     mean_function output_dim generative_function noise
     (new_Param triangular_q_sqrt).

Definition forward (self : t) (X : tensor2) (return_prior_samples : bool)
  : t * result prediction :=
  call (
    self <- this ;;
    let (f, g) := gf_call (generative_function self) X in
    assign (set_generative_function g) ;;;
    finite_if (negb (dim0 f =? 0)%nat) ;;;
    let m := torch.mean0 f in
    let s1 := IZR (Z.of_nat (num_coeffs self) - 1) in
    finite_if (torch.is_nonneg s1) ;;;
    finite_if (negb (torch.is_zero (sqrt s1))) ;;;
    let phi := torch.div3_scalar (torch.sub3 f m) (sqrt s1) in
    projected <- einsum_snd_sd_nd phi (data (q_mu self)) ;;
    let mean := torch.add2 (torch.squeeze0 m) projected in
    let q_sqrt := torch.zeros3 (num_coeffs self) (num_coeffs self) (output_dim self) in
    let lilj := torch.tril_indices (num_coeffs self) in
    let q_sqrt := torch.index_put q_sqrt lilj (data (q_sqrt_tri self)) in
    K <- einsum_ind_sid_snd phi q_sqrt ;;
    let K := torch.sum_dim0 (torch.mul3 K K) in
    K <- match log_layer_noise self with
         | Some noise =>
           fits (torch.broadcasts (dim1 K) (dim0 (data noise)))
                "The size of tensor a must match the size of tensor b" ;;;
           ret (torch.add2_1 K (torch.exp1 (data noise)))
         | None => ret K
         end ;;
    let mean :=
      match mean_function self with
      | Some mf => torch.add2 mean (mf X)
      | None => mean
      end in
    ret (mean, K, if return_prior_samples then Some f else None)
  ) self.

Definition KL (self : t) : t * result R :=
  call (
    self <- this ;;
    let diag_indexes :=
      map (fun c => (c - 1)%nat) (np.cumsum (np.arange 1 (num_coeffs self + 1))) in
    let diag := rows (torch.index_rows (data (q_sqrt_tri self)) diag_indexes) in
    let KL := - (1 / 2) * INR (output_dim self) * INR (num_coeffs self) in
    finite_if (torch.all_pos2 (torch.abs2 diag)) ;;;
    let KL := KL - torch.sum2 (torch.log2 (torch.abs2 diag)) in
    let KL := KL + 1 / 2 * torch.sum2 (torch.square2 (rows (data (q_sqrt_tri self)))) in
    let KL := KL + 1 / 2 * torch.sum2 (torch.square2 (data (q_mu self))) in
    if add_prior_regularization self
    then ret (KL + gf_KL (generative_function self))
    else ret KL
  ) self.

Definition freeze_posterior (self : t) : t * result unit :=
  call (
    assign (fun self => set_q_mu (set_requires_grad (q_mu self) false) self) ;;;
    assign (fun self => set_q_sqrt_tri (set_requires_grad (q_sqrt_tri self) false) self) ;;;
    self <- this ;;
    match log_layer_noise self with
    | None => ret tt
    | Some noise =>
      truth <- lift (torch.bool1 (data noise)) ;;
      if (truth : bool)
      then assign (set_log_layer_noise (Some (set_requires_grad noise false)))
      else ret tt
    end
  ) self.

Definition freeze_prior (self : t) : t * result unit :=
  call (
    assign (fun self =>
      set_generative_function (freeze_parameters (generative_function self)) self)
  ) self.

End VIPLayer.

(** ** class VIPLayerInducing

    [Lu] and [q_sqrt] are attributes that only [forward] assigns: [None]
    until then. *)

Module VIPLayerInducing.

Record t : Type := mk {
  input_dim : nat;
  freeze : bool;
  add_prior_regularization : bool;
  num_inducing : nat;
  inducing_points : Param tensor2;
  q_mu : Param tensor2;
  mean_function : option (tensor2 -> tensor2);
  output_dim : nat;
  generative_function : GenerativeFunction;
  log_layer_noise : option (Param tensor1);
  q_sqrt_tri : Param tensor12;
  Lu : option tensor3;
  q_sqrt : option tensor3
}.

Definition set_q_mu (p : Param tensor2) (self : t) : t :=
  mk (input_dim self) (freeze self) (add_prior_regularization self)
     (num_inducing self) (inducing_points self) p (mean_function self)
     (output_dim self) (generative_function self) (log_layer_noise self)
     (q_sqrt_tri self) (Lu self) (q_sqrt self).

Definition set_generative_function (g : GenerativeFunction) (self : t) : t :=
  mk (input_dim self) (freeze self) (add_prior_regularization self)
     (num_inducing self) (inducing_points self) (q_mu self) (mean_function self)
     (output_dim self) g (log_layer_noise self)
     (q_sqrt_tri self) (Lu self) (q_sqrt self).

Definition set_log_layer_noise (n : option (Param tensor1)) (self : t) : t :=
  mk (input_dim self) (freeze self) (add_prior_regularization self)
     (num_inducing self) (inducing_points self) (q_mu self) (mean_function self)
     (output_dim self) (generative_function self) n
     (q_sqrt_tri self) (Lu self) (q_sqrt self).

Definition set_q_sqrt_tri (p : Param tensor12) (self : t) : t :=
  mk (input_dim self) (freeze self) (add_prior_regularization self)
     (num_inducing self) (inducing_points self) (q_mu self) (mean_function self)
     (output_dim self) (generative_function self) (log_layer_noise self)
     p (Lu self) (q_sqrt self).

Definition set_Lu (l : option tensor3) (self : t) : t :=
  mk (input_dim self) (freeze self) (add_prior_regularization self)
     (num_inducing self) (inducing_points self) (q_mu self) (mean_function self)
     (output_dim self) (generative_function self) (log_layer_noise self)
     (q_sqrt_tri self) l (q_sqrt self).

Definition set_q_sqrt (q : option tensor3) (self : t) : t :=
  mk (input_dim self) (freeze self) (add_prior_regularization self)
     (num_inducing self) (inducing_points self) (q_mu self) (mean_function self)
     (output_dim self) (generative_function self) (log_layer_noise self)
     (q_sqrt_tri self) (Lu self) q.

(** [__init__] *)
Definition init (generative_function : GenerativeFunction) (Z : tensor2)
    (input_dim output_dim : nat)
    (add_prior_regularization : bool) (log_layer_noise : option R)
    (q_sqrt_initial_value q_mu_initial_value : R)
    (mean_function : option (tensor2 -> tensor2)) : t :=
  let num_inducing := dim0 Z in
  let inducing_points := new_Param Z in
  let q_mu := np.scale2 (np.ones2 num_inducing output_dim) q_mu_initial_value in
  let noise :=
    match log_layer_noise with
    | Some v => Some (new_Param (np.scale1 (np.ones1 output_dim) v))
    | None => None
    end in
  let q_sqrt := np.scale2 (np.eye num_inducing) q_sqrt_initial_value in
  let q_sqrt := np.tile_last q_sqrt output_dim in
  let lilj := torch.tril_indices num_inducing in
  let triangular_q_sqrt := np.take_pairs q_sqrt lilj in
  mk input_dim false add_prior_regularization num_inducing inducing_points
     (new_Param q_mu) mean_function output_dim generative_function noise
     (new_Param triangular_q_sqrt) None None.

Definition forward (self : t) (X : tensor2) (return_prior_samples : bool)
  : t * result prediction :=
  call (
    self <- this ;;
    let X_and_Z := X ++ data (inducing_points self) in
    let (f, g) := gf_call (generative_function self) X_and_Z in
    assign (set_generative_function g) ;;;
    finite_if (negb (dim0 f =? 0)%nat) ;;;
    let f_mean := torch.mean0 f in
    let s1 := IZR (Z.of_nat (dim0 f) - 1) in
    finite_if (torch.is_nonneg s1) ;;;
    finite_if (negb (torch.is_zero (sqrt s1))) ;;;
    let phi := torch.div3_scalar (torch.sub3 f f_mean) (sqrt s1) in
    let f_K := torch.einsum_and_amd_nmd phi phi in
    let n := dim0 X in
    let Ku :=
      torch.add3_2 (torch.permute_201 (map (skipn n) (skipn n f_K)))
                   (torch.scale2 (2 / 1000000) (torch.eye (num_inducing self))) in
    let Kf :=
      torch.add3_2 (torch.permute_201 (map (firstn n) (firstn n f_K)))
                   (torch.scale2 (2 / 1000000) (torch.eye n)) in
    let Kfu := torch.permute_201 (map (skipn n) (firstn n f_K)) in
    Lu <- cholesky
            (torch.add3_2 Ku (torch.scale2 (1 / 10000) (torch.eye (num_inducing self)))) ;;
    assign (set_Lu (Some Lu)) ;;;
    A <- solve_triangular (torch.permute_021 Lu) Kfu true false ;;
    A <- solve_triangular Lu A false false ;;
    let mean := torch.einsum_dnm_md_nd A (data (q_mu self)) in
    let q_sqrt :=
      torch.index_put
        (torch.zeros3 (num_inducing self) (num_inducing self) (output_dim self))
        (torch.tril_indices (num_inducing self)) (data (q_sqrt_tri self)) in
    assign (set_q_sqrt (Some q_sqrt)) ;;;
    let SK := torch.sub3 (torch.einsum_nmd_bmd_dnb q_sqrt q_sqrt) Ku in
    let B := torch.einsum_dmb_dnb_dmn SK A in
    let delta_cov := torch.sum_last (torch.mul3 A (torch.permute_021 B)) in
    let K := torch.add2 (torch.diagonal12 Kf) delta_cov in
    let K :=
      match log_layer_noise self with
      | Some noise => torch.add2 K (torch.unsqueeze_last (torch.exp1 (data noise)))
      | None => K
      end in
    let mean :=
      match mean_function self with
      | Some mf => torch.add2 mean (mf X)
      | None => mean
      end in
    ret (mean, K, if return_prior_samples then Some (map (firstn n) f) else None)
  ) self.

Definition KL (self : t) : t * result R :=
  call (
    self <- this ;;
    let diag_indexes :=
      map (fun c => (c - 1)%nat) (np.cumsum (np.arange 1 (num_inducing self + 1))) in
    let diag := rows (torch.index_rows (data (q_sqrt_tri self)) diag_indexes) in
    let KL := - (1 / 2) * INR (output_dim self) * INR (num_inducing self) in
    finite_if (torch.all_pos2 (torch.abs2 diag)) ;;;
    let KL := KL - torch.sum2 (torch.log2 (torch.abs2 diag)) in
    Lu <- getattr "Lu" Lu ;;
    let dLu := torch.abs2 (torch.diagonal12 Lu) in
    finite_if (torch.all_pos2 dLu) ;;;
    let KL := KL + torch.sum2 (torch.log2 dLu) in
    q_sqrt <- getattr "q_sqrt" q_sqrt ;;
    W <- solve_triangular Lu q_sqrt false true ;;
    let KL := KL + 1 / 2 * torch.sum3 (torch.square3 W) in
    Kinv_m <- solve_triangular Lu [data (q_mu self)] false true ;;
    let KL := KL + 1 / 2 * torch.sum3 (torch.mul3 [data (q_mu self)] Kinv_m) in
    if add_prior_regularization self
    then ret (KL + gf_KL (generative_function self))
    else ret KL
  ) self.

Definition freeze_posterior (self : t) : t * result unit :=
  call (
    assign (fun self => set_q_mu (set_requires_grad (q_mu self) false) self) ;;;
    assign (fun self => set_q_sqrt_tri (set_requires_grad (q_sqrt_tri self) false) self) ;;;
    self <- this ;;
    match log_layer_noise self with
    | None => ret tt
    | Some noise =>
      truth <- lift (torch.bool1 (data noise)) ;;
      if (truth : bool)
      then assign (set_log_layer_noise (Some (set_requires_grad noise false)))
      else ret tt
    end
  ) self.

Definition freeze_prior (self : t) : t * result unit :=
  call (
    assign (fun self =>
      set_generative_function (freeze_parameters (generative_function self)) self)
  ) self.

End VIPLayerInducing.

(** ** class SparseGP

    [generative_function] is an attribute no method of the class assigns:
    the field records whether it is there. *)

Module SparseGP.

Record t : Type := mk {
  input_dim : nat;
  freeze : bool;
  add_prior_regularization : bool;
  num_inducing : nat;
  inducing_points : Param tensor2;
  q_mu : Param tensor2;
  mean_function : option (tensor2 -> tensor2);
  output_dim : nat;
  generative_function : option GenerativeFunction;
  log_layer_noise : option (Param tensor1);
  q_sqrt_tri : Param tensor12;
  log_lengthscale : Param R;
  log_amplitude : Param R;
  Lu : option tensor3;
  q_sqrt : option tensor3
}.

Definition set_q_mu (p : Param tensor2) (self : t) : t :=
  mk (input_dim self) (freeze self) (add_prior_regularization self)
     (num_inducing self) (inducing_points self) p (mean_function self)
     (output_dim self) (generative_function self) (log_layer_noise self)
     (q_sqrt_tri self) (log_lengthscale self) (log_amplitude self)
     (Lu self) (q_sqrt self).

Definition set_generative_function (g : option GenerativeFunction) (self : t) : t :=
  mk (input_dim self) (freeze self) (add_prior_regularization self)
     (num_inducing self) (inducing_points self) (q_mu self) (mean_function self)
     (output_dim self) g (log_layer_noise self)
     (q_sqrt_tri self) (log_lengthscale self) (log_amplitude self)
     (Lu self) (q_sqrt self).

Definition set_log_layer_noise (n : option (Param tensor1)) (self : t) : t :=
  mk (input_dim self) (freeze self) (add_prior_regularization self)
     (num_inducing self) (inducing_points self) (q_mu self) (mean_function self)
     (output_dim self) (generative_function self) n
     (q_sqrt_tri self) (log_lengthscale self) (log_amplitude self)
     (Lu self) (q_sqrt self).

Definition set_q_sqrt_tri (p : Param tensor12) (self : t) : t :=
  mk (input_dim self) (freeze self) (add_prior_regularization self)
     (num_inducing self) (inducing_points self) (q_mu self) (mean_function self)
     (output_dim self) (generative_function self) (log_layer_noise self)
     p (log_lengthscale self) (log_amplitude self)
     (Lu self) (q_sqrt self).

Definition set_Lu (l : option tensor3) (self : t) : t :=
  mk (input_dim self) (freeze self) (add_prior_regularization self)
     (num_inducing self) (inducing_points self) (q_mu self) (mean_function self)
     (output_dim self) (generative_function self) (log_layer_noise self)
     (q_sqrt_tri self) (log_lengthscale self) (log_amplitude self)
     l (q_sqrt self).

Definition set_q_sqrt (q : option tensor3) (self : t) : t :=
  mk (input_dim self) (freeze self) (add_prior_regularization self)
     (num_inducing self) (inducing_points self) (q_mu self) (mean_function self)
     (output_dim self) (generative_function self) (log_layer_noise self)
     (q_sqrt_tri self) (log_lengthscale self) (log_amplitude self)
     (Lu self) q.

(** [__init__]: the argument [generative_function] is accepted and not
    used. *)
Definition init (generative_function : GenerativeFunction) (Z : tensor2)
    (input_dim output_dim : nat)
    (add_prior_regularization : bool) (log_layer_noise : option R)
    (q_sqrt_initial_value q_mu_initial_value : R)
    (mean_function : option (tensor2 -> tensor2)) : t :=
  let num_inducing := dim0 Z in
  let inducing_points := new_Param Z in
  let q_mu := np.scale2 (np.ones2 num_inducing output_dim) q_mu_initial_value in
  let noise :=
    match log_layer_noise with
    | Some v => Some (new_Param (np.scale1 (np.ones1 output_dim) v))
    | None => None
    end in
  let q_sqrt := np.scale2 (np.eye num_inducing) q_sqrt_initial_value in
  let q_sqrt := np.tile_last q_sqrt output_dim in
  let lilj := torch.tril_indices num_inducing in
  let triangular_q_sqrt := np.take_pairs q_sqrt lilj in
  mk input_dim false add_prior_regularization num_inducing inducing_points
     (new_Param q_mu) mean_function output_dim None noise
     (new_Param triangular_q_sqrt) (new_Param 0) (new_Param 0) None None.

Definition kernel (self : t) (x1 : tensor2) (x2 : option tensor2) : tensor3 :=
  let x2 := match x2 with None => x1 | Some x => x end in
  let x1_ := map (map (fun x => x / exp (data (log_lengthscale self)))) x1 in
  let x2_ := map (map (fun x => x / exp (data (log_lengthscale self)))) x2 in
  let dist :=
    torch.sum_last (torch.square3 (torch.sub3 (map (fun row => [row]) x1_) [x2_])) in
  map (torch.scale2 (exp (data (log_amplitude self))))
      [ map (map (fun d => exp (- d))) dist ].

Definition forward (self : t) (X : tensor2) (return_prior_samples : bool)
  : t * result prediction :=
  call (
    self <- this ;;
    let Ku :=
      torch.add3_2 (kernel self (data (inducing_points self)) None)
                   (torch.scale2 (2 / 1000000) (torch.eye (num_inducing self))) in
    let Kf :=
      torch.add3_2 (kernel self X None)
                   (torch.scale2 (2 / 1000000) (torch.eye (dim0 X))) in
    let Kfu := kernel self X (Some (data (inducing_points self))) in
    Lu <- cholesky
            (torch.add3_2 Ku (torch.scale2 (1 / 10000) (torch.eye (num_inducing self)))) ;;
    assign (set_Lu (Some Lu)) ;;;
    A <- solve_triangular (torch.permute_021 Lu) Kfu true false ;;
    A <- solve_triangular Lu A false false ;;
    let mean := torch.einsum_dnm_md_nd A (data (q_mu self)) in
    let q_sqrt :=
      torch.index_put
        (torch.zeros3 (num_inducing self) (num_inducing self) (output_dim self))
        (torch.tril_indices (num_inducing self)) (data (q_sqrt_tri self)) in
    assign (set_q_sqrt (Some q_sqrt)) ;;;
    let SK := torch.sub3 (torch.einsum_nmd_bmd_dnb q_sqrt q_sqrt) Ku in
    let B := torch.einsum_dmb_dnb_dmn SK A in
    let delta_cov := torch.sum_last (torch.mul3 A (torch.permute_021 B)) in
    let K := torch.add2 (torch.diagonal12 Kf) delta_cov in
    K <- match log_layer_noise self with
         | Some noise =>
           fits (torch.broadcasts (dim1 K) (dim0 (data noise)))
                "The size of tensor a must match the size of tensor b" ;;;
           ret (torch.add2_1 K (torch.exp1 (data noise)))
         | None => ret K
         end ;;
    let mean :=
      match mean_function self with
      | Some mf => torch.add2 mean (mf X)
      | None => mean
      end in
    ret (mean, K,
         if return_prior_samples then Some (torch.zeros3 20 (dim0 X) 1) else None)
  ) self.

Definition KL (self : t) : t * result R :=
  call (
    self <- this ;;
    let diag_indexes :=
      map (fun c => (c - 1)%nat) (np.cumsum (np.arange 1 (num_inducing self + 1))) in
    let diag := rows (torch.index_rows (data (q_sqrt_tri self)) diag_indexes) in
    let KL := - (1 / 2) * INR (output_dim self) * INR (num_inducing self) in
    finite_if (torch.all_pos2 (torch.abs2 diag)) ;;;
    let KL := KL - torch.sum2 (torch.log2 (torch.abs2 diag)) in
    Lu <- getattr "Lu" Lu ;;
    let dLu := torch.abs2 (torch.diagonal12 Lu) in
    finite_if (torch.all_pos2 dLu) ;;;
    let KL := KL + torch.sum2 (torch.log2 dLu) in
    q_sqrt <- getattr "q_sqrt" q_sqrt ;;
    W <- solve_triangular Lu q_sqrt false true ;;
    let KL := KL + 1 / 2 * torch.sum3 (torch.square3 W) in
    Kinv_m <- solve_triangular Lu [data (q_mu self)] false true ;;
    let KL := KL + 1 / 2 * torch.sum3 (torch.mul3 [data (q_mu self)] Kinv_m) in
    if add_prior_regularization self
    then
      g <- getattr "generative_function" generative_function ;;
      ret (KL + gf_KL g)
    else ret KL
  ) self.

Definition freeze_posterior (self : t) : t * result unit :=
  call (
    assign (fun self => set_q_mu (set_requires_grad (q_mu self) false) self) ;;;
    assign (fun self => set_q_sqrt_tri (set_requires_grad (q_sqrt_tri self) false) self) ;;;
    self <- this ;;
    match log_layer_noise self with
    | None => ret tt
    | Some noise =>
      truth <- lift (torch.bool1 (data noise)) ;;
      if (truth : bool)
      then assign (set_log_layer_noise (Some (set_requires_grad noise false)))
      else ret tt
    end
  ) self.

Definition freeze_prior (self : t) : t * result unit :=
  call (
    g <- getattr "generative_function" generative_function ;;
    assign (set_generative_function (Some (freeze_parameters g)))
  ) self.

End SparseGP.

(** ** Vocabulary of the statements *)

(** [tri n = 1 + 2 + ... + n], the number of packed entries of an n-by-n
    lower triangle. *)
Fixpoint tri (n : nat) : nat :=
  match n with
  | O => O
  | S k => (tri k + S k)%nat
  end.

(** The dense factor that [forward] builds from the packed one. *)
Definition unpack (K D : nat) (packed : tensor12) : tensor3 :=
  torch.index_put (torch.zeros3 K K D) (torch.tril_indices K) packed.

(** The K-by-K factor of output dimension [d]. *)
Definition factor (q : tensor3) (K d : nat) : tensor2 :=
  tab K (fun i => tab K (fun j => get3 q i j d)).

Definition matmul (a b : tensor2) : tensor2 :=
  tab (dim0 a) (fun i =>
    tab (dim1 b) (fun j => Rsum (dim0 b) (fun k => get2 a i k * get2 b k j))).

Definition matsub (a b : tensor2) : tensor2 :=
  tab (dim0 a) (fun i => tab (dim1 a) (fun j => get2 a i j - get2 b i j)).

(** [quad n M v = vᵗ M v] for an n-by-n matrix [M]. *)
Definition quad (n : nat) (M : tensor2) (v : tensor1) : R :=
  Rsum n (fun i => Rsum n (fun j => get1 v i * get2 M i j * get1 v j)).

Definition factor_times_transpose (Q : tensor2) : tensor2 :=
  matmul Q (linalg.transpose Q).

Definition transpose_times_factor (Q : tensor2) : tensor2 :=
  matmul (linalg.transpose Q) Q.

(** The basis features [forward] derives from the samples [f], and the
    vector of the S features of point [n] in output dimension [d]. *)
Definition features (f : tensor3) (count : nat) : tensor3 :=
  torch.div3_scalar (torch.sub3 f (torch.mean0 f)) (sqrt (IZR (Z.of_nat count - 1))).

Definition feature_vector (phi : tensor3) (n d : nat) : tensor1 :=
  tab (dim0 phi) (fun s => bget3 phi s n d).

(** The unbiased sample variance. *)
Definition sample_variance (l : list R) : R :=
  let m := torch.sum1 l / INR (length l) in
  torch.sum1 (map (fun x => (x - m) * (x - m)) l) / (INR (length l) - 1).

(** The tensors [VIPLayerInducing.forward] passes through: the samples it
    draws, the empirical kernel and its blocks, the matrix handed to the
    Cholesky factorisation, the solution of the two triangular systems and
    the variance before the noise is added. *)
Definition inducing_draw (self : VIPLayerInducing.t) (X : tensor2) : tensor3 :=
  gf_sample (VIPLayerInducing.generative_function self)
            (gf_calls (VIPLayerInducing.generative_function self))
            (X ++ data (VIPLayerInducing.inducing_points self)).

Definition empirical_kernel (f : tensor3) : tensor3 :=
  torch.einsum_and_amd_nmd (features f (dim0 f)) (features f (dim0 f)).

Definition block_Ku (f_K : tensor3) (n M : nat) : tensor3 :=
  torch.add3_2 (torch.permute_201 (map (skipn n) (skipn n f_K)))
               (torch.scale2 (2 / 1000000) (torch.eye M)).

Definition block_Kf (f_K : tensor3) (n : nat) : tensor3 :=
  torch.add3_2 (torch.permute_201 (map (firstn n) (firstn n f_K)))
               (torch.scale2 (2 / 1000000) (torch.eye n)).

Definition block_Kfu (f_K : tensor3) (n : nat) : tensor3 :=
  torch.permute_201 (map (skipn n) (firstn n f_K)).

Definition jittered (Ku : tensor3) (M : nat) : tensor3 :=
  torch.add3_2 Ku (torch.scale2 (1 / 10000) (torch.eye M)).

Definition whitened (Lu Kfu : tensor3) : tensor3 :=
  linalg.solve_triangular_value Lu
    (linalg.solve_triangular_value (torch.permute_021 Lu) Kfu true false)
    false false.

Definition conditional_variance (Kf Ku A q_sqrt : tensor3) : tensor2 :=
  let SK := torch.sub3 (torch.einsum_nmd_bmd_dnb q_sqrt q_sqrt) Ku in
  let B := torch.einsum_dmb_dnb_dmn SK A in
  let delta_cov := torch.sum_last (torch.mul3 A (torch.permute_021 B)) in
  torch.add2 (torch.diagonal12 Kf) delta_cov.

(** The kernel blocks of [SparseGP.forward]. *)
Definition gp_Ku (self : SparseGP.t) : tensor3 :=
  torch.add3_2 (SparseGP.kernel self (data (SparseGP.inducing_points self)) None)
               (torch.scale2 (2 / 1000000) (torch.eye (SparseGP.num_inducing self))).

Definition gp_Kf (self : SparseGP.t) (X : tensor2) : tensor3 :=
  torch.add3_2 (SparseGP.kernel self X None)
               (torch.scale2 (2 / 1000000) (torch.eye (dim0 X))).

Definition gp_Kfu (self : SparseGP.t) (X : tensor2) : tensor3 :=
  SparseGP.kernel self X (Some (data (SparseGP.inducing_points self))).

(** Two inducing layers that [KL] cannot tell apart: the same cached
    factors and the same persistent parameters. *)
Definition same_KL_inputs (a b : VIPLayerInducing.t) : Prop :=
  VIPLayerInducing.Lu a = VIPLayerInducing.Lu b
  /\ VIPLayerInducing.q_sqrt a = VIPLayerInducing.q_sqrt b
  /\ data (VIPLayerInducing.q_mu a) = data (VIPLayerInducing.q_mu b)
  /\ data (VIPLayerInducing.q_sqrt_tri a) = data (VIPLayerInducing.q_sqrt_tri b)
  /\ VIPLayerInducing.num_inducing a = VIPLayerInducing.num_inducing b
  /\ VIPLayerInducing.output_dim a = VIPLayerInducing.output_dim b
  /\ VIPLayerInducing.add_prior_regularization a
     = VIPLayerInducing.add_prior_regularization b
  /\ gf_KL (VIPLayerInducing.generative_function a)
     = gf_KL (VIPLayerInducing.generative_function b).

(** What training does to a [SparseGP] between two calls: new entries for
    the trainable tensors, of the sizes they have. *)
Definition SparseGP_train (s : SparseGP.t) (mu : tensor2) (packed : tensor12)
    (Z : tensor2) (noise : tensor1)
    (lengthscale amplitude : R) : SparseGP.t :=
  SparseGP.mk (SparseGP.input_dim s) (SparseGP.freeze s)
    (SparseGP.add_prior_regularization s) (SparseGP.num_inducing s)
    (mkParam Z (requires_grad (SparseGP.inducing_points s)))
    (mkParam mu (requires_grad (SparseGP.q_mu s)))
    (SparseGP.mean_function s) (SparseGP.output_dim s)
    (SparseGP.generative_function s)
    (option_map (fun p => mkParam noise (requires_grad p)) (SparseGP.log_layer_noise s))
    (mkParam packed (requires_grad (SparseGP.q_sqrt_tri s)))
    (mkParam lengthscale (requires_grad (SparseGP.log_lengthscale s)))
    (mkParam amplitude (requires_grad (SparseGP.log_amplitude s)))
    (SparseGP.Lu s) (SparseGP.q_sqrt s).

(** The instances of [SparseGP] a program can hold: built by the
    constructor, then passed through method calls and training steps. *)
Inductive SparseGP_reachable : SparseGP.t -> Prop :=
| reach_init : forall g Z din D flag noise v_sqrt v_mu mf,
    SparseGP_reachable (SparseGP.init g Z din D flag noise v_sqrt v_mu mf)
| reach_forward : forall s X b,
    SparseGP_reachable s -> SparseGP_reachable (fst (SparseGP.forward s X b))
| reach_KL : forall s,
    SparseGP_reachable s -> SparseGP_reachable (fst (SparseGP.KL s))
| reach_freeze_posterior : forall s,
    SparseGP_reachable s -> SparseGP_reachable (fst (SparseGP.freeze_posterior s))
| reach_freeze_prior : forall s,
    SparseGP_reachable s -> SparseGP_reachable (fst (SparseGP.freeze_prior s))
| reach_train : forall s mu (packed : tensor12) Z noise lengthscale amplitude,
    SparseGP_reachable s ->
    shape2 mu (SparseGP.num_inducing s) (SparseGP.output_dim s) ->
    shape2 packed (tri (SparseGP.num_inducing s)) (SparseGP.output_dim s) ->
    length Z = SparseGP.num_inducing s ->
    length noise = SparseGP.output_dim s ->
    SparseGP_reachable (SparseGP_train s mu packed Z noise lengthscale amplitude).

(** The sizes every reachable [SparseGP] with [M] inducing points keeps,
    and the attribute it never gets. *)
Definition SparseGP_invariant (M : nat) (s : SparseGP.t) : Prop :=
  SparseGP.generative_function s = None
  /\ SparseGP.num_inducing s = M
  /\ length (data (SparseGP.q_mu s)) = M
  /\ length (data (SparseGP.inducing_points s)) = M
  /\ (forall L, SparseGP.Lu s = Some L -> dim0 L = 1%nat /\ dim1 L = M /\ dim2 L = M)
  /\ (forall q, SparseGP.q_sqrt s = Some q -> dim1 q = M).

(** The inducing layer in the same state as a [SparseGP]: the same
    parameters, flags and cached factors, and the generative function [g]
    that was given to the constructor. *)
Definition as_inducing (s : SparseGP.t) (g : GenerativeFunction) : VIPLayerInducing.t :=
  VIPLayerInducing.mk (SparseGP.input_dim s) (SparseGP.freeze s)
    (SparseGP.add_prior_regularization s) (SparseGP.num_inducing s)
    (SparseGP.inducing_points s) (SparseGP.q_mu s) (SparseGP.mean_function s)
    (SparseGP.output_dim s) g (SparseGP.log_layer_noise s) (SparseGP.q_sqrt_tri s)
    (SparseGP.Lu s) (SparseGP.q_sqrt s).

(** The variance the inducing layers are to return at output dimension [d]
    and point [n], before the noise: the diagonal entry of Kf plus the
    quadratic form of SK in the row of A, where SK is [product] of the dense
    factor minus Ku.  [Do] is the number of output dimensions the kernel
    matrices come in (1, or that of the layer). *)
Definition variance_formula (product : tensor2 -> tensor2)
    (Kf Ku A q : tensor3) (Do M d n : nat) : R :=
  get3 Kf (bidx Do d) n n
  + quad M (matsub (product (factor q M d)) (nth (bidx Do d) Ku []))
           (nth n (nth (bidx Do d) A []) []).

Definition noise_term (noise : option (Param tensor1)) (d : nat) : R :=
  match noise with
  | Some p => exp (get1 (data p) d)
  | None => 0
  end.

(** "[VIPLayerInducing.forward], where it returns, returns this variance". *)
Definition inducing_variance_is (product : tensor2 -> tensor2)
    (s : VIPLayerInducing.t) (X : tensor2) (Do : nat) : Prop :=
  let M := VIPLayerInducing.num_inducing s in
  let D := VIPLayerInducing.output_dim s in
  let fK := empirical_kernel (inducing_draw s X) in
  let Ku := block_Ku fK (dim0 X) M in
  forall b s' mean K samples,
    VIPLayerInducing.forward s X b = (s', Ok (mean, K, samples)) ->
    exists L,
      linalg.cholesky (jittered Ku M) = inr L
      /\ forall d n, (d < D)%nat -> (n < dim0 X)%nat ->
           get2 K d n
           = variance_formula product (block_Kf fK (dim0 X)) Ku
               (whitened L (block_Kfu fK (dim0 X)))
               (unpack M D (data (VIPLayerInducing.q_sqrt_tri s))) Do M d n
             + noise_term (VIPLayerInducing.log_layer_noise s) d.

(** The same for [SparseGP.forward], whose kernel matrices come once. *)
Definition gp_variance_is (product : tensor2 -> tensor2)
    (s : SparseGP.t) (X : tensor2) : Prop :=
  let M := SparseGP.num_inducing s in
  let D := SparseGP.output_dim s in
  forall b s' mean K samples,
    SparseGP.forward s X b = (s', Ok (mean, K, samples)) ->
    exists L,
      linalg.cholesky (jittered (gp_Ku s) M) = inr L
      /\ forall d n, (d < D)%nat -> (n < dim0 X)%nat ->
           get2 K d n
           = variance_formula product (gp_Kf s X) (gp_Ku s)
               (whitened L (gp_Kfu s X))
               (unpack M D (data (SparseGP.q_sqrt_tri s))) 1 M d n.

(** The sizes of the three axes of a tensor. *)
Definition dims3 (t : tensor3) (a b c : nat) : Prop :=
  dim0 t = a /\ dim1 t = b /\ dim2 t = c.

(** A generative function that returns the same samples at every call. *)
Definition constant_samples (f : tensor3) : GenerativeFunction :=
  mkGenerativeFunction (fun _ _ => f) 0 0 false.

(** An inducing layer with one output and two inducing points, whose factor
    is [[1, 0], [1, 1]], and a draw of two samples at one data point and
    the two inducing points that leaves the second inducing point
    uncorrelated with the rest. *)
Definition crossed_samples : GenerativeFunction :=
  constant_samples [[[1]; [1]; [0]]; [[-1]; [-1]; [0]]].

Definition crossed_layer : VIPLayerInducing.t :=
  VIPLayerInducing.set_q_sqrt_tri (new_Param (Mat [[1]; [1]; [1]]))
    (VIPLayerInducing.init crossed_samples [[0]; [1]] 1 1 false None 1 0 None).

(** The samples [VIPLayer.forward] draws, and the variance it computes from
    the basis features and the dense factor before the noise is added. *)
Definition layer_draw (self : VIPLayer.t) (X : tensor2) : tensor3 :=
  gf_sample (VIPLayer.generative_function self)
            (gf_calls (VIPLayer.generative_function self)) X.

Definition projected_variance (phi q : tensor3) : tensor2 :=
  torch.sum_dim0 (torch.mul3 (torch.einsum_ind_sid_snd phi q)
                              (torch.einsum_ind_sid_snd phi q)).

(** A method body keeps [P]: whatever state it finishes in, normally or
    by an exception, satisfies [P] if the state it started in did. *)
Definition preserves (Self : Type) (P : Self -> Prop) (A : Type) (m : M Self A) : Prop :=
  forall s b, P s -> P (fst (fst (m (s, b)))).

Arguments preserves Self P {A} m.

(** The empirical mean of the samples at point [n], output [k]. *)
Definition sample_mean (f : tensor3) (n k : nat) : R :=
  Rsum (dim0 f) (fun s => get3 f s n k) / INR (dim0 f).

(** The mean [VIPLayer.forward] computes before the mean function is
    added. *)
Definition projected_mean (f : tensor3) (count : nat) (mu : tensor2) : tensor2 :=
  torch.add2 (torch.squeeze0 (torch.mean0 f))
             (torch.einsum_snd_sd_nd (features f count) mu).

(** Three samples at two points, one output. *)
Definition three_samples : tensor3 := [[[1]; [2]]; [[3]; [4]]; [[5]; [6]]].

(** What [freeze_posterior] leaves behind, in a class with the posterior
    parameters [q_mu] and [q_sqrt_tri] and the optional noise: both
    parameters are not trainable, no entry of a tensor has changed, and a
    noise that was not trainable still is not. *)
Definition posterior_frozen {T : Type}
    (q_mu : T -> Param tensor2) (q_sqrt_tri : T -> Param tensor12)
    (noise : T -> option (Param tensor1))
    (s s' : T) : Prop :=
  requires_grad (q_mu s') = false
  /\ requires_grad (q_sqrt_tri s') = false
  /\ data (q_mu s') = data (q_mu s)
  /\ data (q_sqrt_tri s') = data (q_sqrt_tri s)
  /\ option_map (fun p => data p) (noise s') = option_map (fun p => data p) (noise s)
  /\ (forall p, noise s = Some p -> requires_grad p = false ->
        option_map (fun p => requires_grad p) (noise s') = Some false).

(** The noise is frozen as well, and the call returns, when there is no
    noise or the noise is a single entry other than zero. *)
Definition noise_frozen {T : Type} (noise : T -> option (Param tensor1))
    (s s' : T) (outcome : result unit) : Prop :=
  (noise s = None -> outcome = Ok tt /\ noise s' = None)
  /\ (forall p x, noise s = Some p -> data p = [x] -> x <> 0 ->
        outcome = Ok tt
        /\ option_map (fun p => requires_grad p) (noise s') = Some false).

(** The squared distance of two points with [F] features, each feature
    divided by the lengthscale [l]. *)
Definition scaled_sqdist (l : R) (F : nat) (u v : tensor1) : R :=
  Rsum F (fun k => (get1 u k / l - get1 v k / l) * (get1 u k / l - get1 v k / l)).

(** An inducing layer with three outputs and two inducing points, and a
    generative function with three outputs. *)
Definition wide_samples : GenerativeFunction :=
  constant_samples
    [[[1; 1; 1]; [1; 1; 1]; [0; 0; 0]]; [[-1; -1; -1]; [-1; -1; -1]; [0; 0; 0]]].

Definition wide_layer : VIPLayerInducing.t :=
  VIPLayerInducing.init wide_samples [[0]; [1]] 1 3 false None 1 0 None.

(** * [src/layers_init.py] *)

(** ** class LinearProjection

    [__call__] is [inputs @ self.P]; the product is taken as it is for
    operands whose sizes agree. *)

Module LinearProjection.

Record t : Type := mk { P : tensor2 }.

Definition init (matrix : tensor2) : t := mk matrix.

Definition call (self : t) (inputs : tensor2) : tensor2 := matmul inputs (P self).

End LinearProjection.

(** ** init_layers

    The exceptions [init_layers] raises itself or through a list index. *)
Inductive init_exn : Type :=
| ValueError (msg : string)
| IndexError (msg : string)
| LabelError (e : exn)
| NotImplementedError (msg : string).

(** The layers it returns are of either class. *)
Inductive layer : Type :=
| Plain (l : VIPLayer.t)
| Inducing (l : VIPLayerInducing.t).

Definition layer_input_dim (l : layer) : nat :=
  match l with
  | Plain l => VIPLayer.input_dim l
  | Inducing l => VIPLayerInducing.input_dim l
  end.

Definition layer_output_dim (l : layer) : nat :=
  match l with
  | Plain l => VIPLayer.output_dim l
  | Inducing l => VIPLayerInducing.output_dim l
  end.

Definition layer_mean_function (l : layer) : option (tensor2 -> tensor2) :=
  match l with
  | Plain l => VIPLayer.mean_function l
  | Inducing l => VIPLayerInducing.mean_function l
  end.

Section InitLayers.

(** Collaborators that are not part of the repository's two files:
    [scipy.cluster.vq.kmeans2(X, k, minit="points", seed=0)[0]], the third
    result of [np.linalg.svd(X, full_matrices=False)], and the constructors
    of the generative functions, applied to the options that [init_layers]
    hands on unchanged (activation, seed, device, dtype, noise, structure,
    dropout): what is left are the arguments [init_layers] computes.

    [kmeans2] with [minit="points"] starts from [k] distinct rows of [X]
    and raises a [ValueError] when [X] has fewer than [k] rows; whatever it
    raises, [init_layers] raises. *)
Variable kmeans2 : tensor2 -> nat -> init_exn + tensor2.
Variable svd_Vh : tensor2 -> tensor2.
Variable BayesianConvNN : nat -> nat * nat -> nat -> GenerativeFunction.
Variable GP : nat -> nat -> nat -> GenerativeFunction.
Variable BayesianNN : nat -> nat -> nat -> GenerativeFunction.

(** The arguments that decide what is built.  Sizes are natural numbers. *)
Variable output_dim : nat.
Variable genf : string.
Variable regression_coeffs : nat.
Variable genf_full_output : bool.
Variable final_layer_mu final_layer_sqrt : R.
Variable final_layer_noise : option R.
Variable inner_layers_sqrt : R.
Variable inner_layers_noise : option R.
Variable inner_layers_mu : R.
Variable prior_kl : bool.
Variable input_prop : bool.
Variable inducing_layer : bool.

(** The list [dims]: a single entry of [vip_layers] is a number of layers, a
    longer list gives the output dimensions, and has to end in
    [output_dim]. *)
Definition init_layers_dims (X : tensor2) (vip_layers : list nat)
  : init_exn + list nat :=
  if (length vip_layers =? 1)%nat
  then
    let vip_layers := concat (repeat [dim1 X] (nth 0 vip_layers 0 - 1)%nat) in
    inr ([dim1 X] ++ vip_layers ++ [output_dim])
  else
    match rev vip_layers with
    | [] => inl (IndexError "list index out of range")
    | last_dim :: _ =>
      if negb (last_dim =? output_dim)%nat
      then inl (LabelError
                  (RuntimeError "Last vip layer does not correspond with data label"))
      else inr ([dim1 X] ++ vip_layers)
    end.

(** The body of the loop over [enumerate(zip(dims[:-1], dims[1:]))], from
    index [i] on; [count] is [len(dims)]. *)
Fixpoint init_layers_loop (Z : tensor2) (count i : nat) (pairs : list (nat * nat))
    (X_running : tensor2) (layers : list layer) : init_exn + list layer :=
  match pairs with
  | [] => inr layers
  | (dim_in, dim_out) :: rest =>
    let chosen :=
      if (i =? count - 2)%nat
      then inr (None, final_layer_mu, final_layer_sqrt, final_layer_noise, X_running)
      else if (dim_in =? dim_out)%nat
      then inr (Some (LinearProjection.call (LinearProjection.init (np.eye dim_in))),
                inner_layers_mu, inner_layers_sqrt, inner_layers_noise, X_running)
      else if (dim_out <? dim_in)%nat
      then
        let V := svd_Vh X_running in
        let P := linalg.transpose (firstn dim_out V) in
        inr (Some (LinearProjection.call (LinearProjection.init P)),
             inner_layers_mu, inner_layers_sqrt, inner_layers_noise,
             matmul X_running P)
      else inl (NotImplementedError
                  "Dimensionality augmentation is not handled currently.") in
    match chosen with
    | inl e => inl e
    | inr (mf, q_mu_initial_value, q_sqrt_initial_value, log_layer_noise, X_running) =>
      let mf := if negb input_prop && (i <? 1)%nat then None else mf in
      let out := if genf_full_output then dim_out else 1%nat in
      let f :=
        if String.eqb genf "conv" && (i =? 0)%nat
        then BayesianConvNN regression_coeffs (28%nat, 28%nat) out
        else if String.eqb genf "GP"
        then GP regression_coeffs dim_in out
        else BayesianNN regression_coeffs dim_in out in
      let layer :=
        if inducing_layer
        then Inducing (VIPLayerInducing.init f Z dim_in dim_out prior_kl log_layer_noise
                         q_sqrt_initial_value q_mu_initial_value mf)
        else Plain (VIPLayer.init f regression_coeffs dim_in dim_out prior_kl
                      log_layer_noise q_sqrt_initial_value q_mu_initial_value mf) in
      init_layers_loop Z count (S i) rest X_running (layers ++ [layer])
    end
  end.

Definition init_layers (X : tensor2) (vip_layers : list nat) : init_exn + list layer :=
  match kmeans2 X 100 with
  | inl e => inl e
  | inr Z =>
    match init_layers_dims X vip_layers with
    | inl e => inl e
    | inr dims =>
      init_layers_loop Z (length dims) 0 (combine (removelast dims) (tl dims)) X []
    end
  end.

(** What the loop builds at index [idx] from the pair ([din], [dout]); [Z]
    are the inducing points and [count] is [len(dims)]. *)
Definition built_at (Z : tensor2) (count idx din dout : nat) (l : layer) : Prop :=
  layer_input_dim l = din
  /\ layer_output_dim l = dout
  /\ (idx <> (count - 2)%nat -> (dout <= din)%nat)
  /\ (idx = (count - 2)%nat -> layer_mean_function l = None)
  /\ (input_prop = false -> idx = 0%nat -> layer_mean_function l = None)
  /\ (idx <> (count - 2)%nat -> input_prop = true \/ (0 < idx)%nat -> din = dout ->
      layer_mean_function l
      = Some (LinearProjection.call (LinearProjection.init (np.eye din))))
  /\ (if inducing_layer
      then exists li, l = Inducing li
                      /\ data (VIPLayerInducing.inducing_points li) = Z
                      /\ VIPLayerInducing.num_inducing li = dim0 Z
      else exists lp, l = Plain lp /\ VIPLayer.num_coeffs lp = regression_coeffs).

End InitLayers.

(** A configuration to run [init_layers] on: the first [k] points as
    centres when there are that many and a [ValueError] otherwise, no
    rotation, generative functions without samples; and a batch of a
    hundred points with two features. *)
Definition toy_kmeans2 (X : tensor2) (k : nat) : init_exn + tensor2 :=
  if (dim0 X <? k)%nat
  then inl (ValueError "Cannot take a larger sample than population")
  else inr (firstn k X).

Definition toy_init_layers (output_dim : nat) (input_prop inducing_layer : bool)
  : tensor2 -> list nat -> init_exn + list layer :=
  init_layers toy_kmeans2 (fun X => np.eye (dim1 X))
    (fun _ _ _ => constant_samples []) (fun _ _ _ => constant_samples [])
    (fun _ _ _ => constant_samples [])
    output_dim "BNN" 2 false 0 1 None 1 None 0 false input_prop inducing_layer.

Definition hundred_points : tensor2 := repeat [0; 0] 100.

(** A list built entry by entry, each entry from the entries before it. *)
Definition grow {A : Type} (g : list A -> nat -> A) (n : nat) : list A :=
  fold_left (fun acc i => acc ++ [g acc i]) (seq 0 n) [].

(** Triangular matrices, and matrices without a zero on the diagonal. *)
Definition lower_triangular (n : nat) (L : tensor2) : Prop :=
  forall i k, (i < k)%nat -> (k < n)%nat -> get2 L i k = 0.

Definition upper_triangular (n : nat) (U : tensor2) : Prop :=
  forall i k, (k < i)%nat -> (i < n)%nat -> get2 U i k = 0.

Definition nonzero_diag (n : nat) (L : tensor2) : Prop :=
  forall i, (i < n)%nat -> get2 L i i <> 0.

(** The pivot and the row that [cholesky_matrix] computes in step [i], from
    the rows [L] above. *)
Definition cholesky_pivot (A L : tensor2) (i : nat) : R :=
  get2 A i i
  - Rsum i (fun k => get1 (linalg.cholesky_row A L i) k * get1 (linalg.cholesky_row A L i) k).

Definition cholesky_line (A : tensor2) (L : tensor2) (i : nat) : tensor1 :=
  linalg.cholesky_row A L i ++ sqrt (cholesky_pivot A L i) :: repeat 0 (dim0 A - S i).

(** A batch of [a] matrices, each with [b] rows and [c] columns. *)
Definition slices (t : tensor3) (a b c : nat) : Prop :=
  length t = a /\ forall d, (d < a)%nat -> dim0 (nth d t []) = b /\ dim1 (nth d t []) = c.

(** What [KL] of an inducing layer adds up: the constant, the log
    determinants of the variational factor and of the cached factor [L],
    the squares of [W] and the product of [q_mu] with [V], where [W] and
    [V] are what [solve_triangular] returned, and the prior's own KL. *)
Definition inducing_KL_formula (M D : nat) (packed L mu V : tensor2) (W : tensor3)
    (prior : R) : R :=
  - (1 / 2) * INR D * INR M
  - Rsum M (fun j => Rsum D (fun d => ln (Rabs (get2 packed (tri (j + 1) - 1) d))))
  + Rsum M (fun i => ln (get2 L i i))
  + 1 / 2 * Rsum M (fun b => Rsum M (fun k => Rsum D (fun d =>
              get3 W b k d * get3 W b k d)))
  + 1 / 2 * Rsum M (fun k => Rsum D (fun d => get2 mu k d * get2 V k d))
  + prior.

(** * Properties *)

Unset Implicit Arguments.

(** ** Lists, sums and shapes *)

Lemma tab_length {A : Type} (n : nat) (f : nat -> A) : length (tab n f) = n.
Proof. unfold tab. now rewrite length_map, length_seq. Qed.

Lemma nth_tab {A : Type} (n : nat) (f : nat -> A) (i : nat) (d : A) :
  (i < n)%nat -> nth i (tab n f) d = f i.
Proof.
  intros H. unfold tab.
  rewrite (nth_indep _ d (f 0%nat)) by (rewrite length_map, length_seq; exact H).
  rewrite map_nth, seq_nth by exact H. reflexivity.
Qed.

Lemma nth_map_in {A B : Type} (f : A -> B) (l : list A) (i : nat) (d : B) (d' : A) :
  (i < length l)%nat -> nth i (map f l) d = f (nth i l d').
Proof.
  intros H. rewrite (nth_indep _ d (f d')) by (now rewrite length_map).
  apply map_nth.
Qed.

Lemma tab_S {A : Type} (n : nat) (f : nat -> A) : tab (S n) f = tab n f ++ [f n].
Proof. unfold tab. now rewrite seq_S, map_app. Qed.

Lemma hd_tab {A : Type} (n : nat) (f : nat -> A) (d : A) :
  (0 < n)%nat -> hd d (tab n f) = f 0%nat.
Proof. destruct n; [lia|]. reflexivity. Qed.

Lemma dim0_tab {A : Type} (n : nat) (f : nat -> A) : dim0 (tab n f) = n.
Proof. apply tab_length. Qed.

Lemma dim1_tab {A : Type} (n c : nat) (f : nat -> nat -> A) :
  (0 < n)%nat -> dim1 (tab n (fun i => tab c (f i))) = c.
Proof. intros H. unfold dim1. rewrite hd_tab by exact H. apply tab_length. Qed.

Lemma dim2_tab {A : Type} (n b c : nat) (f : nat -> nat -> nat -> A) :
  (0 < n)%nat -> (0 < b)%nat ->
  dim2 (tab n (fun i => tab b (fun j => tab c (f i j)))) = c.
Proof.
  intros Hn Hb. unfold dim2. rewrite hd_tab by exact Hn.
  now apply dim1_tab.
Qed.

Lemma get1_tab (n : nat) (F : nat -> R) (i : nat) :
  (i < n)%nat -> get1 (tab n F) i = F i.
Proof. intros. unfold get1. now apply nth_tab. Qed.

Lemma get2_tab (A B : nat) (F : nat -> nat -> R) (a b : nat) :
  (a < A)%nat -> (b < B)%nat ->
  get2 (tab A (fun a => tab B (fun b => F a b))) a b = F a b.
Proof. intros. unfold get2, get1. now rewrite !nth_tab. Qed.

Lemma get3_tab (A B C : nat) (F : nat -> nat -> nat -> R) (a b c : nat) :
  (a < A)%nat -> (b < B)%nat -> (c < C)%nat ->
  get3 (tab A (fun a => tab B (fun b => tab C (fun c => F a b c)))) a b c = F a b c.
Proof. intros. unfold get3, get2, get1. now rewrite !nth_tab. Qed.

Lemma shape2_tab (r c : nat) (F : nat -> nat -> R) :
  shape2 (tab r (fun i => tab c (F i))) r c.
Proof.
  split; [apply tab_length|].
  apply Forall_forall. intros row Hin. unfold tab in Hin.
  apply in_map_iff in Hin. destruct Hin as [i [<- _]]. apply tab_length.
Qed.

Lemma shape2_row (m : tensor2) (r c i : nat) :
  shape2 m r c -> (i < r)%nat -> length (nth i m []) = c.
Proof.
  intros [Hl Hf] Hi. rewrite Forall_forall in Hf.
  apply Hf, nth_In. lia.
Qed.

Lemma shape2_dims (m : tensor2) (r c : nat) :
  shape2 m r c -> (0 < r)%nat -> dim0 m = r /\ dim1 m = c.
Proof.
  intros H Hr. split; [apply H|].
  unfold dim1. rewrite <- (shape2_row m r c 0 H Hr). now destruct m.
Qed.

Lemma shape3_slice (t : tensor3) (a b c i : nat) :
  shape3 t a b c -> (i < a)%nat -> shape2 (nth i t []) b c.
Proof.
  intros [Hl Hf] Hi. rewrite Forall_forall in Hf.
  apply Hf, nth_In. lia.
Qed.

Lemma shape3_dims (t : tensor3) (a b c : nat) :
  shape3 t a b c -> (0 < a)%nat -> (0 < b)%nat ->
  dim0 t = a /\ dim1 t = b /\ dim2 t = c.
Proof.
  intros H Ha Hb. pose proof (shape3_slice t a b c 0 H Ha) as H0.
  destruct (shape2_dims _ _ _ H0 Hb) as [E0 E1].
  split; [apply H|].
  destruct t as [|m t]; [destruct H as [H _]; simpl in H; lia|].
  split; [exact E0 | exact E1].
Qed.

Lemma Rsum_ext (n : nat) (f g : nat -> R) :
  (forall i, (i < n)%nat -> f i = g i) -> Rsum n f = Rsum n g.
Proof.
  induction n as [|n IH]; intros H; simpl; [reflexivity|].
  rewrite IH by (intros; apply H; lia). now rewrite H by lia.
Qed.

Lemma Rsum_zero (n : nat) : Rsum n (fun _ => 0) = 0.
Proof. induction n as [|n IH]; simpl; [reflexivity|]. rewrite IH. lra. Qed.

Lemma Rsum_plus (n : nat) (f g : nat -> R) :
  Rsum n (fun i => f i + g i) = Rsum n f + Rsum n g.
Proof. induction n as [|n IH]; simpl; [lra|]. rewrite IH. lra. Qed.

Lemma Rsum_scal_l (n : nat) (c : R) (f : nat -> R) :
  Rsum n (fun i => c * f i) = c * Rsum n f.
Proof. induction n as [|n IH]; simpl; [lra|]. rewrite IH. lra. Qed.

Lemma Rsum_scal_r (n : nat) (c : R) (f : nat -> R) :
  Rsum n (fun i => f i * c) = Rsum n f * c.
Proof. induction n as [|n IH]; simpl; [lra|]. rewrite IH. lra. Qed.

Lemma Rsum_swap (n m : nat) (f : nat -> nat -> R) :
  Rsum n (fun i => Rsum m (fun j => f i j)) = Rsum m (fun j => Rsum n (fun i => f i j)).
Proof.
  induction n as [|n IH]; simpl.
  - now rewrite Rsum_zero.
  - rewrite IH, <- Rsum_plus. reflexivity.
Qed.

Lemma Rsum_single (n k : nat) (f : nat -> R) :
  (k < n)%nat -> (forall i, (i < n)%nat -> i <> k -> f i = 0) -> Rsum n f = f k.
Proof.
  induction n as [|n IH]; intros Hk Hz; [lia|]. simpl.
  destruct (Nat.eq_dec k n) as [->|Hne].
  - rewrite (@Rsum_ext _ _ (fun _ => 0)) by (intros; apply Hz; lia).
    rewrite Rsum_zero. lra.
  - rewrite IH by (try lia; intros; apply Hz; lia).
    rewrite (Hz n) by lia. lra.
Qed.

Lemma sum1_Rsum (v : tensor1) : torch.sum1 v = Rsum (length v) (get1 v).
Proof.
  induction v as [|x v IH] using rev_ind; [reflexivity|].
  rewrite length_app, Nat.add_1_r. simpl.
  unfold torch.sum1 in *. rewrite fold_right_app. simpl.
  assert (G : forall (l : list R) (a : R), fold_right Rplus a l = fold_right Rplus 0 l + a).
  { induction l as [|y l IHl]; intros a; simpl; [lra|]. rewrite IHl. lra. }
  rewrite G, IH. f_equal.
  - apply Rsum_ext. intros i Hi. unfold get1. now rewrite app_nth1.
  - unfold get1. rewrite app_nth2, Nat.sub_diag by lia. simpl. lra.
Qed.

Lemma sum2_Rsum (m : tensor2) (r c : nat) :
  shape2 m r c -> torch.sum2 m = Rsum r (fun i => Rsum c (fun j => get2 m i j)).
Proof.
  revert r. induction m as [|row m IH] using rev_ind; intros r [Hl Hf].
  - simpl in Hl. subst r. reflexivity.
  - rewrite length_app, Nat.add_1_r in Hl. subst r. simpl.
    apply Forall_app in Hf. destruct Hf as [Hf Hrow].
    unfold torch.sum2 in *. rewrite fold_right_app. simpl.
    assert (G : forall (l : tensor2) (a : R),
               fold_right (fun row acc => torch.sum1 row + acc) a l
               = fold_right (fun row acc => torch.sum1 row + acc) 0 l + a).
    { induction l as [|y l IHl]; intros a; simpl; [lra|]. rewrite IHl. lra. }
    rewrite G, (IH (length m)) by (split; [reflexivity | exact Hf]). f_equal.
    + apply Rsum_ext. intros i Hi. apply Rsum_ext. intros j Hj.
      unfold get2. now rewrite app_nth1.
    + inversion Hrow as [|? ? Hr _]; subst. unfold shape1 in Hr.
      rewrite sum1_Rsum, Hr, Rplus_0_r. apply Rsum_ext. intros j Hj.
      unfold get2. now rewrite app_nth2, Nat.sub_diag by lia.
Qed.

(** ** The packed lower triangle *)

Lemma tri_double (n : nat) : (2 * tri n = n * (n + 1))%nat.
Proof. induction n as [|n IH]; simpl; [reflexivity|]. lia. Qed.

Lemma tri_closed_form (n : nat) : tri n = (n * (n + 1) / 2)%nat.
Proof.
  rewrite <- tri_double, Nat.mul_comm. symmetry. apply Nat.div_mul. discriminate.
Qed.

Lemma tri_mono (a b : nat) : (a <= b)%nat -> (tri a <= tri b)%nat.
Proof.
  induction 1 as [|b Hle IH]; [lia|]. simpl. lia.
Qed.

Lemma tri_index_bound (r c K : nat) :
  (c <= r)%nat -> (r < K)%nat -> (tri r + c < tri K)%nat.
Proof.
  intros Hc Hr. pose proof (@tri_mono (S r) K Hr) as H. simpl in H. lia.
Qed.

Lemma tril_indices_S (n : nat) :
  torch.tril_indices (S n)
  = torch.tril_indices n ++ map (fun c => (n, c)) (seq 0 (S n)).
Proof.
  unfold torch.tril_indices. rewrite seq_S, flat_map_app.
  cbn [flat_map Nat.add]. rewrite app_nil_r. do 2 f_equal.
  now rewrite seq_S.
Qed.

Lemma tril_indices_length (n : nat) : length (torch.tril_indices n) = tri n.
Proof.
  induction n as [|n IH]; [reflexivity|].
  rewrite tril_indices_S, length_app, length_map, length_seq, IH. reflexivity.
Qed.

Lemma tril_indices_In (n r c : nat) :
  In (r, c) (torch.tril_indices n) <-> (c <= r /\ r < n)%nat.
Proof.
  induction n as [|n IH].
  - simpl. lia.
  - rewrite tril_indices_S, in_app_iff, IH, in_map_iff. split.
    + intros [H | [c' [E Hin]]]; [lia|].
      inversion E; subst. apply in_seq in Hin. lia.
    + intros [Hc Hr]. destruct (Nat.eq_dec r n) as [->|Hne].
      * right. exists c. split; [reflexivity|]. apply in_seq. lia.
      * left. lia.
Qed.

Lemma tril_indices_NoDup (n : nat) : NoDup (torch.tril_indices n).
Proof.
  induction n as [|n IH]; [constructor|].
  rewrite tril_indices_S. apply NoDup_app.
  - exact IH.
  - apply Injective_map_NoDup; [|apply seq_NoDup].
    intros a b E. now inversion E.
  - intros [r c] H1 H2. apply tril_indices_In in H1.
    apply in_map_iff in H2. destruct H2 as [c' [E _]]. inversion E. lia.
Qed.

Lemma tril_indices_nth (n r c : nat) :
  (c <= r)%nat -> (r < n)%nat ->
  nth (tri r + c) (torch.tril_indices n) (0%nat, 0%nat) = (r, c).
Proof.
  induction n as [|n IH]; intros Hc Hr; [lia|].
  rewrite tril_indices_S. destruct (Nat.eq_dec r n) as [->|Hne].
  - rewrite app_nth2; rewrite tril_indices_length; [|lia].
    replace (tri n + c - tri n)%nat with c by lia.
    rewrite (nth_indep _ _ ((fun c => (n, c)) 0%nat))
      by (rewrite length_map, length_seq; lia).
    rewrite map_nth, seq_nth by lia. reflexivity.
  - assert (Hlt : (tri r + c < tri n)%nat) by (apply tri_index_bound; lia).
    rewrite app_nth1 by (rewrite tril_indices_length; exact Hlt).
    apply IH; lia.
Qed.

Lemma cumsum_from_seq (a n : nat) :
  np.cumsum_from (tri a) (seq (S a) n) = map (fun j => tri (S j)) (seq a n).
Proof.
  revert a. induction n as [|n IH]; intros a; [reflexivity|].
  simpl. f_equal. apply (IH (S a)).
Qed.

(** The indices [np.cumsum(np.arange(1, K + 1)) - 1] that [KL] computes. *)
Lemma diag_indexes_tab (K : nat) :
  map (fun c => (c - 1)%nat) (np.cumsum (np.arange 1 (K + 1)))
  = tab K (fun j => (tri (S j) - 1)%nat).
Proof.
  unfold np.cumsum, np.arange.
  replace (K + 1 - 1)%nat with K by lia.
  change (np.cumsum_from 0 (seq 1 K)) with (np.cumsum_from (tri 0) (seq 1 K)).
  rewrite (cumsum_from_seq 0 K), map_map. reflexivity.
Qed.

Lemma upd_length {A : Type} (i : nat) (f : A -> A) (l : list A) :
  length (torch.upd i f l) = length l.
Proof.
  revert i. induction l as [|x l IH]; intros [|i]; simpl; auto.
Qed.

Lemma nth_upd {A : Type} (i j : nat) (f : A -> A) (l : list A) (d : A) :
  (i < length l)%nat ->
  nth j (torch.upd i f l) d = if (j =? i)%nat then f (nth i l d) else nth j l d.
Proof.
  revert i j. induction l as [|x l IH]; intros i j H; simpl in H; [lia|].
  destruct i as [|i], j as [|j]; simpl; auto.
  apply IH. lia.
Qed.

Lemma nth_upd_out {A : Type} (i : nat) (f : A -> A) (l : list A) :
  (length l <= i)%nat -> torch.upd i f l = l.
Proof.
  revert i. induction l as [|x l IH]; intros [|i] H; simpl in *; auto; try lia.
  f_equal. apply IH. lia.
Qed.

(** One write of [index_put], read back at any position. *)
Lemma put_one_get (q : tensor3) (r' c' r c : nat) (v : tensor1) :
  (r' < length q)%nat -> (c' < length (nth r' q []))%nat ->
  nth c (nth r (torch.upd r' (torch.upd c' (fun _ => v)) q) []) []
  = if ((r =? r') && (c =? c'))%nat then v else nth c (nth r q []) [].
Proof.
  intros Hr Hc. rewrite nth_upd by exact Hr.
  destruct (r =? r')%nat eqn:Er; simpl; [|reflexivity].
  apply Nat.eqb_eq in Er. subst r'.
  rewrite nth_upd by exact Hc. reflexivity.
Qed.

Lemma put_one_dims (q : tensor3) (r' c' r : nat) (v : tensor1) :
  length (torch.upd r' (torch.upd c' (fun _ => v)) q) = length q
  /\ length (nth r (torch.upd r' (torch.upd c' (fun _ => v)) q) [])
     = length (nth r q []).
Proof.
  split; [apply upd_length|].
  destruct (Nat.lt_ge_cases r' (length q)) as [Hlt|Hge].
  - rewrite nth_upd by exact Hlt.
    destruct (r =? r')%nat eqn:Er; [|reflexivity].
    apply Nat.eqb_eq in Er. subst. apply upd_length.
  - now rewrite nth_upd_out.
Qed.

Lemma index_put_dims (idx : list (nat * nat)) (vals : tensor2) (q : tensor3) (r : nat) :
  length (torch.index_put_rows q idx vals) = length q
  /\ length (nth r (torch.index_put_rows q idx vals) []) = length (nth r q []).
Proof.
  unfold torch.index_put_rows. revert vals q.
  induction idx as [|[r' c'] idx IH]; intros vals q; [auto|].
  destruct vals as [|v vals]; [auto|]. simpl.
  destruct (IH vals (torch.upd r' (torch.upd c' (fun _ => v)) q)) as [E1 E2].
  destruct (put_one_dims q r' c' r v) as [F1 F2].
  split; [exact (eq_trans E1 F1) | exact (eq_trans E2 F2)].
Qed.

Lemma index_put_notin (idx : list (nat * nat)) (vals : tensor2) (q : tensor3) (r c : nat) :
  (forall p, In p idx -> (fst p < length q)%nat /\ (snd p < length (nth (fst p) q []))%nat) ->
  ~ In (r, c) idx ->
  nth c (nth r (torch.index_put_rows q idx vals) []) [] = nth c (nth r q []) [].
Proof.
  unfold torch.index_put_rows. revert vals q.
  induction idx as [|[r' c'] idx IH]; intros vals q Hin Hnot; [reflexivity|].
  destruct vals as [|v vals]; [reflexivity|]. simpl.
  destruct (Hin (r', c') (or_introl eq_refl)) as [Hr Hc]. simpl in Hr, Hc.
  rewrite IH.
  - rewrite put_one_get by assumption.
    destruct ((r =? r') && (c =? c'))%nat eqn:E; [|reflexivity].
    apply andb_true_iff in E. destruct E as [E1 E2].
    apply Nat.eqb_eq in E1, E2. subst. exfalso. apply Hnot. now left.
  - intros p Hp. destruct (put_one_dims q r' c' (fst p) v) as [F1 F2].
    rewrite F1, F2. apply Hin. now right.
  - intros H. apply Hnot. now right.
Qed.

Lemma index_put_in (idx : list (nat * nat)) (vals : tensor2) (q : tensor3) (k r c : nat) :
  NoDup idx ->
  (forall p, In p idx -> (fst p < length q)%nat /\ (snd p < length (nth (fst p) q []))%nat) ->
  (k < length idx)%nat -> (k < length vals)%nat ->
  nth k idx (0%nat, 0%nat) = (r, c) ->
  nth c (nth r (torch.index_put_rows q idx vals) []) [] = nth k vals [].
Proof.
  revert vals q k.
  induction idx as [|[r' c'] idx IH]; intros vals q k Hnd Hin Hk Hv Hnth;
    [simpl in Hk; lia|].
  destruct vals as [|v vals]; [simpl in Hv; lia|].
  inversion Hnd as [|? ? Hnotin Hnd']; subst.
  destruct (Hin (r', c') (or_introl eq_refl)) as [Hr Hc]. simpl in Hr, Hc.
  assert (Hin' : forall p, In p idx ->
            (fst p < length (torch.upd r' (torch.upd c' (fun _ => v)) q))%nat
            /\ (snd p < length (nth (fst p)
                  (torch.upd r' (torch.upd c' (fun _ => v)) q) []))%nat).
  { intros p Hp. destruct (put_one_dims q r' c' (fst p) v) as [F1 F2].
    rewrite F1, F2. apply Hin. now right. }
  destruct k as [|k]; simpl in Hnth.
  - inversion Hnth; subst.
    change (torch.index_put_rows q ((r, c) :: idx) (v :: vals))
      with (torch.index_put_rows (torch.upd r (torch.upd c (fun _ => v)) q) idx vals).
    rewrite index_put_notin by assumption.
    rewrite put_one_get by assumption. now rewrite !Nat.eqb_refl.
  - change (torch.index_put_rows q ((r', c') :: idx) (v :: vals))
      with (torch.index_put_rows (torch.upd r' (torch.upd c' (fun _ => v)) q) idx vals).
    change (nth (S k) (v :: vals) []) with (nth k vals []).
    simpl in Hk, Hv. apply IH; try assumption; lia.
Qed.

(** Under the shape of the packed parameter nothing is broadcast: a vector
    is the single row of a one-by-one triangle. *)
Lemma expand_rows_shape (p : tensor12) (n D : nat) :
  shape2 p n D -> torch.expand_rows n p = rows p.
Proof.
  intros [Hl _]. destruct p as [v|m]; [|reflexivity].
  simpl in Hl. subst n. reflexivity.
Qed.

Lemma unpack_rows (K D : nat) (packed : tensor12) :
  shape2 packed (tri K) D ->
  unpack K D packed
  = torch.index_put_rows (torch.zeros3 K K D) (torch.tril_indices K) (rows packed).
Proof.
  intros Hs. unfold unpack, torch.index_put.
  now rewrite tril_indices_length, (expand_rows_shape packed (tri K) D Hs).
Qed.

(** The dense factor, entry by entry: the lower triangle holds the packed
    entries row by row, the rest stays zero. *)
Lemma unpack_get (K D : nat) (packed : tensor12) (r c d : nat) :
  shape2 packed (tri K) D -> (r < K)%nat -> (c < K)%nat -> (d < D)%nat ->
  get3 (unpack K D packed) r c d
  = if (c <=? r)%nat then get2 packed (tri r + c) d else 0.
Proof.
  intros Hs Hr Hc Hd. rewrite (unpack_rows K D packed Hs). unfold get3, get2.
  assert (Hz : forall p, In p (torch.tril_indices K) ->
            (fst p < length (torch.zeros3 K K D))%nat
            /\ (snd p < length (nth (fst p) (torch.zeros3 K K D) []))%nat).
  { intros [r' c'] Hp. apply tril_indices_In in Hp. simpl.
    unfold torch.zeros3. rewrite tab_length, nth_tab, tab_length by lia. lia. }
  destruct (c <=? r)%nat eqn:E.
  - apply Nat.leb_le in E.
    assert (Hk : (tri r + c < tri K)%nat) by (apply tri_index_bound; lia).
    rewrite (@index_put_in _ _ _ (tri r + c)%nat); auto.
    + apply tril_indices_NoDup.
    + now rewrite tril_indices_length.
    + destruct Hs as [Hl _]. now rewrite Hl.
    + now apply tril_indices_nth.
  - apply Nat.leb_gt in E. rewrite index_put_notin; auto.
    + unfold torch.zeros3, get1. now rewrite !nth_tab.
    + intros H. apply tril_indices_In in H. lia.
Qed.

Lemma unpack_dims (K D : nat) (packed : tensor12) (r : nat) :
  length (unpack K D packed) = K
  /\ ((r < K)%nat -> length (nth r (unpack K D packed) []) = K).
Proof.
  unfold unpack, torch.index_put.
  destruct (index_put_dims (torch.tril_indices K)
              (torch.expand_rows (length (torch.tril_indices K)) packed)
              (torch.zeros3 K K D) r)
    as [E1 E2].
  rewrite E1, E2. unfold torch.zeros3. rewrite tab_length. split; [reflexivity|].
  intros H. now rewrite nth_tab, tab_length.
Qed.

(** The j-th diagonal entry of the dense factor sits at packed index
    [(1 + ... + (j + 1)) - 1]. *)
Lemma unpack_diagonal (K D : nat) (packed : tensor12) (j d : nat) :
  shape2 packed (tri K) D -> (j < K)%nat -> (d < D)%nat ->
  get3 (unpack K D packed) j j d = get2 packed (tri (S j) - 1) d.
Proof.
  intros Hs Hj Hd. rewrite unpack_get by assumption.
  rewrite Nat.leb_refl. simpl. f_equal. lia.
Qed.

(** ** What a method body leaves alone *)

Section Frame.

Variable Self : Type.
Variable P : Self -> Prop.

Lemma preserves_ret {A : Type} (a : A) : preserves Self P (ret a).
Proof. intros s b H. exact H. Qed.

Lemma preserves_this : preserves Self P this.
Proof. intros s b H. exact H. Qed.

Lemma preserves_raise {A : Type} (e : exn) : preserves Self P (A := A) (raise e).
Proof. intros s b H. exact H. Qed.

Lemma preserves_lift {A : Type} (r : exn + A) : preserves Self P (lift r).
Proof. intros s b H. unfold lift. now destruct r. Qed.

Lemma preserves_finite_if (ok : bool) : preserves Self P (finite_if ok).
Proof. intros s b H. exact H. Qed.

Lemma preserves_fits (ok : bool) (msg : string) : preserves Self P (fits ok msg).
Proof. intros s b H. unfold fits. now destruct ok. Qed.

Lemma preserves_getattr {A : Type} (name : string) (field : Self -> option A) :
  preserves Self P (getattr name field).
Proof. intros s b H. unfold getattr. simpl. now destruct (field s). Qed.

Lemma preserves_assign (f : Self -> Self) :
  (forall s, P s -> P (f s)) -> preserves Self P (assign f).
Proof. intros Hf s b H. simpl. now apply Hf. Qed.

Lemma preserves_bind {A B : Type} (m : M Self A) (k : A -> M Self B) :
  preserves Self P m -> (forall a, preserves Self P (k a)) -> preserves Self P (bind m k).
Proof.
  intros Hm Hk s b H. unfold bind.
  specialize (Hm s b H). destruct (m (s, b)) as [[s' b'] [a|e]]; simpl in *.
  - now apply Hk.
  - exact Hm.
Qed.

Lemma preserves_cholesky (K : tensor3) : preserves Self P (cholesky K).
Proof.
  intros s b H. unfold cholesky. simpl. destruct b; [exact H|].
  now apply preserves_lift.
Qed.

Lemma preserves_solve_triangular (A B : tensor3) (upper left : bool) :
  preserves Self P (solve_triangular A B upper left).
Proof.
  unfold solve_triangular.
  apply preserves_bind; [apply preserves_fits|]. intros _.
  apply preserves_bind; [apply preserves_finite_if|]. intros _.
  apply preserves_ret.
Qed.

Lemma preserves_einsum_snd_sd_nd (a : tensor3) (b : tensor2) :
  preserves Self P (einsum_snd_sd_nd a b).
Proof.
  unfold einsum_snd_sd_nd.
  apply preserves_bind; [apply preserves_fits|]. intros _. apply preserves_ret.
Qed.

Lemma preserves_einsum_ind_sid_snd (a b : tensor3) :
  preserves Self P (einsum_ind_sid_snd a b).
Proof.
  unfold einsum_ind_sid_snd.
  apply preserves_bind; [apply preserves_fits|]. intros _. apply preserves_ret.
Qed.

Lemma call_preserves {A : Type} (m : M Self A) (s : Self) :
  preserves Self P m -> P s -> P (fst (call m s)).
Proof.
  intros Hm H. unfold call. specialize (Hm s false H).
  destruct (m (s, false)) as [[s' b'] [a|e]]; exact Hm.
Qed.

End Frame.

Ltac frame :=
  repeat first
    [ apply preserves_ret | apply preserves_this | apply preserves_raise
    | apply preserves_lift | apply preserves_finite_if | apply preserves_fits
    | apply preserves_getattr | apply preserves_cholesky
    | apply preserves_solve_triangular
    | apply preserves_einsum_snd_sd_nd | apply preserves_einsum_ind_sid_snd
    | apply preserves_bind; [|intros]
    | apply preserves_assign; intros
    | match goal with
      | |- preserves _ _ (match ?x with _ => _ end) => destruct x
      end
    | progress cbv zeta ].

(** ** The shape of the packed factor *)

(** Read as rows, [q[li, lj]] is one row per index pair whatever its rank. *)
Lemma take_pairs_rows (q : tensor3) (idx : list (nat * nat)) :
  rows (np.take_pairs q idx) = map (fun p => nth (snd p) (nth (fst p) q []) []) idx.
Proof. destruct idx as [|p [|p' idx]]; reflexivity. Qed.

Lemma packed_identity_shape (K D : nat) (v : R) :
  shape2 (np.take_pairs (np.tile_last (np.scale2 (np.eye K) v) D) (torch.tril_indices K))
         (tri K) D.
Proof.
  split.
  - rewrite take_pairs_rows. now rewrite length_map, tril_indices_length.
  - apply Forall_forall. intros row Hin. rewrite take_pairs_rows in Hin.
    apply in_map_iff in Hin. destruct Hin as [[r c] [<- Hp]].
    apply tril_indices_In in Hp. simpl. unfold shape1, np.tile_last.
    assert (Hrow : length (nth r (np.scale2 (np.eye K) v) []) = K).
    { unfold np.scale2, np.eye.
      rewrite (@nth_map_in _ _ _ _ _ _ []) by (rewrite tab_length; lia).
      unfold np.scale1. rewrite length_map, nth_tab, tab_length by lia. reflexivity. }
    rewrite (@nth_map_in _ _ _ _ _ _ [])
      by (unfold np.scale2, np.eye; rewrite length_map, tab_length; lia).
    rewrite (@nth_map_in _ _ _ _ _ _ 0) by (rewrite Hrow; lia).
    apply tab_length.
Qed.

Lemma VIPLayer_keeps_packed (s : VIPLayer.t) (X : tensor2) (b : bool) :
  data (VIPLayer.q_sqrt_tri (fst (VIPLayer.forward s X b))) = data (VIPLayer.q_sqrt_tri s)
  /\ data (VIPLayer.q_sqrt_tri (fst (VIPLayer.KL s))) = data (VIPLayer.q_sqrt_tri s)
  /\ data (VIPLayer.q_sqrt_tri (fst (VIPLayer.freeze_posterior s)))
     = data (VIPLayer.q_sqrt_tri s)
  /\ data (VIPLayer.q_sqrt_tri (fst (VIPLayer.freeze_prior s)))
     = data (VIPLayer.q_sqrt_tri s).
Proof.
  pose (P := fun x : VIPLayer.t => data (VIPLayer.q_sqrt_tri x) = data (VIPLayer.q_sqrt_tri s)).
  split; [|split; [|split]].
  - unfold VIPLayer.forward. apply (@call_preserves _ P); [|reflexivity].
    subst P. frame; auto.
  - unfold VIPLayer.KL. apply (@call_preserves _ P); [|reflexivity].
    subst P. frame; auto.
  - unfold VIPLayer.freeze_posterior. apply (@call_preserves _ P); [|reflexivity].
    subst P. frame; auto.
  - unfold VIPLayer.freeze_prior. apply (@call_preserves _ P); [|reflexivity].
    subst P. frame; auto.
Qed.

Lemma VIPLayerInducing_keeps_packed (s : VIPLayerInducing.t) (X : tensor2) (b : bool) :
  data (VIPLayerInducing.q_sqrt_tri (fst (VIPLayerInducing.forward s X b)))
  = data (VIPLayerInducing.q_sqrt_tri s)
  /\ data (VIPLayerInducing.q_sqrt_tri (fst (VIPLayerInducing.KL s)))
     = data (VIPLayerInducing.q_sqrt_tri s)
  /\ data (VIPLayerInducing.q_sqrt_tri (fst (VIPLayerInducing.freeze_posterior s)))
     = data (VIPLayerInducing.q_sqrt_tri s)
  /\ data (VIPLayerInducing.q_sqrt_tri (fst (VIPLayerInducing.freeze_prior s)))
     = data (VIPLayerInducing.q_sqrt_tri s).
Proof.
  pose (P := fun x : VIPLayerInducing.t =>
               data (VIPLayerInducing.q_sqrt_tri x) = data (VIPLayerInducing.q_sqrt_tri s)).
  split; [|split; [|split]].
  - unfold VIPLayerInducing.forward. apply (@call_preserves _ P); [|reflexivity].
    subst P. frame; auto.
  - unfold VIPLayerInducing.KL. apply (@call_preserves _ P); [|reflexivity].
    subst P. frame; auto.
  - unfold VIPLayerInducing.freeze_posterior. apply (@call_preserves _ P); [|reflexivity].
    subst P. frame; auto.
  - unfold VIPLayerInducing.freeze_prior. apply (@call_preserves _ P); [|reflexivity].
    subst P. frame; auto.
Qed.

Lemma SparseGP_keeps_packed (s : SparseGP.t) (X : tensor2) (b : bool) :
  data (SparseGP.q_sqrt_tri (fst (SparseGP.forward s X b))) = data (SparseGP.q_sqrt_tri s)
  /\ data (SparseGP.q_sqrt_tri (fst (SparseGP.KL s))) = data (SparseGP.q_sqrt_tri s)
  /\ data (SparseGP.q_sqrt_tri (fst (SparseGP.freeze_posterior s)))
     = data (SparseGP.q_sqrt_tri s)
  /\ data (SparseGP.q_sqrt_tri (fst (SparseGP.freeze_prior s)))
     = data (SparseGP.q_sqrt_tri s).
Proof.
  pose (P := fun x : SparseGP.t =>
               data (SparseGP.q_sqrt_tri x) = data (SparseGP.q_sqrt_tri s)).
  split; [|split; [|split]].
  - unfold SparseGP.forward. apply (@call_preserves _ P); [|reflexivity].
    subst P. frame; auto.
  - unfold SparseGP.KL. apply (@call_preserves _ P); [|reflexivity].
    subst P. frame; auto.
  - unfold SparseGP.freeze_posterior. apply (@call_preserves _ P); [|reflexivity].
    subst P. frame; auto.
  - unfold SparseGP.freeze_prior. apply (@call_preserves _ P); [|reflexivity].
    subst P. frame; auto.
Qed.

(** A packed factor of more than one row is a matrix. *)
Lemma packed_is_matrix (p : tensor12) (n D : nat) :
  shape2 p n D -> n <> 1%nat -> exists m, p = Mat m.
Proof.
  intros [Hl _] Hn. destruct p as [v|m]; [|now exists m].
  simpl in Hl. congruence.
Qed.

Lemma tri_not_one (K : nat) : K <> 1%nat -> tri K <> 1%nat.
Proof.
  intros H. destruct K as [|[|K]]; [discriminate | contradiction | simpl; lia].
Qed.

(** With two or more index pairs [q[li, lj]] is a matrix, with a single
    pair a vector. *)
Lemma take_pairs_matrix (q : tensor3) (idx : list (nat * nat)) :
  length idx <> 1%nat ->
  np.take_pairs q idx = Mat (map (fun p => nth (snd p) (nth (fst p) q []) []) idx).
Proof.
  intros H. destruct idx as [|p [|p' idx]]; [reflexivity | | reflexivity].
  simpl in H. contradiction.
Qed.

Lemma packed_identity_matrix (K D : nat) (v : R) :
  (2 <= K)%nat ->
  exists m,
    np.take_pairs (np.tile_last (np.scale2 (np.eye K) v) D) (torch.tril_indices K) = Mat m
    /\ shape2 m (K * (K + 1) / 2) D.
Proof.
  intros HK. pose proof (packed_identity_shape K D v) as Hs.
  assert (Hn : length (torch.tril_indices K) <> 1%nat)
    by (rewrite tril_indices_length; apply tri_not_one; lia).
  rewrite (take_pairs_matrix _ _ Hn) in *.
  eexists. split; [reflexivity|]. rewrite <- tri_closed_form. exact Hs.
Qed.

(** C4, as the code has it: with two or more basis functions or inducing
    points K, the packed factor [q_sqrt_tri] is at construction a matrix of
    shape (K(K+1)/2, D), one row per entry of the lower triangle and one
    column per output dimension, for every such K and every output
    dimension D, in all three classes; and no method of a layer ([forward],
    [KL], [freeze_posterior], [freeze_prior]) changes its entries or its
    rank, hence its shape. *)
Theorem q_sqrt_tri_shape :
  (forall g K din D flag noise v_sqrt v_mu mf, (2 <= K)%nat ->
      exists m,
        data (VIPLayer.q_sqrt_tri (VIPLayer.init g K din D flag noise v_sqrt v_mu mf))
        = Mat m
        /\ shape2 m (K * (K + 1) / 2) D)
  /\ (forall g Z din D flag noise v_sqrt v_mu mf, (2 <= length Z)%nat ->
      exists m,
        data (VIPLayerInducing.q_sqrt_tri
                (VIPLayerInducing.init g Z din D flag noise v_sqrt v_mu mf))
        = Mat m
        /\ shape2 m (length Z * (length Z + 1) / 2) D)
  /\ (forall g Z din D flag noise v_sqrt v_mu mf, (2 <= length Z)%nat ->
      exists m,
        data (SparseGP.q_sqrt_tri (SparseGP.init g Z din D flag noise v_sqrt v_mu mf))
        = Mat m
        /\ shape2 m (length Z * (length Z + 1) / 2) D)
  /\ (forall s X b,
      data (VIPLayer.q_sqrt_tri (fst (VIPLayer.forward s X b))) = data (VIPLayer.q_sqrt_tri s)
      /\ data (VIPLayer.q_sqrt_tri (fst (VIPLayer.KL s))) = data (VIPLayer.q_sqrt_tri s)
      /\ data (VIPLayer.q_sqrt_tri (fst (VIPLayer.freeze_posterior s)))
         = data (VIPLayer.q_sqrt_tri s)
      /\ data (VIPLayer.q_sqrt_tri (fst (VIPLayer.freeze_prior s)))
         = data (VIPLayer.q_sqrt_tri s))
  /\ (forall s X b,
      data (VIPLayerInducing.q_sqrt_tri (fst (VIPLayerInducing.forward s X b)))
      = data (VIPLayerInducing.q_sqrt_tri s)
      /\ data (VIPLayerInducing.q_sqrt_tri (fst (VIPLayerInducing.KL s)))
         = data (VIPLayerInducing.q_sqrt_tri s)
      /\ data (VIPLayerInducing.q_sqrt_tri (fst (VIPLayerInducing.freeze_posterior s)))
         = data (VIPLayerInducing.q_sqrt_tri s)
      /\ data (VIPLayerInducing.q_sqrt_tri (fst (VIPLayerInducing.freeze_prior s)))
         = data (VIPLayerInducing.q_sqrt_tri s))
  /\ (forall s X b,
      data (SparseGP.q_sqrt_tri (fst (SparseGP.forward s X b))) = data (SparseGP.q_sqrt_tri s)
      /\ data (SparseGP.q_sqrt_tri (fst (SparseGP.KL s))) = data (SparseGP.q_sqrt_tri s)
      /\ data (SparseGP.q_sqrt_tri (fst (SparseGP.freeze_posterior s)))
         = data (SparseGP.q_sqrt_tri s)
      /\ data (SparseGP.q_sqrt_tri (fst (SparseGP.freeze_prior s)))
         = data (SparseGP.q_sqrt_tri s)).
Proof.
  split; [|split; [|split; [|split; [|split]]]].
  - intros g K din D flag noise v_sqrt v_mu mf HK.
    exact (packed_identity_matrix K D v_sqrt HK).
  - intros g Z din D flag noise v_sqrt v_mu mf HK.
    exact (packed_identity_matrix (length Z) D v_sqrt HK).
  - intros g Z din D flag noise v_sqrt v_mu mf HK.
    exact (packed_identity_matrix (length Z) D v_sqrt HK).
  - apply VIPLayer_keeps_packed.
  - apply VIPLayerInducing_keeps_packed.
  - apply SparseGP_keeps_packed.
Qed.

Lemma q_sqrt_tri_shape_witness :
  exists m,
    data (VIPLayer.q_sqrt_tri
            (VIPLayer.init (constant_samples []) 2 1 3 false None 1 0 None))
    = Mat m
    /\ shape2 m 3 3.
Proof.
  exact (proj1 q_sqrt_tri_shape (constant_samples []) 2%nat 1%nat 3%nat false None 1 0 None
               (le_n 2)).
Defined.

(** With a single basis function or inducing point the index tensors of the
    lower triangle have one entry each, and what the constructors store is
    a vector: the D entries [q_sqrt[0, 0, :]]. *)
Lemma q_sqrt_tri_single_is_vector
    (g : GenerativeFunction) (z : tensor1) (din D : nat) (flag : bool)
    (noise : option R) (v_sqrt v_mu : R) (mf : option (tensor2 -> tensor2)) :
  data (VIPLayer.q_sqrt_tri (VIPLayer.init g 1 din D flag noise v_sqrt v_mu mf))
  = Vec (tab D (fun _ => 1 * v_sqrt))
  /\ data (VIPLayerInducing.q_sqrt_tri
             (VIPLayerInducing.init g [z] din D flag noise v_sqrt v_mu mf))
     = Vec (tab D (fun _ => 1 * v_sqrt))
  /\ data (SparseGP.q_sqrt_tri (SparseGP.init g [z] din D flag noise v_sqrt v_mu mf))
     = Vec (tab D (fun _ => 1 * v_sqrt)).
Proof. repeat split. Qed.

(** C4 as stated fails: with two coefficients and one output dimension the
    packed factor built by the constructor has three rows of one entry, not
    one row of three entries. *)
Lemma q_sqrt_tri_shape_not_D_first :
  ~ shape2 (data (VIPLayer.q_sqrt_tri
                    (VIPLayer.init (constant_samples []) 2 1 1 false None 1 0 None)))
           1 (2 * (2 + 1) / 2).
Proof.
  intros [Hlen _]. vm_compute in Hlen. discriminate Hlen.
Qed.

(** ** [VIPLayer.KL] *)

Lemma map_tab {A B : Type} (g : A -> B) (n : nat) (f : nat -> A) :
  map g (tab n f) = tab n (fun i => g (f i)).
Proof. unfold tab. now rewrite map_map. Qed.

Lemma shape2_map2 (f : R -> R) (m : tensor2) (r c : nat) :
  shape2 m r c -> shape2 (map (map f) m) r c.
Proof.
  intros [Hl Hf]. split; [now rewrite length_map|].
  apply Forall_forall. intros row Hin. apply in_map_iff in Hin.
  destruct Hin as [row' [<- Hin]]. rewrite Forall_forall in Hf.
  unfold shape1. rewrite length_map. now apply Hf.
Qed.

Lemma get2_map2 (f : R -> R) (m : tensor2) (r c i j : nat) :
  shape2 m r c -> (i < r)%nat -> (j < c)%nat ->
  get2 (map (map f) m) i j = f (get2 m i j).
Proof.
  intros Hs Hi Hj. unfold get2, get1. destruct Hs as [Hl Hf].
  rewrite (@nth_map_in _ _ _ _ _ _ []) by lia.
  apply nth_map_in. rewrite (@shape2_row m r c i); auto. now split.
Qed.

(** The rows [KL] gathers from the packed factor. *)
Lemma diag_rows_shape (K D : nat) (packed : tensor2) :
  shape2 packed (tri K) D ->
  shape2 (tab K (fun j => nth (tri (S j) - 1) packed [])) K D.
Proof.
  intros Hs. split; [apply tab_length|].
  apply Forall_forall. intros row Hin. unfold tab in Hin.
  apply in_map_iff in Hin. destruct Hin as [j [<- Hj]]. apply in_seq in Hj.
  apply (@shape2_row packed (tri K) D); [exact Hs|].
  pose proof (@tri_index_bound j j K (le_n j)) as Hb. simpl. lia.
Qed.

Lemma all_pos2_abs (m : tensor2) (r c : nat) :
  shape2 m r c ->
  (forall i j, (i < r)%nat -> (j < c)%nat -> get2 m i j <> 0) ->
  torch.all_pos2 (torch.abs2 m) = true.
Proof.
  intros Hs Hnz. unfold torch.all_pos2, torch.abs2.
  apply forallb_forall. intros row Hin. apply in_map_iff in Hin.
  destruct Hin as [row' [<- Hin]]. apply forallb_forall. intros x Hx.
  apply in_map_iff in Hx. destruct Hx as [y [<- Hy]].
  destruct (In_nth _ _ [] Hin) as [i [Hi Ei]].
  destruct (In_nth _ _ 0 Hy) as [j [Hj Ej]].
  destruct Hs as [Hl Hf].
  assert (Hrow : length row' = c).
  { rewrite Forall_forall in Hf. now apply Hf. }
  assert (Hy0 : y <> 0).
  { rewrite <- Ej, <- Ei. apply (Hnz i j); lia. }
  unfold torch.is_pos. destruct (Rlt_dec 0 (Rabs y)) as [_|Hn]; [reflexivity|].
  exfalso. apply Hn. now apply Rabs_pos_lt.
Qed.

(** What [KL] gathers with [q_sqrt_tri[diag_indexes]]: the diagonal rows of
    the packed factor, when that is a matrix or has a single column.  (Of a
    vector of two or more entries, it gathers the first entry only.) *)
Lemma diag_rows_gather (p : tensor12) (K D : nat) :
  shape2 p (tri K) D -> K <> 1%nat \/ D = 1%nat ->
  rows (torch.index_rows p (tab K (fun j => (tri (S j) - 1)%nat)))
  = tab K (fun j => nth (tri (S j) - 1) (rows p) []).
Proof.
  intros Hs HK. destruct p as [v|m].
  - destruct Hs as [Hl Hf]. simpl in Hl.
    assert (K = 1%nat).
    { destruct K as [|[|K]]; [discriminate Hl | reflexivity | simpl in Hl; lia]. }
    subst K. destruct HK as [HK|HD]; [contradiction|]. subst D.
    inversion Hf as [|? ? Hv _]; subst. unfold shape1 in Hv.
    destruct v as [|x [|y v]]; try discriminate Hv. reflexivity.
  - simpl. now rewrite map_tab.
Qed.

(** Where the packed factor is a matrix (any number of coefficients but
    one) or there is a single output dimension: for a layer with S
    coefficients and D output dimensions whose dense factor has no zero on
    its diagonal, [KL()] returns
    -1/2 D S - sum log |diag| + 1/2 sum q_sqrt_tri^2 + 1/2 sum q_mu^2, the
    sums running over all output dimensions, plus [generative_function.KL()]
    exactly when [add_prior_regularization] is set; the j-th diagonal entry
    is the packed entry at index (1 + ... + (j + 1)) - 1. *)
Lemma VIPLayer_KL_closed_form (self : VIPLayer.t) :
  let S := VIPLayer.num_coeffs self in
  let D := VIPLayer.output_dim self in
  let packed := data (VIPLayer.q_sqrt_tri self) in
  let mu := data (VIPLayer.q_mu self) in
  S <> 1%nat \/ D = 1%nat ->
  shape2 packed (tri S) D ->
  shape2 mu S D ->
  (forall j d, (j < S)%nat -> (d < D)%nat -> get3 (unpack S D packed) j j d <> 0) ->
  (forall j d, (j < S)%nat -> (d < D)%nat ->
     get3 (unpack S D packed) j j d = get2 packed (tri (j + 1) - 1) d)
  /\ VIPLayer.KL self
     = (self,
        Ok (- (1 / 2) * INR D * INR S
            - Rsum S (fun j => Rsum D (fun d => ln (Rabs (get2 packed (tri (j + 1) - 1) d))))
            + 1 / 2 * Rsum (tri S) (fun i => Rsum D (fun d => get2 packed i d * get2 packed i d))
            + 1 / 2 * Rsum S (fun s => Rsum D (fun d => get2 mu s d * get2 mu s d))
            + (if VIPLayer.add_prior_regularization self
               then gf_KL (VIPLayer.generative_function self) else 0))).
Proof.
  intros S D packed mu Hrank Hp Hmu Hnz.
  assert (Hdiag : forall j d, (j < S)%nat -> (d < D)%nat ->
            get3 (unpack S D packed) j j d = get2 packed (tri (j + 1) - 1) d).
  { intros j d Hj Hd. rewrite Nat.add_1_r. now apply unpack_diagonal. }
  split; [exact Hdiag|].
  unfold VIPLayer.KL, call, bind, this, finite_if, ret.
  cbv beta iota zeta delta [fst snd].
  rewrite diag_indexes_tab.
  fold S D packed mu. rewrite (diag_rows_gather packed S D Hp Hrank).
  pose proof (diag_rows_shape S D packed Hp) as Hrows.
  assert (Hget : forall j d, (j < S)%nat -> (d < D)%nat ->
            get2 (tab S (fun j => nth (tri (Datatypes.S j) - 1) packed [])) j d
            = get2 packed (tri (j + 1) - 1) d).
  { intros j d Hj Hd. unfold get2. rewrite nth_tab by exact Hj.
    now rewrite Nat.add_1_r. }
  rewrite (all_pos2_abs _ S D Hrows).
  2:{ intros j d Hj Hd. rewrite Hget, <- Hdiag by assumption. now apply Hnz. }
  cbn [orb negb].
  assert (E1 : torch.sum2 (torch.log2 (torch.abs2
                 (tab S (fun j => nth (tri (Datatypes.S j) - 1) packed []))))
               = Rsum S (fun j => Rsum D (fun d =>
                   ln (Rabs (get2 packed (tri (j + 1) - 1) d))))).
  { unfold torch.log2, torch.abs2.
    rewrite (@sum2_Rsum _ S D) by (now apply shape2_map2, shape2_map2).
    apply Rsum_ext. intros j Hj. apply Rsum_ext. intros d Hd.
    rewrite (@get2_map2 ln _ S D) by (try apply shape2_map2; assumption).
    rewrite (@get2_map2 Rabs _ S D) by assumption.
    now rewrite Hget. }
  assert (E2 : torch.sum2 (torch.square2 packed)
               = Rsum (tri S) (fun i => Rsum D (fun d => get2 packed i d * get2 packed i d))).
  { unfold torch.square2.
    rewrite (@sum2_Rsum _ (tri S) D) by (now apply shape2_map2).
    apply Rsum_ext. intros i Hi. apply Rsum_ext. intros d Hd.
    now rewrite (@get2_map2 (fun x => x * x) _ (tri S) D). }
  assert (E3 : torch.sum2 (torch.square2 mu)
               = Rsum S (fun s => Rsum D (fun d => get2 mu s d * get2 mu s d))).
  { unfold torch.square2.
    rewrite (@sum2_Rsum _ S D) by (now apply shape2_map2).
    apply Rsum_ext. intros i Hi. apply Rsum_ext. intros d Hd.
    now rewrite (@get2_map2 (fun x => x * x) _ S D). }
  rewrite E1, E2, E3.
  destruct (VIPLayer.add_prior_regularization self); cbv beta iota zeta delta [fst snd];
    do 2 f_equal; lra.
Qed.

(** ** [VIPLayer.forward] on concrete inputs *)

Ltac run_method :=
  cbv [call bind this assign finite_if fits ret raise lift getattr gf_call fst snd
       cholesky solve_triangular einsum_snd_sd_nd einsum_ind_sid_snd].

Ltac crunch :=
  cbv -[Rplus Rmult Rminus Rdiv Ropp Rinv sqrt exp ln Rabs IZR INR
        Rlt_dec Rle_dec Req_dec_T].

Lemma is_zero_true (x : R) : x = 0 -> torch.is_zero x = true.
Proof. intros H. unfold torch.is_zero. now destruct (Req_dec_T x 0). Qed.

Lemma is_zero_false (x : R) : x <> 0 -> torch.is_zero x = false.
Proof. intros H. unfold torch.is_zero. now destruct (Req_dec_T x 0). Qed.

Lemma is_nonneg_true (x : R) : 0 <= x -> torch.is_nonneg x = true.
Proof. intros H. unfold torch.is_nonneg. now destruct (Rle_dec 0 x). Qed.

Lemma is_pos_true (x : R) : 0 < x -> torch.is_pos x = true.
Proof. intros H. unfold torch.is_pos. now destruct (Rlt_dec 0 x). Qed.

(** ** The linear algebra on small systems *)

Lemma sqrt_4 : sqrt 4 = 2.
Proof. replace 4 with (2 * 2) by lra. apply sqrt_square. lra. Qed.

Example cholesky_two_by_two :
  linalg.cholesky [[[4; 2]; [2; 5]]] = inr [[[2; 0]; [1; 2]]].
Proof.
  crunch.
  destruct (Rlt_dec 0 (4 - 0)) as [_|Hn]; [|exfalso; lra].
  crunch. replace (4 - 0) with 4 by lra. rewrite sqrt_4.
  match goal with |- context [Rlt_dec 0 ?x] => replace x with 4 by field end.
  destruct (Rlt_dec 0 4) as [_|Hn]; [|exfalso; lra].
  crunch. rewrite sqrt_4. repeat f_equal; field.
Qed.

Example cholesky_not_positive :
  linalg.cholesky [[[1; 2]; [2; 1]]] = inl LinAlgError.
Proof.
  crunch.
  destruct (Rlt_dec 0 (1 - 0)) as [_|Hn]; [|exfalso; lra].
  crunch. replace (1 - 0) with 1 by lra. rewrite sqrt_1.
  match goal with |- context [Rlt_dec 0 ?x] => replace x with (-3) by field end.
  destruct (Rlt_dec 0 (-3)) as [Hp|_]; [exfalso; lra|]. reflexivity.
Qed.

Example solve_right_upper :
  linalg.solve_triangular_value [[[2; 1]; [0; 2]]] [[[2; 5]]] true false = [[[1; 2]]].
Proof. crunch. repeat f_equal; field. Qed.

Example solve_right_lower :
  linalg.solve_triangular_value [[[2; 0]; [1; 2]]] [[[4; 4]]] false false = [[[1; 2]]].
Proof. crunch. repeat f_equal; field. Qed.

Example solve_left_lower :
  linalg.solve_triangular_value [[[2; 0]; [1; 2]]] [[[2]; [5]]] false true = [[[1]; [2]]].
Proof. crunch. repeat f_equal; field. Qed.

(** ** [VIPLayer.forward] on the scenario of three samples *)

(** C6: three coefficients, one output, no noise, no mean function, q_mu = 0
    and the identity factor; when the generative function returns the samples
    [[1],[2]], [[3],[4]], [[5],[6]], [forward] returns the mean [3, 4] and,
    as variance, the unbiased sample variance of {1, 3, 5} and of {2, 4, 6},
    which is 4 at both points. *)
Theorem VIPLayer_forward_three_samples (g : GenerativeFunction) (X : tensor2) (din : nat) :
  gf_sample g (gf_calls g) X = [[[1]; [2]]; [[3]; [4]]; [[5]; [6]]] ->
  snd (VIPLayer.forward (VIPLayer.init g 3 din 1 false None 1 0 None) X false)
  = Ok ([[3]; [4]],
        [[sample_variance [1; 3; 5]]; [sample_variance [2; 4; 6]]],
        None)
  /\ sample_variance [1; 3; 5] = 4
  /\ sample_variance [2; 4; 6] = 4.
Proof.
  intros Hf.
  assert (V1 : sample_variance [1; 3; 5] = 4).
  { unfold sample_variance. crunch. replace (INR 3) with 3 by (simpl; lra). field. }
  assert (V2 : sample_variance [2; 4; 6] = 4).
  { unfold sample_variance. crunch. replace (INR 3) with 3 by (simpl; lra). field. }
  split; [|split; assumption]. rewrite V1, V2.
  unfold VIPLayer.forward, VIPLayer.init. run_method.
  cbv [VIPLayer.generative_function VIPLayer.set_generative_function VIPLayer.num_coeffs
       VIPLayer.q_mu VIPLayer.output_dim VIPLayer.log_layer_noise VIPLayer.q_sqrt_tri
       VIPLayer.mean_function VIPLayer.input_dim VIPLayer.freeze
       VIPLayer.add_prior_regularization].
  rewrite Hf. crunch.
  assert (Hs : sqrt 2 <> 0) by apply sqrt2_neq_0.
  assert (Hss : sqrt 2 * sqrt 2 = 2) by (apply sqrt_sqrt; lra).
  destruct (Rle_dec 0 2) as [_|Hn]; [|exfalso; lra].
  destruct (Req_dec_T (sqrt 2) 0) as [E|_]; [contradiction|].
  replace (INR 3) with 3 by (simpl; lra).
  set (s := sqrt 2) in *.
  assert (Hu : / s * / s = / 2) by (rewrite <- Rinv_mult, Hss; reflexivity).
  unfold Rdiv. set (u := / s) in *.
  repeat f_equal; nra.
Qed.

Lemma VIPLayer_forward_three_samples_witness :
  snd (VIPLayer.forward
         (VIPLayer.init (constant_samples [[[1]; [2]]; [[3]; [4]]; [[5]; [6]]])
                        3 1 1 false None 1 0 None)
         [[0]; [1]] false)
  = Ok ([[3]; [4]],
        [[sample_variance [1; 3; 5]]; [sample_variance [2; 4; 6]]],
        None).
Proof.
  apply (VIPLayer_forward_three_samples
           (constant_samples [[[1]; [2]]; [[3]; [4]]; [[5]; [6]]]) [[0]; [1]] 1).
  reflexivity.
Defined.

(** C1 fails on the code: with the factor [[1, 0], [1, 2]] and the features
    (1, -1), [forward] returns the variance 2, the quadratic form of
    q_sqrtᵗ q_sqrt, where the quadratic form of q_sqrt q_sqrtᵗ is 4. *)
Theorem VIPLayer_forward_variance_transposed :
  let layer :=
    VIPLayer.set_q_sqrt_tri (new_Param (Mat [[1]; [1]; [2]]))
      (VIPLayer.init (constant_samples [[[2]]; [[0]]]) 2 1 1 false None 1 0 None) in
  let Q := factor (unpack 2 1 (Mat [[1]; [1]; [2]])) 2 0 in
  let phi := feature_vector (features [[[2]]; [[0]]] 2) 0 0 in
  snd (VIPLayer.forward layer [[0]] false) = Ok ([[1]], [[2]], None)
  /\ quad 2 (transpose_times_factor Q) phi = 2
  /\ quad 2 (factor_times_transpose Q) phi = 4.
Proof.
  assert (H1 : sqrt 1 = 1) by apply sqrt_1.
  split; [|split].
  - crunch. rewrite H1.
    destruct (Rle_dec 0 1) as [_|Hn]; [|exfalso; lra].
    destruct (Req_dec_T 1 0) as [E|_]; [exfalso; lra|].
    replace (INR 2) with 2 by (simpl; lra).
    repeat f_equal; field.
  - crunch. rewrite H1. replace (INR 2) with 2 by (simpl; lra). field.
  - crunch. rewrite H1. replace (INR 2) with 2 by (simpl; lra). field.
Qed.

Lemma VIPLayer_KL_closed_form_witness :
  VIPLayer.KL (VIPLayer.init (constant_samples []) 2 1 1 true None 1 0 None)
  = (VIPLayer.init (constant_samples []) 2 1 1 true None 1 0 None, Ok 0).
Proof.
  destruct (VIPLayer_KL_closed_form
              (VIPLayer.init (constant_samples []) 2 1 1 true None 1 0 None))
    as [_ E].
  - right. reflexivity.
  - exact (packed_identity_shape 2 1 1).
  - split; [reflexivity | repeat constructor].
  - intros j d Hj Hd. simpl in Hj, Hd.
    destruct j as [|[|j]]; destruct d as [|d]; try lia; crunch; lra.
  - rewrite E. do 2 f_equal. crunch.
    replace (1 * 1) with 1 by lra. rewrite Rabs_R1, ln_1.
    replace (INR 1) with 1 by (simpl; lra). replace (INR 2) with 2 by (simpl; lra).
    lra.
Defined.

Lemma ln_3_pos : 0 < ln 3.
Proof. rewrite <- ln_1. apply ln_increasing; lra. Qed.

(** C3 fails on the code: with a single coefficient the constructor stores
    the packed factor as a vector with one entry per output dimension, the
    gather [q_sqrt_tri[diag_indexes]] then reads its first entry only, and
    [KL()] counts the logarithm of the diagonal for one output dimension
    instead of all of them.  With one coefficient, three output dimensions,
    [q_sqrt_initial_value] 3 and [q_mu_initial_value] 0, [KL()] returns
    12 - ln 3; the closed form, read on the dense factor the layer works
    with, is 12 - 3 ln 3. *)
Theorem VIPLayer_KL_single_coefficient :
  let layer := VIPLayer.init (constant_samples []) 1 1 3 false None 3 0 None in
  let packed := data (VIPLayer.q_sqrt_tri layer) in
  let q := unpack 1 3 packed in
  let mu := data (VIPLayer.q_mu layer) in
  VIPLayer.KL layer = (layer, Ok (12 - ln 3))
  /\ - (1 / 2) * INR 3 * INR 1
     - Rsum 1 (fun j => Rsum 3 (fun d => ln (Rabs (get3 q j j d))))
     + 1 / 2 * Rsum (tri 1) (fun i => Rsum 3 (fun d => get2 packed i d * get2 packed i d))
     + 1 / 2 * Rsum 1 (fun s => Rsum 3 (fun d => get2 mu s d * get2 mu s d))
     = 12 - 3 * ln 3
  /\ 12 - ln 3 <> 12 - 3 * ln 3.
Proof.
  intros layer packed q mu.
  assert (HA : Rabs (1 * 3) = 3) by (rewrite Rmult_1_l; apply Rabs_right; lra).
  split; [|split].
  - subst layer. crunch. rewrite HA.
    destruct (Rlt_dec 0 3) as [_|Hn]; [|exfalso; lra].
    do 2 f_equal. replace (INR 3) with 3 by (simpl; lra).
    replace (INR 1) with 1 by (simpl; lra). lra.
  - subst q packed mu layer. crunch. rewrite HA.
    replace (INR 3) with 3 by (simpl; lra).
    replace (INR 1) with 1 by (simpl; lra). lra.
  - pose proof ln_3_pos. lra.
Qed.

(** ** The divisor of the basis features *)

Lemma coeff_divisor_positive (S : nat) :
  (2 <= S)%nat -> 0 < sqrt (IZR (Z.of_nat S - 1)).
Proof.
  intros H. apply sqrt_lt_R0. apply IZR_lt. lia.
Qed.

(** ** [freeze_posterior] *)

(** C8 fails on the code: [freeze_posterior] tests the noise tensor itself
    where the constructor and [forward] test it against [None].  With two
    output dimensions and log-noise -5 the test raises and the noise stays
    trainable; with one output dimension and log-noise 0 the test is false,
    the call returns and the noise stays trainable.  [VIPLayerInducing] has
    the same method body. *)
Theorem freeze_posterior_leaves_noise_trainable :
  let g := constant_samples [] in
  let wide := VIPLayer.init g 2 1 2 false (Some (-5)) 1 0 None in
  let unit_noise := VIPLayer.init g 2 1 1 false (Some 0) 1 0 None in
  let wide' := VIPLayerInducing.init g [[0]] 1 2 false (Some (-5)) 1 0 None in
  let unit_noise' := VIPLayerInducing.init g [[0]] 1 1 false (Some 0) 1 0 None in
  (snd (VIPLayer.freeze_posterior wide)
   = Raise (RuntimeError "Boolean value of Tensor with more than one value is ambiguous")
   /\ option_map (@requires_grad _)
        (VIPLayer.log_layer_noise (fst (VIPLayer.freeze_posterior wide))) = Some true)
  /\ (snd (VIPLayer.freeze_posterior unit_noise) = Ok tt
      /\ option_map (@requires_grad _)
           (VIPLayer.log_layer_noise (fst (VIPLayer.freeze_posterior unit_noise)))
         = Some true)
  /\ (snd (VIPLayerInducing.freeze_posterior wide')
      = Raise (RuntimeError "Boolean value of Tensor with more than one value is ambiguous")
      /\ option_map (@requires_grad _)
           (VIPLayerInducing.log_layer_noise (fst (VIPLayerInducing.freeze_posterior wide')))
         = Some true)
  /\ (snd (VIPLayerInducing.freeze_posterior unit_noise') = Ok tt
      /\ option_map (@requires_grad _)
           (VIPLayerInducing.log_layer_noise
              (fst (VIPLayerInducing.freeze_posterior unit_noise')))
         = Some true).
Proof.
  assert (Z0 : torch.is_zero (1 * 0) = true) by (apply is_zero_true; lra).
  repeat split.
  - unfold VIPLayer.freeze_posterior, VIPLayer.init. run_method.
    cbv [VIPLayer.log_layer_noise VIPLayer.set_q_mu VIPLayer.set_q_sqrt_tri data new_Param
         np.scale1 np.ones1 tab seq map torch.bool1 VIPLayer.set_log_layer_noise].
    rewrite Z0. reflexivity.
  - unfold VIPLayer.freeze_posterior, VIPLayer.init. run_method.
    cbv [VIPLayer.log_layer_noise VIPLayer.set_q_mu VIPLayer.set_q_sqrt_tri data new_Param
         np.scale1 np.ones1 tab seq map torch.bool1 VIPLayer.set_log_layer_noise].
    rewrite Z0. reflexivity.
  - unfold VIPLayerInducing.freeze_posterior, VIPLayerInducing.init. run_method.
    cbv [VIPLayerInducing.log_layer_noise VIPLayerInducing.set_q_mu
         VIPLayerInducing.set_q_sqrt_tri data new_Param
         np.scale1 np.ones1 tab seq map torch.bool1 VIPLayerInducing.set_log_layer_noise].
    rewrite Z0. reflexivity.
  - unfold VIPLayerInducing.freeze_posterior, VIPLayerInducing.init. run_method.
    cbv [VIPLayerInducing.log_layer_noise VIPLayerInducing.set_q_mu
         VIPLayerInducing.set_q_sqrt_tri data new_Param
         np.scale1 np.ones1 tab seq map torch.bool1 VIPLayerInducing.set_log_layer_noise].
    rewrite Z0. reflexivity.
Qed.

(** ** [VIPLayerInducing]: what [forward] leaves behind and what [KL] reads *)

Ltac split_cases H :=
  repeat match type of H with
  | context [if ?c then _ else _] => destruct c eqn:?; try discriminate H
  | context [match ?c with inl _ => _ | inr _ => _ end] =>
      destruct c eqn:?; try discriminate H
  | context [match ?c with Some _ => _ | None => _ end] =>
      destruct c eqn:?; try discriminate H
  end.

(** A call of [forward] that returns a prediction, taken apart. *)
Lemma VIPLayerInducing_forward_ok
    (s s' : VIPLayerInducing.t) (X : tensor2) (b : bool)
    (mean K : tensor2) (samples : option tensor3) :
  VIPLayerInducing.forward s X b = (s', Ok (mean, K, samples)) ->
  let M := VIPLayerInducing.num_inducing s in
  let D := VIPLayerInducing.output_dim s in
  let fK := empirical_kernel (inducing_draw s X) in
  let Ku := block_Ku fK (dim0 X) M in
  let q := unpack M D (data (VIPLayerInducing.q_sqrt_tri s)) in
  exists L,
    linalg.cholesky (jittered Ku M) = inr L
    /\ VIPLayerInducing.Lu s' = Some L
    /\ VIPLayerInducing.q_sqrt s' = Some q
    /\ same_KL_inputs s'
         (VIPLayerInducing.set_q_sqrt (Some q) (VIPLayerInducing.set_Lu (Some L) s))
    /\ K = let K0 := conditional_variance (block_Kf fK (dim0 X)) Ku
                       (whitened L (block_Kfu fK (dim0 X))) q in
           match VIPLayerInducing.log_layer_noise s with
           | Some noise => torch.add2 K0 (torch.unsqueeze_last (torch.exp1 (data noise)))
           | None => K0
           end.
Proof.
  intros H M D fK Ku q.
  unfold VIPLayerInducing.forward in H.
  cbv [call bind this assign finite_if fits ret raise lift getattr gf_call fst snd
       cholesky solve_triangular] in H.
  fold (inducing_draw s X) in H.
  fold (features (inducing_draw s X) (dim0 (inducing_draw s X))) in H.
  fold (empirical_kernel (inducing_draw s X)) in H. fold fK in H.
  fold M in H. fold (block_Ku fK (dim0 X) M) in H. fold Ku in H.
  fold (jittered Ku M) in H. fold D in H.
  fold (unpack M D (data (VIPLayerInducing.q_sqrt_tri s))) in H. fold q in H.
  split_cases H; inversion H; subst; clear H;
    (eexists; split; [reflexivity|]);
    (split; [reflexivity|]); (split; [reflexivity|]);
    (split; [repeat split|]); reflexivity.
Qed.

(** C7: [KL] of a freshly constructed inducing layer raises (the attribute
    [Lu] does not exist yet); [KL] reads nothing but the cached [Lu] and
    dense [q_sqrt] and the persistent parameters; and after a [forward] that
    returned, the cached [Lu] is the Cholesky factor that this very call
    computed from its own draw, and the cached [q_sqrt] the factor it
    unpacked, so that [KL] uses exactly those. *)
Theorem VIPLayerInducing_KL_reads_cache :
  (forall g Z din D flag noise v_sqrt v_mu mf,
      VIPLayerInducing.KL (VIPLayerInducing.init g Z din D flag noise v_sqrt v_mu mf)
      = (VIPLayerInducing.init g Z din D flag noise v_sqrt v_mu mf,
         Raise (AttributeError "Lu")))
  /\ (forall a b, same_KL_inputs a b ->
        snd (VIPLayerInducing.KL a) = snd (VIPLayerInducing.KL b))
  /\ (forall s X b s' p,
        VIPLayerInducing.forward s X b = (s', Ok p) ->
        exists L,
          linalg.cholesky
            (jittered (block_Ku (empirical_kernel (inducing_draw s X)) (dim0 X)
                                (VIPLayerInducing.num_inducing s))
                      (VIPLayerInducing.num_inducing s)) = inr L
          /\ VIPLayerInducing.Lu s' = Some L
          /\ VIPLayerInducing.q_sqrt s'
             = Some (unpack (VIPLayerInducing.num_inducing s) (VIPLayerInducing.output_dim s)
                            (data (VIPLayerInducing.q_sqrt_tri s)))
          /\ snd (VIPLayerInducing.KL s')
             = snd (VIPLayerInducing.KL
                      (VIPLayerInducing.set_q_sqrt
                         (Some (unpack (VIPLayerInducing.num_inducing s)
                                       (VIPLayerInducing.output_dim s)
                                       (data (VIPLayerInducing.q_sqrt_tri s))))
                         (VIPLayerInducing.set_Lu (Some L) s)))).
Proof.
  assert (Hsame : forall a b, same_KL_inputs a b ->
            snd (VIPLayerInducing.KL a) = snd (VIPLayerInducing.KL b)).
  { intros a b (HLu & Hq & Hmu & Htri & HM & HD & Hflag & Hg).
    unfold VIPLayerInducing.KL. run_method.
    rewrite Hmu, Htri, HM, HD, Hflag, Hg, HLu.
    destruct (VIPLayerInducing.Lu b) as [L|]; [|reflexivity].
    cbv beta iota. rewrite Hq.
    destruct (VIPLayerInducing.q_sqrt b) as [q|]; [|reflexivity].
    repeat match goal with
           | |- context [if ?c then _ else _] => destruct c
           end; reflexivity. }
  split; [|split].
  - intros. reflexivity.
  - exact Hsame.
  - intros s X b s' [[mean K] samples] H.
    destruct (VIPLayerInducing_forward_ok s s' X b mean K samples H)
      as (L & HL & HLu & Hq & Hs & _).
    exists L. repeat split; try assumption. now apply Hsame.
Qed.

(** ** Sizes of what the linear algebra returns *)

Lemma fold_left_snoc_length {A B : Type} (g : list A -> B -> A) (l : list B) (init : list A) :
  length (fold_left (fun acc x => acc ++ [g acc x]) l init) = (length init + length l)%nat.
Proof.
  revert init. induction l as [|x l IH]; intros init; simpl; [lia|].
  rewrite IH, length_app. simpl. lia.
Qed.

Lemma cholesky_row_length (A L : tensor2) (i : nat) :
  length (linalg.cholesky_row A L i) = i.
Proof.
  unfold linalg.cholesky_row.
  rewrite (fold_left_snoc_length
             (fun row j => (get2 A i j - Rsum j (fun k => get1 row k * get2 L j k))
                           / get2 L j j)).
  now rewrite length_seq.
Qed.

Lemma cholesky_rows_shape (A : tensor2) (k : nat) (L : tensor2) :
  (k <= dim0 A)%nat ->
  fold_left
    (fun acc i =>
       match acc with
       | None => None
       | Some L =>
         let row := linalg.cholesky_row A L i in
         let d := get2 A i i - Rsum i (fun k => get1 row k * get1 row k) in
         if torch.is_pos d
         then Some (L ++ [row ++ sqrt d :: repeat 0 (dim0 A - S i)])
         else None
       end)
    (seq 0 k) (Some []) = Some L ->
  length L = k /\ Forall (fun row => length row = dim0 A) L.
Proof.
  revert L. induction k as [|k IH]; intros L Hk H.
  - simpl in H. inversion H. split; [reflexivity | constructor].
  - rewrite seq_S, fold_left_app in H. simpl in H.
    match type of H with
    | match ?acc with _ => _ end = _ => destruct acc as [L0|] eqn:E; [|discriminate]
    end.
    destruct (IH L0 ltac:(lia) eq_refl) as [Hlen Hrows].
    destruct (torch.is_pos _); [|discriminate].
    inversion H; subst L. split.
    + rewrite length_app. simpl. lia.
    + apply Forall_app. split; [exact Hrows|]. constructor; [|constructor].
      rewrite length_app, cholesky_row_length. simpl. rewrite repeat_length. lia.
Qed.

Lemma cholesky_matrix_shape (A L : tensor2) :
  linalg.cholesky_matrix A = Some L ->
  length L = dim0 A /\ Forall (fun row => length row = dim0 A) L.
Proof.
  intros H. apply (cholesky_rows_shape A (dim0 A) L (le_n _)). exact H.
Qed.

(** The factor of a single matrix with [M] rows is one M-by-M matrix. *)
Lemma cholesky_single_dims (A : tensor2) (Ls : tensor3) :
  linalg.cholesky [A] = inr Ls ->
  dim0 Ls = 1%nat /\ dim1 Ls = dim0 A /\ dim2 Ls = dim0 A.
Proof.
  intros H. simpl in H.
  destruct (linalg.cholesky_matrix A) as [L|] eqn:E; [|discriminate].
  inversion H; subst Ls.
  destruct (cholesky_matrix_shape A L E) as [Hlen Hrows].
  split; [reflexivity|]. split; [exact Hlen|].
  unfold dim2, dim1. simpl.
  destruct L as [|row L]; [exact Hlen|].
  inversion Hrows; subst. assumption.
Qed.

Lemma bdim_same (a : nat) : bdim a a = a.
Proof. unfold bdim. now destruct (a =? 1)%nat. Qed.

Lemma bdim_one_r (a : nat) : bdim a 1 = a.
Proof. unfold bdim. destruct (a =? 1)%nat eqn:E; [|reflexivity]. now apply Nat.eqb_eq in E. Qed.

Lemma scale2_length (c : R) (m : tensor2) : length (torch.scale2 c m) = length m.
Proof. unfold torch.scale2. apply length_map. Qed.

Lemma kernel_dims (s : SparseGP.t) (x1 : tensor2) (x2 : option tensor2) :
  dim0 (SparseGP.kernel s x1 x2) = 1%nat /\ dim1 (SparseGP.kernel s x1 x2) = length x1.
Proof.
  unfold SparseGP.kernel, dim1. simpl. split; [reflexivity|].
  rewrite scale2_length, length_map.
  unfold torch.sum_last. rewrite tab_length.
  unfold torch.square3. unfold dim0. rewrite length_map.
  unfold torch.sub3. rewrite tab_length. unfold dim0. simpl length.
  rewrite !length_map. apply bdim_one_r.
Qed.

(** The matrix [SparseGP.forward] factorises is a single matrix with as
    many rows as there are inducing points. *)
Lemma gp_jittered_single (s : SparseGP.t) :
  length (data (SparseGP.inducing_points s)) = SparseGP.num_inducing s ->
  exists A, jittered (gp_Ku s) (SparseGP.num_inducing s) = [A]
            /\ dim0 A = SparseGP.num_inducing s.
Proof.
  intros HZ. set (M := SparseGP.num_inducing s) in *.
  destruct (kernel_dims s (data (SparseGP.inducing_points s)) None) as [K0 K1].
  rewrite HZ in K1.
  assert (E0 : dim0 (gp_Ku s) = 1%nat).
  { unfold gp_Ku, torch.add3_2. rewrite dim0_tab. exact K0. }
  assert (E1 : dim1 (gp_Ku s) = M).
  { unfold gp_Ku, torch.add3_2. rewrite K0. unfold dim1 at 1. simpl hd.
    rewrite tab_length, K1. unfold dim0. rewrite scale2_length.
    unfold torch.eye. rewrite tab_length. apply bdim_same. }
  unfold jittered, torch.add3_2. rewrite E0, E1.
  eexists. split; [reflexivity|].
  rewrite dim0_tab. unfold dim0. rewrite scale2_length.
  unfold torch.eye. rewrite tab_length. apply bdim_same.
Qed.

(** ** [SparseGP]: the attribute that is never assigned *)

Section FramePost.

Variable Self : Type.
Variable P : Self -> Prop.

(** Sequencing, when the first part tells something about its value. *)
Lemma preserves_bind_post {A B : Type} (m : M Self A) (k : A -> M Self B)
      (Q : A -> Prop) :
  (forall s b st' a, P s -> m (s, b) = (st', Val a) -> Q a) ->
  preserves Self P m ->
  (forall a, Q a -> preserves Self P (k a)) ->
  preserves Self P (bind m k).
Proof.
  intros HQ Hm Hk s b H. unfold bind.
  specialize (Hm s b H). specialize (HQ s b).
  destruct (m (s, b)) as [[s' b'] [a|e]]; simpl in *.
  - apply Hk; [|exact Hm]. now apply (HQ (s', b') a).
  - exact Hm.
Qed.

Lemma this_post (s : Self) (b : bool) (st' : Self * bool) (a : Self) :
  P s -> this (s, b) = (st', Val a) -> P a.
Proof. intros H E. inversion E; subst. exact H. Qed.

Lemma cholesky_post (K : tensor3) (s : Self) (b : bool) (st' : Self * bool) (L : tensor3) :
  P s -> cholesky K (s, b) = (st', Val L) -> linalg.cholesky K = inr L.
Proof.
  intros _ E. unfold cholesky, lift in E. simpl in E.
  destruct b; [discriminate|].
  destruct (linalg.cholesky K); inversion E. reflexivity.
Qed.

End FramePost.

Lemma unpack_dim1 (K D : nat) (packed : tensor12) : dim1 (unpack K D packed) = K.
Proof.
  destruct (unpack_dims K D packed 0) as [E0 E1]. unfold dim1.
  destruct K as [|K].
  - apply length_zero_iff_nil in E0. now rewrite E0.
  - transitivity (length (nth 0 (unpack (S K) D packed) [])); [|apply E1; lia].
    now destruct (unpack (S K) D packed).
Qed.

Lemma SparseGP_init_invariant g Z din D flag noise v_sqrt v_mu mf :
  SparseGP_invariant (length Z) (SparseGP.init g Z din D flag noise v_sqrt v_mu mf).
Proof.
  unfold SparseGP_invariant, SparseGP.init. simpl.
  repeat split; try discriminate.
  unfold np.scale2, np.ones2. now rewrite length_map, tab_length.
Qed.

Lemma SparseGP_forward_invariant (M : nat) (s : SparseGP.t) (X : tensor2) (b : bool) :
  SparseGP_invariant M s -> SparseGP_invariant M (fst (SparseGP.forward s X b)).
Proof.
  intros H. unfold SparseGP.forward.
  apply (call_preserves _ (SparseGP_invariant M)); [|exact H].
  apply (preserves_bind_post _ _ _ _ (SparseGP_invariant M));
    [apply this_post | apply preserves_this |]. intros a Ha. cbv zeta.
  fold (gp_Ku a). fold (jittered (gp_Ku a) (SparseGP.num_inducing a)).
  apply (preserves_bind_post _ _ _ _
           (fun L => linalg.cholesky (jittered (gp_Ku a) (SparseGP.num_inducing a)) = inr L));
    [apply cholesky_post | apply preserves_cholesky |]. intros L HL.
  destruct Ha as (Ha1 & Ha2 & Ha3 & Ha4 & Ha5 & Ha6).
  apply preserves_bind.
  - apply preserves_assign. intros s0 (H1 & H2 & H3 & H4 & H5 & H6).
    unfold SparseGP_invariant. simpl.
    refine (conj H1 (conj H2 (conj H3 (conj H4 (conj _ H6))))).
    intros L0 E. inversion E; subst L0.
    destruct (gp_jittered_single a) as [A [EA HA]]; [congruence|].
    rewrite EA in HL. destruct (cholesky_single_dims A L HL) as (D0 & D1 & D2).
    split; [exact D0|]. split; congruence.
  - intros _. frame.
    match goal with H0 : SparseGP_invariant M _ |- _ =>
      destruct H0 as (H1 & H2 & H3 & H4 & H5 & H6) end.
    unfold SparseGP_invariant. simpl.
    refine (conj H1 (conj H2 (conj H3 (conj H4 (conj H5 _))))).
    intros q E. inversion E; subst q.
    fold (unpack (SparseGP.num_inducing a) (SparseGP.output_dim a)
                 (data (SparseGP.q_sqrt_tri a))).
    rewrite unpack_dim1. exact Ha2.
Qed.

Lemma SparseGP_KL_invariant (M : nat) (s : SparseGP.t) :
  SparseGP_invariant M s -> SparseGP_invariant M (fst (SparseGP.KL s)).
Proof.
  intros H. unfold SparseGP.KL.
  apply (call_preserves _ (SparseGP_invariant M)); [|exact H]. frame.
Qed.

Lemma SparseGP_freeze_posterior_invariant (M : nat) (s : SparseGP.t) :
  SparseGP_invariant M s -> SparseGP_invariant M (fst (SparseGP.freeze_posterior s)).
Proof.
  intros H. unfold SparseGP.freeze_posterior.
  apply (call_preserves _ (SparseGP_invariant M)); [|exact H].
  frame; match goal with H0 : SparseGP_invariant M _ |- _ => exact H0 end.
Qed.

Lemma SparseGP_freeze_prior_invariant (M : nat) (s : SparseGP.t) :
  SparseGP_invariant M s -> SparseGP_invariant M (fst (SparseGP.freeze_prior s)).
Proof.
  intros H. unfold SparseGP.freeze_prior.
  apply (call_preserves _ (SparseGP_invariant M)); [|exact H].
  apply (preserves_bind_post _ _ _ _ (fun _ => False)).
  - intros s0 b st' a (H1 & _) E. unfold getattr in E. simpl in E.
    rewrite H1 in E. discriminate.
  - apply preserves_getattr.
  - intros a [].
Qed.

Lemma SparseGP_reachable_invariant (s : SparseGP.t) :
  SparseGP_reachable s -> SparseGP_invariant (SparseGP.num_inducing s) s.
Proof.
  assert (G : SparseGP_reachable s -> exists M, SparseGP_invariant M s).
  { induction 1 as [g Z din D flag noise v_sqrt v_mu mf
                   | s X b _ [M IH] | s _ [M IH] | s _ [M IH] | s _ [M IH]
                   | s mu packed Z noise ls amp _ [M IH] Hmu Hp HZ Hn].
    - eexists. apply SparseGP_init_invariant.
    - exists M. now apply SparseGP_forward_invariant.
    - exists M. now apply SparseGP_KL_invariant.
    - exists M. now apply SparseGP_freeze_posterior_invariant.
    - exists M. now apply SparseGP_freeze_prior_invariant.
    - exists M. destruct IH as (H1 & H2 & H3 & H4 & H5 & H6).
      unfold SparseGP_invariant, SparseGP_train. simpl.
      destruct Hmu as [Hl _].
      refine (conj H1 (conj H2 (conj _ (conj _ (conj H5 H6))))); congruence. }
  intros H. destruct (G H) as [M HM].
  destruct HM as (H1 & H2 & H3). now rewrite H2 at 1.
Qed.

Lemma solve_fits_cached (M : nat) (L q : tensor3) (mu : tensor2) :
  dim0 L = 1%nat -> dim1 L = M -> dim2 L = M -> dim1 q = M -> length mu = M ->
  linalg.solve_triangular_fits L q true = true
  /\ linalg.solve_triangular_fits L [mu] true = true.
Proof.
  intros H0 H1 H2 Hq Hmu.
  unfold linalg.solve_triangular_fits, torch.broadcasts.
  rewrite H0, H1, H2, Hq. unfold dim1 at 1. simpl hd. rewrite Hmu.
  rewrite !Nat.eqb_refl. simpl. rewrite !orb_true_r. split; reflexivity.
Qed.

(** With the prior regularisation set, [KL] of a reachable [SparseGP] ends
    in an attribute error. *)
Lemma SparseGP_KL_with_prior_raises (s : SparseGP.t) :
  SparseGP_reachable s ->
  SparseGP.add_prior_regularization s = true ->
  SparseGP.KL s
  = (s, Raise (AttributeError
                 match SparseGP.Lu s, SparseGP.q_sqrt s with
                 | None, _ => "Lu"
                 | Some _, None => "q_sqrt"
                 | Some _, Some _ => "generative_function"
                 end)).
Proof.
  intros Hs Hflag.
  destruct (SparseGP_reachable_invariant s Hs) as (H1 & H2 & H3 & H4 & H5 & H6).
  unfold SparseGP.KL. run_method.
  destruct (SparseGP.Lu s) as [L|] eqn:EL; [|reflexivity].
  destruct (SparseGP.q_sqrt s) as [q|] eqn:Eq; [|reflexivity].
  destruct (H5 L eq_refl) as (D0 & D1 & D2).
  destruct (solve_fits_cached (SparseGP.num_inducing s) L q (data (SparseGP.q_mu s))
              D0 D1 D2 (H6 q eq_refl) H3) as [F1 F2].
  rewrite F1, F2, Hflag, H1. reflexivity.
Qed.

(** C9: the constructor of [SparseGP] takes [generative_function] and does
    not store it.  On every instance a program can hold, [freeze_prior]
    raises an attribute error and leaves the instance as it was; and when
    [add_prior_regularization] is set, [KL] raises an attribute error: for
    [Lu] or [q_sqrt] as long as no [forward] has cached them, for
    [generative_function] afterwards. *)
Theorem SparseGP_generative_function_missing :
  (forall g Z din D flag noise v_sqrt v_mu mf,
      SparseGP.generative_function (SparseGP.init g Z din D flag noise v_sqrt v_mu mf) = None)
  /\ (forall s, SparseGP_reachable s ->
        SparseGP.freeze_prior s = (s, Raise (AttributeError "generative_function")))
  /\ (forall s, SparseGP_reachable s ->
        SparseGP.add_prior_regularization s = true ->
        SparseGP.KL s
        = (s, Raise (AttributeError
                       match SparseGP.Lu s, SparseGP.q_sqrt s with
                       | None, _ => "Lu"
                       | Some _, None => "q_sqrt"
                       | Some _, Some _ => "generative_function"
                       end))).
Proof.
  split; [|split].
  - reflexivity.
  - intros s Hs. destruct (SparseGP_reachable_invariant s Hs) as (H1 & _).
    unfold SparseGP.freeze_prior. run_method. now rewrite H1.
  - exact SparseGP_KL_with_prior_raises.
Qed.

Lemma SparseGP_generative_function_missing_witness :
  SparseGP.KL (SparseGP.init (constant_samples []) [[0]] 1 1 true None 1 0 None)
  = (SparseGP.init (constant_samples []) [[0]] 1 1 true None 1 0 None,
     Raise (AttributeError "Lu")).
Proof.
  apply (proj2 (proj2 SparseGP_generative_function_missing)
           (SparseGP.init (constant_samples []) [[0]] 1 1 true None 1 0 None)).
  - apply reach_init.
  - reflexivity.
Defined.

(** ** [SparseGP.KL] against [VIPLayerInducing.KL] *)

(** Without the prior regularisation the two methods agree on every state. *)
Lemma KL_agree_without_prior (s : SparseGP.t) (g : GenerativeFunction) :
  SparseGP.add_prior_regularization s = false ->
  snd (SparseGP.KL s) = snd (VIPLayerInducing.KL (as_inducing s g)).
Proof.
  intros Hflag. unfold SparseGP.KL, VIPLayerInducing.KL, as_inducing. run_method.
  cbv [VIPLayerInducing.num_inducing VIPLayerInducing.q_sqrt_tri VIPLayerInducing.output_dim
       VIPLayerInducing.Lu VIPLayerInducing.q_sqrt VIPLayerInducing.q_mu
       VIPLayerInducing.add_prior_regularization VIPLayerInducing.generative_function].
  rewrite Hflag.
  destruct (SparseGP.Lu s) as [L|]; [|reflexivity].
  destruct (SparseGP.q_sqrt s) as [q|]; [|reflexivity].
  repeat match goal with
         | |- context [if ?c then _ else _] => destruct c
         end; reflexivity.
Qed.

(** One inducing point at 0, one data point at 0, unit amplitude and
    lengthscale: [forward] returns and caches a positive 1-by-1 factor. *)
Lemma SparseGP_unit_forward (flag : bool) :
  let built := SparseGP.init (constant_samples []) [[0]] 1 1 flag None 1 0 None in
  exists l mean K,
    0 < l
    /\ SparseGP.forward built [[0]] false
       = (SparseGP.set_q_sqrt (Some [[[1 * 1]]]) (SparseGP.set_Lu (Some [[[l]]]) built),
          Ok (mean, K, None)).
Proof.
  intros built. subst built. crunch.
  match goal with |- context [Rlt_dec 0 ?x] => set (k := x) end.
  assert (Hk : 0 < k).
  { subst k. pose proof (exp_pos 0) as E1.
    match goal with |- context [exp (- ?x)] => pose proof (exp_pos (- x)) as E2 end.
    nra. }
  clearbody k. pose proof (sqrt_lt_R0 k Hk) as Hs.
  exists (sqrt k).
  destruct (Rlt_dec 0 k) as [_|Hn]; [|contradiction]. crunch.
  destruct (Req_dec_T (sqrt k) 0) as [E|_]; [exfalso; lra|]. crunch.
  do 2 eexists. split; [exact Hs | reflexivity].
Qed.

(** C5 fails on the code: in the same state, with the prior regularisation
    set and the factors cached by a [forward] that returned,
    [VIPLayerInducing.KL] returns a number and [SparseGP.KL] raises an
    attribute error, because the constructor of [SparseGP] does not keep the
    generative function it is given. *)
Theorem SparseGP_KL_differs_with_prior :
  let g := constant_samples [] in
  let built := SparseGP.init g [[0]] 1 1 true None 1 0 None in
  let s := fst (SparseGP.forward built [[0]] false) in
  (exists mean K, snd (SparseGP.forward built [[0]] false) = Ok (mean, K, None))
  /\ SparseGP.KL s = (s, Raise (AttributeError "generative_function"))
  /\ exists v, snd (VIPLayerInducing.KL (as_inducing s g)) = Ok v.
Proof.
  intros g built s.
  destruct (SparseGP_unit_forward true) as (l & mean & K & Hl & E).
  fold g in E. fold built in E.
  assert (Es : s = SparseGP.set_q_sqrt (Some [[[1 * 1]]])
                     (SparseGP.set_Lu (Some [[[l]]]) built)).
  { unfold s. now rewrite E. }
  split; [|split].
  - exists mean, K. now rewrite E.
  - rewrite (SparseGP_KL_with_prior_raises s).
    + now rewrite Es.
    + unfold s. apply reach_forward, reach_init.
    + now rewrite Es.
  - rewrite Es. subst built g. crunch.
    assert (H1 : 0 < Rabs (1 * 1)) by (apply Rabs_pos_lt; lra).
    assert (H2 : 0 < Rabs l) by (apply Rabs_pos_lt; lra).
    destruct (Rlt_dec 0 (Rabs (1 * 1))) as [_|Hn]; [|contradiction].
    destruct (Rlt_dec 0 (Rabs l)) as [_|Hn]; [|contradiction].
    destruct (Req_dec_T l 0) as [E0|_]; [exfalso; lra|].
    eexists. reflexivity.
Qed.

(** ** The variance of the inducing layers, entry by entry *)

Lemma dims3_tab (a b c : nat) (F : nat -> nat -> nat -> R) :
  (0 < a)%nat -> (0 < b)%nat ->
  dims3 (tab a (fun i => tab b (fun j => tab c (F i j)))) a b c.
Proof.
  intros Ha Hb. split; [apply dim0_tab|]. split.
  - now apply (dim1_tab a b (fun i j => tab c (F i j))).
  - now apply dim2_tab.
Qed.

Lemma bidx_lt (size i : nat) : (i < size)%nat -> bidx size i = i.
Proof.
  intros H. unfold bidx. destruct (size =? 1)%nat eqn:E; [|reflexivity].
  apply Nat.eqb_eq in E. lia.
Qed.

Lemma bidx_idem (size i : nat) : bidx size (bidx size i) = bidx size i.
Proof. unfold bidx. now destruct (size =? 1)%nat. Qed.

Lemma bdim_broadcast (Do D : nat) :
  Do = 1%nat \/ Do = D -> bdim Do D = D /\ bdim D Do = D.
Proof.
  intros [->| ->].
  - split; [reflexivity | apply bdim_one_r].
  - split; apply bdim_same.
Qed.

Lemma bidx_broadcast_lt (Do D d : nat) :
  Do = 1%nat \/ Do = D -> (d < D)%nat -> (bidx Do d < Do)%nat.
Proof.
  intros [->| ->] H; unfold bidx.
  - simpl. lia.
  - destruct (D =? 1)%nat; lia.
Qed.

Lemma bget3_dims (t : tensor3) (a b c i j k : nat) :
  dims3 t a b c -> (j < b)%nat -> (k < c)%nat ->
  bget3 t i j k = get3 t (bidx a i) j k.
Proof.
  intros (E0 & E1 & E2) Hj Hk. unfold bget3.
  rewrite E0, E1, E2, (bidx_lt b j Hj), (bidx_lt c k Hk). reflexivity.
Qed.

(** The variance before the noise term: at output dimension [d] and point
    [n] it is the diagonal entry of Kf plus the quadratic form, in the row
    of A for that point, of q_sqrt q_sqrtᵗ - Ku. *)
Lemma conditional_variance_entry (Kf Ku A q : tensor3) (Do D N M d n : nat) :
  dims3 Kf Do N N -> dims3 Ku Do M M -> dims3 A Do N M -> dims3 q M M D ->
  Do = 1%nat \/ Do = D ->
  (0 < M)%nat -> (d < D)%nat -> (n < N)%nat ->
  dim0 (conditional_variance Kf Ku A q) = D
  /\ dim1 (conditional_variance Kf Ku A q) = N
  /\ get2 (conditional_variance Kf Ku A q) d n
     = get3 Kf (bidx Do d) n n
       + Rsum M (fun m => Rsum M (fun c =>
           get3 A (bidx Do d) n m
           * (Rsum M (fun k => get3 q m k d * get3 q c k d) - get3 Ku (bidx Do d) m c)
           * get3 A (bidx Do d) n c)).
Proof.
  intros HKf HKu HA Hq HDo HM Hd Hn.
  assert (HD : (0 < D)%nat) by lia. assert (HN : (0 < N)%nat) by lia.
  destruct (bdim_broadcast Do D HDo) as [B1 B2].
  pose proof (bidx_broadcast_lt Do D d HDo Hd) as Hd'.
  unfold conditional_variance.
  (* E = q qᵗ, per output dimension *)
  set (E := torch.einsum_nmd_bmd_dnb q q).
  assert (HE : dims3 E D M M
               /\ forall m c, (m < M)%nat -> (c < M)%nat ->
                    get3 E d m c = Rsum M (fun k => get3 q m k d * get3 q c k d)).
  { subst E. unfold torch.einsum_nmd_bmd_dnb.
    destruct Hq as (Q0 & Q1 & Q2). rewrite Q0, Q1, Q2, !bdim_same.
    split; [now apply dims3_tab|]. intros m c Hm Hc.
    rewrite get3_tab by assumption. apply Rsum_ext. intros k Hk.
    rewrite !(bget3_dims q M M D) by (repeat split; assumption).
    now rewrite !(bidx_lt M) by assumption. }
  destruct HE as [HEd HEg].
  set (SK := torch.sub3 E Ku).
  assert (HSK : dims3 SK D M M
                /\ forall m c, (m < M)%nat -> (c < M)%nat ->
                     get3 SK d m c
                     = Rsum M (fun k => get3 q m k d * get3 q c k d)
                       - get3 Ku (bidx Do d) m c).
  { subst SK. unfold torch.sub3.
    destruct HEd as (E0 & E1 & E2). destruct HKu as (U0 & U1 & U2).
    rewrite E0, E1, E2, U0, U1, U2, B2, !bdim_same.
    split; [now apply dims3_tab|]. intros m c Hm Hc.
    rewrite get3_tab by assumption.
    rewrite (bget3_dims E D M M) by (repeat split; assumption).
    rewrite (bget3_dims Ku Do M M) by (repeat split; assumption).
    rewrite (bidx_lt D d Hd). now rewrite HEg. }
  destruct HSK as [HSKd HSKg]. clearbody SK. clear HEg HEd E.
  set (B := torch.einsum_dmb_dnb_dmn SK A).
  assert (HB : dims3 B D M N
               /\ forall m, (m < M)%nat ->
                    get3 B d m n
                    = Rsum M (fun c => get3 SK d m c * get3 A (bidx Do d) n c)).
  { subst B. unfold torch.einsum_dmb_dnb_dmn.
    destruct HSKd as (S0 & S1 & S2). destruct HA as (A0 & A1 & A2).
    rewrite S0, S1, S2, A0, A1, A2, B2, !bdim_same.
    split; [now apply dims3_tab|]. intros m Hm.
    rewrite get3_tab by assumption. apply Rsum_ext. intros c Hc.
    rewrite (bget3_dims SK D M M) by (repeat split; assumption).
    rewrite (bget3_dims A Do N M) by (repeat split; assumption).
    now rewrite (bidx_lt D d Hd). }
  destruct HB as [HBd HBg].
  set (Bt := torch.permute_021 B).
  assert (HBt : dims3 Bt D N M
                /\ forall m, (m < M)%nat -> get3 Bt d n m = get3 B d m n).
  { subst Bt. unfold torch.permute_021. destruct HBd as (B0 & B1' & B2').
    rewrite B0, B1', B2'. split; [now apply dims3_tab|]. intros m Hm.
    now rewrite get3_tab. }
  destruct HBt as [HBtd HBtg]. clearbody Bt.
  set (T := torch.mul3 A Bt).
  assert (HT : dims3 T D N M
               /\ forall m, (m < M)%nat ->
                    get3 T d n m = get3 A (bidx Do d) n m * get3 Bt d n m).
  { subst T. unfold torch.mul3.
    destruct HBtd as (T0 & T1 & T2). destruct HA as (A0 & A1 & A2).
    rewrite T0, T1, T2, A0, A1, A2, B1, !bdim_same.
    split; [now apply dims3_tab|]. intros m Hm.
    rewrite get3_tab by assumption.
    rewrite (bget3_dims A Do N M) by (repeat split; assumption).
    rewrite (bget3_dims Bt D N M) by (repeat split; assumption).
    now rewrite (bidx_lt D d Hd). }
  destruct HT as [HTd HTg]. clearbody T.
  unfold torch.add2, torch.sum_last, torch.diagonal12.
  destruct HTd as (T0 & T1 & T2). destruct HKf as (F0 & F1 & F2).
  rewrite T0, T1, T2, F0, F1, F2, Nat.min_id.
  rewrite !dim0_tab, (dim1_tab Do N (fun d i => get3 Kf d i i)) by lia.
  rewrite (dim1_tab D N (fun a b => Rsum M (fun c => get3 T a b c))) by lia.
  rewrite B1, bdim_same.
  split; [reflexivity|].
  split; [now rewrite dim1_tab by lia|].
  rewrite get2_tab by assumption.
  unfold bget2. rewrite !dim0_tab.
  rewrite (dim1_tab Do N (fun d i => get3 Kf d i i)) by lia.
  rewrite (dim1_tab D N (fun a b => Rsum M (fun c => get3 T a b c))) by lia.
  rewrite (bidx_lt N n Hn), (bidx_lt D d Hd).
  rewrite !get2_tab by assumption. f_equal.
  apply Rsum_ext. intros m Hm. rewrite HTg, HBtg, HBg by assumption.
  rewrite <- Rsum_scal_l. apply Rsum_ext. intros c Hc.
  rewrite HSKg by assumption. ring.
Qed.

Lemma firstn_tab {A : Type} (n m : nat) (F : nat -> A) :
  firstn n (tab (n + m) F) = tab n F.
Proof.
  unfold tab. rewrite seq_app, map_app, firstn_app.
  rewrite length_map, length_seq, Nat.sub_diag. simpl firstn at 2.
  rewrite app_nil_r. apply firstn_all2. now rewrite length_map, length_seq.
Qed.

Lemma seq_from (n m : nat) : seq n m = map (fun i => (n + i)%nat) (seq 0 m).
Proof.
  revert n. induction m as [|m IH]; intros n; [reflexivity|].
  simpl. rewrite Nat.add_0_r. f_equal.
  rewrite <- (seq_shift m 0), map_map, (IH (S n)).
  apply map_ext. intros i. lia.
Qed.

Lemma skipn_tab {A : Type} (n m : nat) (F : nat -> A) :
  skipn n (tab (n + m) F) = tab m (fun i => F (n + i)%nat).
Proof.
  unfold tab. rewrite seq_app, map_app, skipn_app.
  rewrite length_map, length_seq, Nat.sub_diag. simpl skipn at 2.
  rewrite skipn_all2 by (now rewrite length_map, length_seq). simpl.
  rewrite (seq_from n m). now rewrite map_map.
Qed.

Lemma cholesky_batch_length (t Ls : tensor3) :
  linalg.cholesky t = inr Ls -> length Ls = length t.
Proof.
  revert Ls. induction t as [|A t IH]; intros Ls H; simpl in H.
  - now inversion H.
  - destruct (linalg.cholesky_matrix A); [|discriminate].
    destruct (linalg.cholesky t) as [e|r]; [discriminate|].
    inversion H. simpl. f_equal. now apply IH.
Qed.

Lemma solve_value_dims (A B : tensor3) (upper left : bool) :
  (0 < bdim (dim0 A) (dim0 B))%nat -> (0 < dim1 B)%nat ->
  dims3 (linalg.solve_triangular_value A B upper left)
        (bdim (dim0 A) (dim0 B)) (dim1 B) (dim2 B).
Proof.
  intros H0 H1. unfold linalg.solve_triangular_value. cbv zeta.
  now apply (dims3_tab _ _ _
    (fun b i j =>
       get2 (linalg.solve_matrix (nth (bidx (dim0 A) b) A [])
                                 (nth (bidx (dim0 B) b) B []) upper left) i j)).
Qed.

(** The solution A of the two triangular systems has the shape of Kfu. *)
Lemma whitened_dims (L Kfu : tensor3) (Do N M : nat) :
  dims3 Kfu Do N M -> dim0 L = Do -> (0 < Do)%nat -> (0 < N)%nat ->
  dims3 (whitened L Kfu) Do N M.
Proof.
  intros (K0 & K1 & K2) HL HDo HN. unfold whitened.
  assert (HP : dim0 (torch.permute_021 L) = Do).
  { unfold torch.permute_021. now rewrite dim0_tab. }
  destruct (solve_value_dims (torch.permute_021 L) Kfu true false) as (E0 & E1 & E2).
  { rewrite HP, K0, bdim_same. exact HDo. }
  { now rewrite K1. }
  rewrite HP, K0, bdim_same in E0. rewrite K1 in E1. rewrite K2 in E2.
  destruct (solve_value_dims L
              (linalg.solve_triangular_value (torch.permute_021 L) Kfu true false)
              false false) as (F0 & F1 & F2).
  { rewrite HL, E0, bdim_same. exact HDo. }
  { now rewrite E1. }
  rewrite HL, E0, bdim_same in F0. rewrite E1 in F1. rewrite E2 in F2.
  repeat split; assumption.
Qed.

Lemma hd_nth0 {A : Type} (l : list A) (d : A) : hd d l = nth 0 l d.
Proof. now destruct l. Qed.

Lemma unpack_dims3 (K D : nat) (packed : tensor12) :
  shape2 packed (tri K) D -> (0 < K)%nat -> dims3 (unpack K D packed) K K D.
Proof.
  intros Hs HK. destruct (unpack_dims K D packed 0) as [E0 E1].
  split; [exact E0|]. split; [apply unpack_dim1|].
  unfold dim2, dim1. rewrite !hd_nth0. rewrite (unpack_rows K D packed Hs).
  rewrite (index_put_in _ _ _ (tri 0 + 0)%nat).
  - apply (shape2_row packed (tri K) D); [exact Hs|].
    apply tri_index_bound; lia.
  - apply tril_indices_NoDup.
  - intros [r' c'] Hp. apply tril_indices_In in Hp. simpl.
    unfold torch.zeros3. rewrite tab_length, nth_tab, tab_length by lia. lia.
  - rewrite tril_indices_length. apply tri_index_bound; lia.
  - destruct Hs as [Hl _]. rewrite Hl. apply tri_index_bound; lia.
  - apply tril_indices_nth; lia.
Qed.

(** The factor of output dimension [d], and its product with its transpose. *)
Lemma factor_product (q : tensor3) (M d i j : nat) :
  (0 < M)%nat -> (i < M)%nat -> (j < M)%nat ->
  get2 (matmul (factor q M d) (linalg.transpose (factor q M d))) i j
  = Rsum M (fun k => get3 q i k d * get3 q j k d).
Proof.
  intros HM Hi Hj. unfold matmul, linalg.transpose, factor.
  rewrite ?(dim1_tab M M (fun i j => get3 q i j d)) by exact HM.
  repeat (rewrite dim0_tab || rewrite dim1_tab by exact HM).
  rewrite get2_tab by assumption. apply Rsum_ext. intros k Hk.
  now rewrite !get2_tab.
Qed.

Lemma transposed_factor_product (q : tensor3) (M d i j : nat) :
  (0 < M)%nat -> (i < M)%nat -> (j < M)%nat ->
  get2 (matmul (linalg.transpose (factor q M d)) (factor q M d)) i j
  = Rsum M (fun k => get3 q k i d * get3 q k j d).
Proof.
  intros HM Hi Hj. unfold matmul, linalg.transpose, factor.
  rewrite ?(dim1_tab M M (fun i j => get3 q i j d)) by exact HM.
  repeat (rewrite dim0_tab || rewrite dim1_tab by exact HM).
  rewrite get2_tab by assumption. apply Rsum_ext. intros k Hk.
  now rewrite !get2_tab.
Qed.

Lemma tab_ext {A : Type} (n : nat) (F G : nat -> A) :
  (forall i, (i < n)%nat -> F i = G i) -> tab n F = tab n G.
Proof.
  intros H. unfold tab. apply map_ext_in. intros i Hi.
  apply in_seq in Hi. apply H. lia.
Qed.

Lemma dims3_map3 (g : R -> R) (t : tensor3) (a b c : nat) :
  dims3 t a b c -> dims3 (map (map (map g)) t) a b c.
Proof.
  intros (E0 & E1 & E2). unfold dims3, dim0, dim1, dim2, dim1 in *.
  rewrite length_map. split; [exact E0|].
  destruct t as [|m t]; simpl in *; [auto|].
  rewrite length_map. split; [exact E1|].
  destruct m as [|r m]; simpl in *; [auto|]. now rewrite length_map.
Qed.

Lemma dims_map2 (g : R -> R) (m : tensor2) :
  dim0 (map (map g) m) = dim0 m /\ dim1 (map (map g) m) = dim1 m.
Proof.
  unfold dim0, dim1. rewrite length_map. split; [reflexivity|].
  destruct m as [|r m]; simpl; [reflexivity|]. now rewrite length_map.
Qed.

Lemma scaled_eye_dims (c : R) (M : nat) :
  (0 < M)%nat ->
  dim0 (torch.scale2 c (torch.eye M)) = M /\ dim1 (torch.scale2 c (torch.eye M)) = M.
Proof.
  intros HM. unfold torch.scale2.
  destruct (dims_map2 (fun x => c * x) (torch.eye M)) as [E0 E1].
  rewrite E0, E1. unfold torch.eye. split; [apply dim0_tab|].
  now apply (dim1_tab M M (fun i j => if (i =? j)%nat then 1 else 0)).
Qed.

Lemma permute_201_dims (t : tensor3) (a b c : nat) :
  dims3 t a b c -> (0 < a)%nat -> (0 < c)%nat -> dims3 (torch.permute_201 t) c a b.
Proof.
  intros (E0 & E1 & E2) Ha Hc. unfold torch.permute_201.
  rewrite E0, E1, E2. now apply dims3_tab.
Qed.

Lemma add3_2_dims (t : tensor3) (m : tensor2) (a b c : nat) :
  dims3 t a b c -> dim0 m = b -> dim1 m = c -> (0 < a)%nat -> (0 < b)%nat ->
  dims3 (torch.add3_2 t m) a b c.
Proof.
  intros (E0 & E1 & E2) M0 M1 Ha Hb. unfold torch.add3_2.
  rewrite E0, E1, E2, M0, M1, !bdim_same. now apply dims3_tab.
Qed.

(** The basis features have the sizes of the samples. *)
Lemma features_dims (f : tensor3) (count S P Do : nat) :
  dims3 f S P Do -> (0 < S)%nat -> (0 < P)%nat ->
  dims3 (features f count) S P Do.
Proof.
  intros (E0 & E1 & E2) HS HP. unfold features, torch.div3_scalar.
  apply dims3_map3. unfold torch.sub3, torch.mean0.
  rewrite E0, E1, E2.
  assert (D0 : dim0 [tab P (fun n => tab Do (fun d =>
                       Rsum S (fun s => get3 f s n d) / INR S))] = 1%nat) by reflexivity.
  assert (D1 : dim1 [tab P (fun n => tab Do (fun d =>
                       Rsum S (fun s => get3 f s n d) / INR S))] = P).
  { unfold dim1. simpl hd. apply tab_length. }
  assert (D2 : dim2 [tab P (fun n => tab Do (fun d =>
                       Rsum S (fun s => get3 f s n d) / INR S))] = Do).
  { unfold dim2. simpl hd.
    now apply (dim1_tab P Do (fun n d => Rsum S (fun s => get3 f s n d) / INR S)). }
  rewrite D0, D1, D2, bdim_one_r, !bdim_same.
  apply dims3_tab; assumption.
Qed.

(** The three blocks of the empirical kernel. *)
Lemma empirical_blocks_dims (f : tensor3) (S N M Do : nat) :
  dims3 f S (N + M) Do -> (0 < S)%nat -> (0 < N)%nat -> (0 < M)%nat -> (0 < Do)%nat ->
  dims3 (block_Ku (empirical_kernel f) N M) Do M M
  /\ dims3 (block_Kf (empirical_kernel f) N) Do N N
  /\ dims3 (block_Kfu (empirical_kernel f) N) Do N M.
Proof.
  intros Hf HS HN HM HDo.
  destruct (features_dims f (dim0 f) S (N + M) Do Hf HS ltac:(lia)) as (P0 & P1 & P2).
  unfold empirical_kernel, torch.einsum_and_amd_nmd.
  rewrite P0, P1, P2, !bdim_same.
  set (G := fun n m d =>
              Rsum S (fun s => bget3 (features f (dim0 f)) s n d
                               * bget3 (features f (dim0 f)) s m d)).
  change (tab (N + M) (fun n => tab (N + M) (fun m => tab Do (fun d =>
            Rsum S (fun s => bget3 (features f (dim0 f)) s n d
                             * bget3 (features f (dim0 f)) s m d)))))
    with (tab (N + M) (fun n => tab (N + M) (fun m => tab Do (fun d => G n m d)))).
  clearbody G.
  destruct (scaled_eye_dims (2 / 1000000) M HM) as [EM0 EM1].
  destruct (scaled_eye_dims (2 / 1000000) N HN) as [EN0 EN1].
  assert (Huu : map (skipn N) (skipn N
                  (tab (N + M) (fun n => tab (N + M) (fun m => tab Do (fun d => G n m d)))))
                = tab M (fun i => tab M (fun j => tab Do (fun d => G (N + i) (N + j) d)%nat))).
  { rewrite skipn_tab, map_tab. apply tab_ext. intros i _. apply skipn_tab. }
  assert (Hff : map (firstn N) (firstn N
                  (tab (N + M) (fun n => tab (N + M) (fun m => tab Do (fun d => G n m d)))))
                = tab N (fun i => tab N (fun j => tab Do (fun d => G i j d)))).
  { rewrite firstn_tab, map_tab. apply tab_ext. intros i _. apply firstn_tab. }
  assert (Hfu : map (skipn N) (firstn N
                  (tab (N + M) (fun n => tab (N + M) (fun m => tab Do (fun d => G n m d)))))
                = tab N (fun i => tab M (fun j => tab Do (fun d => G i (N + j) d)%nat))).
  { rewrite firstn_tab, map_tab. apply tab_ext. intros i _. apply skipn_tab. }
  unfold block_Ku, block_Kf, block_Kfu. rewrite Huu, Hff, Hfu.
  split; [|split].
  - apply add3_2_dims; try assumption.
    apply permute_201_dims; try assumption. now apply dims3_tab.
  - apply add3_2_dims; try assumption.
    apply permute_201_dims; try assumption. now apply dims3_tab.
  - apply permute_201_dims; try assumption. now apply dims3_tab.
Qed.

(** The kernel of [SparseGP] is one matrix, a row per point of [x1] and a
    column per point of [x2]. *)
Lemma kernel_dims3 (s : SparseGP.t) (x1 : tensor2) (x2 : option tensor2) :
  (0 < length x1)%nat ->
  (0 < length (match x2 with None => x1 | Some x => x end))%nat ->
  dims3 (SparseGP.kernel s x1 x2) 1 (length x1)
        (length (match x2 with None => x1 | Some x => x end)).
Proof.
  intros H1 H2. unfold SparseGP.kernel.
  set (x2' := match x2 with None => x1 | Some x => x end) in *.
  set (e := exp (data (SparseGP.log_lengthscale s))).
  set (a := map (fun row : list R => [row]) (map (map (fun x => x / e)) x1)).
  set (b := [map (map (fun x => x / e)) x2']).
  assert (Da : dim0 a = length x1 /\ dim1 a = 1%nat).
  { subst a. unfold dim0, dim1. rewrite !length_map. split; [reflexivity|].
    destruct x1; [simpl in H1; lia | reflexivity]. }
  assert (Db : dim0 b = 1%nat /\ dim1 b = length x2').
  { subst b. unfold dim0, dim1. simpl. now rewrite length_map. }
  destruct Da as [A0 A1]. destruct Db as [B0 B1].
  set (c := bdim (dim2 a) (dim2 b)).
  assert (HT : dims3 (torch.square3 (torch.sub3 a b)) (length x1) (length x2') c).
  { unfold torch.square3, torch.square2. apply dims3_map3.
    unfold torch.sub3. rewrite A0, A1, B0, B1, bdim_one_r. fold c.
    replace (bdim 1 (length x2')) with (length x2') by reflexivity.
    apply dims3_tab; lia. }
  destruct HT as (T0 & T1 & T2). clearbody a b.
  unfold torch.sum_last. rewrite T0, T1, T2.
  set (F := fun i j => Rsum c (fun k => get3 (torch.square3 (torch.sub3 a b)) i j k)).
  change (tab (length x1) (fun a0 => tab (length x2') (fun b0 =>
            Rsum c (fun c0 => get3 (torch.square3 (torch.sub3 a b)) a0 b0 c0))))
    with (tab (length x1) (fun i => tab (length x2') (fun j => F i j))).
  clearbody F.
  unfold torch.scale2. simpl map at 1.
  destruct (dims_map2 (fun x => exp (data (SparseGP.log_amplitude s)) * x)
              (map (map (fun d => exp (- d)))
                   (tab (length x1) (fun i => tab (length x2') (fun j => F i j)))))
    as [E0 E1].
  destruct (dims_map2 (fun d => exp (- d))
              (tab (length x1) (fun i => tab (length x2') (fun j => F i j))))
    as [G0 G1].
  split; [reflexivity|]. split.
  - unfold dim1. simpl hd. unfold dim0 in E0, G0. rewrite E0, G0. apply tab_length.
  - unfold dim2. simpl hd. rewrite E1, G1. now apply (dim1_tab _ _ F).
Qed.

Lemma product_dims (q : tensor3) (M d : nat) :
  (0 < M)%nat ->
  dim0 (factor_times_transpose (factor q M d)) = M
  /\ dim1 (factor_times_transpose (factor q M d)) = M
  /\ dim0 (transpose_times_factor (factor q M d)) = M
  /\ dim1 (transpose_times_factor (factor q M d)) = M.
Proof.
  intros HM.
  unfold factor_times_transpose, transpose_times_factor, matmul, linalg.transpose, factor.
  rewrite ?(dim1_tab M M (fun i j => get3 q i j d)) by exact HM.
  repeat (rewrite dim0_tab || rewrite dim1_tab by exact HM).
  repeat split; reflexivity.
Qed.

Lemma matsub_get (a b : tensor2) (M i j : nat) :
  dim0 a = M -> dim1 a = M -> (i < M)%nat -> (j < M)%nat ->
  get2 (matsub a b) i j = get2 a i j - get2 b i j.
Proof.
  intros E0 E1 Hi Hj. unfold matsub. rewrite E0, E1. now rewrite get2_tab.
Qed.

(** What [forward] computes is the formula with q_sqrt q_sqrtᵗ. *)
Lemma conditional_variance_formula (Kf Ku A q : tensor3) (Do D N M d n : nat) :
  dims3 Kf Do N N -> dims3 Ku Do M M -> dims3 A Do N M -> dims3 q M M D ->
  Do = 1%nat \/ Do = D ->
  (0 < M)%nat -> (d < D)%nat -> (n < N)%nat ->
  get2 (conditional_variance Kf Ku A q) d n
  = variance_formula factor_times_transpose Kf Ku A q Do M d n.
Proof.
  intros HKf HKu HA Hq HDo HM Hd Hn.
  destruct (conditional_variance_entry Kf Ku A q Do D N M d n
              HKf HKu HA Hq HDo HM Hd Hn) as (_ & _ & E).
  rewrite E. unfold variance_formula, quad. f_equal.
  destruct (product_dims q M d HM) as (P0 & P1 & _).
  apply Rsum_ext. intros m Hm. apply Rsum_ext. intros c Hc.
  rewrite (matsub_get _ _ M) by assumption.
  unfold factor_times_transpose. rewrite factor_product by assumption.
  reflexivity.
Qed.

Lemma VIPLayerInducing_variance (s : VIPLayerInducing.t) (X : tensor2) (S Do : nat) :
  let M := VIPLayerInducing.num_inducing s in
  let D := VIPLayerInducing.output_dim s in
  dims3 (inducing_draw s X) S (dim0 X + M) Do ->
  (0 < S)%nat -> (0 < dim0 X)%nat -> (0 < M)%nat ->
  Do = 1%nat \/ Do = D ->
  shape2 (data (VIPLayerInducing.q_sqrt_tri s)) (tri M) D ->
  (forall p, VIPLayerInducing.log_layer_noise s = Some p -> length (data p) = D) ->
  inducing_variance_is factor_times_transpose s X Do.
Proof.
  intros M D Hf HS HN HM HDo Hp Hnoise b s' mean K samples H.
  destruct (VIPLayerInducing_forward_ok s s' X b mean K samples H)
    as (L & HL & _ & _ & _ & HK).
  fold M in HL, HK. fold D in HK.
  exists L. split; [exact HL|]. intros d n Hd Hn.
  assert (HDo0 : (0 < Do)%nat) by (destruct HDo; lia).
  destruct (empirical_blocks_dims (inducing_draw s X) S (dim0 X) M Do Hf HS HN HM HDo0)
    as (DKu & DKf & DKfu).
  assert (HLd : dim0 L = Do).
  { unfold dim0. rewrite (cholesky_batch_length _ _ HL).
    unfold jittered, torch.add3_2. rewrite tab_length. apply DKu. }
  pose proof (whitened_dims L _ Do (dim0 X) M DKfu HLd HDo0 HN) as DA.
  pose proof (unpack_dims3 M D _ Hp HM) as Dq.
  destruct (conditional_variance_entry _ _ _ _ Do D (dim0 X) M d n
              DKf DKu DA Dq HDo HM Hd Hn) as (C0 & C1 & _).
  pose proof (conditional_variance_formula _ _ _ _ Do D (dim0 X) M d n
                DKf DKu DA Dq HDo HM Hd Hn) as E.
  fold M. fold D. rewrite <- E. rewrite HK. cbv zeta.
  destruct (VIPLayerInducing.log_layer_noise s) as [p|] eqn:En; simpl noise_term.
  - specialize (Hnoise p eq_refl).
    unfold torch.add2. rewrite C0, C1.
    assert (U0 : dim0 (torch.unsqueeze_last (torch.exp1 (data p))) = D).
    { unfold torch.unsqueeze_last, torch.exp1, dim0. now rewrite !length_map. }
    assert (U1 : dim1 (torch.unsqueeze_last (torch.exp1 (data p))) = 1%nat).
    { unfold torch.unsqueeze_last, torch.exp1, dim1.
      destruct (data p); [simpl in Hnoise; lia | reflexivity]. }
    rewrite U0, U1, bdim_same, bdim_one_r.
    rewrite get2_tab by assumption. unfold bget2.
    rewrite C0, C1, U0, U1, (bidx_lt D d Hd), (bidx_lt (dim0 X) n Hn). f_equal.
    unfold bidx. simpl. unfold get2, get1, torch.unsqueeze_last, torch.exp1.
    rewrite (nth_map_in _ _ _ _ 0) by (rewrite length_map; lia).
    rewrite (nth_map_in _ _ _ _ 0) by lia. reflexivity.
  - lra.
Qed.

Lemma gp_blocks_dims (s : SparseGP.t) (X : tensor2) :
  let M := SparseGP.num_inducing s in
  length (data (SparseGP.inducing_points s)) = M ->
  (0 < M)%nat -> (0 < dim0 X)%nat ->
  dims3 (gp_Ku s) 1 M M /\ dims3 (gp_Kf s X) 1 (dim0 X) (dim0 X)
  /\ dims3 (gp_Kfu s X) 1 (dim0 X) M.
Proof.
  intros M HZ HM HN.
  destruct (scaled_eye_dims (2 / 1000000) M HM) as [EM0 EM1].
  destruct (scaled_eye_dims (2 / 1000000) (dim0 X) HN) as [EN0 EN1].
  pose proof (kernel_dims3 s (data (SparseGP.inducing_points s)) None) as K1.
  pose proof (kernel_dims3 s X None) as K2.
  pose proof (kernel_dims3 s X (Some (data (SparseGP.inducing_points s)))) as K3.
  cbv beta iota in K1, K2, K3. rewrite HZ in K1, K3.
  unfold gp_Ku, gp_Kf, gp_Kfu. fold M. split; [|split].
  - apply add3_2_dims; try assumption; try lia. now apply K1.
  - apply add3_2_dims; try assumption; try lia. now apply K2.
  - now apply K3.
Qed.

(** A call of [SparseGP.forward] that returns a prediction, taken apart. *)
Lemma SparseGP_forward_ok
    (s s' : SparseGP.t) (X : tensor2) (b : bool)
    (mean K : tensor2) (samples : option tensor3) :
  SparseGP.forward s X b = (s', Ok (mean, K, samples)) ->
  let M := SparseGP.num_inducing s in
  let D := SparseGP.output_dim s in
  let q := unpack M D (data (SparseGP.q_sqrt_tri s)) in
  exists L,
    linalg.cholesky (jittered (gp_Ku s) M) = inr L
    /\ SparseGP.Lu s' = Some L
    /\ SparseGP.q_sqrt s' = Some q
    /\ K = let K0 := conditional_variance (gp_Kf s X) (gp_Ku s)
                       (whitened L (gp_Kfu s X)) q in
           match SparseGP.log_layer_noise s with
           | Some noise => torch.add2_1 K0 (torch.exp1 (data noise))
           | None => K0
           end.
Proof.
  intros H M D q.
  unfold SparseGP.forward in H.
  cbv [call bind this assign finite_if fits ret raise lift getattr gf_call fst snd
       cholesky solve_triangular] in H.
  fold (gp_Ku s) in H. fold M in H. fold (jittered (gp_Ku s) M) in H. fold D in H.
  fold (gp_Kf s X) in H. fold (gp_Kfu s X) in H.
  fold (unpack M D (data (SparseGP.q_sqrt_tri s))) in H. fold q in H.
  split_cases H; inversion H; subst; clear H;
    (eexists; split; [reflexivity|]);
    (split; [reflexivity|]); (split; [reflexivity|]); reflexivity.
Qed.

Lemma SparseGP_variance (s : SparseGP.t) (X : tensor2) :
  let M := SparseGP.num_inducing s in
  let D := SparseGP.output_dim s in
  length (data (SparseGP.inducing_points s)) = M ->
  (0 < M)%nat -> (0 < dim0 X)%nat ->
  shape2 (data (SparseGP.q_sqrt_tri s)) (tri M) D ->
  SparseGP.log_layer_noise s = None ->
  gp_variance_is factor_times_transpose s X.
Proof.
  intros M D HZ HM HN Hp Hnoise b s' mean K samples H.
  destruct (SparseGP_forward_ok s s' X b mean K samples H) as (L & HL & _ & _ & HK).
  fold M in HL, HK. fold D in HK. rewrite Hnoise in HK. cbv zeta in HK.
  exists L. split; [exact HL|]. intros d n Hd Hn.
  destruct (gp_blocks_dims s X HZ HM HN) as (DKu & DKf & DKfu). fold M in DKu, DKfu.
  assert (HLd : dim0 L = 1%nat).
  { unfold dim0. rewrite (cholesky_batch_length _ _ HL).
    unfold jittered, torch.add3_2. rewrite tab_length. apply DKu. }
  pose proof (whitened_dims L _ 1 (dim0 X) M DKfu HLd Nat.lt_0_1 HN) as DA.
  pose proof (unpack_dims3 M D _ Hp HM) as Dq.
  fold M. fold D. rewrite HK.
  apply (conditional_variance_formula _ _ _ _ 1 D (dim0 X) M d n); auto.
Qed.

(** C2, as the code has it: whenever the Cholesky factorisation succeeds and
    [forward] returns, the variance at output dimension d and point n is
    the diagonal entry of Kf plus the quadratic form, in the row of A for
    that point, of SK = q_sqrt q_sqrtᵗ - Ku (the unpacked lower-triangular
    factor times its transpose, minus the jittered inducing covariance),
    plus exp(log_layer_noise[d]) when a fixed noise is configured: in
    [VIPLayerInducing.forward] for every batch, every parameter state and
    every draw of S samples at the N + M locations, with 1 or D outputs;
    and in [SparseGP.forward], from its kernel matrices, when no fixed noise
    is configured. *)
Theorem inducing_variance_factor_times_transpose :
  (forall (s : VIPLayerInducing.t) (X : tensor2) (S Do : nat),
      dims3 (inducing_draw s X) S (dim0 X + VIPLayerInducing.num_inducing s) Do ->
      (0 < S)%nat -> (0 < dim0 X)%nat -> (0 < VIPLayerInducing.num_inducing s)%nat ->
      Do = 1%nat \/ Do = VIPLayerInducing.output_dim s ->
      shape2 (data (VIPLayerInducing.q_sqrt_tri s))
             (tri (VIPLayerInducing.num_inducing s)) (VIPLayerInducing.output_dim s) ->
      (forall p, VIPLayerInducing.log_layer_noise s = Some p ->
                 length (data p) = VIPLayerInducing.output_dim s) ->
      inducing_variance_is factor_times_transpose s X Do)
  /\ (forall (s : SparseGP.t) (X : tensor2),
      length (data (SparseGP.inducing_points s)) = SparseGP.num_inducing s ->
      (0 < SparseGP.num_inducing s)%nat -> (0 < dim0 X)%nat ->
      shape2 (data (SparseGP.q_sqrt_tri s))
             (tri (SparseGP.num_inducing s)) (SparseGP.output_dim s) ->
      SparseGP.log_layer_noise s = None ->
      gp_variance_is factor_times_transpose s X).
Proof.
  split.
  - exact VIPLayerInducing_variance.
  - exact SparseGP_variance.
Qed.

(** ** The order of the factor and its transpose *)

(** When nothing stands in its way, [forward] returns. *)
Lemma VIPLayerInducing_forward_returns (s : VIPLayerInducing.t) (X : tensor2) (b : bool)
    (L : tensor3) :
  let M := VIPLayerInducing.num_inducing s in
  let f := inducing_draw s X in
  let fK := empirical_kernel f in
  let Kfu := block_Kfu fK (dim0 X) in
  (2 <= dim0 f)%nat ->
  linalg.cholesky (jittered (block_Ku fK (dim0 X) M) M) = inr L ->
  linalg.solve_triangular_fits (torch.permute_021 L) Kfu false = true ->
  linalg.solve_triangular_fits L
    (linalg.solve_triangular_value (torch.permute_021 L) Kfu true false) false = true ->
  linalg.nonzero_diagonal (torch.permute_021 L) = true ->
  linalg.nonzero_diagonal L = true ->
  exists s' mean K samples,
    VIPLayerInducing.forward s X b = (s', Ok (mean, K, samples)).
Proof.
  intros M f fK Kfu Hf HL F1 F2 N1 N2.
  unfold VIPLayerInducing.forward.
  cbv [call bind this assign finite_if fits ret raise lift getattr gf_call fst snd
       cholesky solve_triangular].
  fold (inducing_draw s X). fold f.
  fold (features f (dim0 f)). fold (empirical_kernel f). fold fK.
  fold M. fold (block_Ku fK (dim0 X) M). fold (jittered (block_Ku fK (dim0 X) M) M).
  fold (block_Kfu fK (dim0 X)). fold Kfu.
  assert (E0 : (dim0 f =? 0)%nat = false) by (apply Nat.eqb_neq; lia).
  rewrite E0, is_nonneg_true by (apply IZR_le; lia).
  rewrite is_zero_false by (pose proof (coeff_divisor_positive (dim0 f) Hf); lra).
  cbn [negb orb]. rewrite HL, F1, F2, N1, N2. cbn [negb orb].
  do 4 eexists. reflexivity.
Qed.

(** The Cholesky factor of the crossed layer is diagonal and positive. *)
Lemma crossed_cholesky :
  exists l1 l2,
    0 < l1 /\ 0 < l2
    /\ linalg.cholesky
         (jittered (block_Ku (empirical_kernel (inducing_draw crossed_layer [[0]])) 1%nat 2%nat)
              2%nat)
       = inr [[[l1; 0]; [0; l2]]].
Proof.
  unfold crossed_layer, crossed_samples. crunch.
  rewrite !sqrt_1. replace (INR 2) with 2 by (simpl; lra).
  match goal with |- context [Rlt_dec 0 ?x] => set (k1 := x) end.
  assert (Hk1 : 0 < k1) by (subst k1; lra).
  destruct (Rlt_dec 0 k1) as [_|Hn]; [|contradiction].
  crunch. fold k1.
  set (l1 := sqrt k1). assert (Hl1 : 0 < l1) by (apply sqrt_lt_R0; exact Hk1).
  clearbody l1. clear Hk1. clearbody k1.
  match goal with
  | |- context [ (?y / l1) :: sqrt ?k :: nil ] => set (k2 := k); set (x := y) in *
  end.
  assert (Hx : x = 0) by (subst x; lra).
  assert (Hk2 : 0 < k2).
  { subst k2. rewrite Hx. unfold Rdiv. rewrite !Rmult_0_l. lra. }
  clearbody k2. rewrite Hx. clear Hx x.
  destruct (Rlt_dec 0 k2) as [_|Hn]; [|contradiction].
  exists l1, (sqrt k2). split; [exact Hl1|]. split; [now apply sqrt_lt_R0|].
  crunch. unfold Rdiv. rewrite Rmult_0_l. reflexivity.
Qed.

Lemma crossed_forward_returns (l1 l2 : R) :
  0 < l1 -> 0 < l2 ->
  linalg.cholesky
    (jittered (block_Ku (empirical_kernel (inducing_draw crossed_layer [[0]])) 1%nat 2%nat)
              2%nat)
  = inr [[[l1; 0]; [0; l2]]] ->
  exists s' mean K samples,
    VIPLayerInducing.forward crossed_layer [[0]] false = (s', Ok (mean, K, samples)).
Proof.
  intros Hl1 Hl2 HL.
  apply (VIPLayerInducing_forward_returns crossed_layer [[0]] false [[[l1; 0]; [0; l2]]]).
  - vm_compute. lia.
  - exact HL.
  - reflexivity.
  - reflexivity.
  - unfold linalg.nonzero_diagonal. crunch.
    destruct (Req_dec_T l1 0); [exfalso; lra|].
    destruct (Req_dec_T l2 0); [exfalso; lra|]. reflexivity.
  - unfold linalg.nonzero_diagonal. crunch.
    destruct (Req_dec_T l1 0); [exfalso; lra|].
    destruct (Req_dec_T l2 0); [exfalso; lra|]. reflexivity.
Qed.

Lemma crossed_layer_variance :
  inducing_variance_is factor_times_transpose crossed_layer [[0]] 1.
Proof.
  apply (VIPLayerInducing_variance crossed_layer [[0]] 2 1).
  - vm_compute. auto.
  - lia.
  - vm_compute; lia.
  - vm_compute; lia.
  - left; reflexivity.
  - split; [reflexivity | repeat constructor].
  - intros p Hp. discriminate Hp.
Qed.

(** C2 as stated fails: on the crossed layer [forward] returns, and the
    variance it returns is not the one that SK = q_sqrtᵗ q_sqrt - Ku gives
    (the two differ by 4 / l^4, l the first diagonal entry of Lu). *)
Lemma inducing_variance_not_transpose_times_factor :
  ~ inducing_variance_is transpose_times_factor crossed_layer [[0]] 1.
Proof.
  intros Hclaim.
  destruct crossed_cholesky as (l1 & l2 & Hl1 & Hl2 & HL).
  destruct (crossed_forward_returns l1 l2 Hl1 Hl2 HL) as (s' & mean & K & samples & E).
  destruct (Hclaim false s' mean K samples E) as (L1 & HL1 & Hc).
  destruct (crossed_layer_variance false s' mean K samples E) as (L2 & HL2 & Hv2).
  assert (EL1 : @inr exn _ L1 = inr [[[l1; 0]; [0; l2]]]) by (rewrite <- HL1; exact HL).
  assert (EL2 : @inr exn _ L2 = inr [[[l1; 0]; [0; l2]]]) by (rewrite <- HL2; exact HL).
  inversion EL1; subst L1. inversion EL2; subst L2. clear EL1 EL2 HL1 HL2.
  specialize (Hc 0%nat 0%nat). specialize (Hv2 0%nat 0%nat).
  rewrite Hc in Hv2 by (vm_compute; lia). clear Hc.
  specialize (Hv2 ltac:(vm_compute; lia) ltac:(vm_compute; lia)).
  revert Hv2. unfold crossed_layer, crossed_samples. crunch.
  rewrite sqrt_1. replace (INR 2) with 2 by (simpl; lra).
  intros H. apply Rminus_diag_eq in H.
  match type of H with
  | ?e = 0 => assert (He : e = 4 / (l1 * l1 * l1 * l1)) by (field; lra)
  end.
  rewrite He in H.
  assert (Hpos : 0 < 4 / (l1 * l1 * l1 * l1)).
  { apply Rdiv_lt_0_compat; [lra|]. repeat apply Rmult_lt_0_compat; assumption. }
  lra.
Qed.

Lemma inducing_variance_factor_times_transpose_witness :
  inducing_variance_is factor_times_transpose crossed_layer [[0]] 1.
Proof.
  apply (proj1 inducing_variance_factor_times_transpose crossed_layer [[0]] 2%nat 1%nat).
  - vm_compute. auto.
  - lia.
  - vm_compute; lia.
  - vm_compute; lia.
  - left; reflexivity.
  - split; [reflexivity | repeat constructor].
  - intros p Hp. discriminate Hp.
Defined.

Lemma VIPLayerInducing_KL_reads_cache_witness :
  exists s' p L,
    VIPLayerInducing.forward crossed_layer [[0]] false = (s', Ok p)
    /\ VIPLayerInducing.Lu s' = Some L
    /\ snd (VIPLayerInducing.KL s')
       = snd (VIPLayerInducing.KL
                (VIPLayerInducing.set_q_sqrt (Some (unpack 2 1 (Mat [[1]; [1]; [1]])))
                   (VIPLayerInducing.set_Lu (Some L) crossed_layer))).
Proof.
  destruct crossed_cholesky as (l1 & l2 & Hl1 & Hl2 & HL).
  destruct (crossed_forward_returns l1 l2 Hl1 Hl2 HL) as (s' & mean & K & samples & E).
  destruct (proj2 (proj2 VIPLayerInducing_KL_reads_cache)
              crossed_layer [[0]] false s' _ E) as (L & _ & HLu & _ & HKL).
  exists s', (mean, K, samples), L.
  split; [exact E|]. split; [exact HLu | exact HKL].
Defined.

(** ** The variance of [VIPLayer.forward], entry by entry *)

(** The square of a linear form, summed, is a quadratic form. *)
Lemma Rsum_square (S : nat) (v : nat -> R) (q : nat -> nat -> R) :
  Rsum S (fun s => Rsum S (fun i => v i * q s i) * Rsum S (fun j => v j * q s j))
  = Rsum S (fun i => Rsum S (fun j => v i * Rsum S (fun k => q k i * q k j) * v j)).
Proof.
  transitivity (Rsum S (fun s => Rsum S (fun i => Rsum S (fun j =>
                  (v i * q s i) * (v j * q s j))))).
  { apply Rsum_ext. intros s _. rewrite <- Rsum_scal_r. apply Rsum_ext. intros i _.
    now rewrite <- Rsum_scal_l. }
  rewrite Rsum_swap. apply Rsum_ext. intros i _.
  rewrite Rsum_swap. apply Rsum_ext. intros j _.
  rewrite <- Rsum_scal_l, <- Rsum_scal_r. apply Rsum_ext. intros k _. ring.
Qed.

Lemma projected_variance_entry (phi q : tensor3) (S N Do D : nat) :
  dims3 phi S N Do -> dims3 q S S D -> Do = 1%nat \/ Do = D ->
  (0 < S)%nat -> (0 < N)%nat ->
  dim0 (projected_variance phi q) = N
  /\ dim1 (projected_variance phi q) = D
  /\ forall n d, (n < N)%nat -> (d < D)%nat ->
       get2 (projected_variance phi q) n d
       = Rsum S (fun s =>
           Rsum S (fun i => get3 phi i n (bidx Do d) * get3 q s i d)
           * Rsum S (fun i => get3 phi i n (bidx Do d) * get3 q s i d)).
Proof.
  intros (P0 & P1 & P2) (Q0 & Q1 & Q2) HDo HS HN.
  destruct (bdim_broadcast Do D HDo) as [B1 B2].
  unfold projected_variance.
  set (K1 := torch.einsum_ind_sid_snd phi q).
  assert (HK : dims3 K1 S N D
               /\ forall s n d, (s < S)%nat -> (n < N)%nat -> (d < D)%nat ->
                    get3 K1 s n d
                    = Rsum S (fun i => get3 phi i n (bidx Do d) * get3 q s i d)).
  { subst K1. unfold torch.einsum_ind_sid_snd.
    rewrite P0, P1, P2, Q0, Q1, Q2, B1, bdim_same.
    split; [now apply dims3_tab|]. intros s n d Hs Hn Hd.
    rewrite get3_tab by assumption. apply Rsum_ext. intros i Hi.
    unfold bget3. rewrite P0, P1, P2, Q0, Q1, Q2.
    now rewrite !(bidx_lt S), (bidx_lt N), (bidx_lt D) by assumption. }
  destruct HK as [(K0 & K1' & K2) HKg]. clearbody K1.
  unfold torch.mul3. rewrite K0, K1', K2, !bdim_same.
  unfold torch.sum_dim0.
  rewrite dim0_tab, (dim1_tab S N) by exact HS.
  rewrite dim2_tab by assumption.
  rewrite dim0_tab, (dim1_tab N D) by exact HN.
  split; [reflexivity|]. split; [reflexivity|]. intros n d Hn Hd.
  rewrite get2_tab by assumption. apply Rsum_ext. intros s Hs.
  rewrite get3_tab by assumption.
  unfold bget3. rewrite K0, K1', K2.
  rewrite (bidx_lt S), (bidx_lt N), (bidx_lt D) by assumption.
  now rewrite HKg.
Qed.

(** The sizes of the operands of the two contractions of [VIPLayer.forward]
    broadcast: as many samples as coefficients (or a single one of either),
    and one output or as many as the layer has. *)
Lemma broadcasts_choice (Do D : nat) : Do = 1%nat \/ Do = D -> torch.broadcasts Do D = true.
Proof.
  intros [->| ->]; unfold torch.broadcasts.
  - simpl. now rewrite orb_true_r.
  - now rewrite Nat.eqb_refl.
Qed.

Lemma einsum_snd_sd_nd_fits_dims (phi : tensor3) (mu : tensor2) (S' S N Do D : nat) :
  dims3 phi S' N Do -> dim0 mu = S -> dim1 mu = D ->
  torch.broadcasts S' S = true -> Do = 1%nat \/ Do = D ->
  torch.einsum_snd_sd_nd_fits phi mu = true.
Proof.
  intros (P0 & P1 & P2) M0 M1 HS HDo. unfold torch.einsum_snd_sd_nd_fits.
  now rewrite P0, P2, M0, M1, HS, (broadcasts_choice Do D HDo).
Qed.

Lemma einsum_ind_sid_snd_fits_dims (phi q : tensor3) (S' S N Do D : nat) :
  dims3 phi S' N Do -> dims3 q S S D ->
  torch.broadcasts S' S = true -> Do = 1%nat \/ Do = D ->
  torch.einsum_ind_sid_snd_fits phi q = true.
Proof.
  intros (P0 & P1 & P2) (Q0 & Q1 & Q2) HS HDo. unfold torch.einsum_ind_sid_snd_fits.
  now rewrite P0, P2, Q1, Q2, HS, (broadcasts_choice Do D HDo).
Qed.

Lemma broadcasts_refl (n : nat) : torch.broadcasts n n = true.
Proof. unfold torch.broadcasts. now rewrite Nat.eqb_refl. Qed.

(** For every batch, every parameter state and every draw of S >= 2 samples
    with 1 or D outputs, [VIPLayer.forward] returns, and the variance it
    returns at point n and output dimension d is the quadratic form of
    q_sqrtᵗ q_sqrt in the features of that point, plus exp(log_layer_noise[d])
    when a fixed noise is configured. *)
Lemma VIPLayer_variance (s : VIPLayer.t) (X : tensor2) (b : bool) (Do : nat) :
  let S := VIPLayer.num_coeffs s in
  let D := VIPLayer.output_dim s in
  let f := layer_draw s X in
  let q := unpack S D (data (VIPLayer.q_sqrt_tri s)) in
  dims3 f S (dim0 X) Do ->
  (2 <= S)%nat -> (0 < dim0 X)%nat ->
  Do = 1%nat \/ Do = D ->
  shape2 (data (VIPLayer.q_sqrt_tri s)) (tri S) D ->
  shape2 (data (VIPLayer.q_mu s)) S D ->
  (forall p, VIPLayer.log_layer_noise s = Some p -> length (data p) = D) ->
  exists mean K,
    snd (VIPLayer.forward s X b) = Ok (mean, K, if b then Some f else None)
    /\ forall n d, (n < dim0 X)%nat -> (d < D)%nat ->
         get2 K n d
         = quad S (transpose_times_factor (factor q S d))
                  (feature_vector (features f S) n d)
           + noise_term (VIPLayer.log_layer_noise s) d.
Proof.
  intros S D f q Hf HS HN HDo Hp Hmu Hnoise.
  assert (HS0 : (0 < S)%nat) by lia.
  pose proof (features_dims f S S (dim0 X) Do Hf HS0 HN) as Hphi.
  pose proof (unpack_dims3 S D _ Hp HS0) as Hq. fold q in Hq.
  destruct (projected_variance_entry _ _ S (dim0 X) Do D Hphi Hq HDo HS0 HN)
    as (V0 & V1 & E).
  assert (Hentry : forall n d, (n < dim0 X)%nat -> (d < D)%nat ->
            get2 (projected_variance (features f S) q) n d
            = quad S (transpose_times_factor (factor q S d))
                     (feature_vector (features f S) n d)).
  { intros n d Hn Hd.
    rewrite E, Rsum_square by assumption. unfold quad.
    apply Rsum_ext. intros i Hi. apply Rsum_ext. intros j Hj.
    unfold transpose_times_factor. rewrite transposed_factor_product by assumption.
    unfold feature_vector. destruct Hphi as (F0 & F1 & F2).
    rewrite F0, !get1_tab by assumption.
    unfold bget3. rewrite F0, F1, F2.
    now rewrite !(bidx_lt S), (bidx_lt (dim0 X)) by assumption. }
  unfold VIPLayer.forward. run_method.
  fold (layer_draw s X). fold f. fold S. fold D.
  fold (features f S). fold (unpack S D (data (VIPLayer.q_sqrt_tri s))). fold q.
  fold (projected_variance (features f S) q).
  assert (E0 : (dim0 f =? 0)%nat = false).
  { apply Nat.eqb_neq. destruct Hf as (F0 & _). rewrite F0. lia. }
  rewrite E0, is_nonneg_true by (apply IZR_le; lia).
  rewrite is_zero_false by (pose proof (coeff_divisor_positive S HS); lra).
  cbn [negb orb].
  destruct (shape2_dims _ S D Hmu HS0) as [Mu0 Mu1].
  rewrite (einsum_snd_sd_nd_fits_dims _ _ S S (dim0 X) Do D Hphi Mu0 Mu1
             (broadcasts_refl S) HDo).
  rewrite (einsum_ind_sid_snd_fits_dims _ _ S S (dim0 X) Do D Hphi Hq
             (broadcasts_refl S) HDo).
  cbv beta iota. fold (projected_variance (features f S) q).
  clear E. set (K0 := projected_variance (features f S) q) in *. clearbody K0.
  destruct (VIPLayer.log_layer_noise s) as [p|] eqn:En; simpl noise_term.
  - specialize (Hnoise p eq_refl).
    unfold dim0 at 1. rewrite V1, Hnoise.
    unfold torch.broadcasts. rewrite Nat.eqb_refl. cbn [orb snd].
    do 2 eexists. split; [reflexivity|]. intros n d Hn Hd.
    unfold torch.add2_1. rewrite V0, V1.
    assert (U0 : dim0 (torch.exp1 (data p)) = D).
    { unfold torch.exp1, dim0. now rewrite length_map. }
    rewrite U0, bdim_same, get2_tab by assumption.
    unfold bget2, bget1. rewrite V0, V1, U0.
    rewrite (bidx_lt (dim0 X)), !(bidx_lt D) by assumption.
    rewrite Hentry by assumption. f_equal.
    unfold get1, torch.exp1. now rewrite (nth_map_in _ _ _ _ 0) by lia.
  - cbn [snd]. do 2 eexists. split; [reflexivity|]. intros n d Hn Hd.
    rewrite Hentry by assumption. lra.
Qed.

(** ** Packing and unpacking the triangular factor *)

(** The packed vector of the lower-triangle entry (r, c) sits at index
    [tri r + c]. *)
Lemma take_pairs_row (q : tensor3) (K r c : nat) :
  (c <= r)%nat -> (r < K)%nat ->
  nth (tri r + c) (np.take_pairs q (torch.tril_indices K)) [] = nth c (nth r q []) [].
Proof.
  intros Hc Hr. rewrite take_pairs_rows.
  rewrite (nth_map_in _ _ _ _ (0%nat, 0%nat))
    by (rewrite tril_indices_length; now apply tri_index_bound).
  now rewrite tril_indices_nth.
Qed.

Lemma take_pairs_shape (q : tensor3) (K D : nat) :
  shape3 q K K D -> shape2 (np.take_pairs q (torch.tril_indices K)) (tri K) D.
Proof.
  intros Hq. split.
  - rewrite take_pairs_rows. now rewrite length_map, tril_indices_length.
  - apply Forall_forall. intros row Hin. rewrite take_pairs_rows in Hin.
    apply in_map_iff in Hin. destruct Hin as [[r c] [<- Hp]].
    apply tril_indices_In in Hp. simpl.
    apply (shape2_row (nth r q []) K D); [|lia].
    apply (shape3_slice q K K D); [exact Hq | lia].
Qed.

(** The array the constructors pack. *)
Lemma scaled_identity_shape (K D : nat) (v : R) :
  shape3 (np.tile_last (np.scale2 (np.eye K) v) D) K K D.
Proof.
  unfold np.tile_last, np.scale2, np.scale1, np.eye. split.
  - now rewrite !length_map, tab_length.
  - apply Forall_forall. intros m Hm.
    apply in_map_iff in Hm. destruct Hm as [row [<- Hrow]].
    apply in_map_iff in Hrow. destruct Hrow as [row' [<- Hrow']].
    unfold tab in Hrow'. apply in_map_iff in Hrow'. destruct Hrow' as [i [<- _]].
    split.
    + now rewrite !length_map, length_seq.
    + apply Forall_forall. intros x Hx.
      apply in_map_iff in Hx. destruct Hx as [y [<- _]]. apply tab_length.
Qed.

Lemma scaled_identity_get (K D : nat) (v : R) (r c d : nat) :
  (r < K)%nat -> (c < K)%nat -> (d < D)%nat ->
  get3 (np.tile_last (np.scale2 (np.eye K) v) D) r c d = if (r =? c)%nat then v else 0.
Proof.
  intros Hr Hc Hd. unfold get3, get2, get1, np.tile_last, np.scale2, np.scale1, np.eye.
  rewrite (nth_map_in _ _ _ _ []) by (rewrite length_map, tab_length; lia).
  rewrite (nth_map_in _ _ _ _ []) by (rewrite tab_length; lia).
  rewrite nth_tab by lia.
  rewrite (nth_map_in _ _ _ _ 0) by (rewrite length_map, tab_length; lia).
  rewrite (nth_map_in _ _ _ _ 0) by (rewrite tab_length; lia).
  rewrite !nth_tab by lia.
  destruct (r =? c)%nat; lra.
Qed.

(** X1: the round trip between the packing of the constructors
    ([q_sqrt[li, lj]]) and the unpacking of [forward]
    ([q_sqrt[li, lj] = q_sqrt_tri]): of a K-by-K-by-D array the lower
    triangle comes back, with zeros above the diagonal. *)
Theorem pack_unpack_lower_triangle (K D : nat) (q : tensor3) (r c d : nat) :
  shape3 q K K D -> (r < K)%nat -> (c < K)%nat -> (d < D)%nat ->
  get3 (unpack K D (np.take_pairs q (torch.tril_indices K))) r c d
  = if (c <=? r)%nat then get3 q r c d else 0.
Proof.
  intros Hq Hr Hc Hd.
  rewrite unpack_get by (try apply take_pairs_shape; assumption).
  destruct (c <=? r)%nat eqn:E; [|reflexivity].
  apply Nat.leb_le in E. unfold get2.
  now rewrite take_pairs_row.
Qed.

Lemma pack_unpack_lower_triangle_witness :
  get3 (unpack 2 1 (np.take_pairs [[[1]; [2]]; [[3]; [4]]] (torch.tril_indices 2)))
       1 0 0 = 3
  /\ get3 (unpack 2 1 (np.take_pairs [[[1]; [2]]; [[3]; [4]]] (torch.tril_indices 2)))
          0 1 0 = 0.
Proof.
  split.
  - rewrite (pack_unpack_lower_triangle 2 1 [[[1]; [2]]; [[3]; [4]]] 1 0 0);
      [reflexivity | | lia | lia | lia].
    split; [reflexivity | repeat constructor].
  - rewrite (pack_unpack_lower_triangle 2 1 [[[1]; [2]]; [[3]; [4]]] 0 1 0);
      [reflexivity | | lia | lia | lia].
    split; [reflexivity | repeat constructor].
Defined.

Lemma constructed_factor_entry (K D : nat) (v : R) (r c d : nat) :
  (r < K)%nat -> (c < K)%nat -> (d < D)%nat ->
  get3 (unpack K D (np.take_pairs (np.tile_last (np.scale2 (np.eye K) v) D)
                                  (torch.tril_indices K))) r c d
  = if (r =? c)%nat then v else 0.
Proof.
  intros Hr Hc Hd.
  rewrite unpack_get by (try apply packed_identity_shape; assumption).
  destruct (c <=? r)%nat eqn:E.
  - apply Nat.leb_le in E. unfold get2. rewrite take_pairs_row by assumption.
    now apply scaled_identity_get.
  - apply Nat.leb_gt in E. destruct (r =? c)%nat eqn:E'; [|reflexivity].
    apply Nat.eqb_eq in E'. lia.
Qed.

(** X2: the dense factor that [forward] rebuilds from the parameter a
    constructor stored is [q_sqrt_initial_value] times the identity, in every
    output dimension, in all three classes. *)
Theorem constructed_factor_is_scaled_identity
    (g : GenerativeFunction) (Z : tensor2) (K din D : nat) (flag : bool)
    (noise : option R) (v_sqrt v_mu : R) (mf : option (tensor2 -> tensor2))
    (r c d : nat) :
  (d < D)%nat ->
  ((r < K)%nat -> (c < K)%nat ->
   get3 (unpack K D (data (VIPLayer.q_sqrt_tri
                             (VIPLayer.init g K din D flag noise v_sqrt v_mu mf)))) r c d
   = if (r =? c)%nat then v_sqrt else 0)
  /\ ((r < length Z)%nat -> (c < length Z)%nat ->
      get3 (unpack (length Z) D
              (data (VIPLayerInducing.q_sqrt_tri
                       (VIPLayerInducing.init g Z din D flag noise v_sqrt v_mu mf)))) r c d
      = if (r =? c)%nat then v_sqrt else 0)
  /\ ((r < length Z)%nat -> (c < length Z)%nat ->
      get3 (unpack (length Z) D
              (data (SparseGP.q_sqrt_tri
                       (SparseGP.init g Z din D flag noise v_sqrt v_mu mf)))) r c d
      = if (r =? c)%nat then v_sqrt else 0).
Proof.
  intros Hd. split; [|split]; intros Hr Hc; now apply constructed_factor_entry.
Qed.

Lemma constructed_factor_is_scaled_identity_witness :
  get3 (unpack 2 1 (data (VIPLayer.q_sqrt_tri
                            (VIPLayer.init (constant_samples []) 2 1 1 false None 3 0 None))))
       1 1 0 = 3.
Proof.
  apply (proj1 (constructed_factor_is_scaled_identity
                  (constant_samples []) [] 2 1 1 false None 3 0 None 1 1 0
                  ltac:(lia))); lia.
Defined.

Lemma features_get (f : tensor3) (count S P Do s n k : nat) :
  dims3 f S P Do -> (s < S)%nat -> (n < P)%nat -> (k < Do)%nat ->
  get3 (features f count) s n k
  = (get3 f s n k - sample_mean f n k) / sqrt (IZR (Z.of_nat count - 1)).
Proof.
  intros (E0 & E1 & E2) Hs Hn Hk.
  unfold features, torch.div3_scalar, torch.sub3, torch.mean0, sample_mean.
  rewrite E0, E1, E2.
  assert (D1 : dim1 [tab P (fun n => tab Do (fun d =>
                       Rsum S (fun s => get3 f s n d) / INR S))] = P).
  { unfold dim1. simpl hd. apply tab_length. }
  assert (D2 : dim2 [tab P (fun n => tab Do (fun d =>
                       Rsum S (fun s => get3 f s n d) / INR S))] = Do).
  { unfold dim2. simpl hd.
    apply (dim1_tab P Do (fun n d => Rsum S (fun s => get3 f s n d) / INR S)). lia. }
  change (dim0 [tab P (fun n => tab Do (fun d =>
                         Rsum S (fun s => get3 f s n d) / INR S))]) with 1%nat.
  rewrite D1, D2, bdim_one_r, !bdim_same.
  unfold get3 at 1, get2 at 1, get1 at 1.
  rewrite (nth_map_in _ _ _ _ []) by (rewrite tab_length; lia).
  rewrite nth_tab by lia.
  rewrite (nth_map_in _ _ _ _ []) by (rewrite tab_length; lia).
  rewrite nth_tab by lia.
  rewrite (nth_map_in _ _ _ _ 0) by (rewrite tab_length; lia).
  rewrite nth_tab by lia.
  f_equal. f_equal.
  - unfold bget3. rewrite E0, E1, E2. now rewrite (bidx_lt S), (bidx_lt P), (bidx_lt Do).
  - unfold bget3.
    change (dim0 [tab P (fun n => tab Do (fun d =>
                           Rsum S (fun s => get3 f s n d) / INR S))]) with 1%nat.
    rewrite D1, D2, (bidx_lt P), (bidx_lt Do) by assumption.
    unfold bidx at 1. simpl Nat.eqb. cbv iota.
    unfold get3 at 1. simpl nth. now rewrite get2_tab.
Qed.

Lemma Rsum_nonneg (n : nat) (f : nat -> R) :
  (forall i, (i < n)%nat -> 0 <= f i) -> 0 <= Rsum n f.
Proof.
  induction n as [|n IH]; intros H; simpl; [lra|].
  pose proof (IH (fun i Hi => H i (Nat.lt_lt_succ_r _ _ Hi))).
  pose proof (H n (Nat.lt_succ_diag_r n)). lra.
Qed.

Lemma projected_mean_entry (f : tensor3) (mu : tensor2) (S N Do D : nat) :
  dims3 f S N Do -> shape2 mu S D -> Do = 1%nat \/ Do = D ->
  (0 < S)%nat -> (0 < N)%nat ->
  dim0 (projected_mean f S mu) = N
  /\ dim1 (projected_mean f S mu) = D
  /\ forall n d, (n < N)%nat -> (d < D)%nat ->
       get2 (projected_mean f S mu) n d
       = sample_mean f n (bidx Do d)
         + Rsum S (fun s => get3 (features f S) s n (bidx Do d) * get2 mu s d).
Proof.
  intros Hf Hmu HDo HS HN.
  pose proof (features_dims f S S N Do Hf HS HN) as (P0 & P1 & P2).
  destruct (shape2_dims mu S D Hmu HS) as [M0 M1].
  destruct (bdim_broadcast Do D HDo) as [B1 B2].
  destruct Hf as (E0 & E1 & E2).
  unfold projected_mean, torch.squeeze0, torch.mean0. simpl hd.
  rewrite E0, E1, E2.
  unfold torch.einsum_snd_sd_nd. rewrite P0, P1, P2, M0, M1, B1, bdim_same.
  unfold torch.add2.
  rewrite !dim0_tab.
  rewrite (dim1_tab N Do) by exact HN. rewrite (dim1_tab N D) by exact HN.
  rewrite B1, !bdim_same. rewrite (dim1_tab N D) by exact HN.
  split; [reflexivity|]. split; [reflexivity|]. intros n d Hn Hd.
  pose proof (bidx_broadcast_lt Do D d HDo Hd) as Hd'.
  rewrite get2_tab by assumption.
  unfold bget2. rewrite !dim0_tab.
  rewrite (dim1_tab N Do) by exact HN. rewrite (dim1_tab N D) by exact HN.
  rewrite (bidx_lt N), (bidx_lt D) by assumption.
  rewrite !get2_tab by assumption.
  unfold sample_mean. rewrite E0. f_equal.
  apply Rsum_ext. intros s Hs.
  unfold bget3, bget2. rewrite P0, P1, P2, M0, M1.
  now rewrite (bidx_lt S), (bidx_lt N), (bidx_lt D) by assumption.
Qed.

(** A call of [VIPLayer.forward] on samples of the expected sizes returns,
    and what it returns, entry by entry. *)
Lemma VIPLayer_forward_entries (s : VIPLayer.t) (X : tensor2) (b : bool) (Do : nat) :
  let S := VIPLayer.num_coeffs s in
  let D := VIPLayer.output_dim s in
  let f := layer_draw s X in
  let q := unpack S D (data (VIPLayer.q_sqrt_tri s)) in
  let mu := data (VIPLayer.q_mu s) in
  dims3 f S (dim0 X) Do ->
  (2 <= S)%nat -> (0 < dim0 X)%nat ->
  Do = 1%nat \/ Do = D ->
  shape2 (data (VIPLayer.q_sqrt_tri s)) (tri S) D ->
  shape2 mu S D ->
  (forall p, VIPLayer.log_layer_noise s = Some p -> length (data p) = D) ->
  (forall mf, VIPLayer.mean_function s = Some mf ->
     dim0 (mf X) = dim0 X /\ dim1 (mf X) = D) ->
  exists mean K,
    snd (VIPLayer.forward s X b) = Ok (mean, K, if b then Some f else None)
    /\ (dim0 mean = dim0 X /\ dim1 mean = D)
    /\ (dim0 K = dim0 X /\ dim1 K = D)
    /\ forall n d, (n < dim0 X)%nat -> (d < D)%nat ->
         get2 mean n d
         = sample_mean f n (bidx Do d)
           + Rsum S (fun i => get3 (features f S) i n (bidx Do d) * get2 mu i d)
           + match VIPLayer.mean_function s with
             | Some mf => get2 (mf X) n d
             | None => 0
             end
         /\ get2 K n d
            = Rsum S (fun k =>
                Rsum S (fun i => get3 (features f S) i n (bidx Do d) * get3 q k i d)
                * Rsum S (fun i => get3 (features f S) i n (bidx Do d) * get3 q k i d))
              + noise_term (VIPLayer.log_layer_noise s) d.
Proof.
  intros S D f q mu Hf HS HN HDo Hp Hmu Hnoise Hmf.
  assert (HS0 : (0 < S)%nat) by lia.
  pose proof (features_dims f S S (dim0 X) Do Hf HS0 HN) as Hphi.
  pose proof (unpack_dims3 S D _ Hp HS0) as Hq. fold q in Hq.
  destruct (projected_variance_entry _ _ S (dim0 X) Do D Hphi Hq HDo HS0 HN)
    as (V0 & V1 & EV).
  destruct (projected_mean_entry f mu S (dim0 X) Do D Hf Hmu HDo HS0 HN)
    as (M0 & M1 & EM).
  unfold VIPLayer.forward. run_method.
  fold (layer_draw s X). fold f. fold S. fold D. fold mu.
  fold (features f S). fold (unpack S D (data (VIPLayer.q_sqrt_tri s))). fold q.
  fold (projected_variance (features f S) q).
  fold (projected_mean f S mu).
  assert (E0 : (dim0 f =? 0)%nat = false).
  { apply Nat.eqb_neq. destruct Hf as (F0 & _). rewrite F0. lia. }
  rewrite E0, is_nonneg_true by (apply IZR_le; lia).
  rewrite is_zero_false by (pose proof (coeff_divisor_positive S HS); lra).
  cbn [negb orb].
  destruct (shape2_dims _ S D Hmu HS0) as [Mu0 Mu1].
  rewrite (einsum_snd_sd_nd_fits_dims _ _ S S (dim0 X) Do D Hphi Mu0 Mu1
             (broadcasts_refl S) HDo).
  rewrite (einsum_ind_sid_snd_fits_dims _ _ S S (dim0 X) Do D Hphi Hq
             (broadcasts_refl S) HDo).
  cbv beta iota. fold (projected_variance (features f S) q).
  fold (projected_mean f S mu).
  set (K0 := projected_variance (features f S) q) in *. clearbody K0.
  set (m0 := projected_mean f S mu) in *. clearbody m0.
  assert (Hmean : exists mean,
            mean = match VIPLayer.mean_function s with
                   | Some mf => torch.add2 m0 (mf X)
                   | None => m0
                   end
            /\ dim0 mean = dim0 X /\ dim1 mean = D
            /\ forall n d, (n < dim0 X)%nat -> (d < D)%nat ->
                 get2 mean n d
                 = sample_mean f n (bidx Do d)
                   + Rsum S (fun i => get3 (features f S) i n (bidx Do d) * get2 mu i d)
                   + match VIPLayer.mean_function s with
                     | Some mf => get2 (mf X) n d
                     | None => 0
                     end).
  { eexists. split; [reflexivity|].
    destruct (VIPLayer.mean_function s) as [mf|].
    - destruct (Hmf mf eq_refl) as [F0 F1].
      unfold torch.add2. rewrite M0, M1, F0, F1, !bdim_same, dim0_tab.
      rewrite (dim1_tab (dim0 X) D) by exact HN.
      split; [reflexivity|]. split; [reflexivity|]. intros n d Hn Hd.
      rewrite get2_tab by assumption. unfold bget2.
      rewrite M0, M1, F0, F1, (bidx_lt (dim0 X)), (bidx_lt D) by assumption.
      now rewrite EM.
    - split; [exact M0|]. split; [exact M1|]. intros n d Hn Hd.
      rewrite EM by assumption. lra. }
  destruct Hmean as (mean & Emean & Hm0 & Hm1 & Hmean).
  rewrite <- Emean. clear Emean.
  destruct (VIPLayer.log_layer_noise s) as [p|] eqn:En; simpl noise_term.
  - specialize (Hnoise p eq_refl).
    unfold dim0 at 1. rewrite V1, Hnoise.
    unfold torch.broadcasts. rewrite Nat.eqb_refl. cbn [orb snd].
    do 2 eexists. split; [reflexivity|].
    assert (U0 : dim0 (torch.exp1 (data p)) = D).
    { unfold torch.exp1, dim0. now rewrite length_map. }
    unfold torch.add2_1. rewrite V0, V1, U0, bdim_same, dim0_tab.
    rewrite (dim1_tab (dim0 X) D) by exact HN.
    split; [split; assumption|]. split; [split; reflexivity|].
    intros n d Hn Hd. split; [now apply Hmean|].
    rewrite get2_tab by assumption.
    unfold bget2, bget1. rewrite V0, V1, U0.
    rewrite (bidx_lt (dim0 X)), !(bidx_lt D) by assumption.
    rewrite EV by assumption. f_equal.
    unfold get1, torch.exp1. now rewrite (nth_map_in _ _ _ _ 0) by lia.
  - cbn [snd]. do 2 eexists. split; [reflexivity|].
    split; [split; assumption|]. split; [split; assumption|].
    intros n d Hn Hd. split; [now apply Hmean|].
    rewrite EV by assumption. lra.
Qed.

(** The sizes of the variance before the noise, also when the number of
    samples differs from the number of coefficients. *)
Lemma projected_variance_dims (phi q : tensor3) (S' S N Do D : nat) :
  dims3 phi S' N Do -> dims3 q S S D -> Do = 1%nat \/ Do = D ->
  (0 < S)%nat -> (0 < N)%nat ->
  dim0 (projected_variance phi q) = N /\ dim1 (projected_variance phi q) = D.
Proof.
  intros (P0 & P1 & P2) (Q0 & Q1 & Q2) HDo HS HN.
  destruct (bdim_broadcast Do D HDo) as [B1 B2].
  unfold projected_variance, torch.einsum_ind_sid_snd.
  rewrite P0, P1, P2, Q0, Q1, Q2, B1.
  set (F := fun s n d => Rsum (bdim S' S) (fun i => bget3 phi i n d * bget3 q s i d)).
  assert (HK : dims3 (tab S (fun s => tab N (fun n => tab D (F s n)))) S N D)
    by now apply dims3_tab.
  change (tab S (fun s => tab N (fun n => tab D (fun d =>
            Rsum (bdim S' S) (fun i => bget3 phi i n d * bget3 q s i d)))))
    with (tab S (fun s => tab N (fun n => tab D (F s n)))).
  destruct HK as (K0 & K1 & K2).
  unfold torch.mul3. rewrite K0, K1, K2, !bdim_same.
  unfold torch.sum_dim0.
  rewrite dim0_tab, (dim1_tab S N) by exact HS.
  rewrite dim2_tab by assumption.
  rewrite dim0_tab, (dim1_tab N D) by exact HN.
  split; reflexivity.
Qed.

Lemma broadcasts_one_r (n : nat) : torch.broadcasts n 1 = true.
Proof. unfold torch.broadcasts. simpl. now rewrite orb_true_r. Qed.

(** C10: [forward] divides the centred samples by
    sqrt(num_regression_coeffs - 1), the count given at construction and not
    the number of samples drawn.  With one coefficient the divisor is zero,
    and on inputs of fitting sizes, however many samples are drawn,
    [forward] returns no real prediction.  With two or more coefficients the
    divisor is positive, the zero test on it fails for every batch, and on
    inputs of fitting sizes [forward] returns the mean and the variance
    built from the quotients (f - mean f) / sqrt(num_regression_coeffs - 1). *)
Theorem VIPLayer_forward_divisor (self : VIPLayer.t) (X : tensor2) (b : bool) :
  let S := VIPLayer.num_coeffs self in
  let D := VIPLayer.output_dim self in
  let f := layer_draw self X in
  let mu := data (VIPLayer.q_mu self) in
  let q := unpack S D (data (VIPLayer.q_sqrt_tri self)) in
  let divisor := sqrt (IZR (Z.of_nat S - 1)) in
  let phi := fun i n k => (get3 f i n k - sample_mean f n k) / divisor in
  (S = 1%nat ->
     divisor = 0
     /\ forall S' Do,
          dims3 f S' (dim0 X) Do ->
          (0 < S')%nat -> (0 < dim0 X)%nat -> (0 < D)%nat ->
          Do = 1%nat \/ Do = D ->
          shape2 (data (VIPLayer.q_sqrt_tri self)) (tri S) D ->
          shape2 mu S D ->
          (forall p, VIPLayer.log_layer_noise self = Some p -> length (data p) = D) ->
          (forall mf, VIPLayer.mean_function self = Some mf ->
             dim0 (mf X) = dim0 X /\ dim1 (mf X) = D) ->
          snd (VIPLayer.forward self X b) = NonFinite)
  /\ ((2 <= S)%nat ->
      0 < divisor
      /\ torch.is_zero divisor = false
      /\ forall Do,
           dims3 f S (dim0 X) Do ->
           (0 < dim0 X)%nat ->
           Do = 1%nat \/ Do = D ->
           shape2 (data (VIPLayer.q_sqrt_tri self)) (tri S) D ->
           shape2 mu S D ->
           (forall p, VIPLayer.log_layer_noise self = Some p -> length (data p) = D) ->
           (forall mf, VIPLayer.mean_function self = Some mf ->
              dim0 (mf X) = dim0 X /\ dim1 (mf X) = D) ->
           exists mean K,
             snd (VIPLayer.forward self X b) = Ok (mean, K, if b then Some f else None)
             /\ forall n d, (n < dim0 X)%nat -> (d < D)%nat ->
                  get2 mean n d
                  = sample_mean f n (bidx Do d)
                    + Rsum S (fun i => phi i n (bidx Do d) * get2 mu i d)
                    + match VIPLayer.mean_function self with
                      | Some mf => get2 (mf X) n d
                      | None => 0
                      end
                  /\ get2 K n d
                     = Rsum S (fun k =>
                         Rsum S (fun i => phi i n (bidx Do d) * get3 q k i d)
                         * Rsum S (fun i => phi i n (bidx Do d) * get3 q k i d))
                       + noise_term (VIPLayer.log_layer_noise self) d).
Proof.
  intros S D f mu q divisor phi. split.
  - intros HS.
    assert (Hd : divisor = 0).
    { unfold divisor. rewrite HS. simpl. apply sqrt_0. }
    split; [exact Hd|].
    intros S' Do Hf HS' HN HD HDo Hp Hmu Hnoise Hmf.
    change (sqrt (IZR (Z.of_nat S - 1)) = 0) in Hd.
    clear phi. clear divisor.
    assert (HS0 : (0 < S)%nat) by lia.
    pose proof (features_dims f S S' (dim0 X) Do Hf HS' HN) as Hphi.
    pose proof (unpack_dims3 S D _ Hp HS0) as Hq. fold q in Hq.
    destruct (projected_variance_dims _ _ S' S (dim0 X) Do D Hphi Hq HDo HS0 HN)
      as (V0 & V1).
    destruct (shape2_dims _ S D Hmu HS0) as [Mu0 Mu1].
    assert (HB : torch.broadcasts S' S = true)
      by (rewrite HS; apply broadcasts_one_r).
    unfold VIPLayer.forward. run_method.
    fold (layer_draw self X). fold f. fold S. fold D. fold mu.
    fold (features f S). fold (unpack S D (data (VIPLayer.q_sqrt_tri self))). fold q.
    assert (E0 : (dim0 f =? 0)%nat = false).
    { apply Nat.eqb_neq. destruct Hf as (F0 & _). rewrite F0. lia. }
    rewrite E0, (is_zero_true _ Hd).
    cbn [negb orb]. rewrite ?orb_true_r.
    rewrite (einsum_snd_sd_nd_fits_dims _ _ S' S (dim0 X) Do D Hphi Mu0 Mu1 HB HDo).
    rewrite (einsum_ind_sid_snd_fits_dims _ _ S' S (dim0 X) Do D Hphi Hq HB HDo).
    cbv beta iota. fold (projected_variance (features f S) q).
    destruct (VIPLayer.log_layer_noise self) as [p|] eqn:En.
    + specialize (Hnoise p eq_refl).
      unfold dim0 at 1. rewrite V1, Hnoise.
      unfold torch.broadcasts. rewrite Nat.eqb_refl. reflexivity.
    + reflexivity.
  - intros HS. pose proof (coeff_divisor_positive S HS) as Hpos.
    split; [exact Hpos|].
    split; [apply is_zero_false; fold divisor in Hpos; lra|].
    intros Do Hf HN HDo Hp Hmu Hnoise Hmf.
    destruct (VIPLayer_forward_entries self X b Do Hf HS HN HDo Hp Hmu Hnoise Hmf)
      as (mean & K & E & _ & _ & Hent).
    exists mean, K. split; [exact E|]. intros n d Hn Hd.
    destruct (Hent n d Hn Hd) as [Em Ek].
    pose proof (bidx_broadcast_lt Do D d HDo Hd) as Hk.
    assert (Hphi : forall i, (i < S)%nat ->
              get3 (features f S) i n (bidx Do d) = phi i n (bidx Do d)).
    { intros i Hi. unfold phi, divisor.
      exact (features_get f S S (dim0 X) Do i n (bidx Do d) Hf Hi Hn Hk). }
    assert (Ei : forall k,
              Rsum S (fun i => get3 (features f S) i n (bidx Do d) * get3 q k i d)
              = Rsum S (fun i => phi i n (bidx Do d) * get3 q k i d)).
    { intros k. apply Rsum_ext. intros i Hi. now rewrite Hphi. }
    split.
    + etransitivity; [exact Em|]. apply (f_equal2 Rplus); [|reflexivity].
      apply (f_equal2 Rplus); [reflexivity|].
      apply Rsum_ext. intros i Hi. cbv beta. now rewrite Hphi.
    + etransitivity; [exact Ek|]. apply (f_equal2 Rplus); [|reflexivity].
      apply Rsum_ext. intros k Hk'. cbv beta.
      apply (f_equal2 Rmult); exact (Ei k).
Qed.

Lemma VIPLayer_forward_divisor_witness :
  snd (VIPLayer.forward
         (VIPLayer.init (constant_samples [[[1]]; [[2]]; [[4]]]) 1 1 1 false None 1 0 None)
         [[0]] false) = NonFinite
  /\ exists mean K,
       snd (VIPLayer.forward
              (VIPLayer.init (constant_samples [[[2]]; [[0]]]) 2 1 1 false None 1 0 None)
              [[0]] false) = Ok (mean, K, None).
Proof.
  split.
  - refine (proj2 (proj1 (VIPLayer_forward_divisor
             (VIPLayer.init (constant_samples [[[1]]; [[2]]; [[4]]]) 1 1 1 false None 1 0 None)
             [[0]] false) eq_refl) 3%nat 1%nat _ _ _ _ _ _ _ _ _).
    + repeat split.
    + simpl; lia.
    + simpl; lia.
    + simpl; lia.
    + left; reflexivity.
    + split; [reflexivity | repeat constructor].
    + split; [reflexivity | repeat constructor].
    + intros p H; discriminate H.
    + intros mf H; discriminate H.
  - destruct (proj2 (proj2 (proj2 (VIPLayer_forward_divisor
             (VIPLayer.init (constant_samples [[[2]]; [[0]]]) 2 1 1 false None 1 0 None)
             [[0]] false) (le_n 2))) 1%nat
             ltac:(repeat split) ltac:(simpl; lia)
             (or_introl eq_refl)
             ltac:(split; [reflexivity | repeat constructor])
             ltac:(split; [reflexivity | repeat constructor])
             ltac:(intros p H; discriminate H)
             ltac:(intros mf H; discriminate H))
      as (mean & K & E & _).
    exists mean, K. exact E.
Defined.

Lemma scaled_ones_shape (r c : nat) (v : R) : shape2 (np.scale2 (np.ones2 r c) v) r c.
Proof.
  unfold np.scale2, np.scale1, np.ones2. split.
  - now rewrite length_map, tab_length.
  - apply Forall_forall. intros row Hin.
    apply in_map_iff in Hin. destruct Hin as [row' [<- Hin]].
    unfold tab in Hin. apply in_map_iff in Hin. destruct Hin as [i [<- _]].
    unfold shape1. now rewrite !length_map, length_seq.
Qed.

Lemma scaled_ones_get (r c : nat) (v : R) (i j : nat) :
  (i < r)%nat -> (j < c)%nat -> get2 (np.scale2 (np.ones2 r c) v) i j = v.
Proof.
  intros Hi Hj. unfold get2, get1, np.scale2, np.scale1, np.ones2.
  rewrite (nth_map_in _ _ _ _ []) by (rewrite tab_length; lia).
  rewrite nth_tab by lia.
  rewrite (nth_map_in _ _ _ _ 0) by (rewrite tab_length; lia).
  rewrite nth_tab by lia. lra.
Qed.

Lemma scaled_ones1_get (c : nat) (v : R) (j : nat) :
  (j < c)%nat ->
  length (np.scale1 (np.ones1 c) v) = c /\ get1 (np.scale1 (np.ones1 c) v) j = v.
Proof.
  intros Hj. unfold get1, np.scale1, np.ones1. split.
  - now rewrite length_map, tab_length.
  - rewrite (nth_map_in _ _ _ _ 0) by (rewrite tab_length; lia).
    rewrite nth_tab by lia. lra.
Qed.

Lemma Rsum_minus (n : nat) (f g : nat -> R) :
  Rsum n (fun i => f i - g i) = Rsum n f - Rsum n g.
Proof. induction n as [|n IH]; simpl; [lra|]. rewrite IH. lra. Qed.

Lemma Rsum_const (n : nat) (c : R) : Rsum n (fun _ => c) = INR n * c.
Proof.
  induction n as [|n IH]; [simpl; lra|].
  change (Rsum (S n) (fun _ => c)) with (Rsum n (fun _ => c) + c).
  rewrite IH, S_INR. lra.
Qed.

(** The basis features of a point add up to zero. *)
Lemma features_centred (f : tensor3) (S N Do n k : nat) :
  dims3 f S N Do -> (0 < S)%nat -> (n < N)%nat -> (k < Do)%nat ->
  Rsum S (fun s => get3 (features f S) s n k) = 0.
Proof.
  intros Hf HS Hn Hk.
  rewrite (Rsum_ext S _ (fun s => (get3 f s n k - sample_mean f n k)
                                  * / sqrt (IZR (Z.of_nat S - 1))))
    by (intros s Hs; now rewrite (features_get f S S N Do)).
  rewrite Rsum_scal_r, Rsum_minus, Rsum_const.
  unfold sample_mean. destruct Hf as (E0 & _). rewrite E0.
  assert (HI : INR S <> 0) by (apply not_0_INR; lia).
  replace (Rsum S (fun s => get3 f s n k)
           - INR S * (Rsum S (fun s => get3 f s n k) / INR S)) with 0 by (field; exact HI).
  lra.
Qed.

Lemma coeff_divisor_square (S : nat) :
  (2 <= S)%nat ->
  sqrt (IZR (Z.of_nat S - 1)) * sqrt (IZR (Z.of_nat S - 1)) = INR S - 1.
Proof.
  intros HS. rewrite sqrt_sqrt by (apply IZR_le; lia).
  now rewrite minus_IZR, <- INR_IZR_INZ.
Qed.

(** The squares of the basis features of a point add up to the unbiased
    sample variance of the samples there. *)
Lemma features_sample_variance (f : tensor3) (S N Do n k : nat) :
  dims3 f S N Do -> (2 <= S)%nat -> (n < N)%nat -> (k < Do)%nat ->
  Rsum S (fun s => get3 (features f S) s n k * get3 (features f S) s n k)
  = sample_variance (tab S (fun s => get3 f s n k)).
Proof.
  intros Hf HS Hn Hk.
  pose proof (coeff_divisor_square S HS) as Hsq.
  pose proof (coeff_divisor_positive S HS) as Hpos.
  assert (HS1 : INR S - 1 <> 0).
  { rewrite <- Hsq. nra. }
  unfold sample_variance. rewrite !sum1_Rsum, length_map, !tab_length.
  assert (Em : Rsum S (get1 (tab S (fun s => get3 f s n k))) / INR S = sample_mean f n k).
  { unfold sample_mean. destruct Hf as (E0 & _). rewrite E0. f_equal.
    apply Rsum_ext. intros s Hs. now rewrite get1_tab. }
  rewrite Em. unfold Rdiv. rewrite <- Rsum_scal_r.
  apply Rsum_ext. intros s Hs.
  rewrite (features_get f S S N Do) by (try assumption; lia).
  unfold get1. rewrite (nth_map_in _ _ _ _ 0) by (rewrite tab_length; exact Hs).
  rewrite nth_tab by exact Hs.
  rewrite <- Hsq. field. lra.
Qed.

(** X3: on samples of the expected sizes (S >= 2 samples at the N points,
    with 1 or D outputs) [VIPLayer.forward] returns; mean and variance both
    have N rows and D columns; and the mean at point n, output d is the
    empirical mean of the samples there, plus the features weighted by
    column d of [q_mu], plus the mean function when there is one. *)
Theorem VIPLayer_forward_mean (s : VIPLayer.t) (X : tensor2) (b : bool) (Do : nat) :
  let S := VIPLayer.num_coeffs s in
  let D := VIPLayer.output_dim s in
  let f := layer_draw s X in
  let mu := data (VIPLayer.q_mu s) in
  dims3 f S (dim0 X) Do ->
  (2 <= S)%nat -> (0 < dim0 X)%nat ->
  Do = 1%nat \/ Do = D ->
  shape2 (data (VIPLayer.q_sqrt_tri s)) (tri S) D ->
  shape2 mu S D ->
  (forall p, VIPLayer.log_layer_noise s = Some p -> length (data p) = D) ->
  (forall mf, VIPLayer.mean_function s = Some mf ->
     dim0 (mf X) = dim0 X /\ dim1 (mf X) = D) ->
  exists mean K,
    snd (VIPLayer.forward s X b) = Ok (mean, K, if b then Some f else None)
    /\ shape_of2 mean = (dim0 X, D)
    /\ shape_of2 K = (dim0 X, D)
    /\ forall n d, (n < dim0 X)%nat -> (d < D)%nat ->
         get2 mean n d
         = sample_mean f n (bidx Do d)
           + Rsum S (fun i => get3 (features f S) i n (bidx Do d) * get2 mu i d)
           + match VIPLayer.mean_function s with
             | Some mf => get2 (mf X) n d
             | None => 0
             end.
Proof.
  intros S D f mu Hf HS HN HDo Hp Hmu Hnoise Hmf.
  destruct (VIPLayer_forward_entries s X b Do Hf HS HN HDo Hp Hmu Hnoise Hmf)
    as (mean & K & E & [Hm0 Hm1] & [HK0 HK1] & Hentry).
  exists mean, K. split; [exact E|].
  unfold shape_of2. rewrite Hm0, Hm1, HK0, HK1.
  split; [reflexivity|]. split; [reflexivity|].
  intros n d Hn Hd. now apply Hentry.
Qed.

Lemma VIPLayer_forward_mean_witness :
  exists mean K,
    snd (VIPLayer.forward
           (VIPLayer.init (constant_samples three_samples) 3 1 1 false None 1 0 None)
           [[0]; [1]] true)
    = Ok (mean, K, Some three_samples)
    /\ shape_of2 mean = (2%nat, 1%nat)
    /\ shape_of2 K = (2%nat, 1%nat).
Proof.
  destruct (VIPLayer_forward_mean
              (VIPLayer.init (constant_samples three_samples) 3 1 1 false None 1 0 None)
              [[0]; [1]] true 1) as (mean & K & E & Hm & HK & _).
  - repeat split; reflexivity.
  - simpl; lia.
  - simpl; lia.
  - left; reflexivity.
  - split; [reflexivity | repeat constructor].
  - split; [reflexivity | repeat constructor].
  - intros p Hp. discriminate Hp.
  - intros mf Hmf. discriminate Hmf.
  - exists mean, K. split; [exact E|]. split; assumption.
Defined.

(** X4: a freshly constructed [VIPLayer] predicts the empirical moments of
    its prior samples: the mean is the empirical mean of the S samples
    (plus the mean function), whatever [q_mu_initial_value] is, and the
    variance is [q_sqrt_initial_value] squared times their unbiased sample
    variance, plus exp(log_layer_noise) when a noise is configured. *)
Theorem VIPLayer_initial_prediction
    (g : GenerativeFunction) (S din D : nat) (flag : bool) (noise : option R)
    (v_sqrt v_mu : R) (mf : option (tensor2 -> tensor2))
    (X : tensor2) (b : bool) (Do : nat) :
  let f := gf_sample g (gf_calls g) X in
  dims3 f S (dim0 X) Do ->
  (2 <= S)%nat -> (0 < dim0 X)%nat ->
  Do = 1%nat \/ Do = D ->
  (forall h, mf = Some h -> dim0 (h X) = dim0 X /\ dim1 (h X) = D) ->
  exists mean K,
    snd (VIPLayer.forward (VIPLayer.init g S din D flag noise v_sqrt v_mu mf) X b)
    = Ok (mean, K, if b then Some f else None)
    /\ forall n d, (n < dim0 X)%nat -> (d < D)%nat ->
         get2 mean n d
         = sample_mean f n (bidx Do d)
           + match mf with Some h => get2 (h X) n d | None => 0 end
         /\ get2 K n d
            = v_sqrt * v_sqrt
              * sample_variance (tab S (fun s => get3 f s n (bidx Do d)))
              + match noise with Some x => exp x | None => 0 end.
Proof.
  intros f Hf HS HN HDo Hmf.
  set (layer := VIPLayer.init g S din D flag noise v_sqrt v_mu mf).
  assert (HS0 : (0 < S)%nat) by lia.
  destruct (VIPLayer_forward_entries layer X b Do) as (mean & K & E & _ & _ & Hentry);
    try assumption.
  - apply packed_identity_shape.
  - apply scaled_ones_shape.
  - intros p Hp. unfold layer, VIPLayer.init in Hp. simpl in Hp.
    destruct noise as [x|]; [|discriminate Hp]. inversion Hp. simpl.
    unfold np.scale1, np.ones1. now rewrite length_map, tab_length.
  - exists mean, K. split; [exact E|]. intros n d Hn Hd.
    pose proof (bidx_broadcast_lt Do D d HDo Hd) as Hd'.
    destruct (Hentry n d Hn Hd) as [Em EK]. split.
    + rewrite Em.
      change (VIPLayer.mean_function layer) with mf.
      change (VIPLayer.num_coeffs layer) with S.
      rewrite (Rsum_ext S _ (fun i => get3 (features (layer_draw layer X) S) i n (bidx Do d)
                                      * v_mu)).
      2:{ intros i Hi. f_equal. change (data (VIPLayer.q_mu layer))
            with (np.scale2 (np.ones2 S D) v_mu). now apply scaled_ones_get. }
      rewrite Rsum_scal_r.
      rewrite (features_centred (layer_draw layer X) S (dim0 X) Do) by assumption.
      change (layer_draw layer X) with f. lra.
    + rewrite EK.
      change (VIPLayer.num_coeffs layer) with S.
      change (VIPLayer.output_dim layer) with D.
      change (layer_draw layer X) with f.
      f_equal.
      * rewrite <- (features_sample_variance f S (dim0 X) Do) by assumption.
        rewrite <- Rsum_scal_l. apply Rsum_ext. intros k Hk.
        change (data (VIPLayer.q_sqrt_tri layer))
          with (np.take_pairs (np.tile_last (np.scale2 (np.eye S) v_sqrt) D)
                              (torch.tril_indices S)).
        rewrite (Rsum_single S k).
        2: exact Hk.
        2:{ intros i Hi Hne. rewrite constructed_factor_entry by assumption.
            destruct (k =? i)%nat eqn:Eki; [|lra].
            apply Nat.eqb_eq in Eki. congruence. }
        rewrite constructed_factor_entry by assumption.
        rewrite Nat.eqb_refl. ring.
      * unfold layer, VIPLayer.init. simpl VIPLayer.log_layer_noise.
        destruct noise as [x|]; [|reflexivity]. simpl noise_term.
        now rewrite (proj2 (scaled_ones1_get D x d Hd)).
Qed.

Lemma VIPLayer_initial_prediction_witness :
  exists mean K,
    snd (VIPLayer.forward
           (VIPLayer.init (constant_samples three_samples) 3 1 1 false None 2 7 None)
           [[0]; [1]] false)
    = Ok (mean, K, None)
    /\ get2 mean 1 0 = sample_mean three_samples 1 0 + 0
    /\ get2 K 1 0 = 2 * 2 * sample_variance [2; 4; 6] + 0.
Proof.
  destruct (VIPLayer_initial_prediction
              (constant_samples three_samples) 3 1 1 false None 2 7 None
              [[0]; [1]] false 1) as (mean & K & E & H).
  - repeat split; reflexivity.
  - lia.
  - simpl; lia.
  - left; reflexivity.
  - intros h Hh. discriminate Hh.
  - exists mean, K. split; [exact E|].
    destruct (H 1%nat 0%nat) as [Hm HK]; [simpl; lia | lia |].
    split; [exact Hm | exact HK].
Defined.

(** X5: the variance [VIPLayer.forward] returns is never negative, and is
    positive when a noise is configured. *)
Theorem VIPLayer_variance_nonnegative
    (s : VIPLayer.t) (X : tensor2) (b : bool) (Do : nat) :
  let S := VIPLayer.num_coeffs s in
  let D := VIPLayer.output_dim s in
  dims3 (layer_draw s X) S (dim0 X) Do ->
  (2 <= S)%nat -> (0 < dim0 X)%nat ->
  Do = 1%nat \/ Do = D ->
  shape2 (data (VIPLayer.q_sqrt_tri s)) (tri S) D ->
  shape2 (data (VIPLayer.q_mu s)) S D ->
  (forall p, VIPLayer.log_layer_noise s = Some p -> length (data p) = D) ->
  (forall mf, VIPLayer.mean_function s = Some mf ->
     dim0 (mf X) = dim0 X /\ dim1 (mf X) = D) ->
  exists mean K samples,
    snd (VIPLayer.forward s X b) = Ok (mean, K, samples)
    /\ forall n d, (n < dim0 X)%nat -> (d < D)%nat ->
         0 <= get2 K n d
         /\ (VIPLayer.log_layer_noise s <> None -> 0 < get2 K n d).
Proof.
  intros S D Hf HS HN HDo Hp Hmu Hnoise Hmf.
  destruct (VIPLayer_forward_entries s X b Do Hf HS HN HDo Hp Hmu Hnoise Hmf)
    as (mean & K & E & _ & _ & Hentry).
  exists mean, K. eexists. split; [exact E|]. intros n d Hn Hd.
  destruct (Hentry n d Hn Hd) as [_ EK]. rewrite EK.
  match goal with
  | |- 0 <= Rsum ?n ?F + _ /\ _ =>
      assert (Hsq : 0 <= Rsum n F) by (apply Rsum_nonneg; intros; nra)
  end.
  destruct (VIPLayer.log_layer_noise s) as [p|]; simpl noise_term.
  - pose proof (exp_pos (get1 (data p) d)). split; [lra|]. intros _. lra.
  - split; [lra|]. intros H. now contradiction H.
Qed.

Lemma VIPLayer_variance_nonnegative_witness :
  exists mean K samples,
    snd (VIPLayer.forward
           (VIPLayer.init (constant_samples three_samples) 3 1 1 false (Some 0) 1 0 None)
           [[0]; [1]] false)
    = Ok (mean, K, samples)
    /\ 0 < get2 K 0 0.
Proof.
  destruct (VIPLayer_variance_nonnegative
              (VIPLayer.init (constant_samples three_samples) 3 1 1 false (Some 0) 1 0 None)
              [[0]; [1]] false 1) as (mean & K & samples & E & H).
  - repeat split; reflexivity.
  - simpl; lia.
  - simpl; lia.
  - left; reflexivity.
  - split; [reflexivity | repeat constructor].
  - split; [reflexivity | repeat constructor].
  - intros p Hp. inversion Hp. reflexivity.
  - intros mf Hmf. discriminate Hmf.
  - exists mean, K, samples. split; [exact E|].
    apply (H 0%nat 0%nat); [simpl; lia | simpl; lia | discriminate].
Defined.

(** ** What the inducing layers return *)

(** A call of [VIPLayerInducing.forward] that returns, in full: the new
    instance and the three results. *)
Lemma VIPLayerInducing_forward_value
    (s s' : VIPLayerInducing.t) (X : tensor2) (b : bool)
    (mean K : tensor2) (samples : option tensor3) :
  VIPLayerInducing.forward s X b = (s', Ok (mean, K, samples)) ->
  let M := VIPLayerInducing.num_inducing s in
  let D := VIPLayerInducing.output_dim s in
  let f := inducing_draw s X in
  let fK := empirical_kernel f in
  let Ku := block_Ku fK (dim0 X) M in
  let q := unpack M D (data (VIPLayerInducing.q_sqrt_tri s)) in
  exists L,
    linalg.cholesky (jittered Ku M) = inr L
    /\ s' = VIPLayerInducing.set_q_sqrt (Some q)
              (VIPLayerInducing.set_Lu (Some L)
                 (VIPLayerInducing.set_generative_function
                    (snd (gf_call (VIPLayerInducing.generative_function s)
                                  (X ++ data (VIPLayerInducing.inducing_points s))))
                    s))
    /\ mean = (let m0 := torch.einsum_dnm_md_nd (whitened L (block_Kfu fK (dim0 X)))
                                                (data (VIPLayerInducing.q_mu s)) in
               match VIPLayerInducing.mean_function s with
               | Some mf => torch.add2 m0 (mf X)
               | None => m0
               end)
    /\ samples = (if b then Some (map (firstn (dim0 X)) f) else None).
Proof.
  intros H M D f fK Ku q.
  unfold VIPLayerInducing.forward in H.
  cbv [call bind this assign finite_if fits ret raise lift getattr gf_call fst snd
       cholesky solve_triangular] in H.
  fold (inducing_draw s X) in H. fold f in H.
  fold (features f (dim0 f)) in H.
  fold (empirical_kernel f) in H. fold fK in H.
  fold M in H. fold (block_Ku fK (dim0 X) M) in H. fold Ku in H.
  fold (jittered Ku M) in H. fold D in H.
  fold (unpack M D (data (VIPLayerInducing.q_sqrt_tri s))) in H. fold q in H.
  fold (block_Kfu fK (dim0 X)) in H.
  split_cases H; inversion H; subst; clear H;
    (eexists; split; [reflexivity|]);
    (split; [reflexivity|]); (split; [reflexivity|]); reflexivity.
Qed.

Lemma weighted_mean_entry (A : tensor3) (mu : tensor2) (Do N M D : nat) :
  dims3 A Do N M -> shape2 mu M D -> Do = 1%nat \/ Do = D ->
  (0 < N)%nat -> (0 < M)%nat ->
  dim0 (torch.einsum_dnm_md_nd A mu) = N
  /\ dim1 (torch.einsum_dnm_md_nd A mu) = D
  /\ forall n d, (n < N)%nat -> (d < D)%nat ->
       get2 (torch.einsum_dnm_md_nd A mu) n d
       = Rsum M (fun m => get3 A (bidx Do d) n m * get2 mu m d).
Proof.
  intros (A0 & A1 & A2) Hmu HDo HN HM.
  destruct (shape2_dims mu M D Hmu HM) as [M0 M1].
  destruct (bdim_broadcast Do D HDo) as [B1 B2].
  unfold torch.einsum_dnm_md_nd. rewrite A0, A1, A2, M0, M1, B1, bdim_same.
  rewrite dim0_tab. rewrite (dim1_tab N D) by exact HN.
  split; [reflexivity|]. split; [reflexivity|]. intros n d Hn Hd.
  rewrite get2_tab by assumption. apply Rsum_ext. intros m Hm.
  unfold bget3, bget2. rewrite A0, A1, A2, M0, M1.
  now rewrite (bidx_lt N), !(bidx_lt M), (bidx_lt D) by assumption.
Qed.

(** X6: when [VIPLayerInducing.forward] returns, the mean has one row per
    point and one column per output dimension, and the variance is laid out
    the other way round: one row per output dimension and one column per
    point.  The mean at point n, output d is row n of the weights A against
    column d of [q_mu], plus the mean function when there is one; the
    empirical mean of the samples is not part of it. *)
Theorem VIPLayerInducing_forward_shapes
    (s s' : VIPLayerInducing.t) (X : tensor2) (b : bool)
    (mean K : tensor2) (samples : option tensor3) (S Do : nat) :
  let M := VIPLayerInducing.num_inducing s in
  let D := VIPLayerInducing.output_dim s in
  let fK := empirical_kernel (inducing_draw s X) in
  VIPLayerInducing.forward s X b = (s', Ok (mean, K, samples)) ->
  dims3 (inducing_draw s X) S (dim0 X + M) Do ->
  (0 < S)%nat -> (0 < dim0 X)%nat -> (0 < M)%nat -> (0 < D)%nat ->
  Do = 1%nat \/ Do = D ->
  shape2 (data (VIPLayerInducing.q_sqrt_tri s)) (tri M) D ->
  shape2 (data (VIPLayerInducing.q_mu s)) M D ->
  (forall p, VIPLayerInducing.log_layer_noise s = Some p -> length (data p) = D) ->
  (forall mf, VIPLayerInducing.mean_function s = Some mf ->
     dim0 (mf X) = dim0 X /\ dim1 (mf X) = D) ->
  shape_of2 mean = (dim0 X, D)
  /\ shape_of2 K = (D, dim0 X)
  /\ exists L,
       VIPLayerInducing.Lu s' = Some L
       /\ forall n d, (n < dim0 X)%nat -> (d < D)%nat ->
            get2 mean n d
            = Rsum M (fun m =>
                get3 (whitened L (block_Kfu fK (dim0 X))) (bidx Do d) n m
                * get2 (data (VIPLayerInducing.q_mu s)) m d)
              + match VIPLayerInducing.mean_function s with
                | Some mf => get2 (mf X) n d
                | None => 0
                end.
Proof.
  intros M D fK H Hf HS HN HM HD HDo Hp Hmu Hnoise Hmf.
  destruct (VIPLayerInducing_forward_value s s' X b mean K samples H)
    as (L & HL & Es & Emean & _).
  destruct (VIPLayerInducing_forward_ok s s' X b mean K samples H)
    as (L' & HL' & _ & _ & _ & EK).
  subst fK. fold M in HL, HL', EK. fold D in EK.
  assert (L' = L) by congruence. subst L'. clear HL'.
  assert (HDo0 : (0 < Do)%nat) by (destruct HDo; lia).
  destruct (empirical_blocks_dims (inducing_draw s X) S (dim0 X) M Do Hf HS HN HM HDo0)
    as (DKu & DKf & DKfu).
  assert (HLd : dim0 L = Do).
  { unfold dim0. rewrite (cholesky_batch_length _ _ HL).
    unfold jittered, torch.add3_2. rewrite tab_length. apply DKu. }
  pose proof (whitened_dims L _ Do (dim0 X) M DKfu HLd HDo0 HN) as DA.
  pose proof (unpack_dims3 M D _ Hp HM) as Dq.
  destruct (conditional_variance_entry _ _ _ _ Do D (dim0 X) M 0 0
              DKf DKu DA Dq HDo HM HD HN) as (C0 & C1 & _).
  destruct (weighted_mean_entry _ _ Do (dim0 X) M D DA Hmu HDo HN HM) as (W0 & W1 & EW).
  split; [|split].
  - rewrite Emean. cbv zeta. unfold shape_of2.
    destruct (VIPLayerInducing.mean_function s) as [mf|].
    + destruct (Hmf mf eq_refl) as [F0 F1].
      unfold torch.add2. rewrite W0, W1, F0, F1, !bdim_same, dim0_tab.
      now rewrite (dim1_tab (dim0 X) D) by exact HN.
    + now rewrite W0, W1.
  - rewrite EK. cbv zeta. unfold shape_of2.
    destruct (VIPLayerInducing.log_layer_noise s) as [p|] eqn:En.
    + specialize (Hnoise p eq_refl).
      assert (U0 : dim0 (torch.unsqueeze_last (torch.exp1 (data p))) = D).
      { unfold torch.unsqueeze_last, torch.exp1, dim0. now rewrite !length_map. }
      assert (U1 : dim1 (torch.unsqueeze_last (torch.exp1 (data p))) = 1%nat).
      { unfold torch.unsqueeze_last, torch.exp1, dim1.
        destruct (data p); [simpl in Hnoise; lia | reflexivity]. }
      unfold torch.add2. rewrite C0, C1, U0, U1, bdim_same, bdim_one_r, dim0_tab.
      now rewrite (dim1_tab D (dim0 X)) by exact HD.
    + now rewrite C0, C1.
  - exists L. split; [now rewrite Es|]. intros n d Hn Hd.
    rewrite Emean. cbv zeta.
    destruct (VIPLayerInducing.mean_function s) as [mf|].
    + destruct (Hmf mf eq_refl) as [F0 F1].
      unfold torch.add2. rewrite W0, W1, F0, F1, !bdim_same.
      rewrite get2_tab by assumption. unfold bget2.
      rewrite W0, W1, F0, F1, (bidx_lt (dim0 X)), (bidx_lt D) by assumption.
      now rewrite EW.
    + rewrite EW by assumption. lra.
Qed.

Lemma VIPLayerInducing_forward_shapes_witness :
  exists s' mean K samples,
    VIPLayerInducing.forward crossed_layer [[0]] false = (s', Ok (mean, K, samples))
    /\ shape_of2 mean = (1%nat, 1%nat) /\ shape_of2 K = (1%nat, 1%nat).
Proof.
  destruct crossed_cholesky as (l1 & l2 & Hl1 & Hl2 & HL).
  destruct (crossed_forward_returns l1 l2 Hl1 Hl2 HL) as (s' & mean & K & samples & E).
  exists s', mean, K, samples. split; [exact E|].
  destruct (VIPLayerInducing_forward_shapes crossed_layer s' [[0]] false mean K samples
              2 1 E) as (Hm & HK & _).
  - vm_compute. auto.
  - lia.
  - vm_compute; lia.
  - vm_compute; lia.
  - vm_compute; lia.
  - left; reflexivity.
  - split; [reflexivity | repeat constructor].
  - split; [reflexivity | repeat constructor].
  - intros p Hp. discriminate Hp.
  - intros mf Hmf. discriminate Hmf.
  - split; assumption.
Defined.

(** ** [SparseGP.forward] with a fixed noise *)

Lemma cholesky_error (t : tensor3) (e : exn) :
  linalg.cholesky t = inl e -> e = LinAlgError.
Proof.
  induction t as [|A t IH]; intros H; simpl in H; [discriminate H|].
  destruct (linalg.cholesky_matrix A); destruct (linalg.cholesky t);
    try discriminate H; inversion H; subst; auto.
Qed.

Lemma permute_021_dims (t : tensor3) (a b c : nat) :
  dims3 t a b c -> (0 < a)%nat -> (0 < c)%nat -> dims3 (torch.permute_021 t) a c b.
Proof.
  intros (E0 & E1 & E2) Ha Hc. unfold torch.permute_021. rewrite E0, E1, E2.
  now apply dims3_tab.
Qed.

(** The two triangular systems of [forward] fit. *)
Lemma whitened_fits (L Kfu : tensor3) (Do N M : nat) :
  dims3 Kfu Do N M -> dims3 L Do M M -> (0 < Do)%nat -> (0 < N)%nat -> (0 < M)%nat ->
  linalg.solve_triangular_fits (torch.permute_021 L) Kfu false = true
  /\ linalg.solve_triangular_fits L
       (linalg.solve_triangular_value (torch.permute_021 L) Kfu true false) false = true.
Proof.
  intros HK HL HDo HN HM.
  destruct (permute_021_dims L Do M M HL HDo HM) as (P0 & P1 & P2).
  destruct (solve_value_dims (torch.permute_021 L) Kfu true false) as (E0 & E1 & E2).
  { destruct HK as (K0 & _). rewrite P0, K0, bdim_same. exact HDo. }
  { destruct HK as (_ & K1 & _). now rewrite K1. }
  destruct HK as (K0 & K1 & K2). destruct HL as (L0 & L1 & L2).
  rewrite P0, K0, bdim_same in E0. rewrite K2 in E2.
  unfold linalg.solve_triangular_fits, torch.broadcasts.
  rewrite P0, P1, P2, K0, K2, L0, L1, L2, E0, E2, !Nat.eqb_refl. split; reflexivity.
Qed.

(** X7: [SparseGP.forward] adds the noise vector, one entry per output
    dimension, to a variance that has one column per point.  With a fixed
    noise, two or more output dimensions and a batch whose size is neither
    1 nor the number of output dimensions, the call therefore never returns:
    it raises, in the Cholesky factorisation or, when that succeeds, at the
    sum of the variance and the noise. *)
Theorem SparseGP_forward_noise_mismatch
    (s : SparseGP.t) (X : tensor2) (b : bool) (p : Param tensor1) :
  let M := SparseGP.num_inducing s in
  let D := SparseGP.output_dim s in
  SparseGP.log_layer_noise s = Some p ->
  length (data p) = D ->
  length (data (SparseGP.inducing_points s)) = M ->
  shape2 (data (SparseGP.q_sqrt_tri s)) (tri M) D ->
  (0 < M)%nat -> (2 <= D)%nat -> (2 <= dim0 X)%nat -> dim0 X <> D ->
  snd (SparseGP.forward s X b) = Raise LinAlgError
  \/ snd (SparseGP.forward s X b)
     = Raise (RuntimeError "The size of tensor a must match the size of tensor b").
Proof.
  intros M D Hnoise Hlen HZ Hp HM HD HN Hne.
  assert (HN0 : (0 < dim0 X)%nat) by lia. assert (HD0 : (0 < D)%nat) by lia.
  unfold SparseGP.forward. run_method.
  fold (gp_Ku s). fold M. fold (jittered (gp_Ku s) M). fold D.
  fold (gp_Kf s X). fold (gp_Kfu s X).
  fold (unpack M D (data (SparseGP.q_sqrt_tri s))).
  destruct (linalg.cholesky (jittered (gp_Ku s) M)) as [e|L] eqn:HL.
  - left. now rewrite (cholesky_error _ _ HL).
  - right.
    destruct (gp_blocks_dims s X HZ HM HN0) as (DKu & DKf & DKfu). fold M in DKu, DKfu.
    destruct (gp_jittered_single s HZ) as [A [EA HA]]. fold M in EA, HA.
    rewrite EA in HL. destruct (cholesky_single_dims A L HL) as (L0 & L1 & L2).
    rewrite HA in L1, L2.
    assert (DL : dims3 L 1 M M) by (repeat split; assumption).
    destruct (whitened_fits L (gp_Kfu s X) 1 (dim0 X) M DKfu DL Nat.lt_0_1 HN0 HM)
      as [F1 F2].
    rewrite F1, F2.
    fold (whitened L (gp_Kfu s X)).
    fold (conditional_variance (gp_Kf s X) (gp_Ku s) (whitened L (gp_Kfu s X))
            (unpack M D (data (SparseGP.q_sqrt_tri s)))).
    pose proof (whitened_dims L _ 1 (dim0 X) M DKfu L0 Nat.lt_0_1 HN0) as DA.
    pose proof (unpack_dims3 M D _ Hp HM) as Dq.
    assert (HDo : 1%nat = 1%nat \/ 1%nat = D) by (left; reflexivity).
    destruct (conditional_variance_entry _ _ _ _ 1 D (dim0 X) M 0 0
                DKf DKu DA Dq HDo HM HD0 HN0) as (_ & C1 & _).
    rewrite Hnoise. cbv beta iota. rewrite C1.
    change (dim0 (data p)) with (length (data p)). rewrite Hlen.
    assert (Eb : torch.broadcasts (dim0 X) D = false).
    { unfold torch.broadcasts.
      destruct (Nat.eqb_spec (dim0 X) D); [contradiction|].
      destruct (Nat.eqb_spec (dim0 X) 1); [lia|].
      destruct (Nat.eqb_spec D 1); [lia|]. reflexivity. }
    rewrite Eb. reflexivity.
Qed.

Lemma SparseGP_forward_noise_mismatch_witness :
  snd (SparseGP.forward
         (SparseGP.init (constant_samples []) [[0]] 1 2 false (Some 0) 1 0 None)
         [[0]; [1]; [2]] false) = Raise LinAlgError
  \/ snd (SparseGP.forward
            (SparseGP.init (constant_samples []) [[0]] 1 2 false (Some 0) 1 0 None)
            [[0]; [1]; [2]] false)
     = Raise (RuntimeError "The size of tensor a must match the size of tensor b").
Proof.
  apply (SparseGP_forward_noise_mismatch
           (SparseGP.init (constant_samples []) [[0]] 1 2 false (Some 0) 1 0 None)
           [[0]; [1]; [2]] false (new_Param (np.scale1 (np.ones1 2) 0))).
  - reflexivity.
  - reflexivity.
  - reflexivity.
  - split; [reflexivity | repeat constructor].
  - simpl; lia.
  - simpl; lia.
  - simpl; lia.
  - simpl; lia.
Defined.

(** ** Methods that only read, methods that only set flags *)

(** X8: [KL()] never changes the instance, in any of the three classes and
    whatever its outcome. *)
Theorem KL_leaves_instance :
  (forall s, fst (VIPLayer.KL s) = s)
  /\ (forall s, fst (VIPLayerInducing.KL s) = s)
  /\ (forall s, fst (SparseGP.KL s) = s).
Proof.
  split; [|split]; intros s.
  - unfold VIPLayer.KL. apply (call_preserves _ (fun x => x = s)); [|reflexivity].
    frame; auto.
  - unfold VIPLayerInducing.KL. apply (call_preserves _ (fun x => x = s)); [|reflexivity].
    frame; auto.
  - unfold SparseGP.KL. apply (call_preserves _ (fun x => x = s)); [|reflexivity].
    frame; auto.
Qed.

Lemma is_zero_true_inv (x : R) : torch.is_zero x = true -> x = 0.
Proof. unfold torch.is_zero. now destruct (Req_dec_T x 0). Qed.

Ltac freeze_posterior_cases noise :=
  let x := fresh "x" in
  let y := fresh "y" in
  let l := fresh "l" in
  let trainable := fresh "trainable" in
  destruct noise as [[[|x [|y l]] trainable]|];
  cbv [data requires_grad set_requires_grad torch.bool1 option_map lift];
  try (destruct (torch.is_zero x) eqn:?);
  cbv [negb data requires_grad set_requires_grad option_map
       VIPLayer.q_mu VIPLayer.q_sqrt_tri VIPLayer.log_layer_noise
       VIPLayer.generative_function
       VIPLayer.set_q_mu VIPLayer.set_q_sqrt_tri VIPLayer.set_log_layer_noise
       VIPLayerInducing.q_mu VIPLayerInducing.q_sqrt_tri VIPLayerInducing.log_layer_noise
       VIPLayerInducing.generative_function VIPLayerInducing.Lu VIPLayerInducing.q_sqrt
       VIPLayerInducing.inducing_points
       VIPLayerInducing.set_q_mu VIPLayerInducing.set_q_sqrt_tri
       VIPLayerInducing.set_log_layer_noise
       SparseGP.q_mu SparseGP.q_sqrt_tri SparseGP.log_layer_noise
       SparseGP.Lu SparseGP.q_sqrt SparseGP.inducing_points
       SparseGP.set_q_mu SparseGP.set_q_sqrt_tri SparseGP.set_log_layer_noise
       fst snd];
  repeat split; intros;
  repeat match goal with
         | H : Some _ = Some _ |- _ => inversion H; subst; clear H
         | H : None = Some _ |- _ => discriminate H
         | H : Some _ = None |- _ => discriminate H
         end;
  cbv [data requires_grad] in *;
  try match goal with
      | H : [] = [_] |- _ => discriminate H
      | H : _ :: _ :: _ = [_] |- _ => discriminate H
      | H : [_] = [_] |- _ => inversion H; subst; clear H
      end;
  try match goal with
      | H : torch.is_zero ?z = true, N : ?z <> 0 |- _ =>
          exfalso; apply N; now apply is_zero_true_inv
      end;
  subst; try reflexivity.

(** X9: in all three classes [freeze_posterior], whatever its outcome,
    leaves [q_mu] and [q_sqrt_tri] not trainable, changes no entry of any
    tensor, leaves the generative function and the cached factors alone and
    never makes a frozen noise trainable again; and when no noise is
    configured, or the noise is a single entry other than zero, it returns
    and the noise is frozen too. *)
Theorem freeze_posterior_effect :
  (forall s : VIPLayer.t,
      let s' := fst (VIPLayer.freeze_posterior s) in
      posterior_frozen VIPLayer.q_mu VIPLayer.q_sqrt_tri VIPLayer.log_layer_noise s s'
      /\ VIPLayer.generative_function s' = VIPLayer.generative_function s
      /\ noise_frozen VIPLayer.log_layer_noise s s' (snd (VIPLayer.freeze_posterior s)))
  /\ (forall s : VIPLayerInducing.t,
      let s' := fst (VIPLayerInducing.freeze_posterior s) in
      posterior_frozen VIPLayerInducing.q_mu VIPLayerInducing.q_sqrt_tri
                       VIPLayerInducing.log_layer_noise s s'
      /\ VIPLayerInducing.generative_function s' = VIPLayerInducing.generative_function s
      /\ VIPLayerInducing.inducing_points s' = VIPLayerInducing.inducing_points s
      /\ VIPLayerInducing.Lu s' = VIPLayerInducing.Lu s
      /\ VIPLayerInducing.q_sqrt s' = VIPLayerInducing.q_sqrt s
      /\ noise_frozen VIPLayerInducing.log_layer_noise s s'
                      (snd (VIPLayerInducing.freeze_posterior s)))
  /\ (forall s : SparseGP.t,
      let s' := fst (SparseGP.freeze_posterior s) in
      posterior_frozen SparseGP.q_mu SparseGP.q_sqrt_tri SparseGP.log_layer_noise s s'
      /\ SparseGP.inducing_points s' = SparseGP.inducing_points s
      /\ SparseGP.Lu s' = SparseGP.Lu s
      /\ SparseGP.q_sqrt s' = SparseGP.q_sqrt s
      /\ noise_frozen SparseGP.log_layer_noise s s' (snd (SparseGP.freeze_posterior s))).
Proof.
  split; [|split].
  - intros [din fr flag S mu mf D g noise tri]. cbv zeta.
    unfold posterior_frozen, noise_frozen, VIPLayer.freeze_posterior. run_method.
    cbv [VIPLayer.log_layer_noise VIPLayer.set_q_mu VIPLayer.set_q_sqrt_tri
         VIPLayer.q_mu VIPLayer.q_sqrt_tri].
    freeze_posterior_cases noise.
  - intros [din fr flag M Z mu mf D g noise tri Lu q]. cbv zeta.
    unfold posterior_frozen, noise_frozen, VIPLayerInducing.freeze_posterior. run_method.
    cbv [VIPLayerInducing.log_layer_noise VIPLayerInducing.set_q_mu
         VIPLayerInducing.set_q_sqrt_tri VIPLayerInducing.q_mu VIPLayerInducing.q_sqrt_tri].
    freeze_posterior_cases noise.
  - intros [din fr flag M Z mu mf D g noise tri ls amp Lu q]. cbv zeta.
    unfold posterior_frozen, noise_frozen, SparseGP.freeze_posterior. run_method.
    cbv [SparseGP.log_layer_noise SparseGP.set_q_mu
         SparseGP.set_q_sqrt_tri SparseGP.q_mu SparseGP.q_sqrt_tri].
    freeze_posterior_cases noise.
Qed.

Lemma freeze_posterior_effect_witness :
  snd (VIPLayer.freeze_posterior
         (VIPLayer.init (constant_samples []) 2 1 1 false (Some (-5)) 1 0 None)) = Ok tt
  /\ option_map (fun p => requires_grad p)
       (VIPLayer.log_layer_noise
          (fst (VIPLayer.freeze_posterior
                  (VIPLayer.init (constant_samples []) 2 1 1 false (Some (-5)) 1 0 None))))
     = Some false.
Proof.
  destruct (proj1 freeze_posterior_effect
              (VIPLayer.init (constant_samples []) 2 1 1 false (Some (-5)) 1 0 None))
    as (_ & _ & _ & H).
  apply (H (new_Param [1 * -5]) (1 * -5)).
  - reflexivity.
  - reflexivity.
  - lra.
Defined.

(** ** The kernel of [SparseGP] *)

Lemma get2_scaled (c : R) (x : tensor2) (N F i k : nat) :
  shape2 x N F -> (i < N)%nat -> (k < F)%nat ->
  get2 (map (map (fun v => v / c)) x) i k = get2 x i k / c.
Proof. intros Hx Hi Hk. now apply (get2_map2 (fun v => v / c) x N F). Qed.

(** Entry (i, j) of the kernel matrix. *)
Lemma kernel_entry (s : SparseGP.t) (x1 : tensor2) (x2 : option tensor2)
    (N1 N2 F i j : nat) :
  let x2' := match x2 with None => x1 | Some x => x end in
  shape2 x1 N1 F -> shape2 x2' N2 F -> (i < N1)%nat -> (j < N2)%nat ->
  get3 (SparseGP.kernel s x1 x2) 0 i j
  = exp (data (SparseGP.log_amplitude s))
    * exp (- scaled_sqdist (exp (data (SparseGP.log_lengthscale s))) F
               (nth i x1 []) (nth j x2' [])).
Proof.
  intros x2' H1 H2 Hi Hj. unfold SparseGP.kernel. fold x2'.
  set (e := exp (data (SparseGP.log_lengthscale s))).
  set (u := map (map (fun x => x / e)) x1).
  set (v := map (map (fun x => x / e)) x2').
  assert (Hu : shape2 u N1 F) by (now apply shape2_map2).
  assert (Hv : shape2 v N2 F) by (now apply shape2_map2).
  set (a := map (fun row : list R => [row]) u).
  set (b := [v]).
  assert (HN1 : (0 < N1)%nat) by lia. assert (HN2 : (0 < N2)%nat) by lia.
  assert (Da : dims3 a N1 1 F).
  { subst a. unfold dims3, dim0, dim2, dim1. rewrite length_map.
    destruct Hu as [Hl Hf]. split; [exact Hl|].
    destruct u as [|r u']; [simpl in Hl; lia|]. simpl. split; [reflexivity|].
    now inversion Hf. }
  assert (Db : dims3 b 1 N2 F).
  { subst b. unfold dims3, dim0, dim2, dim1. simpl.
    destruct (shape2_dims v N2 F Hv HN2) as [V0 V1]. split; [reflexivity|].
    split; [exact V0 | exact V1]. }
  destruct Da as (A0 & A1 & A2). destruct Db as (B0 & B1 & B2).
  assert (Ea : forall k, (k < F)%nat -> get3 a i 0 k = get2 x1 i k / e).
  { intros k Hk. subst a. unfold get3, get2 at 1.
    rewrite (nth_map_in _ _ _ _ []) by (destruct Hu as [Hl _]; lia).
    simpl nth. fold (get2 u i k). subst u. now apply (get2_scaled e x1 N1 F). }
  assert (Eb : forall k, (k < F)%nat -> get3 b 0 j k = get2 x2' j k / e).
  { intros k Hk. subst b. unfold get3. simpl nth. subst v.
    now apply (get2_scaled e x2' N2 F). }
  unfold torch.sum_last, torch.square3, torch.square2, torch.sub3.
  rewrite A0, A1, A2, B0, B1, B2, bdim_one_r, bdim_same.
  replace (bdim 1 N2) with N2 by reflexivity.
  set (T := tab N1 (fun s0 => tab N2 (fun n => tab F (fun d =>
              bget3 a s0 n d - bget3 b s0 n d)))).
  change (map (fun m : list (list R) => map (map (fun x => x * x)) m) T)
    with (map (map (map (fun x => x * x))) T).
  assert (DT : dims3 (map (map (map (fun x => x * x))) T) N1 N2 F).
  { apply dims3_map3. subst T. now apply dims3_tab. }
  destruct DT as (T0 & T1 & T2). rewrite T0, T1, T2.
  unfold get3. simpl nth. unfold torch.scale2.
  rewrite (get2_map2 _ _ N1 N2) by
    (try assumption; apply shape2_map2; apply shape2_tab).
  f_equal.
  rewrite (get2_map2 _ _ N1 N2) by (try assumption; apply shape2_tab).
  f_equal. f_equal. rewrite get2_tab by assumption.
  unfold scaled_sqdist. apply Rsum_ext. intros k Hk.
  unfold get2 at 1, get1 at 1. subst T.
  rewrite (nth_map_in _ _ _ _ []) by (rewrite tab_length; lia).
  rewrite nth_tab by lia.
  rewrite (nth_map_in _ _ _ _ []) by (rewrite tab_length; lia).
  rewrite nth_tab by lia.
  rewrite (nth_map_in _ _ _ _ 0) by (rewrite tab_length; lia).
  rewrite nth_tab by lia.
  unfold bget3. rewrite A0, A1, A2, B0, B1, B2.
  rewrite (bidx_lt N1 i), (bidx_lt N2 j), (bidx_lt F k) by assumption.
  replace (bidx 1 j) with 0%nat by reflexivity.
  replace (bidx 1 i) with 0%nat by reflexivity.
  rewrite Ea, Eb by assumption. reflexivity.
Qed.

Lemma exp_nonpos_le_1 (x : R) : x <= 0 -> exp x <= 1.
Proof.
  intros H. rewrite <- exp_0. destruct (Rle_lt_or_eq_dec _ _ H) as [Hlt| ->].
  - left. now apply exp_increasing.
  - right. reflexivity.
Qed.

Lemma scaled_sqdist_nonneg (l : R) (F : nat) (u v : tensor1) : 0 <= scaled_sqdist l F u v.
Proof.
  unfold scaled_sqdist. apply Rsum_nonneg. intros k _.
  apply (Rle_0_sqr (get1 u k / l - get1 v k / l)).
Qed.

(** X10: [SparseGP.kernel] is the squared-exponential kernel
    amplitude * exp(- sum_k ((x1[i][k] - x2[j][k]) / lengthscale)^2), with
    amplitude = exp(log_amplitude) and lengthscale = exp(log_lengthscale),
    returned as a single N1-by-N2 matrix; with the parameters of a freshly
    constructed instance it is exp(- |x1[i] - x2[j]|^2). *)
Theorem SparseGP_kernel_formula (s : SparseGP.t) (x1 x2 : tensor2) (N1 N2 F i j : nat) :
  shape2 x1 N1 F -> shape2 x2 N2 F -> (i < N1)%nat -> (j < N2)%nat ->
  dims3 (SparseGP.kernel s x1 (Some x2)) 1 N1 N2
  /\ get3 (SparseGP.kernel s x1 (Some x2)) 0 i j
     = exp (data (SparseGP.log_amplitude s))
       * exp (- Rsum F (fun k =>
                  ((get2 x1 i k - get2 x2 j k) / exp (data (SparseGP.log_lengthscale s)))
                  * ((get2 x1 i k - get2 x2 j k) / exp (data (SparseGP.log_lengthscale s)))))
  /\ (data (SparseGP.log_amplitude s) = 0 -> data (SparseGP.log_lengthscale s) = 0 ->
      get3 (SparseGP.kernel s x1 (Some x2)) 0 i j
      = exp (- Rsum F (fun k => (get2 x1 i k - get2 x2 j k) * (get2 x1 i k - get2 x2 j k)))).
Proof.
  intros H1 H2 Hi Hj.
  assert (E : get3 (SparseGP.kernel s x1 (Some x2)) 0 i j
              = exp (data (SparseGP.log_amplitude s))
                * exp (- Rsum F (fun k =>
                    ((get2 x1 i k - get2 x2 j k) / exp (data (SparseGP.log_lengthscale s)))
                    * ((get2 x1 i k - get2 x2 j k)
                       / exp (data (SparseGP.log_lengthscale s)))))).
  { rewrite (kernel_entry s x1 (Some x2) N1 N2 F i j H1 H2 Hi Hj).
    unfold scaled_sqdist. do 3 f_equal. apply Rsum_ext. intros k Hk.
    unfold get2. pose proof (exp_pos (data (SparseGP.log_lengthscale s))). field. lra. }
  split; [|split].
  - destruct H1 as [L1 _]. destruct H2 as [L2 _]. rewrite <- L1, <- L2.
    apply (kernel_dims3 s x1 (Some x2)); lia.
  - exact E.
  - intros Ha Hl. rewrite E, Ha, Hl, exp_0, Rmult_1_l. do 2 f_equal.
    apply Rsum_ext. intros k Hk. field.
Qed.

Lemma SparseGP_kernel_formula_witness :
  get3 (SparseGP.kernel (SparseGP.init (constant_samples []) [[0]] 1 1 false None 1 0 None)
                        [[0]; [2]] (Some [[1]])) 0 1 0
  = exp (- ((2 - 1) * (2 - 1))).
Proof.
  destruct (SparseGP_kernel_formula
              (SparseGP.init (constant_samples []) [[0]] 1 1 false None 1 0 None)
              [[0]; [2]] [[1]] 2 1 1 1 0) as (_ & _ & E).
  - split; [reflexivity | repeat constructor].
  - split; [reflexivity | repeat constructor].
  - lia.
  - lia.
  - rewrite E by reflexivity. f_equal. f_equal. simpl. unfold get2, get1. simpl. lra.
Defined.

(** X11: the kernel matrix of a set of points is symmetric, has
    exp(log_amplitude) on its diagonal, and all its entries are positive
    and at most exp(log_amplitude). *)
Theorem SparseGP_kernel_symmetric_bounded (s : SparseGP.t) (x : tensor2) (N F i j : nat) :
  shape2 x N F -> (i < N)%nat -> (j < N)%nat ->
  get3 (SparseGP.kernel s x None) 0 i j = get3 (SparseGP.kernel s x None) 0 j i
  /\ get3 (SparseGP.kernel s x None) 0 i i = exp (data (SparseGP.log_amplitude s))
  /\ 0 < get3 (SparseGP.kernel s x None) 0 i j <= exp (data (SparseGP.log_amplitude s)).
Proof.
  intros Hx Hi Hj.
  rewrite !(kernel_entry s x None N N F) by assumption.
  pose proof (exp_pos (data (SparseGP.log_amplitude s))) as Ha.
  set (l := exp (data (SparseGP.log_lengthscale s))).
  split; [|split].
  - do 3 f_equal. unfold scaled_sqdist. apply Rsum_ext. intros k _. ring.
  - replace (scaled_sqdist l F (nth i x []) (nth i x [])) with 0.
    + rewrite Ropp_0, exp_0. lra.
    + unfold scaled_sqdist. rewrite <- (Rsum_zero F). apply Rsum_ext. intros k _. ring.
  - pose proof (scaled_sqdist_nonneg l F (nth i x []) (nth j x [])) as Hd.
    pose proof (exp_pos (- scaled_sqdist l F (nth i x []) (nth j x []))) as Hp.
    pose proof (exp_nonpos_le_1 (- scaled_sqdist l F (nth i x []) (nth j x [])))
      as Hle.
    split; [nra|]. specialize (Hle ltac:(lra)). nra.
Qed.

Lemma SparseGP_kernel_symmetric_bounded_witness :
  get3 (SparseGP.kernel (SparseGP.init (constant_samples []) [[0]] 1 1 false None 1 0 None)
                        [[0]; [2]] None) 0 1 1
  = exp 0.
Proof.
  apply (SparseGP_kernel_symmetric_bounded
           (SparseGP.init (constant_samples []) [[0]] 1 1 false None 1 0 None)
           [[0]; [2]] 2 1 1 1).
  - split; [reflexivity | repeat constructor].
  - lia.
  - lia.
Defined.

(** ** The cache of the inducing layers *)

(** A call of [SparseGP.forward] that returns leaves the instance with the
    two cached factors and nothing else changed. *)
Lemma SparseGP_forward_state
    (s s' : SparseGP.t) (X : tensor2) (b : bool) (p : prediction) :
  SparseGP.forward s X b = (s', Ok p) ->
  exists L,
    linalg.cholesky (jittered (gp_Ku s) (SparseGP.num_inducing s)) = inr L
    /\ s' = SparseGP.set_q_sqrt
              (Some (unpack (SparseGP.num_inducing s) (SparseGP.output_dim s)
                            (data (SparseGP.q_sqrt_tri s))))
              (SparseGP.set_Lu (Some L) s).
Proof.
  intros H. unfold SparseGP.forward in H.
  cbv [call bind this assign finite_if fits ret raise lift getattr gf_call fst snd
       cholesky solve_triangular] in H.
  fold (gp_Ku s) in H.
  fold (jittered (gp_Ku s) (SparseGP.num_inducing s)) in H.
  fold (unpack (SparseGP.num_inducing s) (SparseGP.output_dim s)
               (data (SparseGP.q_sqrt_tri s))) in H.
  split_cases H; inversion H; subst; clear H;
    (eexists; split; [reflexivity|]); reflexivity.
Qed.

(** X12: what [SparseGP.forward] caches for [KL] does not depend on the batch:
    two calls on the same instance that return, on whatever batches, leave
    the same instance behind, so [KL()] afterwards gives the same outcome. *)
Theorem SparseGP_cache_independent_of_batch
    (s s1 s2 : SparseGP.t) (X1 X2 : tensor2) (b1 b2 : bool) (p1 p2 : prediction) :
  SparseGP.forward s X1 b1 = (s1, Ok p1) ->
  SparseGP.forward s X2 b2 = (s2, Ok p2) ->
  s1 = s2 /\ SparseGP.KL s1 = SparseGP.KL s2.
Proof.
  intros H1 H2.
  destruct (SparseGP_forward_state s s1 X1 b1 p1 H1) as (L1 & HL1 & E1).
  destruct (SparseGP_forward_state s s2 X2 b2 p2 H2) as (L2 & HL2 & E2).
  assert (EL : L1 = L2) by congruence.
  rewrite E1, E2, EL. split; reflexivity.
Qed.

(** The unit instance on another batch, the samples asked for. *)
Lemma SparseGP_unit_forward_other :
  let built := SparseGP.init (constant_samples []) [[0]] 1 1 false None 1 0 None in
  exists s' p, SparseGP.forward built [[2]] true = (s', Ok p).
Proof.
  intros built. subst built. crunch.
  match goal with |- context [Rlt_dec 0 ?x] => set (k := x) end.
  assert (Hk : 0 < k).
  { subst k. pose proof (exp_pos 0) as E1.
    match goal with |- context [exp (- ?x)] => pose proof (exp_pos (- x)) as E2 end.
    nra. }
  clearbody k. pose proof (sqrt_lt_R0 k Hk) as Hs.
  destruct (Rlt_dec 0 k) as [_|Hn]; [|contradiction]. crunch.
  destruct (Req_dec_T (sqrt k) 0) as [E|_]; [exfalso; lra|]. crunch.
  do 2 eexists. reflexivity.
Qed.

Lemma SparseGP_cache_independent_of_batch_witness :
  fst (SparseGP.forward
         (SparseGP.init (constant_samples []) [[0]] 1 1 false None 1 0 None) [[0]] false)
  = fst (SparseGP.forward
           (SparseGP.init (constant_samples []) [[0]] 1 1 false None 1 0 None) [[2]] true).
Proof.
  destruct (SparseGP_unit_forward false) as (l & mean & K & Hl & E1).
  destruct SparseGP_unit_forward_other as (s2 & p2 & E2).
  cbv zeta in E1, E2. rewrite E1, E2.
  apply (SparseGP_cache_independent_of_batch _ _ _ _ _ _ _ _ _ E1 E2).
Defined.



(** X14: [KL()] solves a triangular system between the cached [Lu], one
    matrix per output of the generative function, and the cached dense
    [q_sqrt], whose first axis runs over the inducing points.  After a
    [forward] that returned on samples with D >= 2 outputs, with M >= 2
    inducing points and M different from D, the two do not broadcast and
    [KL()] raises a runtime error. *)
Theorem VIPLayerInducing_KL_full_output_mismatch
    (s s' : VIPLayerInducing.t) (X : tensor2) (b : bool) (p : prediction) (S : nat) :
  let M := VIPLayerInducing.num_inducing s in
  let D := VIPLayerInducing.output_dim s in
  VIPLayerInducing.forward s X b = (s', Ok p) ->
  dims3 (inducing_draw s X) S (dim0 X + M) D ->
  (0 < S)%nat -> (0 < dim0 X)%nat -> (2 <= M)%nat -> (2 <= D)%nat -> M <> D ->
  exists msg, snd (VIPLayerInducing.KL s') = Raise (RuntimeError msg).
Proof.
  intros M D H Hf HS HN HM HD Hne. destruct p as [[mean K] samples].
  destruct (VIPLayerInducing_forward_ok s s' X b mean K samples H)
    as (L & HL & HLu & Hq & _). fold M in HL, Hq. fold D in Hq.
  destruct (empirical_blocks_dims (inducing_draw s X) S (dim0 X) M D Hf HS HN)
    as (DKu & _); [lia | lia |].
  assert (HLd : dim0 L = D).
  { unfold dim0. rewrite (cholesky_batch_length _ _ HL).
    unfold jittered, torch.add3_2. rewrite tab_length. apply DKu. }
  assert (Hqd : dim0 (unpack M D (data (VIPLayerInducing.q_sqrt_tri s))) = M).
  { apply (unpack_dims M D _ 0). }
  unfold VIPLayerInducing.KL. run_method. rewrite HLu. cbv beta iota. rewrite Hq.
  cbv beta iota.
  assert (F : linalg.solve_triangular_fits L
                (unpack M D (data (VIPLayerInducing.q_sqrt_tri s))) true = false).
  { unfold linalg.solve_triangular_fits, torch.broadcasts. rewrite HLd, Hqd.
    destruct (Nat.eqb_spec D M); [congruence|].
    destruct (Nat.eqb_spec D 1); [lia|].
    destruct (Nat.eqb_spec M 1); [lia|]. reflexivity. }
  rewrite F. eexists. reflexivity.
Qed.

Lemma wide_forward_returns :
  exists s' p, VIPLayerInducing.forward wide_layer [[0]] false = (s', Ok p).
Proof.
  destruct crossed_cholesky as (l1 & l2 & Hl1 & Hl2 & HL).
  set (A := nth 0 (jittered (block_Ku (empirical_kernel (inducing_draw crossed_layer [[0]]))
                                      1%nat 2%nat) 2%nat) []).
  assert (EA : jittered (block_Ku (empirical_kernel (inducing_draw crossed_layer [[0]]))
                                  1%nat 2%nat) 2%nat = [A]).
  { subst A. unfold crossed_layer, crossed_samples. crunch. reflexivity. }
  assert (EW : jittered (block_Ku (empirical_kernel (inducing_draw wide_layer [[0]]))
                                  1%nat 2%nat) 2%nat = [A; A; A]).
  { subst A. unfold wide_layer, wide_samples, crossed_layer, crossed_samples.
    crunch. reflexivity. }
  rewrite EA in HL. clearbody A.
  assert (HA : linalg.cholesky_matrix A = Some [[l1; 0]; [0; l2]]).
  { simpl in HL. destruct (linalg.cholesky_matrix A); [|discriminate HL].
    now inversion HL. }
  assert (HW : linalg.cholesky [A; A; A]
               = inr [[[l1; 0]; [0; l2]]; [[l1; 0]; [0; l2]]; [[l1; 0]; [0; l2]]]).
  { simpl. now rewrite HA. }
  rewrite <- EW in HW.
  destruct (VIPLayerInducing_forward_returns wide_layer [[0]] false
              [[[l1; 0]; [0; l2]]; [[l1; 0]; [0; l2]]; [[l1; 0]; [0; l2]]])
    as (s' & mean & K & samples & E).
  - vm_compute. lia.
  - exact HW.
  - reflexivity.
  - reflexivity.
  - unfold linalg.nonzero_diagonal. crunch.
    repeat match goal with
           | |- context [Req_dec_T ?x 0] => destruct (Req_dec_T x 0); [exfalso; lra|]
           end.
    reflexivity.
  - unfold linalg.nonzero_diagonal. crunch.
    repeat match goal with
           | |- context [Req_dec_T ?x 0] => destruct (Req_dec_T x 0); [exfalso; lra|]
           end.
    reflexivity.
  - exists s', (mean, K, samples). exact E.
Qed.

Lemma VIPLayerInducing_KL_full_output_mismatch_witness :
  exists s' p msg,
    VIPLayerInducing.forward wide_layer [[0]] false = (s', Ok p)
    /\ snd (VIPLayerInducing.KL s') = Raise (RuntimeError msg).
Proof.
  destruct wide_forward_returns as (s' & p & E).
  destruct (VIPLayerInducing_KL_full_output_mismatch wide_layer s' [[0]] false p 2 E)
    as [msg Hmsg].
  - vm_compute. auto.
  - lia.
  - vm_compute; lia.
  - vm_compute; lia.
  - vm_compute; lia.
  - vm_compute; lia.
  - exists s', p, msg. split; assumption.
Defined.

(** ** [LinearProjection] *)

Lemma tab_nth {A : Type} (l : list A) (d : A) : tab (length l) (fun i => nth i l d) = l.
Proof.
  apply (nth_ext _ _ d d); [apply tab_length|].
  intros i Hi. rewrite tab_length in Hi. now rewrite nth_tab.
Qed.

Lemma tab_get2 (X : tensor2) (N d : nat) :
  shape2 X N d -> tab N (fun i => tab d (fun j => get2 X i j)) = X.
Proof.
  intros [Hl Hf]. rewrite <- Hl.
  transitivity (tab (length X) (fun i => nth i X [])); [|apply tab_nth].
  apply tab_ext. intros i Hi.
  rewrite Forall_forall in Hf.
  assert (Hrow : length (nth i X []) = d) by (apply Hf, nth_In; exact Hi).
  rewrite <- Hrow. unfold get2, get1. apply tab_nth.
Qed.

Lemma eye_get (d k j : nat) :
  (k < d)%nat -> (j < d)%nat -> get2 (np.eye d) k j = if (k =? j)%nat then 1 else 0.
Proof. intros Hk Hj. unfold np.eye. now rewrite get2_tab. Qed.

(** The product with the identity matrix gives the operand back. *)
Lemma matmul_identity (X : tensor2) (N d : nat) :
  shape2 X N d -> matmul X (np.eye d) = X.
Proof.
  intros HX. unfold matmul.
  assert (E0 : dim0 (np.eye d) = d) by (unfold np.eye; apply dim0_tab).
  assert (E1 : dim1 (np.eye d) = d).
  { destruct d as [|d]; [reflexivity|].
    unfold np.eye. apply (dim1_tab (S d) (S d)). lia. }
  rewrite E0, E1. destruct HX as [Hl Hf]. unfold dim0. rewrite Hl.
  transitivity (tab N (fun i => tab d (fun j => get2 X i j)));
    [|apply tab_get2; split; assumption].
  apply tab_ext. intros i Hi. apply tab_ext. intros j Hj.
  rewrite (Rsum_single d j).
  - rewrite eye_get, Nat.eqb_refl by assumption. lra.
  - exact Hj.
  - intros k Hk Hne. rewrite eye_get by assumption.
    destruct (Nat.eqb_spec k j); [contradiction | lra].
Qed.

(** ** [init_layers] *)

Section InitLayersFacts.

Variable kmeans2 : tensor2 -> nat -> init_exn + tensor2.
Variable svd_Vh : tensor2 -> tensor2.
Variable BayesianConvNN : nat -> nat * nat -> nat -> GenerativeFunction.
Variable GP : nat -> nat -> nat -> GenerativeFunction.
Variable BayesianNN : nat -> nat -> nat -> GenerativeFunction.
Variable output_dim : nat.
Variable genf : string.
Variable regression_coeffs : nat.
Variable genf_full_output : bool.
Variable final_layer_mu final_layer_sqrt : R.
Variable final_layer_noise : option R.
Variable inner_layers_sqrt : R.
Variable inner_layers_noise : option R.
Variable inner_layers_mu : R.
Variable prior_kl : bool.
Variable input_prop : bool.
Variable inducing_layer : bool.

Local Abbreviation loop :=
  (init_layers_loop svd_Vh BayesianConvNN GP BayesianNN genf regression_coeffs
     genf_full_output final_layer_mu final_layer_sqrt final_layer_noise
     inner_layers_sqrt inner_layers_noise inner_layers_mu prior_kl input_prop
     inducing_layer).
Local Abbreviation built := (built_at regression_coeffs input_prop inducing_layer).

Lemma init_layers_loop_spec (Z : tensor2) (count : nat) (pairs : list (nat * nat)) :
  forall (i : nat) (X_running : tensor2) (acc layers : list layer),
    loop Z count i pairs X_running acc = inr layers ->
    exists new,
      layers = acc ++ new
      /\ length new = length pairs
      /\ forall k l, nth_error new k = Some l ->
           exists din dout,
             nth_error pairs k = Some (din, dout)
             /\ built Z count (i + k) din dout l.
Proof.
  induction pairs as [|[din dout] rest IH]; intros i Xr acc layers H.
  - simpl in H. inversion H; subst. exists []. rewrite app_nil_r.
    split; [reflexivity|]. split; [reflexivity|].
    intros k l Hk. destruct k; discriminate Hk.
  - cbn [init_layers_loop] in H.
    match type of H with
    | match ?c with inl _ => _ | inr _ => _ end = _ => destruct c as [e|ch] eqn:Ec
    end; [discriminate H|].
    destruct ch as [[[[mf v_mu] v_sqrt] noise] Xr'].
    destruct (IH _ _ _ _ H) as (new & E & Hlen & Hnew).
    eexists (_ :: new). split; [rewrite E, <- app_assoc; reflexivity|].
    split; [simpl; now rewrite Hlen|].
    intros k l Hk. destruct k as [|k].
    + simpl in Hk. inversion Hk; subst l; clear Hk.
      exists din, dout. split; [reflexivity|]. rewrite Nat.add_0_r.
      unfold built_at.
      destruct (i =? count - 2)%nat eqn:E1;
        [apply Nat.eqb_eq in E1 | apply Nat.eqb_neq in E1];
        [inversion Ec; subst; clear Ec|].
      * destruct inducing_layer; cbn;
          (split; [reflexivity|]); (split; [reflexivity|]);
          (split; [intros; contradiction|]);
          (split; [intros; now destruct (negb input_prop && _)|]);
          (split; [intros; now destruct (negb input_prop && _)|]);
          (split; [intros; contradiction|]);
          eexists; repeat split; reflexivity.
      * destruct (din =? dout)%nat eqn:E2;
          [apply Nat.eqb_eq in E2 | apply Nat.eqb_neq in E2].
        -- inversion Ec; subst; clear Ec.
           destruct inducing_layer; cbn;
             (split; [reflexivity|]); (split; [reflexivity|]);
             (split; [intros; lia|]);
             (split; [intros; contradiction|]);
             (split; [intros Hp Hi; rewrite Hp, Hi; reflexivity|]);
             (split; [intros _ Hor _;
                      destruct Hor as [Hp|Hi];
                      [rewrite Hp; reflexivity
                      |destruct i; [lia|]; now rewrite andb_false_r]|]);
             eexists; repeat split; reflexivity.
        -- destruct (dout <? din)%nat eqn:E3; [|discriminate Ec].
           apply Nat.ltb_lt in E3. inversion Ec; subst; clear Ec.
           destruct inducing_layer; cbn;
             (split; [reflexivity|]); (split; [reflexivity|]);
             (split; [intros; lia|]);
             (split; [intros; contradiction|]);
             (split; [intros Hp Hi; rewrite Hp, Hi; reflexivity|]);
             (split; [intros; contradiction|]);
             eexists; repeat split; reflexivity.
    + simpl in Hk. destruct (Hnew k l Hk) as (a & b & Hp & Hb).
      exists a, b. split; [exact Hp|]. now rewrite <- Nat.add_succ_comm.
Qed.

Local Abbreviation build :=
  (init_layers kmeans2 svd_Vh BayesianConvNN GP BayesianNN output_dim genf
     regression_coeffs genf_full_output final_layer_mu final_layer_sqrt
     final_layer_noise inner_layers_sqrt inner_layers_noise inner_layers_mu prior_kl
     input_prop inducing_layer).

Lemma init_layers_loop_error (Z : tensor2) (count : nat) (pairs : list (nat * nat)) :
  forall (i : nat) (X_running : tensor2) (acc : list layer) (e : init_exn),
    loop Z count i pairs X_running acc = inl e ->
    e = NotImplementedError "Dimensionality augmentation is not handled currently.".
Proof.
  induction pairs as [|[din dout] rest IH]; intros i Xr acc e H.
  - discriminate H.
  - cbn [init_layers_loop] in H.
    destruct (i =? count - 2)%nat; [now apply IH in H|].
    destruct (din =? dout)%nat; [now apply IH in H|].
    destruct (dout <? din)%nat; [now apply IH in H|].
    now inversion H.
Qed.

Lemma consecutive_pairs_nth (l : list nat) :
  forall k a b,
    nth_error (combine (removelast l) (tl l)) k = Some (a, b) ->
    nth_error l k = Some a /\ nth_error l (S k) = Some b.
Proof.
  induction l as [|x l IH]; intros k a b H; [destruct k; discriminate H|].
  destruct l as [|y l]; [destruct k; discriminate H|].
  change (removelast (x :: y :: l)) with (x :: removelast (y :: l)) in H.
  destruct k as [|k].
  - simpl in H. inversion H; subst. split; reflexivity.
  - change (nth_error (combine (removelast (y :: l)) (tl (y :: l))) k = Some (a, b)) in H.
    now apply IH in H.
Qed.

Lemma consecutive_pairs_length (l : list nat) :
  length (combine (removelast l) (tl l)) = (length l - 1)%nat.
Proof.
  induction l as [|x l IH]; [reflexivity|].
  destruct l as [|y l]; [reflexivity|].
  change (removelast (x :: y :: l)) with (x :: removelast (y :: l)).
  change (tl (x :: y :: l)) with (y :: tl (y :: l)).
  cbn [combine length]. rewrite IH. simpl. lia.
Qed.

(** The list [dims] begins with the number of features of [X], ends with
    [output_dim] and has at least two entries. *)
Lemma init_layers_dims_ends (X : tensor2) (vip_layers dims : list nat) :
  init_layers_dims output_dim X vip_layers = inr dims ->
  nth_error dims 0 = Some (dim1 X)
  /\ nth_error dims (length dims - 1) = Some output_dim
  /\ (2 <= length dims)%nat
  /\ length dims
     = (if (length vip_layers =? 1)%nat
        then Nat.max (nth 0 vip_layers 0%nat) 1 + 1
        else length vip_layers + 1)%nat.
Proof.
  unfold init_layers_dims. intros H.
  destruct (length vip_layers =? 1)%nat eqn:E1.
  - inversion H; subst; clear H. split; [reflexivity|].
    set (m := concat (repeat [dim1 X] (nth 0 vip_layers 0 - 1)%nat)).
    assert (Hm : length m = (nth 0 vip_layers 0 - 1)%nat).
    { subst m. generalize (nth 0 vip_layers 0 - 1)%nat. intros n.
      induction n as [|n IH]; [reflexivity|]. simpl. now rewrite IH. }
    cbn [app length]. rewrite !length_app, Hm. cbn [length].
    split; [|split; lia].
    replace (S (nth 0 vip_layers 0 - 1 + 1) - 1)%nat with (S (length m)) by lia.
    change (nth_error (dim1 X :: m ++ [output_dim]) (S (length m)))
      with (nth_error (m ++ [output_dim]) (length m)).
    rewrite nth_error_app2 by lia. now rewrite Nat.sub_diag.
  - destruct (rev vip_layers) as [|last_dim r] eqn:Er; [discriminate H|].
    destruct (last_dim =? output_dim)%nat eqn:E2; [|discriminate H].
    apply Nat.eqb_eq in E2. subst last_dim. cbn [negb] in H.
    inversion H; subst; clear H.
    assert (Ev : vip_layers = rev r ++ [output_dim]).
    { rewrite <- (rev_involutive vip_layers), Er. reflexivity. }
    split; [reflexivity|]. cbn [app length].
    split; [|split; [rewrite Ev, length_app; simpl; lia | lia]].
    replace (S (length vip_layers) - 1)%nat with (length vip_layers) by lia.
    rewrite Ev at 2. rewrite length_app. cbn [length].
    replace (length (rev r) + 1)%nat with (S (length (rev r))) by lia.
    change (nth_error (dim1 X :: vip_layers) (S (length (rev r))))
      with (nth_error vip_layers (length (rev r))).
    rewrite Ev, nth_error_app2 by lia. now rewrite Nat.sub_diag.
Qed.

(** What [init_layers] returns, layer by layer. *)
Lemma init_layers_spec (X : tensor2) (vip_layers : list nat) (layers : list layer) :
  build X vip_layers = inr layers ->
  exists Z dims,
    kmeans2 X 100 = inr Z
    /\ init_layers_dims output_dim X vip_layers = inr dims
    /\ length layers = (length dims - 1)%nat
    /\ forall k l, nth_error layers k = Some l ->
         exists din dout,
           nth_error dims k = Some din /\ nth_error dims (S k) = Some dout
           /\ built Z (length dims) k din dout l.
Proof.
  unfold init_layers. intros H.
  destruct (kmeans2 X 100) as [e|Z] eqn:EZ; [discriminate H|].
  destruct (init_layers_dims output_dim X vip_layers) as [e|dims] eqn:Ed;
    [discriminate H|].
  exists Z, dims. split; [reflexivity|]. split; [reflexivity|].
  destruct (init_layers_loop_spec _ _ _ _ _ _ _ H) as (new & E & Hlen & Hnew).
  simpl in E. subst new. rewrite consecutive_pairs_length in Hlen.
  split; [exact Hlen|]. intros k l Hk.
  destruct (Hnew k l Hk) as (din & dout & Hp & Hb).
  apply consecutive_pairs_nth in Hp. exists din, dout.
  split; [apply Hp|]. split; [apply Hp | exact Hb].
Qed.

Lemma init_layers_loop_succeeds (Z : tensor2) (count : nat) (pairs : list (nat * nat)) :
  forall (i : nat) (X_running : tensor2) (acc : list layer),
    (forall k din dout, nth_error pairs k = Some (din, dout) ->
       (i + k)%nat <> (count - 2)%nat -> (dout <= din)%nat) ->
    exists layers, loop Z count i pairs X_running acc = inr layers.
Proof.
  induction pairs as [|[din dout] rest IH]; intros i Xr acc H.
  - eexists. reflexivity.
  - cbn [init_layers_loop].
    assert (Hrest : forall k a b, nth_error rest k = Some (a, b) ->
              (S i + k)%nat <> (count - 2)%nat -> (b <= a)%nat).
    { intros k a b Hk Hne. apply (H (S k) a b Hk). lia. }
    destruct (i =? count - 2)%nat eqn:E1; [now apply IH|].
    apply Nat.eqb_neq in E1.
    destruct (din =? dout)%nat eqn:E2; [now apply IH|].
    apply Nat.eqb_neq in E2.
    assert (Hle : (dout <= din)%nat) by (apply (H 0%nat din dout eq_refl); lia).
    destruct (Nat.ltb_spec dout din) as [_|Hge]; [now apply IH|lia].
Qed.

Lemma consecutive_pairs_nth_inv (l : list nat) :
  forall k a b,
    nth_error l k = Some a -> nth_error l (S k) = Some b ->
    nth_error (combine (removelast l) (tl l)) k = Some (a, b).
Proof.
  induction l as [|x l IH]; intros k a b Ha Hb; [destruct k; discriminate Ha|].
  destruct l as [|y l]; [destruct k; discriminate Hb|].
  change (removelast (x :: y :: l)) with (x :: removelast (y :: l)).
  destruct k as [|k].
  - simpl in *. congruence.
  - change (nth_error (combine (removelast (y :: l)) (tl (y :: l))) k = Some (a, b)).
    now apply IH.
Qed.

(** [init_layers] returns when the centres are found, [dims] can be formed
    and no layer but the last raises the dimension. *)
Lemma init_layers_succeeds (X Z : tensor2) (vip_layers dims : list nat) :
  kmeans2 X 100 = inr Z ->
  init_layers_dims output_dim X vip_layers = inr dims ->
  (forall k din dout, nth_error dims k = Some din -> nth_error dims (S k) = Some dout ->
     (k < length dims - 2)%nat -> (dout <= din)%nat) ->
  exists layers, build X vip_layers = inr layers
                 /\ length layers = (length dims - 1)%nat.
Proof.
  intros HZ Hd Hok. unfold init_layers. rewrite HZ, Hd.
  destruct (init_layers_loop_succeeds Z (length dims)
              (combine (removelast dims) (tl dims)) 0 X []) as [layers E].
  { intros k din dout Hk Hne. simpl in Hne.
    destruct (consecutive_pairs_nth dims k din dout Hk) as [Ha Hb].
    apply (Hok k din dout Ha Hb).
    assert (S k < length dims)%nat by (apply nth_error_Some; congruence). lia. }
  exists layers. split; [exact E|].
  destruct (init_layers_loop_spec _ _ _ _ _ _ _ E) as (new & En & Hlen & _).
  simpl in En. subst new. now rewrite consecutive_pairs_length in Hlen.
Qed.

(** X15: [init_layers] first asks [kmeans2] for 100 centres, and raises what
    that raises: a [ValueError] when [X] has fewer than 100 rows (a property
    of [kmeans2] with [minit="points"], taken as a hypothesis), whatever
    the other arguments.  With the centres found, it returns a list exactly
    when the list [dims] can be formed (a single count, or two or more sizes
    ending in [output_dim]) and no layer but the last one raises the
    dimension; it then returns one layer per consecutive pair of [dims].
    Otherwise it raises: an index error on an empty list, a runtime error
    when the last size is not [output_dim], a not-implemented error at the
    first inner layer that raises the dimension (also when that layer would
    get no mean function because [input_prop] is off). *)
Theorem init_layers_outcome (X : tensor2) (vip_layers : list nat) :
  (forall data k, (dim0 data < k)%nat ->
     exists msg, kmeans2 data k = inl (ValueError msg)) ->
  ((dim0 X < 100)%nat -> exists msg, build X vip_layers = inl (ValueError msg))
  /\ (forall e, kmeans2 X 100 = inl e -> build X vip_layers = inl e)
  /\ (forall Z, kmeans2 X 100 = inr Z ->
      (vip_layers = [] ->
       build X vip_layers = inl (IndexError "list index out of range"))
      /\ ((2 <= length vip_layers)%nat -> last vip_layers 0%nat <> output_dim ->
          build X vip_layers
          = inl (LabelError
                   (RuntimeError "Last vip layer does not correspond with data label")))
      /\ (forall dims, init_layers_dims output_dim X vip_layers = inr dims ->
          ((forall k din dout,
               nth_error dims k = Some din -> nth_error dims (S k) = Some dout ->
               (k < length dims - 2)%nat -> (dout <= din)%nat) ->
           exists layers, build X vip_layers = inr layers
                          /\ length layers = (length dims - 1)%nat)
          /\ ((exists k din dout,
                  nth_error dims k = Some din /\ nth_error dims (S k) = Some dout
                  /\ (k < length dims - 2)%nat /\ (din < dout)%nat) ->
              build X vip_layers
              = inl (NotImplementedError
                       "Dimensionality augmentation is not handled currently.")))).
Proof.
  intros Hpoints.
  assert (Herr : forall e, kmeans2 X 100 = inl e -> build X vip_layers = inl e).
  { intros e He. unfold init_layers. now rewrite He. }
  split; [|split; [exact Herr|]].
  - intros Hrows. destruct (Hpoints X 100%nat Hrows) as [msg Hmsg].
    exists msg. now apply Herr.
  - intros Z HZ. split; [|split].
    + intros ->. unfold init_layers. now rewrite HZ.
    + intros Hlen Hlast. unfold init_layers, init_layers_dims. rewrite HZ.
      destruct (Nat.eqb_spec (length vip_layers) 1) as [E|_]; [lia|].
      destruct (rev vip_layers) as [|x r] eqn:Er.
      * apply (f_equal (@length nat)) in Er. rewrite length_rev in Er. simpl in Er. lia.
      * assert (Ev : vip_layers = rev r ++ [x]).
        { rewrite <- (rev_involutive vip_layers), Er. reflexivity. }
        rewrite Ev, last_last in Hlast.
        destruct (Nat.eqb_spec x output_dim) as [E|_]; [contradiction|]. reflexivity.
    + intros dims Hd. split.
      * intros Hok. now apply (init_layers_succeeds X Z vip_layers dims).
      * unfold init_layers. rewrite HZ, Hd.
        intros (k & din & dout & Ha & Hb & Hk & Hlt).
        destruct (loop Z (length dims) 0%nat
                    (combine (removelast dims) (tl dims)) X []) as [e|layers] eqn:E.
        -- f_equal. now apply init_layers_loop_error in E.
        -- exfalso.
           destruct (init_layers_loop_spec _ _ _ _ _ _ _ E) as (new & En & Hlen & Hnew).
           simpl in En. subst new.
           pose proof (consecutive_pairs_nth_inv dims k din dout Ha Hb) as Hp.
           assert (Hkl : (k < length layers)%nat).
           { rewrite Hlen. apply nth_error_Some. congruence. }
           destruct (nth_error layers k) as [l|] eqn:El;
             [|apply nth_error_None in El; lia].
           destruct (Hnew k l El) as (a & b & Hp' & Hb').
           rewrite Hp in Hp'. inversion Hp'; subst a b.
           destruct Hb' as (_ & _ & Hle & _). simpl in Hle.
           assert (dout <= din)%nat by (apply Hle; lia). lia.
Qed.

(** X16: the layers [init_layers] returns chain: the first takes the number
    of features of [X], each next one takes what the one before yields, and
    the last yields [output_dim]; there is one layer per entry of
    [vip_layers] when that list has two or more entries, and max(n, 1)
    layers when it is the single count n. *)
Theorem init_layers_chain (X : tensor2) (vip_layers : list nat) (layers : list layer) :
  build X vip_layers = inr layers ->
  length layers
  = (if (length vip_layers =? 1)%nat
     then Nat.max (nth 0 vip_layers 0%nat) 1
     else length vip_layers)
  /\ (forall l, nth_error layers 0 = Some l -> layer_input_dim l = dim1 X)
  /\ (forall l, nth_error layers (length layers - 1) = Some l ->
        layer_output_dim l = output_dim)
  /\ (forall k l1 l2, nth_error layers k = Some l1 -> nth_error layers (S k) = Some l2 ->
        layer_output_dim l1 = layer_input_dim l2).
Proof.
  intros H.
  destruct (init_layers_spec X vip_layers layers H) as (Z & dims & _ & Hd & Hlen & Hl).
  destruct (init_layers_dims_ends X vip_layers dims Hd) as (H0 & Hlast & H2 & Hcount).
  split; [|split; [|split]].
  - rewrite Hlen, Hcount. destruct (length vip_layers =? 1)%nat; lia.
  - intros l E. destruct (Hl 0%nat l E) as (din & dout & Ha & _ & Hb & _).
    rewrite Hb. congruence.
  - intros l E. destruct (Hl _ l E) as (din & dout & _ & Ha & _ & Hb & _).
    rewrite Hb. rewrite Hlen in Ha.
    replace (S (length dims - 1 - 1)) with (length dims - 1)%nat in Ha by lia.
    congruence.
  - intros k l1 l2 E1 E2.
    destruct (Hl k l1 E1) as (a1 & b1 & _ & Hb1 & _ & Ho & _).
    destruct (Hl (S k) l2 E2) as (a2 & b2 & Ha2 & _ & Hi & _).
    rewrite Ho, Hi. congruence.
Qed.

(** X17: with a single count in [vip_layers], once [kmeans2] has found the
    centres, [init_layers] does not raise, whatever the sizes: it returns
    max(n, 1) layers, all of them taking the number of features of [X], and
    all but the last yielding it too. *)
Theorem init_layers_count_form (X Z : tensor2) (n : nat) :
  kmeans2 X 100 = inr Z ->
  exists layers,
    build X [n] = inr layers
    /\ length layers = Nat.max n 1
    /\ forall k l, nth_error layers k = Some l ->
         layer_input_dim l = dim1 X
         /\ layer_output_dim l = (if (k =? Nat.max n 1 - 1)%nat then output_dim else dim1 X).
Proof.
  intros HZ. set (c := dim1 X).
  assert (Hd : init_layers_dims output_dim X [n]
               = inr ([c] ++ concat (repeat [c] (n - 1)) ++ [output_dim])) by reflexivity.
  set (m := concat (repeat [c] (n - 1))) in Hd.
  assert (Hm : length m = (n - 1)%nat /\ Forall (eq c) m).
  { subst m. generalize (n - 1)%nat. intros j.
    induction j as [|j [IH1 IH2]]; [split; [reflexivity | constructor]|].
    simpl. split; [now rewrite IH1 | now constructor]. }
  destruct Hm as [Hm Hall].
  assert (Hin : forall k d, nth_error ([c] ++ m ++ [output_dim]) k = Some d ->
            (k <= length m)%nat -> d = c).
  { intros k d Hk Hle. destruct k as [|k]; [simpl in Hk; congruence|].
    simpl in Hk. rewrite nth_error_app1 in Hk by lia.
    rewrite Forall_forall in Hall. symmetry. apply Hall.
    eapply nth_error_In; eassumption. }
  destruct (init_layers_succeeds X Z [n] _ HZ Hd) as (layers & E & Hlen).
  { intros k din dout Ha Hb Hk. rewrite !length_app in Hk. simpl in Hk.
    rewrite (Hin k din Ha) by lia. rewrite (Hin (S k) dout Hb) by lia. lia. }
  exists layers. rewrite !length_app in Hlen. simpl in Hlen.
  split; [exact E|]. split; [lia|]. intros k l Hk.
  destruct (init_layers_spec X [n] layers E) as (Z' & dims & _ & Hd' & _ & Hl).
  rewrite Hd in Hd'. inversion Hd'; subst dims; clear Hd'.
  destruct (Hl k l Hk) as (din & dout & Ha & Hb & Hi & Ho & _).
  assert (Hkl : (k < length layers)%nat) by (apply nth_error_Some; congruence).
  rewrite Hi, Ho. split; [apply (Hin k din Ha); lia|].
  destruct (Nat.eqb_spec k (Nat.max n 1 - 1)) as [Ek|Ek].
  - replace (S k) with (S (length m)) in Hb by lia.
    simpl in Hb. rewrite nth_error_app2 in Hb by lia.
    rewrite Nat.sub_diag in Hb. simpl in Hb. congruence.
  - apply (Hin (S k) dout Hb). lia.
Qed.

(** X18: of the layers [init_layers] returns, the last has no mean function;
    the first has none when [input_prop] is off; and every other layer that
    keeps the dimension has the projection by the identity matrix, which
    gives back any batch with that many columns. *)
Theorem init_layers_mean_functions
    (X : tensor2) (vip_layers : list nat) (layers : list layer) :
  build X vip_layers = inr layers ->
  (forall l, nth_error layers (length layers - 1) = Some l ->
     layer_mean_function l = None)
  /\ (input_prop = false -> forall l, nth_error layers 0 = Some l ->
        layer_mean_function l = None)
  /\ (forall k l, nth_error layers k = Some l ->
        (k < length layers - 1)%nat -> input_prop = true \/ (0 < k)%nat ->
        layer_input_dim l = layer_output_dim l ->
        exists mf, layer_mean_function l = Some mf
                   /\ forall batch N, shape2 batch N (layer_input_dim l) -> mf batch = batch).
Proof.
  intros H.
  destruct (init_layers_spec X vip_layers layers H) as (Z & dims & _ & Hd & Hlen & Hl).
  destruct (init_layers_dims_ends X vip_layers dims Hd) as (_ & _ & H2 & _).
  split; [|split].
  - intros l E. destruct (Hl _ l E) as (din & dout & _ & _ & _ & _ & _ & Hm & _).
    apply Hm. lia.
  - intros Hp l E. destruct (Hl _ l E) as (din & dout & _ & _ & _ & _ & _ & _ & Hm & _).
    now apply Hm.
  - intros k l E Hk Hor Heq.
    destruct (Hl _ l E) as (din & dout & _ & _ & Hi & Ho & _ & _ & _ & Hm & _).
    rewrite Hi, Ho in Heq. rewrite Hi.
    eexists. split; [apply Hm; [lia | exact Hor | exact Heq]|].
    intros batch N Hs. unfold LinearProjection.call, LinearProjection.init. simpl.
    now apply (matmul_identity batch N din).
Qed.

(** X19: [inducing_layer] decides the class of every layer [init_layers]
    returns.  The inducing layers all get the same inducing points, the 100
    centres that [kmeans2] computed from [X] itself, whatever their own
    input dimension; the plain layers all get [regression_coeffs]
    coefficients. *)
Theorem init_layers_classes
    (X : tensor2) (vip_layers : list nat) (layers : list layer) (k : nat) (l : layer) :
  build X vip_layers = inr layers ->
  nth_error layers k = Some l ->
  exists Z,
    kmeans2 X 100 = inr Z
    /\ if inducing_layer
       then exists li, l = Inducing li
                       /\ data (VIPLayerInducing.inducing_points li) = Z
                       /\ VIPLayerInducing.num_inducing li = dim0 Z
       else exists lp, l = Plain lp /\ VIPLayer.num_coeffs lp = regression_coeffs.
Proof.
  intros H E.
  destruct (init_layers_spec X vip_layers layers H) as (Z & dims & HZ & _ & _ & Hl).
  destruct (Hl _ l E) as (din & dout & _ & _ & _ & _ & _ & _ & _ & _ & Hc).
  exists Z. split; [exact HZ | exact Hc].
Qed.

End InitLayersFacts.

(** [toy_kmeans2] does what [kmeans2] does on too few points, and finds the
    centres of the hundred points. *)
Lemma toy_kmeans2_points (X : tensor2) (k : nat) :
  (dim0 X < k)%nat -> exists msg, toy_kmeans2 X k = inl (ValueError msg).
Proof.
  intros H. unfold toy_kmeans2.
  destruct (Nat.ltb_spec (dim0 X) k) as [_|Hge]; [|lia]. eexists. reflexivity.
Qed.

Lemma toy_kmeans2_hundred : toy_kmeans2 hundred_points 100 = inr hundred_points.
Proof. reflexivity. Qed.

Lemma toy_two_layers (input_prop inducing_layer : bool) :
  exists layers,
    toy_init_layers 1 input_prop inducing_layer hundred_points [2; 1]%nat = inr layers
    /\ length layers = 2%nat.
Proof.
  apply (init_layers_succeeds _ _ _ _ _ _ _ _ _ _ _ _ _ _ _ _ _ _
           hundred_points hundred_points [2; 1]%nat [2; 2; 1]%nat).
  - exact toy_kmeans2_hundred.
  - reflexivity.
  - intros k din dout Ha Hb Hk. simpl in Hk.
    destruct k as [|[|k]]; [|lia|lia]. simpl in Ha, Hb. inversion Ha. inversion Hb. lia.
Qed.

Lemma init_layers_outcome_witness :
  (exists msg, toy_init_layers 1 false false [[0; 0]] [2; 1]%nat = inl (ValueError msg))
  /\ toy_init_layers 1 false false hundred_points [3; 2; 1]%nat
     = inl (NotImplementedError "Dimensionality augmentation is not handled currently.").
Proof.
  split.
  - destruct (init_layers_outcome
                toy_kmeans2 (fun X => np.eye (dim1 X))
                (fun _ _ _ => constant_samples []) (fun _ _ _ => constant_samples [])
                (fun _ _ _ => constant_samples [])
                1%nat "BNN" 2%nat false 0 1 None 1 None 0 false false false
                [[0; 0]] [2; 1]%nat toy_kmeans2_points) as (H & _).
    apply H. simpl. lia.
  - destruct (init_layers_outcome
                toy_kmeans2 (fun X => np.eye (dim1 X))
                (fun _ _ _ => constant_samples []) (fun _ _ _ => constant_samples [])
                (fun _ _ _ => constant_samples [])
                1%nat "BNN" 2%nat false 0 1 None 1 None 0 false false false
                hundred_points [3; 2; 1]%nat toy_kmeans2_points) as (_ & _ & H).
    destruct (H hundred_points toy_kmeans2_hundred) as (_ & _ & Hd).
    apply (proj2 (Hd [2; 3; 2; 1]%nat eq_refl)).
    exists 0%nat, 2%nat, 3%nat. repeat split; simpl; lia.
Defined.

Lemma init_layers_chain_witness :
  exists layers l1 l2,
    toy_init_layers 1 true false hundred_points [2; 1]%nat = inr layers
    /\ nth_error layers 0 = Some l1 /\ nth_error layers 1 = Some l2
    /\ layer_input_dim l1 = 2%nat
    /\ layer_output_dim l1 = layer_input_dim l2
    /\ layer_output_dim l2 = 1%nat.
Proof.
  destruct (toy_two_layers true false) as (layers & E & Hlen).
  destruct layers as [|l1 [|l2 [|l3 r]]]; try discriminate Hlen.
  exists [l1; l2], l1, l2.
  destruct (init_layers_chain _ _ _ _ _ _ _ _ _ _ _ _ _ _ _ _ _ _ _ _ _ E)
    as (_ & H0 & H1 & Hc).
  split; [exact E|]. split; [reflexivity|]. split; [reflexivity|].
  split; [apply (H0 l1 eq_refl)|]. split; [apply (Hc 0%nat l1 l2); reflexivity|].
  apply (H1 l2 eq_refl).
Defined.

Lemma init_layers_count_form_witness :
  exists layers,
    toy_init_layers 1 true false hundred_points [3]%nat = inr layers
    /\ length layers = 3%nat.
Proof.
  destruct (init_layers_count_form
              toy_kmeans2 (fun X => np.eye (dim1 X))
              (fun _ _ _ => constant_samples []) (fun _ _ _ => constant_samples [])
              (fun _ _ _ => constant_samples [])
              1%nat "BNN" 2%nat false 0 1 None 1 None 0 false true false
              hundred_points hundred_points 3%nat toy_kmeans2_hundred)
    as (layers & E & Hlen & _).
  exists layers. split; [exact E | exact Hlen].
Defined.

Lemma init_layers_mean_functions_witness :
  exists layers l1 l2 mf,
    toy_init_layers 1 true false hundred_points [2; 1]%nat = inr layers
    /\ nth_error layers 0 = Some l1 /\ nth_error layers 1 = Some l2
    /\ layer_mean_function l2 = None
    /\ layer_mean_function l1 = Some mf.
Proof.
  destruct (toy_two_layers true false) as (layers & E & Hlen).
  destruct layers as [|l1 [|l2 [|l3 r]]]; try discriminate Hlen.
  destruct (init_layers_mean_functions _ _ _ _ _ _ _ _ _ _ _ _ _ _ _ _ _ _ _ _ _ E)
    as (Hlast & _ & Hid).
  destruct (Hid 0%nat l1 eq_refl) as (mf & Hmf & _).
  - simpl; lia.
  - left; reflexivity.
  - destruct (init_layers_spec _ _ _ _ _ _ _ _ _ _ _ _ _ _ _ _ _ _ _ _ _ E)
      as (Z & dims & _ & Hd & _ & Hl).
    inversion Hd; subst dims.
    destruct (Hl 0%nat l1 eq_refl) as (din & dout & Ha & Hb & Hi & Ho & _).
    simpl in Ha, Hb. rewrite Hi, Ho. inversion Ha. now inversion Hb.
  - exists [l1; l2], l1, l2, mf.
    split; [exact E|]. split; [reflexivity|]. split; [reflexivity|].
    split; [apply (Hlast l2 eq_refl) | exact Hmf].
Defined.

Lemma init_layers_classes_witness :
  exists layers li,
    toy_init_layers 1 true true hundred_points [2; 1]%nat = inr layers
    /\ nth_error layers 1 = Some (Inducing li)
    /\ data (VIPLayerInducing.inducing_points li) = hundred_points
    /\ VIPLayerInducing.num_inducing li = 100%nat.
Proof.
  destruct (toy_two_layers true true) as (layers & E & Hlen).
  destruct layers as [|l1 [|l2 [|l3 r]]]; try discriminate Hlen.
  destruct (init_layers_classes _ _ _ _ _ _ _ _ _ _ _ _ _ _ _ _ _ _ _ _ _ 1 l2 E eq_refl)
    as (Z & HZ & Hc).
  cbv beta iota in Hc. destruct Hc as (li & El & HZi & Hn).
  assert (EZ : Z = hundred_points).
  { rewrite toy_kmeans2_hundred in HZ. now inversion HZ. }
  exists [l1; l2], li. split; [exact E|]. split; [now rewrite El|].
  rewrite Hn, HZi, EZ. split; reflexivity.
Defined.

(** ** The linear algebra of the inducing layers *)

Lemma grow_S {A : Type} (g : list A -> nat -> A) (n : nat) :
  grow g (S n) = grow g n ++ [g (grow g n) n].
Proof. unfold grow. now rewrite seq_S, fold_left_app. Qed.

Lemma grow_length {A : Type} (g : list A -> nat -> A) (n : nat) : length (grow g n) = n.
Proof.
  induction n as [|n IH]; [reflexivity|].
  rewrite grow_S, length_app, IH. simpl. lia.
Qed.

Lemma grow_firstn {A : Type} (g : list A -> nat -> A) (n k : nat) :
  (k <= n)%nat -> firstn k (grow g n) = grow g k.
Proof.
  induction n as [|n IH]; intros Hk.
  - assert (k = 0%nat) by lia. subst k. reflexivity.
  - destruct (Nat.eq_dec k (S n)) as [->|Hne].
    + rewrite <- (grow_length g (S n)) at 1. apply firstn_all.
    + rewrite grow_S, firstn_app, grow_length.
      replace (k - n)%nat with 0%nat by lia. rewrite firstn_O, app_nil_r.
      apply IH. lia.
Qed.

Lemma grow_nth {A : Type} (g : list A -> nat -> A) (n i : nat) (d : A) :
  (i < n)%nat -> nth i (grow g n) d = g (grow g i) i.
Proof.
  intros Hi.
  rewrite <- (firstn_skipn (S i) (grow g n)).
  rewrite grow_firstn by lia. rewrite grow_S.
  rewrite app_nth1 by (rewrite length_app, grow_length; simpl; lia).
  rewrite app_nth2 by (rewrite grow_length; lia).
  now rewrite grow_length, Nat.sub_diag.
Qed.

Lemma get2_firstn (X : tensor2) (i k c : nat) :
  (k < i)%nat -> get2 (firstn i X) k c = get2 X k c.
Proof.
  intros Hk. unfold get2. f_equal.
  rewrite <- (firstn_skipn i X) at 2.
  destruct (Nat.lt_ge_cases k (length (firstn i X))) as [Hlt|Hge].
  - now rewrite app_nth1.
  - rewrite length_firstn in Hge.
    assert (Hlen : (length X <= k)%nat) by lia.
    rewrite (nth_overflow (firstn i X)) by (rewrite length_firstn; lia).
    rewrite firstn_skipn. now rewrite nth_overflow.
Qed.

(** *** Forward substitution *)

Lemma forward_subst_grow (L B : tensor2) :
  linalg.forward_subst L B
  = grow (fun X i => tab (dim1 B) (fun c =>
            (get2 B i c - Rsum i (fun k => get2 L i k * get2 X k c)) / get2 L i i))
         (dim0 L).
Proof. reflexivity. Qed.

Lemma forward_subst_length (L B : tensor2) :
  length (linalg.forward_subst L B) = dim0 L.
Proof. rewrite forward_subst_grow. apply grow_length. Qed.

Lemma forward_subst_shape (L B : tensor2) :
  shape2 (linalg.forward_subst L B) (dim0 L) (dim1 B).
Proof.
  split; [apply forward_subst_length|].
  apply Forall_forall. intros row Hin.
  destruct (In_nth _ _ [] Hin) as (i & Hi & <-).
  rewrite forward_subst_length in Hi.
  rewrite forward_subst_grow, grow_nth by exact Hi. apply tab_length.
Qed.

(** Row i of the solution, from the rows above it. *)
Lemma forward_subst_entry (L B : tensor2) (i c : nat) :
  (i < dim0 L)%nat -> (c < dim1 B)%nat ->
  get2 (linalg.forward_subst L B) i c
  = (get2 B i c
     - Rsum i (fun k => get2 L i k * get2 (linalg.forward_subst L B) k c))
    / get2 L i i.
Proof.
  intros Hi Hc. unfold get2 at 1.
  rewrite forward_subst_grow at 1. rewrite grow_nth by exact Hi.
  unfold get1. rewrite nth_tab by exact Hc. f_equal. f_equal.
  apply Rsum_ext. intros k Hk. f_equal.
  rewrite <- (grow_firstn _ (dim0 L) i) by lia.
  rewrite <- forward_subst_grow. now apply get2_firstn.
Qed.

Lemma Rsum_truncate (n m : nat) (f : nat -> R) :
  (m <= n)%nat -> (forall k, (m <= k < n)%nat -> f k = 0) -> Rsum n f = Rsum m f.
Proof.
  intros Hm Hz. induction n as [|n IH]; [now replace m with 0%nat by lia|].
  destruct (Nat.eq_dec m (S n)) as [->|Hne]; [reflexivity|].
  simpl. rewrite Hz by lia. rewrite IH by (try lia; intros; apply Hz; lia). lra.
Qed.

(** Forward substitution solves the lower-triangular system. *)
Lemma forward_subst_solves (L B : tensor2) (i c : nat) :
  (i < dim0 L)%nat -> (c < dim1 B)%nat ->
  get2 L i i <> 0 ->
  (forall k, (i < k < dim0 L)%nat -> get2 L i k = 0) ->
  Rsum (dim0 L) (fun k => get2 L i k * get2 (linalg.forward_subst L B) k c)
  = get2 B i c.
Proof.
  intros Hi Hc Hd Hz.
  rewrite (Rsum_truncate (dim0 L) (S i))
    by (try lia; intros k Hk; rewrite Hz by lia; lra).
  simpl. rewrite (forward_subst_entry L B i c Hi Hc).
  field. exact Hd.
Qed.

(** *** Back substitution *)

Lemma Rsum_shift (n : nat) (f : nat -> R) :
  Rsum (S n) f = f 0%nat + Rsum n (fun k => f (S k)).
Proof.
  induction n as [|n IH]; [simpl; lra|].
  change (Rsum (S (S n)) f) with (Rsum (S n) f + f (S n)).
  rewrite IH. simpl. lra.
Qed.

Lemma Rsum_rev (n : nat) (f : nat -> R) :
  Rsum n (fun k => f (n - S k)%nat) = Rsum n f.
Proof.
  revert f. induction n as [|n IH]; intros f; [reflexivity|].
  rewrite (Rsum_shift n f).
  change (Rsum (S n) (fun k => f (S n - S k)%nat))
    with (Rsum n (fun k => f (S n - S k)%nat) + f (S n - S n)%nat).
  rewrite Nat.sub_diag.
  rewrite (Rsum_ext n _ (fun k => f (S (n - S k)))).
  - rewrite (IH (fun k => f (S k))). lra.
  - intros k Hk. f_equal. lia.
Qed.

(** The matrix and the right-hand side, both turned upside down. *)
Lemma reversed_matrix_get (U : tensor2) (n a b : nat) :
  shape2 U n n -> (a < n)%nat -> (b < n)%nat ->
  get2 (rev (map (@rev R) U)) a b = get2 U (n - S a) (n - S b).
Proof.
  intros [Hl Hf] Ha Hb. unfold get2, get1.
  rewrite rev_nth by (rewrite length_map; lia).
  rewrite length_map, Hl.
  rewrite (nth_map_in _ _ _ _ []) by lia.
  assert (Hrow : length (nth (n - S a) U []) = n).
  { rewrite Forall_forall in Hf. apply Hf, nth_In. lia. }
  rewrite rev_nth by lia. now rewrite Hrow.
Qed.

Lemma reversed_rows_get (B : tensor2) (n a c : nat) :
  length B = n -> (a < n)%nat -> get2 (rev B) a c = get2 B (n - S a) c.
Proof.
  intros Hl Ha. unfold get2. rewrite rev_nth by lia. now rewrite Hl.
Qed.

Lemma reversed_rows_dim1 (B : tensor2) (n c : nat) :
  shape2 B n c -> (0 < n)%nat -> dim1 (rev B) = c.
Proof.
  intros [Hl Hf] Hn. unfold dim1. rewrite hd_nth0.
  rewrite rev_nth by lia. rewrite Forall_forall in Hf. apply Hf, nth_In. lia.
Qed.

Lemma back_subst_shape (U B : tensor2) (n c : nat) :
  shape2 U n n -> shape2 B n c -> (0 < n)%nat ->
  shape2 (linalg.back_subst U B) n c.
Proof.
  intros HU HB Hn. unfold linalg.back_subst.
  pose proof (forward_subst_shape (rev (map (@rev R) U)) (rev B)) as [Hl Hf].
  rewrite (reversed_rows_dim1 B n c HB Hn) in Hf.
  unfold dim0 in Hl. rewrite length_rev, length_map in Hl.
  destruct HU as [HUl _]. rewrite HUl in Hl.
  split; [now rewrite length_rev|].
  apply Forall_rev. exact Hf.
Qed.

(** Back substitution solves the upper-triangular system. *)
Lemma back_subst_solves (U B : tensor2) (n c i j : nat) :
  shape2 U n n -> shape2 B n c -> (i < n)%nat -> (j < c)%nat ->
  get2 U i i <> 0 ->
  (forall k, (k < i)%nat -> get2 U i k = 0) ->
  Rsum n (fun k => get2 U i k * get2 (linalg.back_subst U B) k j) = get2 B i j.
Proof.
  intros HU HB Hi Hj Hd Hz.
  assert (Hn : (0 < n)%nat) by lia.
  set (U' := rev (map (@rev R) U)). set (B' := rev B).
  assert (E0 : dim0 U' = n).
  { unfold U'. unfold dim0. rewrite length_rev, length_map. apply HU. }
  assert (E1 : dim1 B' = c) by (unfold B'; now apply (reversed_rows_dim1 B n c)).
  pose proof (forward_subst_solves U' B' (n - S i) j) as H.
  rewrite E0, E1 in H.
  assert (Ha : (n - S i < n)%nat) by lia.
  replace (get2 B i j) with (get2 B' (n - S i) j).
  2:{ unfold B'. rewrite (reversed_rows_get B n) by (try apply HB; lia).
      f_equal. lia. }
  rewrite <- H; try assumption.
  - rewrite <- (Rsum_rev n (fun k => get2 U i k * get2 (linalg.back_subst U B) k j)).
    apply Rsum_ext. intros k Hk.
    unfold U'. rewrite (reversed_matrix_get U n) by (try assumption; lia).
    replace (n - S (n - S i))%nat with i by lia. f_equal.
    unfold linalg.back_subst.
    rewrite (reversed_rows_get
               (linalg.forward_subst (rev (map (@rev R) U)) (rev B)) n).
    + f_equal. lia.
    + rewrite forward_subst_length.
      unfold dim0. rewrite length_rev, length_map. apply HU.
    + lia.
  - unfold U'. rewrite (reversed_matrix_get U n) by assumption.
    now replace (n - S (n - S i))%nat with i by lia.
  - intros k Hk. unfold U'. rewrite (reversed_matrix_get U n) by (try assumption; lia).
    replace (n - S (n - S i))%nat with i by lia. apply Hz. lia.
Qed.

(** *** Transposes and systems with the unknown on the left *)

Lemma transpose_shape (m : tensor2) (r c : nat) :
  dim0 m = r -> dim1 m = c -> shape2 (linalg.transpose m) c r.
Proof.
  intros E0 E1. unfold linalg.transpose. rewrite E0, E1. apply shape2_tab.
Qed.

Lemma transpose_get (m : tensor2) (r c i j : nat) :
  dim0 m = r -> dim1 m = c -> (i < r)%nat -> (j < c)%nat ->
  get2 (linalg.transpose m) j i = get2 m i j.
Proof.
  intros E0 E1 Hi Hj. unfold linalg.transpose. rewrite E0, E1. now rewrite get2_tab.
Qed.

(** [solve_triangular(A, B, upper=..., left=False)] returns X with X A = B,
    for a triangular A of the kind announced. *)
Lemma solve_matrix_right (A B : tensor2) (upper : bool) (n N r m : nat) :
  dim0 A = n -> dim1 A = n -> dim0 B = N -> dim1 B = n ->
  (r < N)%nat -> (m < n)%nat ->
  nonzero_diag n A ->
  (if upper then upper_triangular n A else lower_triangular n A) ->
  shape2 (linalg.solve_matrix A B upper false) N n
  /\ Rsum n (fun k => get2 (linalg.solve_matrix A B upper false) r k * get2 A k m)
     = get2 B r m.
Proof.
  intros EA0 EA1 EB0 EB1 Hr Hm Hd Htri.
  assert (Hn : (0 < n)%nat) by lia. assert (HN : (0 < N)%nat) by lia.
  pose proof (transpose_shape A n n EA0 EA1) as HAt.
  pose proof (transpose_shape B N n EB0 EB1) as HBt.
  destruct (shape2_dims _ _ _ HAt Hn) as [A0 A1].
  destruct (shape2_dims _ _ _ HBt Hn) as [B0 B1].
  unfold linalg.solve_matrix. destruct upper; cbn [negb].
  - pose proof (forward_subst_shape (linalg.transpose A) (linalg.transpose B)) as HY.
    rewrite A0, B1 in HY. destruct (shape2_dims _ _ _ HY Hn) as [Y0 Y1].
    split; [now apply transpose_shape|].
    rewrite <- (transpose_get B N n r m EB0 EB1 Hr Hm).
    rewrite <- (forward_subst_solves (linalg.transpose A) (linalg.transpose B) m r);
      rewrite ?A0, ?B1; try assumption.
    + apply Rsum_ext. intros k Hk.
      rewrite (transpose_get _ n N k r Y0 Y1 Hk Hr).
      rewrite (transpose_get A n n k m EA0 EA1 Hk Hm). ring.
    + rewrite (transpose_get A n n m m EA0 EA1 Hm Hm). now apply Hd.
    + intros k Hk. rewrite (transpose_get A n n k m EA0 EA1) by lia. apply Htri; lia.
  - pose proof (back_subst_shape (linalg.transpose A) (linalg.transpose B) n N
                  HAt HBt Hn) as HY.
    destruct (shape2_dims _ _ _ HY Hn) as [Y0 Y1].
    split; [now apply transpose_shape|].
    rewrite <- (transpose_get B N n r m EB0 EB1 Hr Hm).
    rewrite <- (back_subst_solves (linalg.transpose A) (linalg.transpose B) n N m r);
      try assumption.
    + apply Rsum_ext. intros k Hk.
      rewrite (transpose_get _ n N k r Y0 Y1 Hk Hr).
      rewrite (transpose_get A n n k m EA0 EA1 Hk Hm). ring.
    + rewrite (transpose_get A n n m m EA0 EA1 Hm Hm). now apply Hd.
    + intros k Hk. rewrite (transpose_get A n n k m EA0 EA1) by lia. apply Htri; lia.
Qed.

(** *** The Cholesky factorisation *)

Lemma grow_ext {A : Type} (g g' : list A -> nat -> A) (n : nat) :
  (forall acc j, (j < n)%nat -> g acc j = g' acc j) -> grow g n = grow g' n.
Proof.
  induction n as [|n IH]; intros H; [reflexivity|].
  rewrite !grow_S, IH by (intros; apply H; lia). now rewrite H by lia.
Qed.

Lemma get1_firstn (v : tensor1) (j k : nat) :
  (k < j)%nat -> get1 (firstn j v) k = get1 v k.
Proof.
  intros Hk. unfold get1.
  rewrite <- (firstn_skipn j v) at 2.
  destruct (Nat.lt_ge_cases k (length (firstn j v))) as [Hlt|Hge].
  - now rewrite app_nth1.
  - rewrite length_firstn in Hge.
    rewrite (nth_overflow (firstn j v)) by (rewrite length_firstn; lia).
    rewrite firstn_skipn. rewrite nth_overflow by lia. reflexivity.
Qed.

Lemma cholesky_row_grow (A L : tensor2) (i : nat) :
  linalg.cholesky_row A L i
  = grow (fun row j =>
            (get2 A i j - Rsum j (fun k => get1 row k * get2 L j k)) / get2 L j j) i.
Proof. reflexivity. Qed.

Lemma cholesky_row_entry (A L : tensor2) (i j : nat) :
  (j < i)%nat ->
  get1 (linalg.cholesky_row A L i) j
  = (get2 A i j - Rsum j (fun k => get1 (linalg.cholesky_row A L i) k * get2 L j k))
    / get2 L j j.
Proof.
  intros Hj. unfold get1 at 1. rewrite cholesky_row_grow at 1.
  rewrite grow_nth by exact Hj. f_equal. f_equal.
  apply Rsum_ext. intros k Hk. f_equal.
  rewrite <- (grow_firstn _ i j) by lia. rewrite <- cholesky_row_grow.
  now apply get1_firstn.
Qed.

Lemma cholesky_row_ext (A L L' : tensor2) (i : nat) :
  (forall j k, (j < i)%nat -> get2 L j k = get2 L' j k) ->
  linalg.cholesky_row A L i = linalg.cholesky_row A L' i.
Proof.
  intros H. rewrite !cholesky_row_grow. apply grow_ext. intros row j Hj.
  rewrite (H j j Hj). f_equal. f_equal. apply Rsum_ext. intros k Hk.
  now rewrite (H j k Hj).
Qed.

Lemma cholesky_steps (A : tensor2) (m : nat) (L : tensor2) :
  fold_left
    (fun acc i =>
       match acc with
       | None => None
       | Some L =>
         let row := linalg.cholesky_row A L i in
         let d := get2 A i i - Rsum i (fun k => get1 row k * get1 row k) in
         if torch.is_pos d
         then Some (L ++ [row ++ sqrt d :: repeat 0 (dim0 A - S i)])
         else None
       end)
    (seq 0 m) (Some []) = Some L ->
  L = grow (cholesky_line A) m
  /\ forall i, (i < m)%nat -> 0 < cholesky_pivot A (grow (cholesky_line A) i) i.
Proof.
  revert L. induction m as [|m IH]; intros L H.
  - simpl in H. inversion H. split; [reflexivity|]. intros i Hi. lia.
  - rewrite seq_S, fold_left_app in H. simpl in H.
    match type of H with
    | match ?c with Some _ => _ | None => _ end = _ => destruct c as [L0|] eqn:E0
    end; [|discriminate H].
    destruct (IH L0 eq_refl) as [EL Hp]. cbv zeta in H.
    fold (cholesky_pivot A L0 m) in H.
    destruct (torch.is_pos (cholesky_pivot A L0 m)) eqn:Ep; [|discriminate H].
    inversion H; subst L; clear H. split.
    + rewrite grow_S, <- EL. reflexivity.
    + intros i Hi. destruct (Nat.eq_dec i m) as [->|Hne].
      * rewrite <- EL. unfold torch.is_pos in Ep.
        now destruct (Rlt_dec 0 (cholesky_pivot A L0 m)).
      * apply Hp. lia.
Qed.

(** The factor that [cholesky_matrix] returns is lower triangular with a
    positive diagonal, and its product with its transpose is [A] on and
    below the diagonal. *)
Lemma cholesky_matrix_correct (A L : tensor2) (n : nat) :
  linalg.cholesky_matrix A = Some L -> dim0 A = n ->
  shape2 L n n
  /\ lower_triangular n L
  /\ (forall i, (i < n)%nat -> 0 < get2 L i i)
  /\ forall i j, (j <= i)%nat -> (i < n)%nat ->
       Rsum n (fun k => get2 L i k * get2 L j k) = get2 A i j.
Proof.
  intros H Hn. subst n. set (n := dim0 A) in *.
  destruct (cholesky_matrix_shape A L H) as [Hlen Hrows]. fold n in Hlen, Hrows.
  unfold linalg.cholesky_matrix in H. fold n in H.
  assert (H' : fold_left
    (fun acc i =>
       match acc with
       | None => None
       | Some L =>
         let row := linalg.cholesky_row A L i in
         let d := get2 A i i - Rsum i (fun k => get1 row k * get1 row k) in
         if torch.is_pos d
         then Some (L ++ [row ++ sqrt d :: repeat 0 (dim0 A - S i)])
         else None
       end)
    (seq 0 n) (Some []) = Some L) by exact H.
  destruct (cholesky_steps A n L H') as [EL Hpiv]. clear H H'.
  assert (Hprefix : forall i, (i <= n)%nat -> grow (cholesky_line A) i = firstn i L).
  { intros i Hi. rewrite EL. symmetry. now apply grow_firstn. }
  assert (Hrow : forall i, (i < n)%nat ->
            linalg.cholesky_row A (firstn i L) i = linalg.cholesky_row A L i).
  { intros i Hi. apply cholesky_row_ext. intros j k Hj. now apply get2_firstn. }
  assert (Hpivot : forall i, (i < n)%nat ->
            cholesky_pivot A (firstn i L) i = cholesky_pivot A L i).
  { intros i Hi. unfold cholesky_pivot. now rewrite Hrow. }
  assert (Hline : forall i, (i < n)%nat ->
            nth i L [] = linalg.cholesky_row A L i
                         ++ sqrt (cholesky_pivot A L i) :: repeat 0 (n - S i)).
  { intros i Hi. rewrite EL at 1. rewrite grow_nth by exact Hi.
    rewrite Hprefix by lia. unfold cholesky_line.
    now rewrite Hrow, Hpivot by exact Hi. }
  assert (Hpos : forall i, (i < n)%nat -> 0 < cholesky_pivot A L i).
  { intros i Hi. rewrite <- Hpivot, <- Hprefix by lia. now apply Hpiv. }
  assert (Hbelow : forall i j, (j < i)%nat -> (i < n)%nat ->
            get2 L i j = get1 (linalg.cholesky_row A L i) j).
  { intros i j Hj Hi. unfold get2. rewrite Hline by exact Hi.
    unfold get1. rewrite app_nth1 by (rewrite cholesky_row_length; exact Hj).
    reflexivity. }
  assert (Hdiag : forall i, (i < n)%nat -> get2 L i i = sqrt (cholesky_pivot A L i)).
  { intros i Hi. unfold get2. rewrite Hline by exact Hi.
    unfold get1. rewrite app_nth2 by (rewrite cholesky_row_length; lia).
    now rewrite cholesky_row_length, Nat.sub_diag. }
  assert (Habove : lower_triangular n L).
  { intros i k Hik Hk. unfold get2. rewrite Hline by lia.
    unfold get1. rewrite app_nth2 by (rewrite cholesky_row_length; lia).
    rewrite cholesky_row_length.
    destruct (k - i)%nat as [|d] eqn:Ed; [lia|]. simpl.
    destruct (Nat.lt_ge_cases d (n - S i)) as [Hlt|Hge].
    - now rewrite nth_repeat_lt.
    - rewrite nth_overflow by (rewrite repeat_length; lia). reflexivity. }
  split; [split; [exact Hlen | exact Hrows]|]. split; [exact Habove|].
  split; [intros i Hi; rewrite Hdiag by exact Hi; apply sqrt_lt_R0; now apply Hpos|].
  intros i j Hji Hi.
  rewrite (Rsum_truncate n (S j))
    by (try lia; intros k Hk; rewrite (Habove j k) by lia; lra).
  change (Rsum (S j) (fun k => get2 L i k * get2 L j k))
    with (Rsum j (fun k => get2 L i k * get2 L j k) + get2 L i j * get2 L j j).
  destruct (Nat.eq_dec j i) as [->|Hne].
  - rewrite Hdiag by exact Hi. rewrite sqrt_sqrt by (left; now apply Hpos).
    unfold cholesky_pivot.
    rewrite (Rsum_ext i _ (fun k => get1 (linalg.cholesky_row A L i) k
                                    * get1 (linalg.cholesky_row A L i) k))
      by (intros k Hk; now rewrite Hbelow by lia).
    lra.
  - assert (Hj : (j < i)%nat) by lia.
    rewrite (Hbelow i j Hj Hi), (cholesky_row_entry A L i j Hj).
    rewrite (Rsum_ext j _ (fun k => get1 (linalg.cholesky_row A L i) k * get2 L j k))
      by (intros k Hk; now rewrite Hbelow by lia).
    assert (Hd : get2 L j j <> 0).
    { rewrite Hdiag by lia. pose proof (sqrt_lt_R0 _ (Hpos j ltac:(lia))). lra. }
    field. exact Hd.
Qed.

(** *** Batches *)

Lemma slices_tab (a b c : nat) (F : nat -> nat -> nat -> R) :
  (0 < b)%nat -> slices (tab a (fun x => tab b (fun i => tab c (F x i)))) a b c.
Proof.
  intros Hb. split; [apply tab_length|]. intros d Hd. rewrite nth_tab by exact Hd.
  split; [apply dim0_tab|]. now apply (dim1_tab b c (F d)).
Qed.

Lemma slices_dims3 (t : tensor3) (a b c : nat) :
  slices t a b c -> (0 < a)%nat -> dims3 t a b c.
Proof.
  intros [Hl Hs] Ha. destruct (Hs 0%nat Ha) as [E0 E1].
  unfold dims3, dim1, dim2. rewrite !hd_nth0. auto.
Qed.

Lemma cholesky_batch_nth (t Ls : tensor3) (d : nat) :
  linalg.cholesky t = inr Ls -> (d < length t)%nat ->
  linalg.cholesky_matrix (nth d t []) = Some (nth d Ls []).
Proof.
  revert Ls d. induction t as [|A t IH]; intros Ls d H Hd; [simpl in Hd; lia|].
  simpl in H.
  destruct (linalg.cholesky_matrix A) as [L|] eqn:EA; [|discriminate H].
  destruct (linalg.cholesky t) as [e|Ls'] eqn:Et; [discriminate H|].
  inversion H; subst Ls. destruct d as [|d]; [exact EA|].
  simpl. apply IH; [reflexivity | simpl in Hd; lia].
Qed.

(** The factors of a batch. *)
Lemma cholesky_batch_correct (Kj L : tensor3) (Do M d : nat) :
  linalg.cholesky Kj = inr L -> slices Kj Do M M -> (d < Do)%nat ->
  length L = Do
  /\ shape2 (nth d L []) M M
  /\ lower_triangular M (nth d L [])
  /\ (forall i, (i < M)%nat -> 0 < get3 L d i i)
  /\ forall i j, (j <= i)%nat -> (i < M)%nat ->
       Rsum M (fun k => get3 L d i k * get3 L d j k) = get3 Kj d i j.
Proof.
  intros H [Hl Hs] Hd. destruct (Hs d Hd) as [E0 _].
  split; [now rewrite (cholesky_batch_length _ _ H)|].
  apply (cholesky_matrix_correct (nth d Kj []) (nth d L []) M); [|exact E0].
  apply cholesky_batch_nth; [exact H | lia].
Qed.

Lemma solve_value_get (A B : tensor3) (upper left : bool) (Do b i j : nat) :
  dim0 A = Do -> dim0 B = Do -> (b < Do)%nat -> (i < dim1 B)%nat -> (j < dim2 B)%nat ->
  get3 (linalg.solve_triangular_value A B upper left) b i j
  = get2 (linalg.solve_matrix (nth b A []) (nth b B []) upper left) i j.
Proof.
  intros EA EB Hb Hi Hj. unfold linalg.solve_triangular_value.
  rewrite EA, EB, bdim_same. cbv zeta.
  rewrite (get3_tab Do (dim1 B) (dim2 B)
             (fun b i j => get2 (linalg.solve_matrix (nth (bidx Do b) A [])
                                   (nth (bidx Do b) B []) upper left) i j))
    by assumption.
  now rewrite (bidx_lt Do b Hb).
Qed.

(** The weights that [forward] obtains from the two triangular systems,
    times L Lᵗ, give Kfu back. *)
Lemma whitened_solves (Kj L Kfu : tensor3) (Do N M d r m : nat) :
  linalg.cholesky Kj = inr L -> slices Kj Do M M -> slices Kfu Do N M ->
  (d < Do)%nat -> (r < N)%nat -> (m < M)%nat ->
  Rsum M (fun c => get3 (whitened L Kfu) d r c
                   * Rsum M (fun k => get3 L d c k * get3 L d m k))
  = get3 Kfu d r m.
Proof.
  intros H HKj HKfu Hd Hr Hm.
  assert (HDo : (0 < Do)%nat) by lia. assert (HM : (0 < M)%nat) by lia.
  assert (HN : (0 < N)%nat) by lia.
  assert (HL : forall d', (d' < Do)%nat ->
            shape2 (nth d' L []) M M /\ lower_triangular M (nth d' L [])
            /\ forall i, (i < M)%nat -> 0 < get3 L d' i i).
  { intros d' Hd'. destruct (cholesky_batch_correct Kj L Do M d' H HKj Hd')
      as (_ & A1 & A2 & A3 & _). auto. }
  assert (HLlen : length L = Do) by (now rewrite (cholesky_batch_length _ _ H), (proj1 HKj)).
  assert (DL : dims3 L Do M M).
  { destruct (HL 0%nat HDo) as (S0 & _). destruct (shape2_dims _ _ _ S0 HM) as [E0 E1].
    unfold dims3, dim1, dim2. rewrite !hd_nth0. auto. }
  destruct DL as (L0 & L1 & L2).
  destruct (HL d Hd) as (SLd & TLd & PLd).
  destruct (shape2_dims _ _ _ SLd HM) as [Ld0 Ld1].
  destruct HKfu as [Kl Ks]. destruct (Ks d Hd) as [B0 B1].
  destruct (slices_dims3 Kfu Do N M (conj Kl Ks) HDo) as (K0 & K1 & K2).
  (* the transposed factor *)
  set (U := nth d (torch.permute_021 L) []).
  assert (EU : U = tab M (fun j => tab M (fun i => get3 L d i j))).
  { subst U. unfold torch.permute_021. rewrite L0, L1, L2. now rewrite nth_tab. }
  assert (U0 : dim0 U = M) by (rewrite EU; apply dim0_tab).
  assert (U1 : dim1 U = M).
  { rewrite EU. now apply (dim1_tab M M (fun j i => get3 L d i j)). }
  assert (Ug : forall j i, (j < M)%nat -> (i < M)%nat -> get2 U j i = get3 L d i j).
  { intros j i Hj Hi. rewrite EU. now rewrite get2_tab. }
  assert (Und : nonzero_diag M U).
  { intros i Hi. rewrite Ug by assumption. pose proof (PLd i Hi). lra. }
  assert (Utri : upper_triangular M U).
  { intros i k Hk Hi. rewrite Ug by lia. apply (TLd k i Hk Hi). }
  (* first system *)
  set (X1 := linalg.solve_matrix U (nth d Kfu []) true false).
  assert (HX1 : forall k, (k < M)%nat ->
            Rsum M (fun c => get2 X1 r c * get2 U c k) = get3 Kfu d r k).
  { intros k Hk. subst X1.
    now destruct (solve_matrix_right U (nth d Kfu []) true M N r k
                    U0 U1 B0 B1 Hr Hk Und Utri) as [_ E]. }
  set (A1 := linalg.solve_triangular_value (torch.permute_021 L) Kfu true false).
  assert (P0 : dim0 (torch.permute_021 L) = Do).
  { unfold torch.permute_021. now rewrite dim0_tab. }
  assert (A1s : slices A1 Do N M).
  { subst A1. unfold linalg.solve_triangular_value. rewrite P0, K0, K1, K2, bdim_same.
    cbv zeta.
    apply (slices_tab Do N M
             (fun b i j => get2 (linalg.solve_matrix (nth (bidx Do b) (torch.permute_021 L) [])
                                   (nth (bidx Do b) Kfu []) true false) i j)).
    exact HN. }
  destruct (slices_dims3 A1 Do N M A1s HDo) as (A10 & A11 & A12).
  assert (A1g : forall k, (k < M)%nat -> get3 A1 d r k = get2 X1 r k).
  { intros k Hk. subst A1 X1 U.
    apply (solve_value_get _ Kfu true false Do); rewrite ?K1, ?K2; assumption. }
  destruct A1s as [A1l A1d]. destruct (A1d d Hd) as [A1d0 A1d1].
  (* second system *)
  set (X2 := linalg.solve_matrix (nth d L []) (nth d A1 []) false false).
  assert (Lnd : nonzero_diag M (nth d L [])).
  { intros i Hi. pose proof (PLd i Hi). unfold get3 in H0. lra. }
  assert (HX2 : forall k, (k < M)%nat ->
            Rsum M (fun c => get2 X2 r c * get3 L d c k) = get2 X1 r k).
  { intros k Hk. subst X2.
    destruct (solve_matrix_right (nth d L []) (nth d A1 []) false M N r k
                Ld0 Ld1 A1d0 A1d1 Hr Hk Lnd TLd) as [_ E].
    unfold get3 at 1. rewrite E. fold (get3 A1 d r k). now apply A1g. }
  assert (Wg : forall c, (c < M)%nat -> get3 (whitened L Kfu) d r c = get2 X2 r c).
  { intros c Hc. unfold whitened. fold A1. subst X2.
    apply (solve_value_get L A1 false false Do); rewrite ?A11, ?A12; assumption. }
  (* the product *)
  rewrite (Rsum_ext M _ (fun c => Rsum M (fun k => get2 X2 r c * get3 L d c k
                                                   * get3 L d m k))).
  2:{ intros c Hc. rewrite Wg by exact Hc. rewrite <- Rsum_scal_l.
      apply Rsum_ext. intros k _. ring. }
  rewrite Rsum_swap.
  rewrite (Rsum_ext M _ (fun k => get2 X1 r k * get2 U k m)).
  2:{ intros k Hk. rewrite Rsum_scal_r, HX2 by exact Hk. now rewrite Ug. }
  now apply HX1.
Qed.

Lemma slices_single (t : tensor3) (b c : nat) : dims3 t 1 b c -> slices t 1 b c.
Proof.
  intros (E0 & E1 & E2). split; [exact E0|]. intros d Hd.
  assert (d = 0)%nat by lia. subst d.
  unfold dim1, dim2 in *. rewrite <- !hd_nth0. auto.
Qed.

Lemma add3_2_slices (t : tensor3) (m : tensor2) (a b c : nat) :
  dims3 t a b c -> dim0 m = b -> dim1 m = c -> (0 < b)%nat ->
  slices (torch.add3_2 t m) a b c.
Proof.
  intros (E0 & E1 & E2) M0 M1 Hb. unfold torch.add3_2.
  rewrite E0, E1, E2, M0, M1, !bdim_same.
  now apply (slices_tab a b c (fun x i j => bget3 t x i j + bget2 m i j)).
Qed.

Lemma add3_2_get (t : tensor3) (m : tensor2) (a b c d i j : nat) :
  dims3 t a b c -> dim0 m = b -> dim1 m = c ->
  (d < a)%nat -> (i < b)%nat -> (j < c)%nat ->
  get3 (torch.add3_2 t m) d i j = get3 t d i j + get2 m i j.
Proof.
  intros (E0 & E1 & E2) M0 M1 Hd Hi Hj. unfold torch.add3_2.
  rewrite E0, E1, E2, M0, M1, !bdim_same.
  rewrite (get3_tab a b c (fun x i j => bget3 t x i j + bget2 m i j)) by assumption.
  unfold bget3, bget2. rewrite E0, E1, E2, M0, M1.
  now rewrite (bidx_lt a), !(bidx_lt b), !(bidx_lt c) by assumption.
Qed.

Lemma scaled_eye_get (c : R) (M i j : nat) :
  (i < M)%nat -> (j < M)%nat ->
  get2 (torch.scale2 c (torch.eye M)) i j = if (i =? j)%nat then c else 0.
Proof.
  intros Hi Hj. unfold torch.scale2, torch.eye.
  unfold get2 at 1, get1 at 1.
  rewrite (nth_map_in _ _ _ _ []) by (rewrite tab_length; lia).
  rewrite nth_tab by lia.
  rewrite (nth_map_in _ _ _ _ 0) by (rewrite tab_length; lia).
  rewrite nth_tab by lia. destruct (i =? j)%nat; ring.
Qed.

(** The matrix handed to the factorisation: Ku with 1e-4 on the diagonal. *)
Lemma jittered_slices (Ku : tensor3) (Do M : nat) :
  dims3 Ku Do M M -> (0 < M)%nat -> slices (jittered Ku M) Do M M.
Proof.
  intros HKu HM. destruct (scaled_eye_dims (1 / 10000) M HM) as [E0 E1].
  unfold jittered. now apply add3_2_slices.
Qed.

Lemma jittered_get (Ku : tensor3) (Do M d i j : nat) :
  dims3 Ku Do M M -> (d < Do)%nat -> (i < M)%nat -> (j < M)%nat ->
  get3 (jittered Ku M) d i j
  = get3 Ku d i j + if (i =? j)%nat then 1 / 10000 else 0.
Proof.
  intros HKu Hd Hi Hj. assert (HM : (0 < M)%nat) by lia.
  destruct (scaled_eye_dims (1 / 10000) M HM) as [E0 E1].
  unfold jittered. rewrite (add3_2_get Ku _ Do M M) by assumption.
  now rewrite scaled_eye_get.
Qed.

(** The factor times its transpose gives the whole of a symmetric matrix. *)
Lemma cholesky_full_product (Kj L : tensor3) (Do M d i j : nat) :
  linalg.cholesky Kj = inr L -> slices Kj Do M M ->
  (forall a b, (a < M)%nat -> (b < M)%nat -> get3 Kj d a b = get3 Kj d b a) ->
  (d < Do)%nat -> (i < M)%nat -> (j < M)%nat ->
  Rsum M (fun k => get3 L d i k * get3 L d j k) = get3 Kj d i j.
Proof.
  intros H HK Hsym Hd Hi Hj.
  destruct (cholesky_batch_correct Kj L Do M d H HK Hd) as (_ & _ & _ & _ & HP).
  destruct (Nat.le_gt_cases j i) as [Hle|Hgt].
  - now apply HP.
  - rewrite (Hsym i j Hi Hj), <- (HP j i) by lia.
    apply Rsum_ext. intros k _. ring.
Qed.

(** The weights are Kfu times the inverse of the factorised matrix. *)
Lemma whitened_inverse (Kj L Kfu : tensor3) (Do N M d r m : nat) :
  linalg.cholesky Kj = inr L -> slices Kj Do M M -> slices Kfu Do N M ->
  (forall a b, (a < M)%nat -> (b < M)%nat -> get3 Kj d a b = get3 Kj d b a) ->
  (d < Do)%nat -> (r < N)%nat -> (m < M)%nat ->
  Rsum M (fun c => get3 (whitened L Kfu) d r c * get3 Kj d c m) = get3 Kfu d r m.
Proof.
  intros H HK HKfu Hsym Hd Hr Hm.
  rewrite <- (whitened_solves Kj L Kfu Do N M d r m H HK HKfu Hd Hr Hm).
  apply Rsum_ext. intros c Hc. f_equal. symmetry.
  now apply (cholesky_full_product Kj L Do M d c m H HK Hsym).
Qed.

(** *** The empirical kernel *)

Lemma empirical_kernel_tab (f : tensor3) (S P Do : nat) :
  dims3 f S P Do -> (0 < S)%nat -> (0 < P)%nat ->
  exists G : nat -> nat -> nat -> R,
    (forall n m d, G n m d = G m n d)
    /\ empirical_kernel f = tab P (fun n => tab P (fun m => tab Do (fun d => G n m d))).
Proof.
  intros Hf HS HP.
  destruct (features_dims f (dim0 f) S P Do Hf HS HP) as (P0 & P1 & P2).
  unfold empirical_kernel, torch.einsum_and_amd_nmd.
  rewrite P0, P1, P2, !bdim_same.
  exists (fun n m d => Rsum S (fun s => bget3 (features f (dim0 f)) s n d
                                        * bget3 (features f (dim0 f)) s m d)).
  split; [|reflexivity].
  intros n m d. apply Rsum_ext. intros s _. ring.
Qed.

Lemma permute_201_get (G : nat -> nat -> nat -> R) (a b c d i j : nat) :
  (d < c)%nat -> (i < a)%nat -> (j < b)%nat -> (0 < a)%nat -> (0 < b)%nat ->
  get3 (torch.permute_201 (tab a (fun i => tab b (fun j => tab c (fun d => G i j d)))))
       d i j = G i j d.
Proof.
  intros Hd Hi Hj Ha Hb.
  set (T := tab a (fun i => tab b (fun j => tab c (fun d => G i j d)))).
  assert (DT : dims3 T a b c) by (apply (dims3_tab a b c G); assumption).
  destruct DT as (E0 & E1 & E2).
  unfold torch.permute_201. rewrite E0, E1, E2.
  rewrite (get3_tab c a b (fun d i j => get3 T i j d)) by assumption.
  subst T. now rewrite (get3_tab a b c G).
Qed.

(** The blocks of the empirical kernel, entry by entry. *)
Lemma empirical_blocks_get (f : tensor3) (S N M Do d : nat) :
  dims3 f S (N + M) Do -> (0 < S)%nat -> (0 < N)%nat -> (0 < M)%nat -> (d < Do)%nat ->
  (forall i j, (i < M)%nat -> (j < M)%nat ->
     get3 (block_Ku (empirical_kernel f) N M) d i j
     = get3 (empirical_kernel f) (N + i) (N + j) d
       + if (i =? j)%nat then 2 / 1000000 else 0)
  /\ (forall r m, (r < N)%nat -> (m < M)%nat ->
     get3 (block_Kfu (empirical_kernel f) N) d r m
     = get3 (empirical_kernel f) r (N + m) d)
  /\ (forall i j, (i < N + M)%nat -> (j < N + M)%nat ->
     get3 (empirical_kernel f) i j d = get3 (empirical_kernel f) j i d).
Proof.
  intros Hf HS HN HM Hd.
  destruct (empirical_blocks_dims f S N M Do Hf HS HN HM ltac:(lia)) as (DKu & _ & _).
  revert DKu.
  destruct (empirical_kernel_tab f S (N + M) Do Hf HS ltac:(lia)) as (G & Gsym & EG).
  unfold block_Ku, block_Kfu. rewrite EG. intros DKu.
  assert (Huu : map (skipn N) (skipn N
                  (tab (N + M) (fun n => tab (N + M) (fun m => tab Do (fun d => G n m d)))))
                = tab M (fun i => tab M (fun j => tab Do (fun d => G (N + i) (N + j) d)%nat))).
  { rewrite skipn_tab, map_tab. apply tab_ext. intros i _. apply skipn_tab. }
  assert (Hfu : map (skipn N) (firstn N
                  (tab (N + M) (fun n => tab (N + M) (fun m => tab Do (fun d => G n m d)))))
                = tab N (fun i => tab M (fun j => tab Do (fun d => G i (N + j) d)%nat))).
  { rewrite firstn_tab, map_tab. apply tab_ext. intros i _. apply skipn_tab. }
  rewrite Huu in *. rewrite Hfu.
  destruct (scaled_eye_dims (2 / 1000000) M HM) as [EM0 EM1].
  split; [|split].
  - intros i j Hi Hj.
    assert (DP : dims3 (torch.permute_201
                  (tab M (fun i => tab M (fun j => tab Do (fun d =>
                     G (N + i) (N + j) d)%nat)))) Do M M).
    { apply permute_201_dims; [|assumption|lia].
      now apply (dims3_tab M M Do (fun i j d => G (N + i) (N + j) d)%nat). }
    rewrite (add3_2_get _ _ Do M M) by assumption.
    rewrite (permute_201_get (fun i j d => G (N + i) (N + j) d)%nat) by assumption.
    rewrite scaled_eye_get by assumption.
    now rewrite get3_tab by lia.
  - intros r m Hr Hm.
    rewrite (permute_201_get (fun i j d => G i (N + j) d)%nat) by assumption.
    now rewrite get3_tab by lia.
  - intros i j Hi Hj. rewrite !get3_tab by assumption. apply Gsym.
Qed.

(** X20: when [VIPLayerInducing.forward] returns, the factor it caches in
    [Lu] is, for every output dimension of the samples, lower triangular
    with a positive diagonal, and its product with its transpose is the
    inducing block of the empirical kernel with 2e-6 + 1e-4 added on the
    diagonal.  The weights A that the two triangular solves produce are
    Kfu times the inverse of that matrix: A (Ku + 1e-4 I) = Kfu, with Kfu
    the block of the empirical kernel between the batch and the inducing
    points. *)
Theorem VIPLayerInducing_forward_weights
    (s s' : VIPLayerInducing.t) (X : tensor2) (b : bool)
    (mean K : tensor2) (samples : option tensor3) (S Do d : nat) :
  let M := VIPLayerInducing.num_inducing s in
  let N := dim0 X in
  let fK := empirical_kernel (inducing_draw s X) in
  let Kj := jittered (block_Ku fK N M) M in
  let Kfu := block_Kfu fK N in
  VIPLayerInducing.forward s X b = (s', Ok (mean, K, samples)) ->
  dims3 (inducing_draw s X) S (N + M) Do ->
  (0 < S)%nat -> (0 < N)%nat -> (0 < M)%nat -> (d < Do)%nat ->
  (forall i j, (i < M)%nat -> (j < M)%nat ->
     get3 Kj d i j
     = get3 fK (N + i) (N + j) d
       + if (i =? j)%nat then 2 / 1000000 + 1 / 10000 else 0)
  /\ (forall r m, (r < N)%nat -> (m < M)%nat -> get3 Kfu d r m = get3 fK r (N + m) d)
  /\ exists L,
       VIPLayerInducing.Lu s' = Some L
       /\ length L = Do
       /\ shape2 (nth d L []) M M
       /\ lower_triangular M (nth d L [])
       /\ (forall i, (i < M)%nat -> 0 < get3 L d i i)
       /\ (forall i j, (i < M)%nat -> (j < M)%nat ->
             Rsum M (fun k => get3 L d i k * get3 L d j k) = get3 Kj d i j)
       /\ forall r m, (r < N)%nat -> (m < M)%nat ->
             Rsum M (fun c => get3 (whitened L Kfu) d r c * get3 Kj d c m)
             = get3 Kfu d r m.
Proof.
  intros M N fK Kj Kfu H Hf HS HN HM Hd.
  destruct (VIPLayerInducing_forward_ok s s' X b mean K samples H)
    as (L & HL & ELu & _). fold M N fK in HL. fold Kj in HL.
  destruct (empirical_blocks_dims (inducing_draw s X) S N M Do Hf HS HN HM ltac:(lia))
    as (DKu & _ & DKfu). fold fK in DKu, DKfu.
  destruct (empirical_blocks_get (inducing_draw s X) S N M Do d Hf HS HN HM Hd)
    as (GKu & GKfu & Gsym). fold fK in GKu, GKfu, Gsym.
  assert (EKj : forall i j, (i < M)%nat -> (j < M)%nat ->
            get3 Kj d i j
            = get3 fK (N + i) (N + j) d
              + if (i =? j)%nat then 2 / 1000000 + 1 / 10000 else 0).
  { intros i j Hi Hj. subst Kj.
    rewrite (jittered_get _ Do M d i j DKu Hd Hi Hj), GKu by assumption.
    destruct (i =? j)%nat; lra. }
  assert (Hsym : forall a c, (a < M)%nat -> (c < M)%nat -> get3 Kj d a c = get3 Kj d c a).
  { intros a c Ha Hc. rewrite !EKj by assumption.
    rewrite (Gsym (N + a) (N + c))%nat by lia.
    rewrite (Nat.eqb_sym a c). reflexivity. }
  pose proof (jittered_slices _ Do M DKu HM) as SKj. fold Kj in SKj.
  assert (SKfu : slices Kfu Do N M).
  { subst Kfu. unfold block_Kfu in *.
    destruct (empirical_kernel_tab (inducing_draw s X) S (N + M) Do Hf HS ltac:(lia))
      as (G & _ & EG). subst fK. rewrite EG.
    rewrite firstn_tab, map_tab.
    rewrite (tab_ext N _ (fun i => tab M (fun j => tab Do (fun d => G i (N + j) d)%nat)))
      by (intros i _; apply skipn_tab).
    set (T := tab N (fun i => tab M (fun j => tab Do (fun d => G i (N + j)%nat d)))).
    assert (DT : dims3 T N M Do)
      by (apply (dims3_tab N M Do (fun i j d => G i (N + j)%nat d)); assumption).
    destruct DT as (T0 & T1 & T2). unfold torch.permute_201. rewrite T0, T1, T2.
    now apply (slices_tab Do N M (fun d i j => get3 T i j d)). }
  split; [exact EKj|]. split; [exact GKfu|].
  destruct (cholesky_batch_correct Kj L Do M d HL SKj Hd) as (LL & SL & TL & PL & _).
  exists L. repeat (split; [assumption|]). split.
  - intros i j Hi Hj. now apply (cholesky_full_product Kj L Do M d i j HL SKj Hsym).
  - intros r m Hr Hm. now apply (whitened_inverse Kj L Kfu Do N M d r m HL SKj SKfu Hsym).
Qed.

Lemma VIPLayerInducing_forward_weights_witness :
  exists s' mean K samples L,
    VIPLayerInducing.forward crossed_layer [[0]] false = (s', Ok (mean, K, samples))
    /\ VIPLayerInducing.Lu s' = Some L
    /\ lower_triangular 2 (nth 0 L []).
Proof.
  destruct crossed_cholesky as (l1 & l2 & Hl1 & Hl2 & HL).
  destruct (crossed_forward_returns l1 l2 Hl1 Hl2 HL) as (s' & mean & K & samples & E).
  destruct (VIPLayerInducing_forward_weights crossed_layer s' [[0]] false mean K samples
              2 1 0 E) as (_ & _ & L & ELu & _ & _ & TL & _).
  - vm_compute. auto.
  - lia.
  - vm_compute; lia.
  - vm_compute; lia.
  - lia.
  - exists s', mean, K, samples, L. split; [exact E|]. split; [exact ELu | exact TL].
Defined.

(** The mean that [SparseGP.forward] returns. *)
Lemma SparseGP_forward_mean_value
    (s s' : SparseGP.t) (X : tensor2) (b : bool)
    (mean K : tensor2) (samples : option tensor3) :
  SparseGP.forward s X b = (s', Ok (mean, K, samples)) ->
  exists L,
    linalg.cholesky (jittered (gp_Ku s) (SparseGP.num_inducing s)) = inr L
    /\ SparseGP.Lu s' = Some L
    /\ mean = (let m0 := torch.einsum_dnm_md_nd (whitened L (gp_Kfu s X))
                                                (data (SparseGP.q_mu s)) in
               match SparseGP.mean_function s with
               | Some mf => torch.add2 m0 (mf X)
               | None => m0
               end).
Proof.
  intros H. unfold SparseGP.forward in H.
  cbv [call bind this assign finite_if fits ret raise lift getattr gf_call fst snd
       cholesky solve_triangular] in H.
  fold (gp_Ku s) in H.
  fold (jittered (gp_Ku s) (SparseGP.num_inducing s)) in H.
  fold (gp_Kfu s X) in H.
  split_cases H; inversion H; subst; clear H;
    (eexists; split; [reflexivity|]); (split; [reflexivity|]); reflexivity.
Qed.

(** X21: when [SparseGP.forward] returns, the factor it caches in [Lu] is a
    single lower-triangular matrix with a positive diagonal whose product
    with its transpose is the kernel matrix of the inducing points with
    2e-6 + 1e-4 added on the diagonal, and the mean it returns is
    A q_mu (plus the mean function), where the weights A are the kernel
    between the batch and the inducing points times the inverse of that
    matrix: A (K(Z, Z) + 1.02e-4 I) = K(X, Z). *)
Theorem SparseGP_forward_weights
    (s s' : SparseGP.t) (X : tensor2) (b : bool)
    (mean K : tensor2) (samples : option tensor3) (N F : nat) :
  let M := SparseGP.num_inducing s in
  let Z := data (SparseGP.inducing_points s) in
  let Kj := jittered (gp_Ku s) M in
  SparseGP.forward s X b = (s', Ok (mean, K, samples)) ->
  shape2 Z M F -> shape2 X N F -> (0 < N)%nat -> (0 < M)%nat ->
  (forall i j, (i < M)%nat -> (j < M)%nat ->
     get3 Kj 0 i j
     = get3 (SparseGP.kernel s Z None) 0 i j
       + if (i =? j)%nat then 2 / 1000000 + 1 / 10000 else 0)
  /\ exists L A,
       SparseGP.Lu s' = Some [L]
       /\ shape2 L M M
       /\ lower_triangular M L
       /\ (forall i, (i < M)%nat -> 0 < get2 L i i)
       /\ (forall i j, (i < M)%nat -> (j < M)%nat ->
             Rsum M (fun k => get2 L i k * get2 L j k) = get3 Kj 0 i j)
       /\ mean = match SparseGP.mean_function s with
                 | Some mf =>
                   torch.add2 (torch.einsum_dnm_md_nd A (data (SparseGP.q_mu s))) (mf X)
                 | None => torch.einsum_dnm_md_nd A (data (SparseGP.q_mu s))
                 end
       /\ forall r m, (r < N)%nat -> (m < M)%nat ->
             Rsum M (fun c => get3 A 0 r c * get3 Kj 0 c m)
             = get3 (SparseGP.kernel s X (Some Z)) 0 r m.
Proof.
  intros M Z Kj H HZ HX HN HM.
  destruct (SparseGP_forward_mean_value s s' X b mean K samples H)
    as (L & HL & ELu & Emean). fold M in HL. fold Kj in HL.
  assert (EN : dim0 X = N) by (destruct HX as [E _]; exact E).
  destruct (gp_blocks_dims s X) as (DKu & _ & DKfu);
    [destruct HZ as [E _]; exact E | exact HM | rewrite EN; exact HN |].
  fold M in DKu, DKfu. rewrite EN in DKfu.
  destruct (scaled_eye_dims (2 / 1000000) M HM) as [EM0 EM1].
  assert (DKzz : dims3 (SparseGP.kernel s Z None) 1 M M).
  { pose proof (kernel_dims3 s Z None) as K1. cbv beta iota in K1.
    destruct HZ as [E _]. rewrite E in K1. apply K1; exact HM. }
  assert (EKj : forall i j, (i < M)%nat -> (j < M)%nat ->
            get3 Kj 0 i j
            = get3 (SparseGP.kernel s Z None) 0 i j
              + if (i =? j)%nat then 2 / 1000000 + 1 / 10000 else 0).
  { intros i j Hi Hj. subst Kj.
    rewrite (jittered_get _ 1 M 0 i j DKu ltac:(lia) Hi Hj).
    unfold gp_Ku. fold Z. fold M.
    rewrite (add3_2_get _ _ 1 M M) by (assumption || lia).
    rewrite scaled_eye_get by assumption.
    destruct (i =? j)%nat; lra. }
  assert (Hsym : forall a c, (a < M)%nat -> (c < M)%nat -> get3 Kj 0 a c = get3 Kj 0 c a).
  { intros a c Ha Hc. rewrite !EKj by assumption.
    rewrite !(kernel_entry s Z None M M F) by assumption.
    rewrite (Nat.eqb_sym a c). f_equal. do 3 f_equal.
    unfold scaled_sqdist. apply Rsum_ext. intros k _. ring. }
  pose proof (jittered_slices _ 1 M DKu HM) as SKj. fold Kj in SKj.
  pose proof (slices_single _ N M DKfu) as SKfu.
  split; [exact EKj|].
  destruct (cholesky_batch_correct Kj L 1 M 0 HL SKj ltac:(lia))
    as (LL & SL & TL & PL & _).
  destruct L as [|L0 [|L1 L]]; try discriminate LL.
  exists L0, (whitened [L0] (gp_Kfu s X)).
  split; [exact ELu|]. split; [exact SL|]. split; [exact TL|]. split; [exact PL|].
  split; [|split].
  - intros i j Hi Hj.
    apply (cholesky_full_product Kj [L0] 1 M 0 i j HL SKj Hsym); (assumption || lia).
  - exact Emean.
  - intros r m Hr Hm.
    apply (whitened_inverse Kj [L0] (gp_Kfu s X) 1 N M 0 r m HL SKj SKfu Hsym);
      (assumption || lia).
Qed.

Lemma SparseGP_forward_weights_witness :
  exists L,
    SparseGP.Lu (fst (SparseGP.forward
                        (SparseGP.init (constant_samples []) [[0]] 1 1 false None 1 0 None)
                        [[0]] false))
    = Some [L]
    /\ 0 < get2 L 0 0.
Proof.
  destruct (SparseGP_unit_forward false) as (l & mean & K & Hl & E).
  cbv zeta in E.
  destruct (SparseGP_forward_weights _ _ [[0]] false mean K None 1 1 E)
    as (_ & L & A & ELu & _ & _ & PL & _).
  - split; [reflexivity | repeat constructor].
  - split; [reflexivity | repeat constructor].
  - lia.
  - vm_compute; lia.
  - exists L. rewrite E. split; [exact ELu | apply PL; vm_compute; lia].
Defined.

(** ** [KL] of the inducing layers after a [forward] *)

Lemma sum3_snoc (t : tensor3) (m : tensor2) :
  torch.sum3 (t ++ [m]) = torch.sum3 t + torch.sum2 m.
Proof.
  induction t as [|x t IH]; simpl.
  - unfold torch.sum3. simpl. lra.
  - unfold torch.sum3 in *. simpl. rewrite IH. lra.
Qed.

Lemma sum3_tab (a b c : nat) (F : nat -> nat -> nat -> R) :
  torch.sum3 (tab a (fun x => tab b (fun i => tab c (fun j => F x i j))))
  = Rsum a (fun x => Rsum b (fun i => Rsum c (fun j => F x i j))).
Proof.
  induction a as [|a IH]; [reflexivity|].
  rewrite tab_S, sum3_snoc, IH. simpl. f_equal.
  rewrite (sum2_Rsum _ b c) by (apply (shape2_tab b c (F a))).
  apply Rsum_ext. intros i Hi. apply Rsum_ext. intros j Hj.
  now rewrite get2_tab.
Qed.

Lemma nonzero_diagonal_single (L : tensor2) (M : nat) :
  dim0 L = M -> (forall i, (i < M)%nat -> get2 L i i <> 0) ->
  linalg.nonzero_diagonal [L] = true.
Proof.
  intros E H. unfold linalg.nonzero_diagonal. simpl. rewrite andb_true_r.
  apply forallb_forall. intros i Hi. apply in_seq in Hi.
  rewrite is_zero_false; [reflexivity|]. apply H. lia.
Qed.

(** Each row block of the dense factor is a matrix with a row per inducing
    point and a column per output dimension. *)
Lemma unpack_slices (K D : nat) (packed : tensor12) :
  shape2 packed (tri K) D -> slices (unpack K D packed) K K D.
Proof.
  intros Hs. split; [apply (unpack_dims K D packed 0)|].
  intros r Hr. destruct (unpack_dims K D packed r) as [_ E].
  split; [now apply E|].
  unfold dim1. rewrite hd_nth0. rewrite (unpack_rows K D packed Hs).
  rewrite (index_put_in _ _ _ (tri r + 0)%nat).
  - apply (shape2_row packed (tri K) D); [exact Hs|].
    apply tri_index_bound; lia.
  - apply tril_indices_NoDup.
  - intros [r' c'] Hp. apply tril_indices_In in Hp. simpl.
    unfold torch.zeros3. rewrite tab_length, nth_tab, tab_length by lia. lia.
  - rewrite tril_indices_length. apply tri_index_bound; lia.
  - destruct Hs as [Hl _]. rewrite Hl. apply tri_index_bound; lia.
  - apply tril_indices_nth; lia.
Qed.

Lemma inducing_KL_value (s : VIPLayerInducing.t) (L : tensor2) (q : tensor3) :
  let M := VIPLayerInducing.num_inducing s in
  let D := VIPLayerInducing.output_dim s in
  let packed := data (VIPLayerInducing.q_sqrt_tri s) in
  let mu := data (VIPLayerInducing.q_mu s) in
  VIPLayerInducing.Lu s = Some [L] -> VIPLayerInducing.q_sqrt s = Some q ->
  shape2 L M M -> lower_triangular M L -> (forall i, (i < M)%nat -> 0 < get2 L i i) ->
  slices q M M D -> shape2 packed (tri M) D -> shape2 mu M D ->
  (0 < M)%nat -> (0 < D)%nat -> M <> 1%nat \/ D = 1%nat ->
  (forall j d, (j < M)%nat -> (d < D)%nat -> get2 packed (tri (j + 1) - 1) d <> 0) ->
  exists W V,
    (forall b m d, (b < M)%nat -> (m < M)%nat -> (d < D)%nat ->
       Rsum M (fun k => get2 L m k * get3 W b k d) = get3 q b m d)
    /\ (forall m d, (m < M)%nat -> (d < D)%nat ->
       Rsum M (fun k => get2 L m k * get2 V k d) = get2 mu m d)
    /\ VIPLayerInducing.KL s
       = (s, Ok (inducing_KL_formula M D packed L mu V W
                   (if VIPLayerInducing.add_prior_regularization s
                    then gf_KL (VIPLayerInducing.generative_function s) else 0))).
Proof.
  intros M D packed mu HLu Hq SL TL PL Sq Hp Hmu HM HD Hrank Hnz.
  destruct (shape2_dims L M M SL HM) as [L0 L1].
  assert (DL : dims3 [L] 1 M M) by (repeat split; assumption).
  destruct DL as (DL0 & DL1 & DL2).
  destruct (slices_dims3 q M M D Sq HM) as (Q0 & Q1 & Q2).
  destruct (shape2_dims mu M D Hmu HM) as [Mu0 Mu1].
  assert (Dmu : dims3 [mu] 1 M D) by (repeat split; assumption).
  destruct Dmu as (DM0 & DM1 & DM2).
  set (W := linalg.solve_triangular_value [L] q false true).
  set (V := linalg.forward_subst L mu).
  exists W, V.
  assert (HW : forall b m d, (b < M)%nat -> (m < M)%nat -> (d < D)%nat ->
            get3 W b m d = get2 (linalg.forward_subst L (nth b q [])) m d).
  { intros b m d Hb Hm Hd. subst W. unfold linalg.solve_triangular_value.
    rewrite DL0, Q0, Q1, Q2. replace (bdim 1 M) with M by reflexivity. cbv zeta.
    rewrite (get3_tab M M D
               (fun b i j => get2 (linalg.solve_matrix (nth (bidx 1 b) [L] [])
                                     (nth (bidx M b) q []) false true) i j))
      by assumption.
    now rewrite (bidx_lt M b Hb). }
  split; [|split].
  - intros b m d Hb Hm Hd.
    rewrite (Rsum_ext M _ (fun k => get2 L m k
                                    * get2 (linalg.forward_subst L (nth b q [])) k d))
      by (intros k Hk; now rewrite HW).
    destruct Sq as [_ Sq]. destruct (Sq b Hb) as [B0 B1].
    rewrite <- L0 at 1. apply forward_subst_solves.
    + now rewrite L0.
    + now rewrite B1.
    + pose proof (PL m Hm). lra.
    + intros k Hk. rewrite L0 in Hk. apply TL; lia.
  - intros m d Hm Hd. subst V.
    rewrite <- L0 at 1. apply forward_subst_solves.
    + now rewrite L0.
    + now rewrite Mu1.
    + pose proof (PL m Hm). lra.
    + intros k Hk. rewrite L0 in Hk. apply TL; lia.
  - unfold VIPLayerInducing.KL. run_method.
    rewrite diag_indexes_tab. fold M D packed mu.
    rewrite (diag_rows_gather packed M D Hp Hrank).
    rewrite HLu, Hq.
    destruct (solve_fits_cached M [L] q mu DL0 DL1 DL2 Q1 Mu0) as [F1 F2].
    rewrite F1, F2.
    pose proof (diag_rows_shape M D packed Hp) as Hrows.
    assert (Hget : forall j d, (j < M)%nat -> (d < D)%nat ->
              get2 (tab M (fun j => nth (tri (Datatypes.S j) - 1) packed [])) j d
              = get2 packed (tri (j + 1) - 1) d).
    { intros j d Hj Hd. unfold get2. rewrite nth_tab by exact Hj.
      now rewrite Nat.add_1_r. }
    rewrite (all_pos2_abs _ M D Hrows)
      by (intros j d Hj Hd; rewrite Hget by assumption; now apply Hnz).
    assert (EdL : torch.diagonal12 [L] = tab 1 (fun _ => tab M (fun i => get2 L i i))).
    { unfold torch.diagonal12. rewrite DL0, DL1, DL2, Nat.min_id. reflexivity. }
    rewrite EdL.
    rewrite (all_pos2_abs _ 1 M (shape2_tab 1 M (fun _ i => get2 L i i))).
    2:{ intros i j Hi Hj. rewrite get2_tab by assumption. pose proof (PL j Hj). lra. }
    rewrite (nonzero_diagonal_single L M L0)
      by (intros i Hi; pose proof (PL i Hi); lra).
    cbn [negb orb]. fold W.
    assert (E1 : torch.sum2 (torch.log2 (torch.abs2
                   (tab M (fun j => nth (tri (Datatypes.S j) - 1) packed []))))
                 = Rsum M (fun j => Rsum D (fun d =>
                     ln (Rabs (get2 packed (tri (j + 1) - 1) d))))).
    { unfold torch.log2, torch.abs2.
      rewrite (sum2_Rsum _ M D) by (now apply shape2_map2, shape2_map2).
      apply Rsum_ext. intros j Hj. apply Rsum_ext. intros d Hd.
      rewrite (get2_map2 ln _ M D) by (try apply shape2_map2; assumption).
      rewrite (get2_map2 Rabs _ M D) by assumption.
      now rewrite Hget. }
    assert (E2 : torch.sum2 (torch.log2 (torch.abs2
                   (tab 1 (fun _ => tab M (fun i => get2 L i i)))))
                 = Rsum M (fun i => ln (get2 L i i))).
    { pose proof (shape2_tab 1 M (fun _ i => get2 L i i)) as Sd.
      unfold torch.log2, torch.abs2.
      rewrite (sum2_Rsum _ 1 M) by (now apply shape2_map2, shape2_map2).
      simpl Rsum at 1. rewrite Rplus_0_l.
      apply Rsum_ext. intros i Hi.
      unfold get2, get1. simpl nth at 2.
      rewrite (nth_map_in _ _ _ _ 0) by (now rewrite length_map, tab_length).
      rewrite (nth_map_in _ _ _ _ 0) by (now rewrite tab_length).
      rewrite nth_tab by exact Hi. fold (get1 (nth i L []) i). fold (get2 L i i).
      rewrite Rabs_right; [reflexivity|]. pose proof (PL i Hi). lra. }
    assert (E3 : torch.sum3 (torch.square3 W)
                 = Rsum M (fun b => Rsum M (fun k => Rsum D (fun d =>
                     get3 W b k d * get3 W b k d)))).
    { set (G := fun b i j => get2 (linalg.solve_matrix (nth (bidx 1 b) [L] [])
                                     (nth (bidx M b) q []) false true) i j).
      assert (EW : W = tab M (fun b => tab M (fun i => tab D (fun j => G b i j)))).
      { subst W. unfold linalg.solve_triangular_value.
        rewrite DL0, Q0, Q1, Q2. reflexivity. }
      rewrite EW. unfold torch.square3, torch.square2.
      rewrite map_tab.
      rewrite (tab_ext M _ (fun b => tab M (fun i => tab D (fun j => G b i j * G b i j)))).
      2:{ intros b _. rewrite map_tab. apply tab_ext. intros i _. now rewrite map_tab. }
      rewrite (sum3_tab M M D (fun b i j => G b i j * G b i j)).
      apply Rsum_ext. intros b Hb. apply Rsum_ext. intros k Hk.
      apply Rsum_ext. intros d Hd. now rewrite (get3_tab M M D G). }
    assert (E4 : torch.sum3 (torch.mul3 [mu]
                   (linalg.solve_triangular_value [L] [mu] false true))
                 = Rsum M (fun k => Rsum D (fun d => get2 mu k d * get2 V k d))).
    { set (G := fun (b : nat) i j => get2 (linalg.forward_subst L mu) i j).
      assert (EK : linalg.solve_triangular_value [L] [mu] false true
                   = tab 1 (fun b => tab M (fun i => tab D (fun j => G b i j)))).
      { unfold linalg.solve_triangular_value. rewrite DL0, DM0, DM1, DM2. reflexivity. }
      rewrite EK.
      assert (DK : dims3 (tab 1 (fun b => tab M (fun i => tab D (fun j => G b i j)))) 1 M D)
        by (apply (dims3_tab 1 M D G); lia).
      unfold torch.mul3. destruct DK as (K0 & K1 & K2).
      rewrite DM0, DM1, DM2, K0, K1, K2, !bdim_same.
      set (T := tab 1 (fun b => tab M (fun i => tab D (fun j => G b i j)))) in *.
      rewrite (sum3_tab 1 M D (fun s n d => bget3 [mu] s n d * bget3 T s n d)).
      simpl Rsum at 1. rewrite Rplus_0_l.
      apply Rsum_ext. intros k Hk. apply Rsum_ext. intros d Hd.
      rewrite (bget3_dims [mu] 1 M D) by (repeat split; assumption).
      rewrite (bget3_dims T 1 M D) by (repeat split; assumption).
      replace (bidx 1 0) with 0%nat by reflexivity.
      subst T. rewrite (get3_tab 1 M D G) by (try assumption; lia). reflexivity. }
    rewrite E1, E2, E3, E4. unfold inducing_KL_formula.
    destruct (VIPLayerInducing.add_prior_regularization s).
    + reflexivity.
    + f_equal. f_equal. lra.
Qed.

(** X22: after a [VIPLayerInducing.forward] that returned on samples with a
    single output, on a layer with two or more inducing points whose
    variational factor has no zero on its diagonal, [KL()] returns a number
    and leaves the instance as it is.
    The number is
    -1/2 D M - sum log |diag q_sqrt| + sum log diag Lu + 1/2 sum W^2
    + 1/2 sum q_mu * V, plus [generative_function.KL()] exactly when
    [add_prior_regularization] is set, where W and V solve the triangular
    systems Lu W[b] = q_sqrt[b, :, :] (one system for each row index b of
    the dense factor) and Lu V = q_mu. *)
Theorem VIPLayerInducing_KL_after_forward
    (s s' : VIPLayerInducing.t) (X : tensor2) (b : bool)
    (mean K : tensor2) (samples : option tensor3) (S : nat) :
  let M := VIPLayerInducing.num_inducing s in
  let D := VIPLayerInducing.output_dim s in
  let packed := data (VIPLayerInducing.q_sqrt_tri s) in
  let mu := data (VIPLayerInducing.q_mu s) in
  let q := unpack M D packed in
  VIPLayerInducing.forward s X b = (s', Ok (mean, K, samples)) ->
  dims3 (inducing_draw s X) S (dim0 X + M) 1 ->
  (0 < S)%nat -> (0 < dim0 X)%nat -> (2 <= M)%nat -> (0 < D)%nat ->
  shape2 packed (tri M) D -> shape2 mu M D ->
  (forall j d, (j < M)%nat -> (d < D)%nat -> get2 packed (tri (j + 1) - 1) d <> 0) ->
  exists L W V,
    VIPLayerInducing.Lu s' = Some [L]
    /\ (forall r m d, (r < M)%nat -> (m < M)%nat -> (d < D)%nat ->
          Rsum M (fun k => get2 L m k * get3 W r k d) = get3 q r m d)
    /\ (forall m d, (m < M)%nat -> (d < D)%nat ->
          Rsum M (fun k => get2 L m k * get2 V k d) = get2 mu m d)
    /\ VIPLayerInducing.KL s'
       = (s', Ok (inducing_KL_formula M D packed L mu V W
                    (if VIPLayerInducing.add_prior_regularization s
                     then gf_KL (VIPLayerInducing.generative_function s) else 0))).
Proof.
  intros M D packed mu q H Hf HS HN HM2 HD Hp Hmu Hnz.
  assert (HM : (0 < M)%nat) by lia.
  assert (Hrank : M <> 1%nat \/ D = 1%nat) by (left; lia).
  destruct (VIPLayerInducing_forward_value s s' X b mean K samples H)
    as (L & HL & Es & _). fold M D packed q in HL, Es.
  destruct (empirical_blocks_dims (inducing_draw s X) S (dim0 X) M 1 Hf HS HN HM ltac:(lia))
    as (DKu & _ & _).
  pose proof (jittered_slices _ 1 M DKu HM) as SKj.
  destruct (cholesky_batch_correct _ L 1 M 0 HL SKj ltac:(lia))
    as (LL & SL & TL & PL & _).
  destruct L as [|L0 [|L1 L]]; try discriminate LL.
  change (nth 0 [L0] []) with L0 in SL, TL.
  change (forall i, (i < M)%nat -> 0 < get2 L0 i i) in PL.
  pose proof (inducing_KL_value s' L0 q) as G. cbv zeta in G.
  assert (E1 : VIPLayerInducing.num_inducing s' = M) by (rewrite Es; reflexivity).
  assert (E2 : VIPLayerInducing.output_dim s' = D) by (rewrite Es; reflexivity).
  assert (E3 : data (VIPLayerInducing.q_sqrt_tri s') = packed) by (rewrite Es; reflexivity).
  assert (E4 : data (VIPLayerInducing.q_mu s') = mu) by (rewrite Es; reflexivity).
  assert (E5 : VIPLayerInducing.add_prior_regularization s'
               = VIPLayerInducing.add_prior_regularization s) by (rewrite Es; reflexivity).
  assert (E6 : gf_KL (VIPLayerInducing.generative_function s')
               = gf_KL (VIPLayerInducing.generative_function s)) by (rewrite Es; reflexivity).
  rewrite E1, E2, E3, E4, E5, E6 in G.
  destruct G as (W & V & GW & GV & GK); try assumption.
  - rewrite Es. reflexivity.
  - rewrite Es. reflexivity.
  - now apply unpack_slices.
  - exists L0, W, V. split; [rewrite Es; reflexivity|]. auto.
Qed.

Lemma VIPLayerInducing_KL_after_forward_witness :
  exists s' mean K samples v,
    VIPLayerInducing.forward crossed_layer [[0]] false = (s', Ok (mean, K, samples))
    /\ VIPLayerInducing.KL s' = (s', Ok v).
Proof.
  destruct crossed_cholesky as (l1 & l2 & Hl1 & Hl2 & HL).
  destruct (crossed_forward_returns l1 l2 Hl1 Hl2 HL) as (s' & mean & K & samples & E).
  destruct (VIPLayerInducing_KL_after_forward crossed_layer s' [[0]] false mean K samples
              2 E) as (L & W & V & _ & _ & _ & EK).
  - vm_compute. auto.
  - lia.
  - vm_compute; lia.
  - vm_compute; lia.
  - vm_compute; lia.
  - split; [reflexivity | repeat constructor].
  - split; [reflexivity | repeat constructor].
  - intros j d Hj Hd.
    assert (Hj' : (j < 2)%nat) by exact Hj. assert (Hd' : (d < 1)%nat) by exact Hd.
    destruct j as [|[|j]]; destruct d as [|d]; try lia;
      unfold get2, get1; simpl; lra.
  - exists s', mean, K, samples. eexists. split; [exact E | exact EK].
Defined.

(** X23: the same for [SparseGP] with [add_prior_regularization] off:
    after a [forward] that returned, on an instance with two or more
    inducing points whose variational factor has no zero on its diagonal,
    [KL()] returns
    -1/2 D M - sum log |diag q_sqrt| + sum log diag Lu + 1/2 sum W^2
    + 1/2 sum q_mu * V, with Lu W[b] = q_sqrt[b, :, :] and Lu V = q_mu. *)
Theorem SparseGP_KL_after_forward
    (s s' : SparseGP.t) (X : tensor2) (b : bool)
    (mean K : tensor2) (samples : option tensor3) :
  let M := SparseGP.num_inducing s in
  let D := SparseGP.output_dim s in
  let packed := data (SparseGP.q_sqrt_tri s) in
  let mu := data (SparseGP.q_mu s) in
  let q := unpack M D packed in
  SparseGP.forward s X b = (s', Ok (mean, K, samples)) ->
  SparseGP.add_prior_regularization s = false ->
  length (data (SparseGP.inducing_points s)) = M ->
  (0 < dim0 X)%nat -> (2 <= M)%nat -> (0 < D)%nat ->
  shape2 packed (tri M) D -> shape2 mu M D ->
  (forall j d, (j < M)%nat -> (d < D)%nat -> get2 packed (tri (j + 1) - 1) d <> 0) ->
  exists L W V,
    SparseGP.Lu s' = Some [L]
    /\ (forall r m d, (r < M)%nat -> (m < M)%nat -> (d < D)%nat ->
          Rsum M (fun k => get2 L m k * get3 W r k d) = get3 q r m d)
    /\ (forall m d, (m < M)%nat -> (d < D)%nat ->
          Rsum M (fun k => get2 L m k * get2 V k d) = get2 mu m d)
    /\ snd (SparseGP.KL s') = Ok (inducing_KL_formula M D packed L mu V W 0).
Proof.
  intros M D packed mu q H Hflag HZ HN HM2 HD Hp Hmu Hnz.
  assert (HM : (0 < M)%nat) by lia.
  assert (Hrank : M <> 1%nat \/ D = 1%nat) by (left; lia).
  destruct (SparseGP_forward_state s s' X b (mean, K, samples) H) as (L & HL & Es).
  fold M D packed q in HL, Es.
  destruct (gp_blocks_dims s X HZ HM HN) as (DKu & _ & _). fold M in DKu.
  pose proof (jittered_slices _ 1 M DKu HM) as SKj.
  destruct (cholesky_batch_correct _ L 1 M 0 HL SKj ltac:(lia))
    as (LL & SL & TL & PL & _).
  destruct L as [|L0 [|L1 L]]; try discriminate LL.
  change (nth 0 [L0] []) with L0 in SL, TL.
  change (forall i, (i < M)%nat -> 0 < get2 L0 i i) in PL.
  assert (Hflag' : SparseGP.add_prior_regularization s' = false)
    by (rewrite Es; exact Hflag).
  rewrite (KL_agree_without_prior s' (constant_samples []) Hflag').
  pose proof (inducing_KL_value (as_inducing s' (constant_samples [])) L0 q) as G.
  cbv zeta in G.
  assert (E1 : VIPLayerInducing.num_inducing (as_inducing s' (constant_samples [])) = M)
    by (rewrite Es; reflexivity).
  assert (E2 : VIPLayerInducing.output_dim (as_inducing s' (constant_samples [])) = D)
    by (rewrite Es; reflexivity).
  assert (E3 : data (VIPLayerInducing.q_sqrt_tri (as_inducing s' (constant_samples [])))
               = packed) by (rewrite Es; reflexivity).
  assert (E4 : data (VIPLayerInducing.q_mu (as_inducing s' (constant_samples []))) = mu)
    by (rewrite Es; reflexivity).
  assert (E5 : VIPLayerInducing.add_prior_regularization
                 (as_inducing s' (constant_samples [])) = false)
    by (rewrite Es; exact Hflag).
  rewrite E1, E2, E3, E4, E5 in G.
  destruct G as (W & V & GW & GV & GK); try assumption.
  - rewrite Es. reflexivity.
  - rewrite Es. reflexivity.
  - now apply unpack_slices.
  - exists L0, W, V. split; [rewrite Es; reflexivity|].
    split; [exact GW|]. split; [exact GV|]. now rewrite GK.
Qed.

(** Two inducing points at 0, one data point at 0, unit amplitude and
    lengthscale: [forward] returns. *)
Lemma SparseGP_pair_forward :
  let built := SparseGP.init (constant_samples []) [[0]; [0]] 1 1 false None 1 0 None in
  exists s' mean K,
    SparseGP.forward built [[0]] false = (s', Ok (mean, K, None)).
Proof.
  intros built. subst built. crunch.
  set (a := exp 0 * exp (- (0 + (0 / exp 0 - 0 / exp 0) * (0 / exp 0 - 0 / exp 0)))).
  assert (Ha : 0 < a).
  { subst a. apply Rmult_lt_0_compat; apply exp_pos. }
  clearbody a.
  set (k := a + 2 / 1000000 * 1 + 1 / 10000 * 1 - 0).
  assert (Hk : k = a + 2 / 1000000 * 1 + 1 / 10000 * 1) by (subst k; lra).
  clearbody k.
  destruct (Rlt_dec 0 k) as [_|Hn]; [|exfalso; lra]. crunch.
  set (l := sqrt k). assert (Hl : 0 < l) by (apply sqrt_lt_R0; lra).
  assert (Hll : l * l = k) by (apply sqrt_sqrt; lra).
  clearbody l.
  set (c := (a + 2 / 1000000 * 0 + 1 / 10000 * 0 - 0) / l).
  assert (Hc : c * c * k = a * a) by (subst c; rewrite <- Hll; field; lra).
  assert (Hc0 : 0 < c).
  { subst c. apply Rdiv_lt_0_compat; lra. }
  clearbody c.
  set (k2 := a + 2 / 1000000 * 1 + 1 / 10000 * 1 - (0 + c * c)).
  assert (Hk2 : 0 < k2).
  { assert (E : k2 * k = k * k - a * a) by (subst k2; nra).
    assert (0 < k * k - a * a) by nra.
    assert (0 < k) by lra. nra. }
  clearbody k2.
  destruct (Rlt_dec 0 k2) as [_|Hn]; [|exfalso; lra]. crunch.
  set (l2 := sqrt k2). assert (Hl2 : 0 < l2) by (apply sqrt_lt_R0; lra).
  clearbody l2.
  destruct (Req_dec_T l 0) as [E|_]; [exfalso; lra|].
  destruct (Req_dec_T l2 0) as [E|_]; [exfalso; lra|]. crunch.
  do 3 eexists. reflexivity.
Qed.

Lemma SparseGP_KL_after_forward_witness :
  exists s' mean K v,
    SparseGP.forward
      (SparseGP.init (constant_samples []) [[0]; [0]] 1 1 false None 1 0 None)
      [[0]] false = (s', Ok (mean, K, None))
    /\ snd (SparseGP.KL s') = Ok v.
Proof.
  destruct SparseGP_pair_forward as (s' & mean & K & E).
  cbv zeta in E.
  destruct (SparseGP_KL_after_forward _ s' [[0]] false mean K None E)
    as (L & W & V & _ & _ & _ & EK).
  - reflexivity.
  - reflexivity.
  - vm_compute; lia.
  - vm_compute; lia.
  - vm_compute; lia.
  - split; [reflexivity | repeat constructor].
  - split; [reflexivity | repeat constructor].
  - intros j d Hj Hd.
    assert (Hj' : (j < 2)%nat) by exact Hj. assert (Hd' : (d < 1)%nat) by exact Hd.
    destruct j as [|[|j]]; destruct d as [|d]; try lia;
      unfold get2, get1; simpl; lra.
  - exists s', mean, K. eexists. split; [exact E | exact EK].
Defined.


